(** * QR recognition service: a shallow embedding of [QRService] (src/App.tsx)

  The development follows the service bottom-up: JavaScript strings and
  the regular expressions of the payload classifier, the pixel
  transforms over [Uint8ClampedArray]s that live in a store, the
  single-region strategy cascade, the deduplicating orchestrator and
  the two timed entry points. *)

From Stdlib Require Import ZArith QArith Qround Qminmax Qabs Ascii String.
From Stdlib Require DecimalString.
From stdpp Require Import base tactics option list numbers strings gmap.

Set Default Proof Using "Type".
Local Open Scope Z_scope.

(** ** JavaScript strings

  A JavaScript string is a sequence of UTF-16 code units; [length],
  [substring] and the (non-unicode) regular expressions of the source
  all count and match code units. *)
Module JSString.

Abbreviation jsstring := (list N).

(** Source literals are written as they appear in the source file
    (UTF-8) and converted to code units. *)
Fixpoint utf16_of_utf8 (bs : list N) : jsstring :=
  match bs with
  | [] => []
  | b0 :: t0 =>
    if (b0 <? 128)%N then b0 :: utf16_of_utf8 t0
    else if (b0 <? 224)%N then
      match t0 with
      | b1 :: t1 => ((b0 - 192) * 64 + (b1 - 128))%N :: utf16_of_utf8 t1
      | _ => [65533%N]
      end
    else if (b0 <? 240)%N then
      match t0 with
      | b1 :: b2 :: t2 =>
        ((b0 - 224) * 4096 + (b1 - 128) * 64 + (b2 - 128))%N :: utf16_of_utf8 t2
      | _ => [65533%N]
      end
    else
      match t0 with
      | b1 :: b2 :: b3 :: t3 =>
        let cp := ((b0 - 240) * 262144 + (b1 - 128) * 4096
                   + (b2 - 128) * 64 + (b3 - 128) - 65536)%N in
        (55296 + cp / 1024)%N :: (56320 + cp mod 1024)%N :: utf16_of_utf8 t3
      | _ => [65533%N]
      end
  end.

Definition js (s : string) : jsstring :=
  utf16_of_utf8 (map N_of_ascii (list_ascii_of_string s)).

(** [s.substring(0, n)] *)
Definition substring0 (n : nat) (s : jsstring) : jsstring := take n s.

(** [!s]: the empty string is the only falsy string. *)
Definition falsy (s : jsstring) : bool :=
  match s with [] => true | _ => false end.

Fixpoint starts_with (p s : jsstring) : bool :=
  match p, s with
  | [], _ => true
  | a :: p', b :: s' => (a =? b)%N && starts_with p' s'
  | _ :: _, [] => false
  end.

(** [s.includes(p)] *)
Fixpoint includes (s p : jsstring) : bool :=
  starts_with p s ||
  match s with
  | [] => false
  | _ :: s' => includes s' p
  end.

Definition eqb (a b : jsstring) : bool := bool_decide (a = b).

End JSString.
Import JSString.

(** ** Regular expressions

  The classifier only uses [RegExp.prototype.test] with patterns that
  start with [^]; matching is decided with Brzozowski derivatives. *)
Module Regex.

Inductive regex : Type :=
| Fail
| Eps
| Cls (p : N -> bool)
| Cat (r1 r2 : regex)
| Alt (r1 r2 : regex)
| Star (r : regex).

Fixpoint nullable (r : regex) : bool :=
  match r with
  | Fail => false
  | Eps => true
  | Cls _ => false
  | Cat r1 r2 => nullable r1 && nullable r2
  | Alt r1 r2 => nullable r1 || nullable r2
  | Star _ => true
  end.

Definition cat (r1 r2 : regex) : regex :=
  match r1, r2 with
  | Fail, _ => Fail
  | _, Fail => Fail
  | Eps, _ => r2
  | _, _ => Cat r1 r2
  end.

Definition alt (r1 r2 : regex) : regex :=
  match r1, r2 with
  | Fail, _ => r2
  | _, Fail => r1
  | _, _ => Alt r1 r2
  end.

Fixpoint deriv (c : N) (r : regex) : regex :=
  match r with
  | Fail => Fail
  | Eps => Fail
  | Cls p => if p c then Eps else Fail
  | Cat r1 r2 =>
    if nullable r1 then alt (cat (deriv c r1) r2) (deriv c r2)
    else cat (deriv c r1) r2
  | Alt r1 r2 => alt (deriv c r1) (deriv c r2)
  | Star r1 => cat (deriv c r1) (Star r1)
  end.

(** [/^r/.test(s)]: some prefix of [s] matches [r]. *)
Fixpoint test_prefix (r : regex) (s : jsstring) : bool :=
  nullable r ||
  match s with
  | [] => false
  | c :: s' => test_prefix (deriv c r) s'
  end.

(** [/^r$/.test(s)]: the whole of [s] matches [r]. *)
Fixpoint test_whole (r : regex) (s : jsstring) : bool :=
  match s with
  | [] => nullable r
  | c :: s' => test_whole (deriv c r) s'
  end.

(** Pattern syntax. *)
Definition chr (a : ascii) : regex := Cls (N.eqb (N_of_ascii a)).
Definition lit (s : string) : regex :=
  foldr (fun a r => Cat (chr a) r) Eps (list_ascii_of_string s).
Definition plus (r : regex) : regex := Cat r (Star r).
Definition opt (r : regex) : regex := Alt r Eps.
(** [r{n,}] *)
Fixpoint at_least (n : nat) (r : regex) : regex :=
  match n with
  | O => Star r
  | S n' => Cat r (at_least n' r)
  end.

(** [.]: any code unit except the line terminators LF, CR, LS, PS. *)
Definition dot (c : N) : bool :=
  negb ((c =? 10) || (c =? 13) || (c =? 8232) || (c =? 8233))%N.

(** [\s]: ECMAScript white space and line terminators. *)
Definition white_space (c : N) : bool :=
  ((9 <=? c) && (c <=? 13) || (c =? 32) || (c =? 160) || (c =? 5760)
   || (8192 <=? c) && (c <=? 8202) || (c =? 8232) || (c =? 8233)
   || (c =? 8239) || (c =? 8287) || (c =? 12288) || (c =? 65279))%N.

Definition digit (c : N) : bool := ((48 <=? c) && (c <=? 57))%N.

(** [[^@]] *)
Definition not_at (c : N) : bool := negb (c =? 64)%N.

(** [[0-9\-\s()]] *)
Definition phone_char (c : N) : bool :=
  (digit c || (c =? 45) || white_space c || (c =? 40) || (c =? 41))%N.

End Regex.
Import Regex.

(** ** Payload classifier *)
Module Classifier.

(** [/^https?:\/\/.+/] *)
Definition re_url : regex :=
  Cat (lit "http") (Cat (opt (chr "s")) (Cat (lit "://") (plus (Cls dot)))).

(** [/^mailto:.+@.+\..+/] *)
Definition re_mailto : regex :=
  Cat (lit "mailto:")
    (Cat (plus (Cls dot)) (Cat (chr "@")
      (Cat (plus (Cls dot)) (Cat (chr ".") (plus (Cls dot)))))).

(** [/^[^@]+@[^@]+\.[^@]+$/] *)
Definition re_bare_email : regex :=
  Cat (plus (Cls not_at)) (Cat (chr "@")
    (Cat (plus (Cls not_at)) (Cat (chr ".") (plus (Cls not_at))))).

(** [/^tel:[+]?[0-9\-\s()]+/] *)
Definition re_tel : regex :=
  Cat (lit "tel:") (Cat (opt (chr "+")) (plus (Cls phone_char))).

(** [/^[+]?[0-9\-\s()]{7,}$/] *)
Definition re_bare_phone : regex :=
  Cat (opt (chr "+")) (at_least 7 (Cls phone_char)).

(** [/^sms:[+]?[0-9\-\s()]+/] *)
Definition re_sms : regex :=
  Cat (lit "sms:") (Cat (opt (chr "+")) (plus (Cls phone_char))).

(** [/^WIFI:/] *)
Definition re_wifi : regex := lit "WIFI:".

(** [/^BEGIN:VCARD/] *)
Definition re_vcard : regex := lit "BEGIN:VCARD".

Definition is_url (data : jsstring) : bool := test_prefix re_url data.
Definition is_email (data : jsstring) : bool :=
  test_prefix re_mailto data || test_whole re_bare_email data.
Definition is_phone (data : jsstring) : bool :=
  test_prefix re_tel data || test_whole re_bare_phone data.
Definition is_sms (data : jsstring) : bool := test_prefix re_sms data.
Definition is_wifi (data : jsstring) : bool := test_prefix re_wifi data.
Definition is_vcard (data : jsstring) : bool := test_prefix re_vcard data.

(** Type tags are the string constants of the source. *)
Definition detectQRType (data : jsstring) : string :=
  if falsy data then "unknown"
  else if is_url data then "URL"
  else if is_email data then "EMAIL"
  else if is_phone data then "PHONE"
  else if is_sms data then "SMS"
  else if is_wifi data then "WIFI"
  else if is_vcard data then "VCARD"
  else "TEXT".

Definition ellipsis : jsstring := js "...".

(** [data.substring(0, 30) + (data.length > 30 ? '...' : '')] *)
Definition truncate30 (data : jsstring) : jsstring :=
  substring0 30 data ++ (if (30 <? length data)%nat then ellipsis else []).

Definition generateDescription (data : jsstring) (type : string) : jsstring :=
  if falsy data then js "识别失败"
  else if String.eqb type "URL" then js "网址链接: " ++ truncate30 data
  else if String.eqb type "EMAIL" then js "电子邮箱: " ++ data
  else if String.eqb type "PHONE" then js "电话号码: " ++ data
  else if String.eqb type "SMS" then js "短信: " ++ data
  else if String.eqb type "WIFI" then js "WiFi 配置"
  else if String.eqb type "VCARD" then js "联系人信息"
  else if String.eqb type "TEXT" then js "文本: " ++ truncate30 data
  else truncate30 data.

Record Validation := {
  isValid : bool;
  vtype : string;
  vdescription : jsstring
}.

Definition validateQRData (data : jsstring) : Validation :=
  if falsy data then
    {| isValid := false; vtype := "UNKNOWN"; vdescription := js "空数据" |}
  else if is_url data then
    {| isValid := true; vtype := "URL"; vdescription := js "网址链接" |}
  else if is_email data then
    {| isValid := true; vtype := "EMAIL"; vdescription := js "电子邮箱" |}
  else if is_phone data then
    {| isValid := true; vtype := "PHONE"; vdescription := js "电话号码" |}
  else if is_sms data then
    {| isValid := true; vtype := "SMS"; vdescription := js "短信" |}
  else if is_wifi data then
    {| isValid := true; vtype := "WIFI"; vdescription := js "WiFi 配置" |}
  else if is_vcard data then
    {| isValid := true; vtype := "VCARD"; vdescription := js "联系人信息" |}
  else
    {| isValid := true; vtype := "TEXT"; vdescription := js "文本内容" |}.

End Classifier.
Import Classifier.


(** ** JavaScript numbers

  Numbers are modelled as exact rationals, with [None] for [NaN] (the
  value arithmetic gives on [undefined], which is what an out-of-range
  array read returns). *)
Module JSNumber.

Abbreviation Number := (option Q).

Definition num (z : Z) : Number := Some (inject_Z z).

Definition lift2 (f : Q -> Q -> Q) (a b : Number) : Number :=
  match a, b with
  | Some x, Some y => Some (f x y)
  | _, _ => None
  end.

Definition nadd : Number -> Number -> Number := lift2 Qplus.
Definition nsub : Number -> Number -> Number := lift2 Qminus.
Definition nmul : Number -> Number -> Number := lift2 Qmult.
Definition Math_max : Number -> Number -> Number := lift2 Qmax.
Definition Math_min : Number -> Number -> Number := lift2 Qmin.

(** [Math.round]: the nearest integer, halves rounded up. *)
Definition Math_round (q : Q) : Z := Qfloor (q + (1 # 2)).

Definition Math_abs (q : Q) : Q := Qabs q.

(** The conversion a [Uint8ClampedArray] applies to a stored number:
    [NaN] becomes 0, the value is clamped to [0, 255] and rounded to the
    nearest integer, halves to the even neighbour. *)
Definition toUint8Clamp (n : Number) : Z :=
  match n with
  | None => 0
  | Some q =>
    if Qle_bool q 0 then 0
    else if Qle_bool 255 q then 255
    else
      let f := Qfloor q in
      match Qcompare q (inject_Z f + (1 # 2)) with
      | Lt => f
      | Gt => f + 1
      | Eq => if Z.even f then f else f + 1
      end
  end.

End JSNumber.
Import JSNumber.

(** ** Runtime: store, decoder log, exceptions *)
Module Runtime.

(** How a computation ends: with a value, with an exception, or not at
  all ([Hang]: a loop that never reaches its exit condition). *)
Inductive Outcome (A : Type) : Type :=
| Ok (a : A)
| Throw (msg : jsstring)
| Hang.
Arguments Ok {A} a.
Arguments Throw {A} msg.
Arguments Hang {A}.

(** How a call into a library, or a promise, settles: it returns (is
  fulfilled) or throws (is rejected). *)
Inductive Result (A : Type) : Type :=
| Returned (a : A)
| Thrown (msg : jsstring).
Arguments Returned {A} a.
Arguments Thrown {A} msg.

Definition outcome_of {A} (r : Result A) : Outcome A :=
  match r with
  | Returned a => Ok a
  | Thrown e => Throw e
  end.

(** Pixel content handed to or produced by an external routine. *)
Record RawImage := {
  raw_data : list Z;
  raw_width : Z;
  raw_height : Z
}.

Inductive InversionAttempts := dontInvert | attemptBoth.

Record Point := { pt_x : Q; pt_y : Q }.

Record Location := {
  topLeftCorner : Point;
  topRightCorner : Point;
  bottomLeftCorner : Point
}.

(** What [jsQR] returns on success. *)
Record QRCode := {
  code_data : jsstring;
  code_location : Location
}.

Record DecodeCall := {
  call_image : RawImage;
  call_mode : InversionAttempts
}.

(** The store holds the typed arrays by reference; [decode_log] records
    every call of the decode primitive in program order. *)
Record World := {
  heap : list (list Z);
  decode_log : list DecodeCall;
  isInitialized : bool
}.

Definition set_heap (h : list (list Z)) (w : World) : World :=
  {| heap := h; decode_log := decode_log w; isInitialized := isInitialized w |}.

Definition log_call (c : DecodeCall) (w : World) : World :=
  {| heap := heap w; decode_log := decode_log w ++ [c];
     isInitialized := isInitialized w |}.

Definition set_initialized (b : bool) (w : World) : World :=
  {| heap := heap w; decode_log := decode_log w; isInitialized := b |}.

Definition M (A : Type) : Type := World -> Outcome A * World.

Definition ret {A} (a : A) : M A := fun w => (Ok a, w).

Definition bind {A B} (m : M A) (k : A -> M B) : M B :=
  fun w =>
    match m w with
    | (Ok a, w') => k a w'
    | (Throw e, w') => (Throw e, w')
    | (Hang, w') => (Hang, w')
    end.

Definition hang {A} : M A := fun w => (Hang, w).

Definition throw {A} (msg : jsstring) : M A := fun w => (Throw msg, w).

(** [try { m } catch (e) { h e }] *)
Definition try_catch {A} (m : M A) (h : jsstring -> M A) : M A :=
  fun w =>
    match m w with
    | (Ok a, w') => (Ok a, w')
    | (Throw e, w') => h e w'
    | (Hang, w') => (Hang, w')
    end.

(** The settled state of a promise: fulfilled or rejected. *)
Definition attempt {A} (m : M A) : M (Result A) :=
  fun w =>
    match m w with
    | (Ok a, w') => (Ok (Returned a), w')
    | (Throw e, w') => (Ok (Thrown e), w')
    | (Hang, w') => (Hang, w')
    end.

Declare Scope js_scope.
Delimit Scope js_scope with js.
Notation "'let*' x := m 'in' k" := (bind m (fun x => k))
  (at level 10, x name, m at level 100, k at level 200) : js_scope.
Notation "'let*' ' p := m 'in' k" :=
  (bind m (fun x => match x with p => k end))
  (at level 10, p pattern, m at level 100, k at level 200) : js_scope.
Notation "m ;;; k" := (bind m (fun _ => k))
  (at level 100, k at level 200, right associativity) : js_scope.
Local Open Scope js_scope.

Fixpoint forM_ {A} (xs : list A) (body : A -> M unit) : M unit :=
  match xs with
  | [] => ret tt
  | x :: xs' => body x ;;; forM_ xs' body
  end.

Fixpoint foldM {A B} (f : B -> A -> M B) (b : B) (xs : list A) : M B :=
  match xs with
  | [] => ret b
  | x :: xs' => let* b' := f b x in foldM f b' xs'
  end.

(** Indices visited by [for (let i = 0; i < n; i += 4)]. *)
Definition by_fours (n : nat) : list Z :=
  (fun k => 4 * k) <$> seqZ 0 ((Z.of_nat n + 3) / 4).

(** *** Typed arrays in the store *)

Definition array_at (h : list (list Z)) (l : nat) : list Z :=
  default [] (h !! l).

(** [a[i]] as a number: [NaN] when [i] is out of range. *)
Definition elem (a : list Z) (i : Z) : Number :=
  if i <? 0 then None else inject_Z <$> (a !! Z.to_nat i).

(** [a[i] = v]: converted with [toUint8Clamp]; ignored out of range. *)
Definition store (a : list Z) (i : Z) (v : Number) : list Z :=
  if i <? 0 then a else <[Z.to_nat i := toUint8Clamp v]> a.

(** [new Uint8ClampedArray(src)]: a fresh array holding a copy. *)
Definition new_Uint8ClampedArray (src : nat) : M nat :=
  fun w => (Ok (length (heap w)),
            set_heap (heap w ++ [array_at (heap w) src]) w).

(** A fresh array with given content (arrays made by the browser). *)
Definition alloc (content : list Z) : M nat :=
  fun w => (Ok (length (heap w)), set_heap (heap w ++ [content]) w).

Definition array_length (l : nat) : M nat :=
  fun w => (Ok (length (array_at (heap w) l)), w).

Definition array_get (l : nat) (i : Z) : M Number :=
  fun w => (Ok (elem (array_at (heap w) l) i), w).

Definition array_set (l : nat) (i : Z) (v : Number) : M unit :=
  fun w => (Ok tt, set_heap (alter (fun a => store a i v) l (heap w)) w).

End Runtime.
Import Runtime.
Local Open Scope js_scope.

(** ** Image transform library *)
Module Transforms.

Record ImageData := {
  data : nat;
  width : Z;
  height : Z
}.

(** [(v - 128) * factor + 128], clamped with [Math.min]/[Math.max]. *)
Definition contrast_value (factor : Q) (v : Number) : Number :=
  Math_min (num 255)
    (Math_max (num 0) (nadd (nmul (nsub v (num 128)) (Some factor)) (num 128))).

Definition enhanceContrast (imageData : ImageData) : M ImageData :=
  let* data := new_Uint8ClampedArray (data imageData) in
  let factor := 3 # 2 in
  let* len := array_length data in
  forM_ (by_fours len) (fun i =>
    let* r := array_get data i in
    array_set data i (contrast_value factor r) ;;;
    let* g := array_get data (i + 1) in
    array_set data (i + 1) (contrast_value factor g) ;;;
    let* b := array_get data (i + 2) in
    array_set data (i + 2) (contrast_value factor b)) ;;;
  ret {| data := data; width := width imageData; height := height imageData |}.

(** [v + brightness], clamped with [Math.min]/[Math.max]. *)
Definition brightness_value (brightness : Q) (v : Number) : Number :=
  Math_min (num 255) (Math_max (num 0) (nadd v (Some brightness))).

Definition adjustBrightness (imageData : ImageData) (brightness : Q)
  : M ImageData :=
  let* data := new_Uint8ClampedArray (data imageData) in
  let* len := array_length data in
  forM_ (by_fours len) (fun i =>
    let* r := array_get data i in
    array_set data i (brightness_value brightness r) ;;;
    let* g := array_get data (i + 1) in
    array_set data (i + 1) (brightness_value brightness g) ;;;
    let* b := array_get data (i + 2) in
    array_set data (i + 2) (brightness_value brightness b)) ;;;
  ret {| data := data; width := width imageData; height := height imageData |}.

Definition kernel : list Z := [0; -1; 0; -1; 5; -1; 0; -1; 0].

Definition sharpenImage (imageData : ImageData) : M ImageData :=
  let* data' := new_Uint8ClampedArray (data imageData) in
  let width := width imageData in
  let height := height imageData in
  forM_ (seqZ 1 (height - 2)) (fun y =>
    forM_ (seqZ 1 (width - 2)) (fun x =>
      forM_ (seqZ 0 3) (fun c =>
        let* sum :=
          foldM (fun sum ky =>
            foldM (fun sum kx =>
              let idx := ((y + ky) * width + (x + kx)) * 4 + c in
              let* v := array_get (data imageData) idx in
              ret (nadd sum (nmul v (elem kernel ((ky + 1) * 3 + (kx + 1))))))
              sum (seqZ (-1) 3))
            (num 0) (seqZ (-1) 3) in
        let idx := (y * width + x) * 4 + c in
        array_set data' idx (Math_min (num 255) (Math_max (num 0) sum))))) ;;;
  ret {| data := data'; width := width; height := height |}.

End Transforms.
Import Transforms.

(** ** Browser and library collaborators *)
Module Browser.

(** An [HTMLCanvasElement] together with what the browser answers when
  the service reads it:
  - [getContext2d]: whether [canvas.getContext('2d')] yields a context;
  - [read_pixels x y w h]: the content [ctx.getImageData(x, y, w, h)]
    returns, [None] when the call throws;
  - [scaled_pixels scale]: the content read back from a fresh canvas of
    [width * scale] by [height * scale] onto which this canvas was drawn
    with smoothing off, [None] when no context can be made or a canvas
    call throws. *)
Record Canvas := {
  canvas_width : Z;
  canvas_height : Z;
  getContext2d : bool;
  read_pixels : Q -> Q -> Q -> Q -> option RawImage;
  scaled_pixels : Q -> option RawImage
}.

(** [string | HTMLCanvasElement] *)
Inductive ImageInput :=
| FromString (src : jsstring)
| FromCanvas (canvas : Canvas).

(** The external routines:
  - [jsQR_lib]: the decode primitive, which finds a code, finds none or
    throws;
  - [scanImage]: [QrScanner.scanImage], a promise that resolves with the
    decoded text or rejects;
  - [loadImage]: decoding an image source and drawing it on a fresh
    canvas, [None] when the image fires [onerror]. *)
Record Env := {
  jsQR_lib : RawImage -> InversionAttempts -> Result (option QRCode);
  scanImage : ImageInput -> Result jsstring;
  loadImage : jsstring -> option Canvas
}.

(** A rendering context is the canvas it belongs to; [None] is [null]. *)
Definition getContext (canvas : Canvas) : option Canvas :=
  if getContext2d canvas then Some canvas else None.

Definition getImageData (ctx : option Canvas) (x y w h : Q) : M ImageData :=
  match ctx with
  | None => throw (js "TypeError")
  | Some canvas =>
    match read_pixels canvas x y w h with
    | None => throw (js "IndexSizeError")
    | Some raw =>
      let* d := alloc (raw_data raw) in
      ret {| data := d; width := raw_width raw; height := raw_height raw |}
    end
  end.

(** The pixel content an [ImageData] denotes in a world. *)
Definition raw_of (w : World) (img : ImageData) : RawImage :=
  {| raw_data := array_at (heap w) (data img);
     raw_width := width img; raw_height := height img |}.

(** [jsQR(img.data, img.width, img.height, { inversionAttempts })] *)
Definition jsQR (env : Env) (img : ImageData) (mode : InversionAttempts)
  : M (option QRCode) :=
  fun w =>
    let raw := raw_of w img in
    (outcome_of (jsQR_lib env raw mode),
     log_call {| call_image := raw; call_mode := mode |} w).

Definition QrScanner_scanImage (env : Env) (imageData : ImageInput)
  : M jsstring :=
  fun w => (outcome_of (scanImage env imageData), w).

End Browser.
Import Browser.

(** ** Single-region and single-image recognizers *)
Module Recognizer.

Record Position := {
  pos_x : Q;
  pos_y : Q;
  pos_width : Q;
  pos_height : Q
}.

Record QRResult := {
  serialNumber : jsstring;
  qrType : string;
  qrDescription : jsstring;
  confidence : Q;
  processingTime : Z;
  position : option Position
}.

Definition set_processingTime (t : Z) (r : QRResult) : QRResult :=
  {| serialNumber := serialNumber r; qrType := qrType r;
     qrDescription := qrDescription r; confidence := confidence r;
     processingTime := t; position := position r |}.

(** The record every successful decode builds. *)
Definition decoded (text : jsstring) (pos : option Position) : QRResult :=
  let qrType := detectQRType text in
  let description := generateDescription text qrType in
  {| serialNumber := text; qrType := qrType; qrDescription := description;
     confidence := 1; processingTime := 0; position := pos |}.

Definition empty_result (description : jsstring) (t : Z) : QRResult :=
  {| serialNumber := []; qrType := "unknown"; qrDescription := description;
     confidence := 0; processingTime := t; position := None |}.

Section WithEnv.
Context (env : Env).

Definition scaleImage (canvas : Canvas) (scale : Q) : M (option ImageData) :=
  match scaled_pixels canvas scale with
  | None => ret None
  | Some raw =>
    let* d := alloc (raw_data raw) in
    ret (Some {| data := d; width := raw_width raw; height := raw_height raw |})
  end.

(** [if (code) return code.data;] followed by the rest of the body. *)
Definition return_if_found (code : option QRCode) (rest : M (option jsstring))
  : M (option jsstring) :=
  match code with
  | Some c => ret (Some (code_data c))
  | None => rest
  end.

Definition scales : list Q := [1 # 2; 3 # 4; 5 # 4; 3 # 2; 2 # 1].

Fixpoint try_scales (canvas : Canvas) (scales : list Q) : M (option jsstring) :=
  match scales with
  | [] => ret None
  | scale :: rest =>
    let* scaledImageData := scaleImage canvas scale in
    match scaledImageData with
    | Some img =>
      let* code := jsQR env img attemptBoth in
      return_if_found code (try_scales canvas rest)
    | None => try_scales canvas rest
    end
  end.

Definition tryMultipleRecognitionStrategies (canvas : Canvas)
    (ctx : option Canvas) : M (option jsstring) :=
  let* originalImageData :=
    getImageData ctx 0 0 (inject_Z (canvas_width canvas))
      (inject_Z (canvas_height canvas)) in
  let* code := jsQR env originalImageData attemptBoth in
  return_if_found code (
  let* enhancedImageData := enhanceContrast originalImageData in
  let* code := jsQR env enhancedImageData attemptBoth in
  return_if_found code (
  let* brightenedImageData := adjustBrightness originalImageData 30 in
  let* code := jsQR env brightenedImageData attemptBoth in
  return_if_found code (
  let* darkenedImageData := adjustBrightness originalImageData (-30) in
  let* code := jsQR env darkenedImageData attemptBoth in
  return_if_found code (
  let* sharpenedImageData := sharpenImage originalImageData in
  let* code := jsQR env sharpenedImageData attemptBoth in
  return_if_found code (
  try_scales canvas scales))))).

Definition recognizeWithQrScannerFast (imageData : ImageInput) : M QRResult :=
  let* found :=
    try_catch
      (let* result := QrScanner_scanImage env imageData in
       if negb (falsy result) then ret (Some (decoded result None))
       else ret None)
      (fun _ => ret None) in
  match found with
  | Some r => ret r
  | None => ret (empty_result [] 0)
  end.

Definition createCanvasFromImageData (imageData : jsstring)
  : M (Canvas * option Canvas) :=
  match loadImage env imageData with
  | None => throw (js "图片加载失败")
  | Some canvas =>
    match getContext canvas with
    | None => throw (js "无法创建 Canvas 上下文")
    | Some ctx => ret (canvas, Some ctx)
    end
  end.

Definition canvas_and_context (imageData : ImageInput)
  : M (Canvas * option Canvas) :=
  match imageData with
  | FromString s => createCanvasFromImageData s
  | FromCanvas canvas => ret (canvas, getContext canvas)
  end.

Definition recognizeWithJsQRFast (imageData : ImageInput) : M QRResult :=
  let* found :=
    try_catch
      (let* '(canvas, ctx) := canvas_and_context imageData in
       let* imageDataObj :=
         getImageData ctx 0 0 (inject_Z (canvas_width canvas))
           (inject_Z (canvas_height canvas)) in
       let* code := jsQR env imageDataObj dontInvert in
       match code with
       | Some c => ret (Some (decoded (code_data c) None))
       | None => ret None
       end)
      (fun _ => ret None) in
  match found with
  | Some r => ret r
  | None => ret (empty_result [] 0)
  end.

Definition recognizeWithJsQR (imageData : jsstring) : M jsstring :=
  match loadImage env imageData with
  | None => throw (js "图片加载失败")
  | Some canvas =>
    match getContext canvas with
    | None => throw (js "无法创建 Canvas 上下文")
    | Some ctx =>
      let* result := tryMultipleRecognitionStrategies canvas (Some ctx) in
      match result with
      | Some text => if negb (falsy text) then ret text
                     else throw (js "未检测到二维码")
      | None => throw (js "未检测到二维码")
      end
    end
  end.

Definition recognizeCanvasWithJsQR (canvas : Canvas) : M jsstring :=
  match getContext canvas with
  | None => throw (js "无法创建 Canvas 上下文")
  | Some ctx =>
    let* result := tryMultipleRecognitionStrategies canvas (Some ctx) in
    match result with
    | Some text => if negb (falsy text) then ret text
                   else throw (js "未检测到二维码")
    | None => throw (js "未检测到二维码")
    end
  end.

(** [Promise.allSettled]: every promise is run to its settled state. *)
Fixpoint allSettled {A} (ps : list (M A)) : M (list (Result A)) :=
  match ps with
  | [] => ret []
  | p :: ps' =>
    let* r := attempt p in
    let* rs := allSettled ps' in
    ret (r :: rs)
  end.

(** The first fulfilled result with a non-empty [serialNumber]. *)
Fixpoint first_fulfilled (rs : list (Result QRResult)) : option QRResult :=
  match rs with
  | [] => None
  | Returned value :: rs' =>
    if negb (falsy (serialNumber value)) then Some value
    else first_fulfilled rs'
  | _ :: rs' => first_fulfilled rs'
  end.

(** [now_gate] is the reading of [Date.now()] in the test that guards
  the complete recognition. *)
Definition performFastSingleRecognition (imageData : ImageInput)
    (startTime now_gate : Z) : M QRResult :=
  let fastPromises :=
    [recognizeWithQrScannerFast imageData; recognizeWithJsQRFast imageData] in
  let* fastResults := allSettled fastPromises in
  match first_fulfilled fastResults with
  | Some value => ret value
  | None =>
    let* complete :=
      if now_gate - startTime <? 800 then
        try_catch
          (let* recognitionResult :=
             try_catch (QrScanner_scanImage env imageData)
               (fun _ =>
                  match imageData with
                  | FromString s => recognizeWithJsQR s
                  | FromCanvas canvas => recognizeCanvasWithJsQR canvas
                  end) in
           if negb (falsy recognitionResult)
           then ret (Some (decoded recognitionResult None))
           else ret None)
          (fun _ => ret None)
      else ret None in
    match complete with
    | Some r => ret r
    | None => ret (empty_result (js "未识别到二维码") 0)
    end
  end.

(** [QrScanner.hasCamera()] returns a promise, which is truthy, so the
  warning branch is not taken and nothing inside the [try] throws. *)
Definition initialize : M unit :=
  fun w =>
    if isInitialized w then (Ok tt, w)
    else (Ok tt, set_initialized true w).

Definition ensure_initialized : M unit :=
  fun w => if isInitialized w then (Ok tt, w) else initialize w.

(** *** Timers

  [Promise.race] of a computation [p] against a timer. The callback of a
  timer is a task of its own: it runs only when the timer is due and the
  thread is idle, that is, while [p] waits for an event from outside (the
  scanner, the loading of an image). Time that passes while [p] computes
  (decoding, reading pixels) and the continuations of promises that are
  settled already do not let the timer fire.

  [settles_at] is the instant [p] settles, [fires_at] the instant the
  timer is due, and [timer] the instant its callback ran while [p] was
  still unsettled, [None] when [p] settled first. An instant before the
  timer is due, or not before [p] settles, is none at which the callback
  can have run first: it counts as [None]. The race yields the settled
  state that wins and the instant; [p] is not cancelled when it loses. *)
Definition timer_won (settles_at fires_at : Z) (timer : option Z) : option Z :=
  match timer with
  | Some fired =>
    if (fires_at <=? fired) && (fired <? settles_at) then Some fired else None
  | None => None
  end.

Definition race_timeout {A} (p : M A) (settles_at fires_at : Z)
    (timer : option Z) (msg : jsstring) : M (Result A * Z) :=
  let* settled := attempt p in
  match timer_won settles_at fires_at timer with
  | Some fired => ret (Thrown msg, fired)
  | None => ret (settled, settles_at)
  end.

(** Readings of [Date.now()] along one call of [recognizeImage]: at its
  start, in the test that guards the complete recognition, and when the
  recognition settles; [s_timer] is the instant the callback of the
  timer ran, if it ran while the recognition was waiting for the scanner
  or for an image to load. *)
Record SingleClock := {
  s_start : Z;
  s_gate : Z;
  s_settle : Z;
  s_timer : option Z
}.

Definition recognizeImage (clk : SingleClock) (imageData : ImageInput)
  : M QRResult :=
  ensure_initialized ;;;
  let startTime := s_start clk in
  let TIMEOUT_MS := 1500 in
  let* '(settled, now) :=
    race_timeout (performFastSingleRecognition imageData startTime (s_gate clk))
      (s_settle clk) (startTime + TIMEOUT_MS) (s_timer clk)
      (js "单图识别超时") in
  match settled with
  | Returned result => ret (set_processingTime (now - startTime) result)
  | Thrown error =>
    ret (empty_result
           (if includes error (js "超时") then js "识别超时" else js "识别失败")
           (now - startTime))
  end.

End WithEnv.

End Recognizer.
Import Recognizer.

(** ** Multi-region search orchestrator *)
Module Orchestrator.

Record MultiQRResult := {
  results : list QRResult;
  totalFound : nat;
  multi_processingTime : Z
}.

(** Decimal form of an integer, as template literals print it. *)
Definition string_of_Z (z : Z) : jsstring :=
  js (DecimalString.NilZero.string_of_int (Z.to_int z)).

(** [`${Math.round(x)}_${Math.round(y)}`] *)
Definition position_key (x y : Q) : jsstring :=
  string_of_Z (Math_round x) ++ js "_" ++ string_of_Z (Math_round y).

(** The position recorded for a decode: the given origin [(x, y)] and
  the extent between the corners of [code]'s location. *)
Definition position_of (x y : Q) (code : QRCode) : Position :=
  let loc := code_location code in
  {| pos_x := x;
     pos_y := y;
     pos_width := Math_abs (pt_x (topRightCorner loc) - pt_x (topLeftCorner loc));
     pos_height :=
       Math_abs (pt_y (bottomLeftCorner loc) - pt_y (topLeftCorner loc)) |}.

Definition top_left_x (code : QRCode) : Q := pt_x (topLeftCorner (code_location code)).
Definition top_left_y (code : QRCode) : Q := pt_y (topLeftCorner (code_location code)).

(** [results.some(r => r.serialNumber === contentKey)] *)
Definition has_payload (results : list QRResult) (contentKey : jsstring) : bool :=
  existsb (fun r => JSString.eqb (serialNumber r) contentKey) results.

Definition has_key (foundPositions : gset jsstring) (key : jsstring) : bool :=
  bool_decide (key ∈ foundPositions).

Definition result_position_key (result : QRResult) : jsstring :=
  match position result with
  | Some p => position_key (pos_x p) (pos_y p)
  | None => serialNumber result
  end.

(** One iteration of the loop of [addUniqueResults]; the state is the
  pair of objects the loop mutates. *)
Definition add_unique (st : list QRResult * gset jsstring) (result : QRResult)
  : list QRResult * gset jsstring :=
  let '(results, foundPositions) := st in
  let contentKey := serialNumber result in
  let positionKey := result_position_key result in
  if negb (has_payload results contentKey) && negb (has_key foundPositions positionKey)
  then (results ++ [result], {[contentKey]} ∪ ({[positionKey]} ∪ foundPositions))
  else (results, foundPositions).

Definition addUniqueResults (results : list QRResult)
    (newResults : list QRResult) (foundPositions : gset jsstring)
  : list QRResult * gset jsstring :=
  foldl add_unique (results, foundPositions) newResults.

Section WithEnv.
Context (env : Env).

(** [strategyResults.filter(r => r !== null)] *)
Definition non_null {A} (rs : list (option A)) : list A := omap id rs.

Fixpoint mapM {A B} (f : A -> M B) (xs : list A) : M (list B) :=
  match xs with
  | [] => ret []
  | x :: xs' =>
    let* y := f x in
    let* ys := mapM f xs' in
    ret (y :: ys)
  end.

Definition quickFullImageScan (canvas : Canvas) (ctx : option Canvas)
  : M (list QRResult) :=
  try_catch
    (let* imageData :=
       getImageData ctx 0 0 (inject_Z (canvas_width canvas))
         (inject_Z (canvas_height canvas)) in
     let strategies :=
       [ret imageData; enhanceContrast imageData;
        adjustBrightness imageData 20] in
     let* strategyResults :=
       mapM (fun strategy =>
         try_catch
           (let* processedData := strategy in
            let* code := jsQR env processedData dontInvert in
            match code with
            | Some c =>
              ret (Some (decoded (code_data c)
                           (Some (position_of (top_left_x c) (top_left_y c) c))))
            | None => ret None
            end)
           (fun _ => ret None)) strategies in
     ret (non_null strategyResults))
    (fun _ => ret []).

Record Region := { reg_x : Q; reg_y : Q; reg_w : Q; reg_h : Q }.

Definition regions (width height : Q) : list Region :=
  [ {| reg_x := 0; reg_y := 0; reg_w := width / 3; reg_h := height / 3 |};
    {| reg_x := width / 3; reg_y := 0; reg_w := width / 3; reg_h := height / 3 |};
    {| reg_x := 2 * width / 3; reg_y := 0; reg_w := width / 3; reg_h := height / 3 |};
    {| reg_x := 0; reg_y := height / 3; reg_w := width / 3; reg_h := height / 3 |};
    {| reg_x := width / 3; reg_y := height / 3; reg_w := width / 3; reg_h := height / 3 |};
    {| reg_x := 2 * width / 3; reg_y := height / 3; reg_w := width / 3; reg_h := height / 3 |};
    {| reg_x := 0; reg_y := 2 * height / 3; reg_w := width / 3; reg_h := height / 3 |};
    {| reg_x := width / 3; reg_y := 2 * height / 3; reg_w := width / 3; reg_h := height / 3 |};
    {| reg_x := 2 * width / 3; reg_y := 2 * height / 3; reg_w := width / 3; reg_h := height / 3 |} ]%Q.

Definition smartRegionScan (canvas : Canvas) (ctx : option Canvas)
    (foundPositions : gset jsstring) : M (list QRResult) :=
  let width := inject_Z (canvas_width canvas) in
  let height := inject_Z (canvas_height canvas) in
  let* regionResults :=
    mapM (fun region =>
      try_catch
        (let* regionData :=
           getImageData ctx (reg_x region) (reg_y region)
             (reg_w region) (reg_h region) in
         let* code := jsQR env regionData attemptBoth in
         match code with
         | Some c =>
           let positionKey :=
             position_key (reg_x region + top_left_x c)
                          (reg_y region + top_left_y c) in
           if negb (has_key foundPositions positionKey)
           then ret (Some (decoded (code_data c)
                       (Some (position_of (reg_x region + top_left_x c)
                                          (reg_y region + top_left_y c) c))))
           else ret None
         | None => ret None
         end)
        (fun _ => ret None)) (regions width height) in
  ret (non_null regionResults).

Definition scanRegionAsync (ctx : option Canvas) (x y width height : Q)
    (offsetX offsetY : Q) : M (option QRResult) :=
  try_catch
    (let* regionImageData := getImageData ctx x y width height in
     let* code := jsQR env regionImageData dontInvert in
     match code with
     | Some c =>
       ret (Some (decoded (code_data c)
                    (Some (position_of (offsetX + top_left_x c)
                                       (offsetY + top_left_y c) c))))
     | None => ret None
     end)
    (fun _ => ret None).

(** Values of the counter of [for (v = 0; v <= limit; v += step)] in
  exact arithmetic, the k-th value being [k * step]; [None] when the
  loop never ends. The counter of the code is a double, and the
  rounding of its additions can end the loop one value earlier. *)
Definition loop_values (limit step : Q) : option (list Q) :=
  if Qle_bool 0 limit then
    if Qle_bool step 0 then None
    else Some ((fun k => inject_Z k * step)%Q <$> seqZ 0 (Qfloor (limit / step) + 1))
  else Some [].

(** Window origins in the order the nested loops visit them. *)
Definition window_origins (width height windowSize stepSize : Q)
  : option (list (Q * Q)) :=
  match loop_values (height - windowSize) stepSize with
  | None => None
  | Some [] => Some []
  | Some ys =>
    match loop_values (width - windowSize) stepSize with
    | None => None
    | Some xs => Some (y ← ys; (fun x => (x, y)) <$> xs)
    end
  end.

(** One iteration of the inner loop; the state is [results] and the
  batch [scanPromises] of scans already started. *)
Definition window_step (ctx : option Canvas) (foundPositions : gset jsstring)
    (windowSize : Q) (st : list QRResult * list (option QRResult))
    (origin : Q * Q) : M (list QRResult * list (option QRResult)) :=
  let '(results, scanPromises) := st in
  let '(x, y) := origin in
  let positionKey := position_key x y in
  let* scanPromises :=
    if negb (has_key foundPositions positionKey) then
      let* scan := scanRegionAsync ctx x y windowSize windowSize x y in
      ret (scanPromises ++ [scan])
    else ret scanPromises in
  if (6 <=? length scanPromises)%nat
  then ret (results ++ non_null scanPromises, [])
  else ret (results, scanPromises).

Definition optimizedSlidingWindow (canvas : Canvas) (ctx : option Canvas)
    (foundPositions : gset jsstring) : M (list QRResult) :=
  let width := inject_Z (canvas_width canvas) in
  let height := inject_Z (canvas_height canvas) in
  let windowSize := (Qmin width height * (4 # 10))%Q in
  let stepSize := (windowSize * (6 # 10))%Q in
  match window_origins width height windowSize stepSize with
  | None => hang
  | Some origins =>
    let* '(results, scanPromises) :=
      foldM (window_step ctx foundPositions windowSize) ([], []) origins in
    if (0 <? length scanPromises)%nat
    then ret (results ++ non_null scanPromises)
    else ret results
  end.

(** Readings of [Date.now()] along one call of
  [recognizeMultipleQRCodes]: at its start, when the canvas is ready,
  in the tests that guard the grid and the sliding-window stages, and
  when the recognition settles. *)
Record MultiClock := {
  m_start : Z;
  m_canvas : Z;
  m_gate_grid : Z;
  m_gate_window : Z;
  m_settle : Z
}.

(** The three stages, each on the state [(results, foundPositions)]. *)
Definition full_frame_stage (canvas : Canvas) (ctx : option Canvas)
  : M (list QRResult * gset jsstring) :=
  let* fullImageResult := quickFullImageScan canvas ctx in
  ret (addUniqueResults [] fullImageResult ∅).

Definition grid_stage (canvas : Canvas) (ctx : option Canvas)
    (st : list QRResult * gset jsstring) : M (list QRResult * gset jsstring) :=
  let* regionResults := smartRegionScan canvas ctx st.2 in
  ret (addUniqueResults st.1 regionResults st.2).

Definition window_stage (canvas : Canvas) (ctx : option Canvas)
    (st : list QRResult * gset jsstring) : M (list QRResult * gset jsstring) :=
  let* slidingResults := optimizedSlidingWindow canvas ctx st.2 in
  ret (addUniqueResults st.1 slidingResults st.2).

Definition performOptimizedRecognition (clk : MultiClock) (canvas : Canvas)
    (ctx : option Canvas) (startTime : Z) : M (list QRResult) :=
  let* st := full_frame_stage canvas ctx in
  let* st :=
    if m_gate_grid clk - startTime <? 1000 then grid_stage canvas ctx st
    else ret st in
  let* st :=
    if m_gate_window clk - startTime <? 1500 then window_stage canvas ctx st
    else ret st in
  ret st.1.

Definition empty_multi (t : Z) : MultiQRResult :=
  {| results := []; totalFound := 0; multi_processingTime := t |}.

(** [performOptimizedRecognition] awaits only promises of [async]
  functions that contain no [await] (the decoder and [getImageData] are
  synchronous): they are settled when they are awaited, so the
  recognition runs to its end in the task that started it and the
  callback of the timer cannot run before it settles. *)
Definition recognizeMultipleQRCodes (clk : MultiClock) (imageData : ImageInput)
  : M MultiQRResult :=
  ensure_initialized ;;;
  let startTime := m_start clk in
  let TIMEOUT_MS := 2000 in
  let* ready := attempt (canvas_and_context env imageData) in
  match ready with
  | Returned (canvas, ctx) =>
    let* '(settled, now) :=
      race_timeout (performOptimizedRecognition clk canvas ctx startTime)
        (m_settle clk) (m_canvas clk + TIMEOUT_MS) None (js "识别超时") in
    match settled with
    | Returned results =>
      ret {| results := results; totalFound := length results;
             multi_processingTime := now - startTime |}
    | Thrown _ => ret (empty_multi (now - startTime))
    end
  | Thrown _ => ret (empty_multi (m_canvas clk - startTime))
  end.

End WithEnv.

End Orchestrator.
Import Orchestrator.

(** ** Reference definitions used to state the properties *)
Module Spec.

(** *** Classifier *)

(** The classifier's rules in evaluation order. *)
Definition rules : list (string * (jsstring -> bool)) :=
  [("URL", is_url); ("EMAIL", is_email); ("PHONE", is_phone);
   ("SMS", is_sms); ("WIFI", is_wifi); ("VCARD", is_vcard)]%string.

(** The type of the first rule that matches, [TEXT] when none does. *)
Definition first_matching_rule (data : jsstring) : string :=
  match find (fun r => r.2 data) rules with
  | Some r => r.1
  | None => "TEXT"
  end.

(** The literal inputs of the classifier table and their types. *)
Definition literal_table : list (string * string) :=
  [("https://example.com/a", "URL");
   ("test@example.com", "EMAIL");
   ("+1-555-1234567", "PHONE");
   ("sms:+15551234567", "SMS");
   ("WIFI:T:WPA;S:net;;", "WIFI");
   ("BEGIN:VCARD" ++ String "010" "END:VCARD", "VCARD");
   ("hello world", "TEXT")]%string.

(** The label that precedes a URL or TEXT payload in its description. *)
Definition label_of (type : string) : jsstring :=
  if String.eqb type "URL" then js "网址链接: " else js "文本: ".

(** *** Typed arrays and transforms on array values *)

(** The world whose newest array, at [length h], holds [a]. *)
Definition with_new (w : World) (h : list (list Z)) (a : list Z) : World :=
  set_heap (h ++ [a]) w.

(** The per-pixel update of contrast and brightness, on array values. *)

Definition rgb_update (f : Number -> Number) (a : list Z) (i : Z) : list Z :=
  let a1 := store a i (f (elem a i)) in
  let a2 := store a1 (i + 1) (f (elem a1 (i + 1))) in
  store a2 (i + 2) (f (elem a2 (i + 2))).

Definition map_rgb (f : Number -> Number) (a : list Z) : list Z :=
  foldl (rgb_update f) a (by_fours (length a)).

Definition rgb_body (data : nat) (f : Number -> Number) (i : Z) : M unit :=
  let* r := array_get data i in
  array_set data i (f r) ;;;
  let* g := array_get data (i + 1) in
  array_set data (i + 1) (f g) ;;;
  let* b := array_get data (i + 2) in
  array_set data (i + 2) (f b).

(** What a sample [v] becomes when [f] is applied and the result stored. *)
Definition sample (f : Number -> Number) (v : Z) : Z := toUint8Clamp (f (num v)).

(** The kernel sum of [sharpenImage] at pixel [(x, y)], channel [c]. *)
Definition conv_sum (orig : list Z) (width y x c : Z) : Number :=
  foldl (fun sum ky =>
    foldl (fun sum kx =>
      nadd sum (nmul (elem orig (((y + ky) * width + (x + kx)) * 4 + c))
                     (elem kernel ((ky + 1) * 3 + (kx + 1)))))
      sum (seqZ (-1) 3))
    (num 0) (seqZ (-1) 3).

Definition sharpen_write (orig : list Z) (width : Z) (a : list Z)
    (t : Z * Z * Z) : list Z :=
  let '(y, x, c) := t in
  store a ((y * width + x) * 4 + c)
    (Math_min (num 255) (Math_max (num 0) (conv_sum orig width y x c))).

(** The loops of [sharpenImage] on array values. *)
Definition sharpen_pure (orig : list Z) (width height : Z) : list Z :=
  foldl (fun a y =>
    foldl (fun a x =>
      foldl (fun a c => sharpen_write orig width a (y, x, c)) a (seqZ 0 3))
      a (seqZ 1 (width - 2)))
    orig (seqZ 1 (height - 2)).

(** The (row, column, channel) triples [sharpenImage] writes, in order. *)
Definition interior (width height : Z) : list (Z * Z * Z) :=
  y ← seqZ 1 (height - 2); x ← seqZ 1 (width - 2); c ← seqZ 0 3; [(y, x, c)].

(** A write of [val t] at index [idx t], as a step of a fold. *)
Definition write_at {T : Type} (idx : T -> Z) (val : T -> Number)
    (a : list Z) (t : T) : list Z :=
  store a (idx t) (val t).

(** Index of channel [c] of pixel [(x, y)] in a row-major RGBA buffer. *)
Definition offset (width y x c : Z) : Z := (y * width + x) * 4 + c.

(** The sample at an index, 0 where there is none. *)
Definition at_index (a : list Z) (i : Z) : Z := default 0 (a !! Z.to_nat i).

(** [width * height * 4] samples. *)
Definition well_formed (a : list Z) (width height : Z) : Prop :=
  0 <= width /\ 0 <= height /\ Z.of_nat (length a) = width * height * 4.

(** Pixels with a full 3 by 3 neighbourhood. *)
Definition is_interior (width height y x : Z) : bool :=
  (1 <=? y) && (y <=? height - 2) && (1 <=? x) && (x <=? width - 2).

(** A transform run on [imageData] in world [w] returns a new image of
  the same width, height and data length, with the alpha samples of the
  input, and leaves every array of [w] as it was. *)
Definition preserves_frame (t : M ImageData) (imageData : ImageData)
    (w : World) : Prop :=
  exists out w',
    t w = (Ok out, w')
    /\ width out = width imageData /\ height out = height imageData
    /\ length (array_at (heap w') (data out))
       = length (array_at (heap w) (data imageData))
    /\ (forall j : nat, (j mod 4 = 3)%nat ->
          array_at (heap w') (data out) !! j
          = array_at (heap w) (data imageData) !! j)
    /\ data out <> data imageData
    /\ (forall l, (l < length (heap w))%nat -> heap w' !! l = heap w !! l).

(** The contrast formula without the rounding of the store, as a
  property of one run of [enhanceContrast]. *)
Definition contrast_exact (w : World) (imageData : ImageData) : Prop :=
  forall out w' (j : nat) (v o : Z),
    enhanceContrast imageData w = (Ok out, w') ->
    (j mod 4 <> 3)%nat ->
    array_at (heap w) (data imageData) !! j = Some v ->
    array_at (heap w') (data out) !! j = Some o ->
    (inject_Z o == Qmin 255 (Qmax 0 ((inject_Z v - 128) * (3 # 2) + 128)))%Q.

(** *** The strategy cascade *)

(** The content a transform produces from [raw]: the transform is run
  in a world that holds [raw] alone and its result is read back. *)
Definition run_transform (t : ImageData -> M ImageData) (raw : RawImage)
  : option RawImage :=
  let w := {| heap := [raw_data raw]; decode_log := []; isInitialized := false |} in
  match t {| data := 0; width := raw_width raw; height := raw_height raw |} w with
  | (Ok out, w') => Some (raw_of w' out)
  | _ => None
  end.

(** The views of a region the exhaustive path decodes, in order; a view
  that cannot be made ([None]) is passed over. *)
Definition strategy_views (canvas : Canvas) (orig : RawImage)
  : list (option RawImage) :=
  [Some orig;
   run_transform enhanceContrast orig;
   run_transform (fun img => adjustBrightness img 30) orig;
   run_transform (fun img => adjustBrightness img (-30)) orig;
   run_transform sharpenImage orig]
  ++ (scaled_pixels canvas <$> [1 # 2; 3 # 4; 5 # 4; 3 # 2; 2 # 1]).

Definition strategy_images (canvas : Canvas) (orig : RawImage) : list RawImage :=
  omap id (strategy_views canvas orig).

Definition both_polarities (img : RawImage) : DecodeCall :=
  {| call_image := img; call_mode := attemptBoth |}.

(** Decoding a list of images in order until one attempt does not come
  back empty: the calls made and the outcome. *)
Fixpoint cascade (env : Env) (imgs : list RawImage)
  : list DecodeCall * Outcome (option jsstring) :=
  match imgs with
  | [] => ([], Ok None)
  | img :: rest =>
    match jsQR_lib env img attemptBoth with
    | Returned None =>
      let '(calls, r) := cascade env rest in (both_polarities img :: calls, r)
    | Returned (Some c) => ([both_polarities img], Ok (Some (code_data c)))
    | Thrown e => ([both_polarities img], Throw e)
    end
  end.

(** The cascade as a loop over computations that make the views. *)
Fixpoint try_each (env : Env) (ps : list (M (option ImageData)))
  : M (option jsstring) :=
  match ps with
  | [] => ret None
  | p :: rest =>
    let* x := p in
    match x with
    | Some img =>
      let* code := jsQR env img attemptBoth in
      return_if_found code (try_each env rest)
    | None => try_each env rest
    end
  end.

Definition some_image (m : M ImageData) : M (option ImageData) :=
  let* x := m in ret (Some x).

Definition strategy_producers (canvas : Canvas) (img : ImageData)
  : list (M (option ImageData)) :=
  [ret (Some img);
   some_image (enhanceContrast img);
   some_image (adjustBrightness img 30);
   some_image (adjustBrightness img (-30));
   some_image (sharpenImage img)]
  ++ (scaleImage canvas <$> scales).

(** The array at [l] holds the original region. *)
Definition holds_original (l : nat) (orig : RawImage) (w : World) : Prop :=
  (l < length (heap w))%nat /\ array_at (heap w) l = raw_data orig.

(** In worlds that hold the original, [p] makes the view [view] without
  touching the original or the log. *)
Definition produces (l : nat) (orig : RawImage) (p : M (option ImageData))
    (view : option RawImage) : Prop :=
  forall w, holds_original l orig w ->
    exists x w',
      p w = (Ok x, w') /\ holds_original l orig w'
      /\ decode_log w' = decode_log w /\ raw_of w' <$> x = view.

(** How the cascade over [imgs] ends after [k] attempts with outcome
  [r]: all views tried in vain, or the [k]-th attempt decides. *)
Definition last_attempt (env : Env) (imgs : list RawImage) (k : nat)
    (r : Outcome (option jsstring)) : Prop :=
  match r with
  | Ok None =>
    k = length imgs
    /\ Forall (fun img => jsQR_lib env img attemptBoth = Returned None) imgs
  | Ok (Some text) =>
    exists img c, (1 <= k)%nat /\ imgs !! (k - 1)%nat = Some img
      /\ jsQR_lib env img attemptBoth = Returned (Some c) /\ text = code_data c
  | Throw e =>
    exists img, (1 <= k)%nat /\ imgs !! (k - 1)%nat = Some img
      /\ jsQR_lib env img attemptBoth = Thrown e
  | Hang => False
  end.

(** *** Outcomes of computations *)

(** [ensures m P T H]: in every world, [m] ends with a value that
  satisfies [P], or throws and [T] holds, or hangs and [H] holds.
  With [T] and [H] false, [m] always returns. *)
Definition ensures {A} (m : M A) (P : A -> Prop) (T H : Prop) : Prop :=
  forall w, match (m w).1 with
            | Ok a => P a
            | Throw _ => T
            | Hang => H
            end.

(** What a settled promise holds when its computation ensures [P]. *)
Definition settled_with {A} (P : A -> Prop) (T : Prop) (r : Result A) : Prop :=
  match r with
  | Returned a => P a
  | Thrown _ => T
  end.

(** *** Results and entry points *)


(** The payloads of a result list, in order. *)
Definition payloads (rs : list QRResult) : list jsstring := serialNumber <$> rs.

(** What the fast attempts return: a decode or the blank record. *)
Definition fast_shape (r : QRResult) : Prop :=
  (exists text, r = decoded text None) \/ r = empty_result [] 0.

(** What [performFastSingleRecognition] returns: a decode of a non-empty
  payload or the not-found record. *)
Definition single_shape (r : QRResult) : Prop :=
  (exists text, text <> [] /\ r = decoded text None)
  \/ r = empty_result (js "未识别到二维码") 0.

(** The canvas and context a call works on, when the input yields one. *)
Definition input_canvas (env : Env) (imageData : ImageInput)
  : option (Canvas * option Canvas) :=
  match imageData with
  | FromString s =>
    match loadImage env s with
    | Some canvas =>
      match getContext canvas with
      | Some ctx => Some (canvas, Some ctx)
      | None => None
      end
    | None => None
    end
  | FromCanvas canvas => Some (canvas, getContext canvas)
  end.



(** The canvas a call works on, when the input yields one, has a width
  and a height. *)
Definition sized_input (env : Env) (imageData : ImageInput) : Prop :=
  forall canvas ctx,
    input_canvas env imageData = Some (canvas, ctx) ->
    0 < canvas_width canvas /\ 0 < canvas_height canvas.


(** *** Concrete inputs for the examples *)

(** A one-pixel image whose red sample is 129. *)
Definition one_pixel_world : World :=
  {| heap := [[129; 0; 0; 255]]; decode_log := []; isInitialized := true |}.
Definition one_pixel : ImageData := {| data := 0; width := 1; height := 1 |}.

(** A 3 by 3 image: a bright centre on a dark ground. *)
Definition nine_pixel_world : World :=
  {| heap := [ [10; 10; 10; 255;  10; 10; 10; 255;  10; 10; 10; 255;
                10; 10; 10; 255;  100; 60; 20; 255; 10; 10; 10; 255;
                10; 10; 10; 255;  10; 10; 10; 255;  10; 10; 10; 255] ];
     decode_log := []; isInitialized := true |}.
Definition nine_pixel : ImageData := {| data := 0; width := 3; height := 3 |}.

(** The origin of an image. *)
Definition origin : Point := {| pt_x := 0; pt_y := 0 |}.

(** A decode result with text [text] whose top-left corner is [(x, y)]. *)
Definition code_at (text : jsstring) (x y : Q) : QRCode :=
  {| code_data := text;
     code_location :=
       {| topLeftCorner := {| pt_x := x; pt_y := y |};
          topRightCorner := {| pt_x := x + 10; pt_y := y |};
          bottomLeftCorner := {| pt_x := x; pt_y := y + 10 |} |} |}.

Definition one_pixel_raw : RawImage :=
  {| raw_data := [129; 0; 0; 255]; raw_width := 1; raw_height := 1 |}.

(** A canvas of one pixel that cannot be rescaled. *)
Definition one_pixel_canvas : Canvas :=
  {| canvas_width := 1; canvas_height := 1; getContext2d := true;
     read_pixels := fun _ _ _ _ => Some one_pixel_raw;
     scaled_pixels := fun _ => None |}.


(** A decoder that only reads the contrast-enhanced pixel (red 130). *)
Definition contrast_only_env : Env :=
  {| jsQR_lib := fun raw _ =>
       if bool_decide (raw_data raw = [130; 0; 0; 255])
       then Returned (Some (code_at (js "hello world") 0 0))
       else Returned None;
     scanImage := fun _ => Thrown (js "No QR code found");
     loadImage := fun _ => None |}.

Definition fresh_world : World :=
  {| heap := []; decode_log := []; isInitialized := true |}.

(** A decoder that reads the payload "A" at the origin of any image. *)
Definition always_A_env : Env :=
  {| jsQR_lib := fun _ _ => Returned (Some (code_at (js "A") 0 0));
     scanImage := fun _ => Thrown (js "No QR code found");
     loadImage := fun _ => None |}.

(** A decoder that finds nothing and an image loader that always fails. *)
Definition blind_env : Env :=
  {| jsQR_lib := fun _ _ => Returned None;
     scanImage := fun _ => Thrown (js "No QR code found");
     loadImage := fun _ => None |}.



(** All three stages are done after 300 ms. *)
Definition quick_clock : MultiClock :=
  {| m_start := 0; m_canvas := 0; m_gate_grid := 100;
     m_gate_window := 200; m_settle := 300 |}.

(** The recognition settles after 120 ms. *)
Definition timely_clock : SingleClock :=
  {| s_start := 0; s_gate := 50; s_settle := 120; s_timer := None |}.



End Spec.
Import Spec.

From Stdlib Require Import Lqa Sorted.
From Stdlib Require SpecFloat.


(** * The rest of the service and its callers *)

(** ** What a regular expression matches *)
Module RegexSemantics.

Inductive matches : regex -> jsstring -> Prop :=
| matches_eps : matches Eps []
| matches_cls p c : p c = true -> matches (Cls p) [c]
| matches_cat r1 r2 s1 s2 :
    matches r1 s1 -> matches r2 s2 -> matches (Cat r1 r2) (s1 ++ s2)
| matches_alt_l r1 r2 s : matches r1 s -> matches (Alt r1 r2) s
| matches_alt_r r1 r2 s : matches r2 s -> matches (Alt r1 r2) s
| matches_star_nil r : matches (Star r) []
| matches_star_cons r s1 s2 :
    matches r s1 -> matches (Star r) s2 -> matches (Star r) (s1 ++ s2).

(** The code units of an ASCII literal. *)
Definition codes (s : string) : jsstring :=
  map N_of_ascii (list_ascii_of_string s).

(** Every code unit of [s] is in the class [p]. *)
Definition all_in (p : N -> bool) (s : jsstring) : Prop :=
  Forall (fun c => p c = true) s.

(** [s] is [a @ b . c] with [a], [b], [c] non-empty and free of [@]. *)
Definition bare_email_shape (s : jsstring) : Prop :=
  exists a b c,
    s = a ++ [64%N] ++ b ++ [46%N] ++ c
    /\ a <> [] /\ b <> [] /\ c <> []
    /\ all_in not_at a /\ all_in not_at b /\ all_in not_at c.

(** [s] is an optional [+] and at least seven phone characters. *)
Definition bare_phone_shape (s : jsstring) : Prop :=
  exists body,
    (s = body \/ s = 43%N :: body)
    /\ all_in phone_char body /\ (7 <= length body)%nat.

(** [s] is [http://] or [https://] and a character that does not end
  a line, followed by anything. *)
Definition url_shape (s : jsstring) : Prop :=
  exists c rest,
    dot c = true
    /\ (s = js "http://" ++ c :: rest \/ s = js "https://" ++ c :: rest).

End RegexSemantics.
Import RegexSemantics.

(** ** Helpers of the recognition service *)
Module Helpers.

(** One iteration of the loop of [mergeAndDeduplicateResults]; the state
  is the pair [(uniqueResults, seenData)]. *)
Definition merge_step (st : list QRResult * gset jsstring) (result : QRResult)
  : list QRResult * gset jsstring :=
  let '(uniqueResults, seenData) := st in
  if negb (has_key seenData (serialNumber result))
     && negb (falsy (serialNumber result))
  then (uniqueResults ++ [result], {[serialNumber result]} ∪ seenData)
  else (uniqueResults, seenData).

Definition mergeAndDeduplicateResults (results : list QRResult)
  : list QRResult :=
  (foldl merge_step ([], ∅) results).1.

Record Rect := { x : Z; y : Z; rect_width : Z; rect_height : Z }.

(** [divideImageIntoRegions], on integer arguments. For [cols <= 0] or
  [rows <= 0] no iteration runs and the quotients are not used. *)
Definition divideImageIntoRegions (width height rows cols : Z) : list Rect :=
  let regionWidth := width / cols in
  let regionHeight := height / rows in
  row ← seqZ 0 rows;
  col ← seqZ 0 cols;
  [ {| x := col * regionWidth; y := row * regionHeight;
       rect_width := regionWidth; rect_height := regionHeight |} ].

(** The pixel [(px, py)] lies in the rectangle. *)
Definition covers (r : Rect) (px py : Z) : Prop :=
  x r <= px < x r + rect_width r /\ y r <= py < y r + rect_height r.

(** The payloads of [rs] that precede position [i]. *)
Definition earlier_payloads (rs : list QRResult) (i : nat) : list jsstring :=
  serialNumber <$> take i rs.

End Helpers.
Import Helpers.

(** ** Statements about the transforms *)
Module TransformFacts.

(** The samples a typed array of 8-bit values can hold. *)
Definition bytes (a : list Z) : Prop := Forall (fun v => 0 <= v <= 255) a.

Definition saturate (z : Z) : Z := Z.min 255 (Z.max 0 z).

(** Every pixel has the colour [colour 0, colour 1, colour 2]; the alpha
  samples are free. *)
Definition uniform (a : list Z) (width height : Z) (colour : Z -> Z) : Prop :=
  forall y x c, 0 <= y < height -> 0 <= x < width -> 0 <= c < 3 ->
    at_index a (offset width y x c) = colour c.

(** A 3 by 3 image of one colour, with varying alpha. *)
Definition flat_world : World :=
  {| heap := [ [90; 60; 30; 255;  90; 60; 30; 128;  90; 60; 30; 255;
                90; 60; 30; 0;    90; 60; 30; 255;  90; 60; 30; 255;
                90; 60; 30; 255;  90; 60; 30; 7;    90; 60; 30; 255] ];
     decode_log := []; isInitialized := true |}.

End TransformFacts.
Import TransformFacts.

(** ** What a computation does to the store and the decoder log *)
Module Effects.

(** [w'] comes after [w]: the arrays of [w] are in place and unchanged,
  the decoder log of [w] was extended by at most [n] calls, and an
  initialized service stays initialized. *)
Definition extends_by (n : nat) (w w' : World) : Prop :=
  (exists arrays, heap w' = heap w ++ arrays)
  /\ (exists calls, decode_log w' = decode_log w ++ calls
                    /\ (length calls <= n)%nat)
  /\ (isInitialized w = true -> isInitialized w' = true).

(** However [m] ends, it has only added arrays and at most [n] decoder
  calls. *)
Definition grows {A} (n : nat) (m : M A) : Prop :=
  forall w, extends_by n w (m w).2.

(** [m] returns and changes nothing but the content of the array that
  follows the arrays [h]. *)
Definition touches_newest {A} (h : list (list Z)) (m : M A) : Prop :=
  forall w a, exists r a', m (with_new w h a) = (Ok r, with_new w h a').

(** The windows the sliding-window stage visits on a canvas. *)
Definition windows (canvas : Canvas) : list (Q * Q) :=
  let width := inject_Z (canvas_width canvas) in
  let height := inject_Z (canvas_height canvas) in
  let windowSize := (Qmin width height * (4 # 10))%Q in
  default [] (window_origins width height windowSize (windowSize * (6 # 10))%Q).

(** The decoder calls one multi-code recognition can make on a canvas:
  three on the full frame, nine on the grid, one per window. *)
Definition multi_budget (canvas : Canvas) : nat := 3 + 9 + length (windows canvas).

End Effects.
Import Effects.

(** ** More concrete inputs *)
Module Inputs.

(** A one-pixel canvas that can be rescaled. *)
Definition scalable_canvas : Canvas :=
  {| canvas_width := 1; canvas_height := 1; getContext2d := true;
     read_pixels := fun _ _ _ _ => Some one_pixel_raw;
     scaled_pixels := fun _ => Some one_pixel_raw |}.

(** Every image source loads, the scanner rejects and the decoder finds
  nothing. *)
Definition unreadable_env : Env :=
  {| jsQR_lib := fun _ _ => Returned None;
     scanImage := fun _ => Thrown (js "No QR code found");
     loadImage := fun _ => Some scalable_canvas |}.

(** The scanner reads the payload "A" at once. *)
Definition scanner_env : Env :=
  {| jsQR_lib := fun _ _ => Returned None;
     scanImage := fun _ => Returned (js "A");
     loadImage := fun _ => Some scalable_canvas |}.

End Inputs.
Import Inputs.

(** ** The geometry of the sliding windows *)
Module Windows.

(** Side of the windows on a canvas. *)
Definition window_size (canvas : Canvas) : Q :=
  Qmin (inject_Z (canvas_width canvas)) (inject_Z (canvas_height canvas))
  * (4 # 10).

(** The window with origin [o] lies inside the canvas. *)
Definition inside (canvas : Canvas) (o : Q * Q) : Prop :=
  (0 <= o.1 /\ o.1 + window_size canvas <= inject_Z (canvas_width canvas)
   /\ 0 <= o.2 /\ o.2 + window_size canvas <= inject_Z (canvas_height canvas))%Q.

(** A canvas of [n] by [n] pixels showing [raw] in every region. *)
Definition square_canvas (n : Z) (raw : RawImage) : Canvas :=
  {| canvas_width := n; canvas_height := n; getContext2d := true;
     read_pixels := fun _ _ _ _ => Some raw;
     scaled_pixels := fun _ => None |}.

End Windows.
Import Windows.

(** ** The sliding-window stage without its batches *)
Module Unbatched.
Section WithEnv.
Context (env : Env).

(** [!foundPositions.has(positionKey)] for the window at [o]. *)
Definition unseen (foundPositions : gset jsstring) (o : Q * Q) : bool :=
  negb (has_key foundPositions (position_key o.1 o.2)).

(** The body of the two nested loops of [optimizedSlidingWindow] and
  the flush after them, on the window origins [(x, y)] in the order
  the loops visit them: a scan is started for each unseen window, and
  a batch of six scans is awaited and emptied into [results]. *)
Definition window_loop (ctx : option Canvas) (foundPositions : gset jsstring)
    (windowSize : Q) (origins : list (Q * Q)) : M (list QRResult) :=
  let* '(results, scanPromises) :=
    foldM (window_step env ctx foundPositions windowSize) ([], []) origins in
  if (0 <? length scanPromises)%nat
  then ret (results ++ non_null scanPromises)
  else ret results.

(** The scans of the unseen windows, one after the other, and the
  decodes among them. *)
Definition scan_windows (ctx : option Canvas) (foundPositions : gset jsstring)
    (windowSize : Q) (origins : list (Q * Q)) : M (list QRResult) :=
  let* scans :=
    mapM (fun o => scanRegionAsync env ctx o.1 o.2 windowSize windowSize o.1 o.2)
      (filter (fun o => unseen foundPositions o = true) origins) in
  ret (non_null scans).

End WithEnv.
End Unbatched.
Import Unbatched.

(** ** The loop counters as IEEE 754 doubles *)
Module Doubles.

Definition prec : Z := 53.
Definition emax : Z := 1024.

(** The double of an integer. *)
Definition of_Z (z : Z) : SpecFloat.spec_float :=
  SpecFloat.binary_normalize prec emax z 0 false.

(** The double of the decimal literal [num / den]. *)
Definition literal (num den : Z) : SpecFloat.spec_float :=
  SpecFloat.SFdiv prec emax (of_Z num) (of_Z den).

(** The rational value of a finite double. *)
Definition to_Q (v : SpecFloat.spec_float) : Q :=
  match v with
  | SpecFloat.S754_finite s m e =>
    Qred (inject_Z (if s then Z.neg m else Z.pos m) * Qpower 2 e)
  | _ => 0
  end.

(** Values of the counter of [for (v = 0; v <= limit; v += step)],
  from [v] on; [None] when [fuel] iterations do not end the loop. *)
Fixpoint counter_values (fuel : nat) (v limit step : SpecFloat.spec_float)
  : option (list SpecFloat.spec_float) :=
  match fuel with
  | O => None
  | S fuel =>
    if SpecFloat.SFleb v limit
    then cons v <$>
           counter_values fuel (SpecFloat.SFadd prec emax v step) limit step
    else Some []
  end.

(** [Math.min(width, height) * 0.4] *)
Definition window_size (width height : Z) : SpecFloat.spec_float :=
  SpecFloat.SFmul prec emax (of_Z (Z.min width height)) (literal 4 10).

(** [windowSize * 0.6] *)
Definition step_size (width height : Z) : SpecFloat.spec_float :=
  SpecFloat.SFmul prec emax (window_size width height) (literal 6 10).

(** Window origins in the order the nested loops of
  [optimizedSlidingWindow] visit them on a canvas of [width] by
  [height] pixels. *)
Definition window_origins (fuel : nat) (width height : Z)
  : option (list (Q * Q)) :=
  let windowSize := window_size width height in
  let stepSize := step_size width height in
  match counter_values fuel (of_Z 0)
          (SpecFloat.SFsub prec emax (of_Z height) windowSize) stepSize with
  | None => None
  | Some [] => Some []
  | Some ys =>
    match counter_values fuel (of_Z 0)
            (SpecFloat.SFsub prec emax (of_Z width) windowSize) stepSize with
    | None => None
    | Some xs => Some (y ← ys; (fun x => (to_Q x, to_Q y)) <$> xs)
    end
  end.

(** A canvas of 480 by 120 pixels. *)
Definition wide_canvas : Canvas :=
  {| canvas_width := 480; canvas_height := 120; getContext2d := true;
     read_pixels := fun _ _ _ _ => Some one_pixel_raw;
     scaled_pixels := fun _ => None |}.

End Doubles.

(** ** Where a reported payload comes from *)
Module Provenance.

(** The decoder returns [text] for some pixel buffer. *)
Definition decodable (env : Env) (text : jsstring) : Prop :=
  exists raw mode c,
    jsQR_lib env raw mode = Returned (Some c) /\ code_data c = text.

(** [text] is what the scanner reads in [imageData] or what the decoder
  returns for some pixel buffer. *)
Definition readable (env : Env) (imageData : ImageInput) (text : jsstring)
  : Prop :=
  scanImage env imageData = Returned text \/ decodable env text.

(** A result of the multi-code recognizer: the record of a decode, with
  a position. *)
Definition genuine (env : Env) (r : QRResult) : Prop :=
  exists text pos, r = decoded text (Some pos) /\ decodable env text.

(** The payload of a single-image result, when there is one, was read
  from the image. *)
Definition sourced (env : Env) (imageData : ImageInput) (r : QRResult) : Prop :=
  serialNumber r <> [] -> readable env imageData (serialNumber r).

(** The scanner reads "S" and the decoder "D". *)
Definition two_reader_env : Env :=
  {| jsQR_lib := fun _ _ => Returned (Some (code_at (js "D") 0 0));
     scanImage := fun _ => Returned (js "S");
     loadImage := fun _ => Some scalable_canvas |}.

End Provenance.
Import Provenance.

(** ** Batch recognition of a list of images *)
Module Batch.

(** Readings of [Date.now()] along one call of [recognizeImages]: at
  its start and after the batch that starts at a given index; the
  recognition of each image reads its own clock. *)
Record BatchClock := {
  b_start : Z;
  b_image : nat -> SingleClock;
  b_after : nat -> Z
}.

(** Indices visited by [for (let i = 0; i < n; i += 3)]. *)
Definition by_threes (n : nat) : list nat :=
  (fun k => 3 * k)%nat <$> seq 0 ((n + 2) / 3).

(** The record stored when the recognition of an image throws. *)
Definition failed_record : QRResult := empty_result (js "识别失败") 0.

Section WithEnv.
Context (env : Env).

(** The body of the [async] arrow for one image: [results] is the array
  the arrows fill in; the index is within its length. The progress
  callback, when one is given, is taken to return. *)
Definition recognize_into (clk : BatchClock) (results : list (option QRResult))
    (globalIndex : nat) (imageData : jsstring) : M (list (option QRResult)) :=
  try_catch
    (let* result :=
       recognizeImage env (b_image clk globalIndex) (FromString imageData) in
     ret (<[globalIndex := Some result]> results))
    (fun _ => ret (<[globalIndex := Some failed_record]> results)).

(** [batch.map(...)] and [Promise.all]: the promises of a batch are run
  one after the other. *)
Fixpoint run_batch (clk : BatchClock) (i batchIndex : nat)
    (batch : list jsstring) (results : list (option QRResult))
  : M (list (option QRResult)) :=
  match batch with
  | [] => ret results
  | imageData :: batch' =>
    let* results := recognize_into clk results (i + batchIndex) imageData in
    run_batch clk i (S batchIndex) batch' results
  end.

(** [Date.now() - startTime > imageDataList.length * 2000] after the
  batch at [i]. *)
Definition out_of_time (clk : BatchClock) (n i : nat) : bool :=
  Z.of_nat n * 2000 <? b_after clk i - b_start clk.

Fixpoint batch_loop (clk : BatchClock) (imageDataList : list jsstring)
    (indices : list nat) (results : list (option QRResult))
  : M (list (option QRResult)) :=
  match indices with
  | [] => ret results
  | i :: indices' =>
    let batch := take 3 (drop i imageDataList) in
    let* results := run_batch clk i 0 batch results in
    if out_of_time clk (length imageDataList) i then ret results
    else batch_loop clk imageDataList indices' results
  end.

Definition recognizeImages (clk : BatchClock) (imageDataList : list jsstring)
  : M (list QRResult) :=
  let results := replicate (length imageDataList) None in
  let* results :=
    batch_loop clk imageDataList (by_threes (length imageDataList)) results in
  ret (non_null results).

(** The single-image recognizer on the images one after the other, the
  image at place [k] with the clock of its place, and the list of what
  it returns. *)
Fixpoint recognize_in_turn (clk : BatchClock) (k : nat)
    (imageDataList : list jsstring) : M (list QRResult) :=
  match imageDataList with
  | [] => ret []
  | imageData :: rest =>
    let* result :=
      recognizeImage env (b_image clk k) (FromString imageData) in
    let* results := recognize_in_turn clk (S k) rest in
    ret (result :: results)
  end.

End WithEnv.

(** How far the loop gets: three images per batch, up to and including
  the first batch after which the time is up. *)
Fixpoint reached (clk : BatchClock) (n : nat) (indices : list nat) : nat :=
  match indices with
  | [] => 0
  | i :: indices' =>
    3 + (if out_of_time clk n i then 0 else reached clk n indices')
  end.

(** The time is never up: every reading is the start. *)
Definition still_clock : BatchClock :=
  {| b_start := 0; b_image := fun _ => timely_clock; b_after := fun _ => 0 |}.

(** The time is up after the first batch. *)
Definition slow_clock : BatchClock :=
  {| b_start := 0; b_image := fun _ => timely_clock;
     b_after := fun _ => 100000 |}.

End Batch.
Import Batch.

(** ** Scanning a camera frame *)
Module Camera.

(** An [HTMLVideoElement] and what the browser answers for it:
  - [videoWidth], [videoHeight]: the intrinsic size of the stream;
  - [attr_width], [attr_height]: its [width] and [height] attributes;
  - [scan_video]: how [QrScanner.scanImage(videoElement)] settles;
  - [new_context]: whether a fresh canvas yields a 2d context;
  - [frame_pixels w h], [frame_scaled w h]: what is read back from a
    canvas of [w] by [h] on which the frame was drawn ([None] when the
    call throws), and from its rescaled copies. *)
Record Video := {
  videoWidth : Z;
  videoHeight : Z;
  attr_width : Z;
  attr_height : Z;
  scan_video : Result jsstring;
  new_context : bool;
  frame_pixels : Z -> Z -> Q -> Q -> Q -> Q -> option RawImage;
  frame_scaled : Z -> Z -> Q -> option RawImage
}.

(** [a || b || c] on numbers: the first that is not 0. *)
Definition first_truthy (a b c : Z) : Z :=
  if negb (a =? 0) then a else if negb (b =? 0) then b else c.

(** The canvas that holds the frame. *)
Definition frame_canvas (videoElement : Video) : Canvas :=
  let width :=
    first_truthy (videoWidth videoElement) (attr_width videoElement) 640 in
  let height :=
    first_truthy (videoHeight videoElement) (attr_height videoElement) 480 in
  {| canvas_width := width; canvas_height := height;
     getContext2d := new_context videoElement;
     read_pixels := frame_pixels videoElement width height;
     scaled_pixels := frame_scaled videoElement width height |}.

Definition camera_failure : jsstring := js "相机二维码识别失败".

Section WithEnv.
Context (env : Env).

Definition scanFromCamera (videoElement : Video) : M jsstring :=
  ensure_initialized ;;;
  try_catch
    (fun w => (outcome_of (scan_video videoElement), w))
    (fun _ =>
       try_catch
         (let canvas := frame_canvas videoElement in
          match getContext canvas with
          | None => throw (js "无法创建 Canvas 上下文")
          | Some ctx =>
            let* result := tryMultipleRecognitionStrategies env canvas (Some ctx) in
            match result with
            | Some text => if negb (falsy text) then ret text
                           else throw (js "未检测到二维码")
            | None => throw (js "未检测到二维码")
            end
          end)
         (fun _ => throw camera_failure)).

End WithEnv.

(** A stream without a size, which the scanner cannot read. *)
Definition dark_video : Video :=
  {| videoWidth := 0; videoHeight := 0; attr_width := 0; attr_height := 0;
     scan_video := Thrown (js "No QR code found");
     new_context := true;
     frame_pixels := fun _ _ _ _ _ _ => Some one_pixel_raw;
     frame_scaled := fun _ _ _ => Some one_pixel_raw |}.

(** A stream the scanner reads. *)
Definition bright_video : Video :=
  {| videoWidth := 1280; videoHeight := 720; attr_width := 0; attr_height := 0;
     scan_video := Returned (js "https://example.org");
     new_context := true;
     frame_pixels := fun _ _ _ _ _ _ => Some one_pixel_raw;
     frame_scaled := fun _ _ _ => Some one_pixel_raw |}.

End Camera.
Import Camera.

(** ** The text recognition service *)
Module OCR.

(** *** Patterns of quantified character classes

  The serial-number patterns are sequences of classes with a greedy
  quantifier [{min,}] or [{min,max}]; [String.prototype.match] with the
  [g] flag returns the successive leftmost matches. *)
Record Atom := {
  atom_class : N -> bool;
  rep_min : nat;
  rep_max : option nat
}.

Abbreviation Pattern := (list Atom).

(** Number of leading code units of [s] in the class. *)
Fixpoint run_length (p : N -> bool) (s : jsstring) : nat :=
  match s with
  | c :: s' => if p c then S (run_length p s') else 0
  | [] => 0
  end.

(** The repetition counts a greedy quantifier tries, largest first. *)
Definition counts (a : Atom) (s : jsstring) : list nat :=
  let avail :=
    match rep_max a with
    | Some m => Nat.min m (run_length (atom_class a) s)
    | None => run_length (atom_class a) s
    end in
  reverse (seq (rep_min a) (S avail - rep_min a)).

(** The length of the match of [p] at the start of [s], with
  backtracking over the counts. *)
Fixpoint match_here (p : Pattern) (s : jsstring) : option nat :=
  match p with
  | [] => Some 0%nat
  | a :: p' =>
    foldr (fun k later =>
             match match_here p' (drop k s) with
             | Some m => Some (k + m)%nat
             | None => later
             end)
      None (counts a s)
  end.

(** The successive matches from the start of [s]; after a match the
  search resumes behind it (one code unit further after an empty
  match). *)
Fixpoint matches_from (fuel : nat) (p : Pattern) (s : jsstring)
  : list jsstring :=
  match fuel, s with
  | S fuel', c :: s' =>
    match match_here p s with
    | Some (S m) => take (S m) s :: matches_from fuel' p (drop (S m) s)
    | Some O => [] :: matches_from fuel' p s'
    | None => matches_from fuel' p s'
    end
  | _, _ => []
  end.

(** [s.match(/p/g)] for a pattern that does not match the empty
  string; the empty list stands for [null]. *)
Definition match_all (p : Pattern) (s : jsstring) : list jsstring :=
  matches_from (length s) p s.

Definition upper (c : N) : bool := ((65 <=? c) && (c <=? 90))%N.
Definition lower (c : N) : bool := ((97 <=? c) && (c <=? 122))%N.
Definition alnum (c : N) : bool := upper c || lower c || digit c.
Definition upper_or_digit (c : N) : bool := upper c || digit c.

Definition at_least_of (p : N -> bool) (n : nat) : Atom :=
  {| atom_class := p; rep_min := n; rep_max := None |}.
Definition exactly (p : N -> bool) (n : nat) : Atom :=
  {| atom_class := p; rep_min := n; rep_max := Some n |}.

(** The five serial-number patterns, in the order they are tried. *)
Definition patterns : list Pattern :=
  [ [at_least_of upper_or_digit 8];
    [exactly upper 2; at_least_of digit 6];
    [at_least_of digit 10];
    [exactly upper 1; at_least_of digit 7];
    [exactly digit 4; exactly upper 2; exactly digit 4] ].

(** [/[A-Z0-9]+/g] *)
Definition any_run : Pattern := [at_least_of upper_or_digit 1].

(** [toUpperCase] on the code units that are left after the filter. *)
Definition toUpperCase (s : jsstring) : jsstring :=
  (fun c => if lower c then (c - 32)%N else c) <$> s.

(** [text.replace(/\s+/g, '').replace(/[^A-Za-z0-9]/g, '').toUpperCase()] *)
Definition clean (text : jsstring) : jsstring :=
  toUpperCase
    (filter (fun c => alnum c = true)
       (filter (fun c => white_space c = false) text)).

(** [matches.reduce((longest, current) =>
       current.length > longest.length ? current : longest)] *)
Definition longest (first : jsstring) (others : list jsstring) : jsstring :=
  foldl (fun longest current =>
           if (length longest <? length current)%nat then current else longest)
    first others.

(** The loop over [patterns]: the longest match of the first pattern
  that matches. *)
Fixpoint first_match (ps : list Pattern) (cleanText : jsstring)
  : option jsstring :=
  match ps with
  | [] => None
  | pattern :: ps' =>
    match match_all pattern cleanText with
    | m :: ms => Some (longest m ms)
    | [] => first_match ps' cleanText
    end
  end.

Definition extractSerialNumber (text : jsstring) : jsstring :=
  if falsy text then []
  else
    let cleanText := clean text in
    match first_match patterns cleanText with
    | Some found => found
    | None =>
      match match_all any_run cleanText with
      | m :: ms =>
        let longest := longest m ms in
        if (6 <=? length longest)%nat then longest else []
      | [] => []
      end
    end.

(** The least length of a match. *)
Definition min_length (p : Pattern) : nat := foldr (fun a n => rep_min a + n)%nat 0%nat p.

End OCR.

(** *** The service around the text recognition engine *)
Module TextService.

(** What the engine answers:
  - [createWorker]: whether [Tesseract.createWorker] resolves;
  - [setParameters], [terminate_worker]: the calls on the worker;
  - [recognize]: [data.text] and [data.confidence] for an image. *)
Record Engine := {
  createWorker : Result unit;
  setParameters : Result unit;
  terminate_worker : Result unit;
  recognize : jsstring -> Result (jsstring * Q)
}.

(** The fields of the service: [worker] is [this.worker !== null]. *)
Record State := {
  worker : bool;
  isInitialized : bool
}.

Record OCRResult := {
  serialNumber : jsstring;
  confidence : Q;
  processingTime : Z
}.

Definition Step (A : Type) : Type := State -> Outcome A * State.

Section WithEngine.
Context (engine : Engine).

Definition initialize : Step unit :=
  fun st =>
    if isInitialized st && worker st then (Ok tt, st)
    else
      match createWorker engine with
      | Thrown _ => (Throw (js "OCR引擎初始化失败"), st)
      | Returned _ =>
        let st1 := {| worker := true; isInitialized := isInitialized st |} in
        match setParameters engine with
        | Thrown _ => (Throw (js "OCR引擎初始化失败"), st1)
        | Returned _ => (Ok tt, {| worker := true; isInitialized := true |})
        end
      end.

(** [startTime] and [endTime] are the readings of [Date.now()] before
  and after the engine call. *)
Definition recognizeImage (startTime endTime : Z) (imageData : jsstring)
  : Step OCRResult :=
  fun st =>
    let '(ready, st1) :=
      if negb (isInitialized st) || negb (worker st) then initialize st
      else (Ok tt, st) in
    match ready with
    | Ok _ =>
      match recognize engine imageData with
      | Returned (text, confidence) =>
        (Ok {| serialNumber := OCR.extractSerialNumber text;
               confidence := confidence / 100;
               processingTime := endTime - startTime |}, st1)
      | Thrown _ => (Throw (js "图片识别失败"), st1)
      end
    | Throw e => (Throw e, st1)
    | Hang => (Hang, st1)
    end.

Definition blank : OCRResult :=
  {| serialNumber := []; confidence := 0; processingTime := 0 |}.

(** The loop of [recognizeImages]; [clock k] gives the two readings
  for the image at position [k]. *)
Fixpoint recognize_each (clock : nat -> Z * Z) (k : nat)
    (imageDataList : list jsstring) (results : list OCRResult)
  : Step (list OCRResult) :=
  fun st =>
    match imageDataList with
    | [] => (Ok results, st)
    | imageData :: rest =>
      match recognizeImage (clock k).1 (clock k).2 imageData st with
      | (Ok result, st1) =>
        recognize_each clock (S k) rest (results ++ [result]) st1
      | (Throw _, st1) =>
        recognize_each clock (S k) rest (results ++ [blank]) st1
      | (Hang, st1) => (Hang, st1)
      end
    end.

Definition recognizeImages (clock : nat -> Z * Z)
    (imageDataList : list jsstring) : Step (list OCRResult) :=
  recognize_each clock 0 imageDataList [].

Definition terminate : Step unit :=
  fun st =>
    if worker st then
      match terminate_worker engine with
      | Returned _ => (Ok tt, {| worker := false; isInitialized := false |})
      | Thrown e => (Throw e, st)
      end
    else (Ok tt, st).

End WithEngine.

(** The record for [imageData] is what the engine read, or the blank
  record. *)
Definition record_of (engine : Engine) (imageData : jsstring)
    (r : OCRResult) : Prop :=
  r = blank
  \/ exists text c,
       recognize engine imageData = Returned (text, c)
       /\ serialNumber r = OCR.extractSerialNumber text
       /\ confidence r = (c / 100)%Q.

Definition idle : State := {| worker := false; isInitialized := false |}.
Definition ready : State := {| worker := true; isInitialized := true |}.

(** An engine that reads a serial number in every image but one. *)
Definition label_engine : Engine :=
  {| createWorker := Returned tt; setParameters := Returned tt;
     terminate_worker := Returned tt;
     recognize := fun img =>
       if bool_decide (img = js "blurred.png") then Thrown (js "cannot read")
       else Returned (js "S/N: ab-1234 56", 87%Q) |}.

(** An engine that cannot be started. *)
Definition broken_engine : Engine :=
  {| createWorker := Thrown (js "network error"); setParameters := Returned tt;
     terminate_worker := Returned tt;
     recognize := fun _ => Returned (js "S/N: ab-1234 56", 87%Q) |}.

End TextService.

(** ** The application store *)
Module Store.

Inductive Status := success | failed | pending.

(** A row of the history ([RecognitionResult]). *)
Record RecognitionResult := {
  id : jsstring;
  image : jsstring;
  serialNumber : jsstring;
  confidence : Q;
  status : Status;
  timestamp : Z;
  processingTime : option Z;
  originalFileName : option jsstring;
  qrType : option string;
  qrDescription : option jsstring;
  qrResults : option (list QRResult);
  totalFound : option nat
}.

Inductive Language := zh_CN | en_US.
Inductive Format := QR_CODE | DATA_MATRIX | AZTEC | PDF_417.

Record AppSettings := {
  language : Language;
  qrCodeFormats : list Format;
  min_confidence : Q;
  autoSave : bool;
  maxBatchSize : Z;
  processingDelay : Z;
  imageQuality : Q;
  enableFlash : bool;
  autoFocus : bool;
  enableVibration : bool;
  enableSound : bool
}.

(** [Partial<AppSettings>]: [None] for a key that is not given. *)
Record PartialSettings := {
  p_language : option Language;
  p_qrCodeFormats : option (list Format);
  p_confidence : option Q;
  p_autoSave : option bool;
  p_maxBatchSize : option Z;
  p_processingDelay : option Z;
  p_imageQuality : option Q;
  p_enableFlash : option bool;
  p_autoFocus : option bool;
  p_enableVibration : option bool;
  p_enableSound : option bool
}.

Definition defaultSettings : AppSettings :=
  {| language := zh_CN; qrCodeFormats := [QR_CODE]; min_confidence := 7 # 10;
     autoSave := true; maxBatchSize := 20; processingDelay := 500;
     imageQuality := 8 # 10; enableFlash := true; autoFocus := true;
     enableVibration := true; enableSound := false |}.

Record AppState := {
  results : list RecognitionResult;
  settings : AppSettings
}.

Definition initial : AppState := {| results := []; settings := defaultSettings |}.

Definition addResult (result : RecognitionResult) (state : AppState) : AppState :=
  {| results := result :: results state; settings := settings state |}.

Definition removeResult (id' : jsstring) (state : AppState) : AppState :=
  {| results := filter (fun result => id result <> id') (results state);
     settings := settings state |}.

Definition clearHistory (state : AppState) : AppState :=
  {| results := []; settings := settings state |}.

(** [{ ...state.settings, ...newSettings }] *)
Definition spread (old : AppSettings) (new : PartialSettings) : AppSettings :=
  {| language := default (language old) (p_language new);
     qrCodeFormats := default (qrCodeFormats old) (p_qrCodeFormats new);
     min_confidence := default (min_confidence old) (p_confidence new);
     autoSave := default (autoSave old) (p_autoSave new);
     maxBatchSize := default (maxBatchSize old) (p_maxBatchSize new);
     processingDelay := default (processingDelay old) (p_processingDelay new);
     imageQuality := default (imageQuality old) (p_imageQuality new);
     enableFlash := default (enableFlash old) (p_enableFlash new);
     autoFocus := default (autoFocus old) (p_autoFocus new);
     enableVibration := default (enableVibration old) (p_enableVibration new);
     enableSound := default (enableSound old) (p_enableSound new) |}.

Definition updateSettings (newSettings : PartialSettings) (state : AppState)
  : AppState :=
  {| results := results state; settings := spread (settings state) newSettings |}.

(** The keys of [b] over those of [a]. *)
Definition over {A} (a b : option A) : option A :=
  match b with Some _ => b | None => a end.

Definition combine (a b : PartialSettings) : PartialSettings :=
  {| p_language := over (p_language a) (p_language b);
     p_qrCodeFormats := over (p_qrCodeFormats a) (p_qrCodeFormats b);
     p_confidence := over (p_confidence a) (p_confidence b);
     p_autoSave := over (p_autoSave a) (p_autoSave b);
     p_maxBatchSize := over (p_maxBatchSize a) (p_maxBatchSize b);
     p_processingDelay := over (p_processingDelay a) (p_processingDelay b);
     p_imageQuality := over (p_imageQuality a) (p_imageQuality b);
     p_enableFlash := over (p_enableFlash a) (p_enableFlash b);
     p_autoFocus := over (p_autoFocus a) (p_autoFocus b);
     p_enableVibration := over (p_enableVibration a) (p_enableVibration b);
     p_enableSound := over (p_enableSound a) (p_enableSound b) |}.

Definition ids (state : AppState) : list jsstring := id <$> results state.

End Store.

(** ** Selecting the images to process *)
Module Upload.

Record File := {
  name : jsstring;
  type : jsstring;
  size : Z
}.

(** The filter of [handleFileSelect]. *)
Definition valid (file : File) : bool :=
  starts_with (js "image/") (type file) && negb (10 * 1024 * 1024 <? size file).

(** [xs.slice(0, n)] for an integer [n]: a negative [n] counts from the
  end. *)
Definition slice0 {A} (n : Z) (xs : list A) : list A :=
  if 0 <=? n then take (Z.to_nat n) xs
  else take (length xs - Z.to_nat (- n)) xs.

(** The new selection; [None] when the handler returns without
  touching it ([files] is [null]). *)
Definition handleFileSelect (multiple : bool) (maxFiles : Z)
    (selectedFiles : list File) (files : option (list File))
  : option (list File) :=
  match files with
  | None => None
  | Some fileArray =>
    let validFiles := filter (fun file => valid file = true) fileArray in
    if multiple then Some (slice0 maxFiles (selectedFiles ++ validFiles))
    else Some (slice0 1 validFiles)
  end.

(** [selectedFiles.filter((_, i) => i !== index)] *)
Definition removeFile (index : Z) (selectedFiles : list File) : list File :=
  omap id (imap (fun i file => if Z.of_nat i =? index then None else Some file)
             selectedFiles).

End Upload.

(** ** The batch page *)
Module Page.
Import Store.

(** Readings of [Date.now()] along one call of [processImage], and the
  clocks of the two recognitions it may start. *)
Record PageClock := {
  p_id : Z;
  p_timestamp : Z;
  p_start : Z;
  p_end : Z;
  p_multi : MultiClock;
  p_single : SingleClock
}.

(** [`${Date.now()}-${index}`] *)
Definition result_id (now : Z) (index : nat) : jsstring :=
  string_of_Z now ++ js "-" ++ string_of_Z (Z.of_nat index).

Definition initialResult (clk : PageClock) (file : Upload.File) (index : nat)
    (imageData : jsstring) : RecognitionResult :=
  {| id := result_id (p_id clk) index; image := imageData;
     serialNumber := []; confidence := 0; status := pending;
     timestamp := p_timestamp clk; processingTime := None;
     originalFileName := Some (Upload.name file);
     qrType := None; qrDescription := None; qrResults := None;
     totalFound := None |}.

Definition with_status (s : Status) (r : RecognitionResult) : RecognitionResult :=
  {| id := id r; image := image r; serialNumber := serialNumber r;
     confidence := confidence r; status := s; timestamp := timestamp r;
     processingTime := processingTime r;
     originalFileName := originalFileName r; qrType := qrType r;
     qrDescription := qrDescription r; qrResults := qrResults r;
     totalFound := totalFound r |}.

Section WithEnv.
Context (env : Env).
(** [readAsDataURL]: the data URL the reader loads; [None] when it
  fires no [load] event (there is no [error] handler). *)
Context (readAsDataURL : Upload.File -> option jsstring).

Definition processImage (clk : PageClock) (file : Upload.File) (index : nat)
  : M RecognitionResult :=
  match readAsDataURL file with
  | None => hang
  | Some imageData =>
    let initialResult := initialResult clk file index imageData in
    try_catch
      (let startTime := p_start clk in
       let* multiResult :=
         recognizeMultipleQRCodes env (p_multi clk) (FromString imageData) in
       let processingTime := p_end clk - startTime in
       match Orchestrator.results multiResult with
       | first :: _ =>
         ret {| id := id initialResult; image := image initialResult;
                serialNumber := Recognizer.serialNumber first;
                confidence := Recognizer.confidence first;
                status := success;
                timestamp := timestamp initialResult;
                processingTime :=
                  Some (if multi_processingTime multiResult =? 0
                        then processingTime
                        else multi_processingTime multiResult);
                originalFileName := originalFileName initialResult;
                qrType := Some (Recognizer.qrType first);
                qrDescription := Some (Recognizer.qrDescription first);
                qrResults := Some (Orchestrator.results multiResult);
                totalFound := Some (Orchestrator.totalFound multiResult) |}
       | [] =>
         let* qrResult :=
           recognizeImage env (p_single clk) (FromString imageData) in
         let validation := validateQRData (Recognizer.serialNumber qrResult) in
         ret {| id := id initialResult; image := image initialResult;
                serialNumber := Recognizer.serialNumber qrResult;
                confidence := Recognizer.confidence qrResult;
                status := if falsy (Recognizer.serialNumber qrResult)
                          then failed else success;
                timestamp := timestamp initialResult;
                processingTime := Some processingTime;
                originalFileName := originalFileName initialResult;
                qrType := Some (vtype validation);
                qrDescription := Some (vdescription validation);
                qrResults := None; totalFound := None |}
       end)
      (fun _ => ret (with_status failed initialResult))
  end.

Record Stats := {
  total : nat;
  completed : nat;
  succeeded : nat;
  failures : nat
}.

(** The state of the page and of the store behind it. *)
Record PageState := {
  page_results : list RecognitionResult;
  processingStats : Stats;
  currentIndex : nat;
  isProcessing : bool;
  store : AppState
}.

Definition count (r : RecognitionResult) (stats : Stats) : Stats :=
  {| total := total stats; completed := S (completed stats);
     succeeded := match status r with
                  | success => S (succeeded stats)
                  | _ => succeeded stats
                  end;
     failures := match status r with
                 | failed => S (failures stats)
                 | _ => failures stats
                 end |}.

Definition count_error (stats : Stats) : Stats :=
  {| total := total stats; completed := S (completed stats);
     succeeded := succeeded stats; failures := S (failures stats) |}.

(** One iteration of the loop, for the file at [i]. *)
Definition process_at (clock : nat -> PageClock) (i : nat) (file : Upload.File)
    (page : PageState) : M PageState :=
  try_catch
    (let* result := processImage (clock i) file i in
     ret {| page_results := <[i := result]> (page_results page);
            processingStats := count result (processingStats page);
            currentIndex := i; isProcessing := isProcessing page;
            store := addResult result (store page) |})
    (fun _ =>
       ret {| page_results := page_results page;
              processingStats := count_error (processingStats page);
              currentIndex := i; isProcessing := isProcessing page;
              store := store page |}).

(** The loop from position [i] on; [isPaused] is the value the handler
  closed over when it was created. *)
Fixpoint process_from (clock : nat -> PageClock) (isPaused : bool) (i : nat)
    (files : list Upload.File) (page : PageState) : M PageState :=
  match files with
  | [] => ret page
  | file :: rest =>
    if isPaused then ret page
    else
      let* page := process_at clock i file page in
      process_from clock isPaused (S i) rest page
  end.

Definition placeholder (now : nat -> Z) (index : nat) (file : Upload.File)
  : RecognitionResult :=
  {| id := result_id (now index) index; image := []; serialNumber := [];
     confidence := 0; status := pending; timestamp := now index;
     processingTime := None; originalFileName := Some (Upload.name file);
     qrType := None; qrDescription := None; qrResults := None;
     totalFound := None |}.

(** [now] gives the readings of [Date.now()] in the initial rows. *)
Definition startBatchProcessing (clock : nat -> PageClock) (now : nat -> Z)
    (isPaused : bool) (selectedFiles : list Upload.File) (page : PageState)
  : M PageState :=
  match selectedFiles with
  | [] => ret page
  | _ =>
    let stats := {| total := length selectedFiles; completed := 0;
                    succeeded := 0; failures := 0 |} in
    let page := {| page_results := imap (placeholder now) selectedFiles;
                   processingStats := stats; currentIndex := 0;
                   isProcessing := true; store := store page |} in
    let* page := process_from clock isPaused 0 selectedFiles page in
    ret {| page_results := page_results page;
           processingStats := processingStats page;
           currentIndex := length selectedFiles; isProcessing := false;
           store := store page |}
  end.

End WithEnv.

(** [results.findIndex(r => r.id === id)] *)
Fixpoint findIndex (id' : jsstring) (results : list RecognitionResult)
  : option nat :=
  match results with
  | [] => None
  | r :: rest =>
    if bool_decide (id r = id') then Some 0%nat else S <$> findIndex id' rest
  end.

(** The file [retryResult] processes again for the row with [id']. *)
Definition retry_file (results : list RecognitionResult)
    (selectedFiles : list Upload.File) (id' : jsstring) : option Upload.File :=
  match findIndex id' results with
  | Some fileIndex => selectedFiles !! fileIndex
  | None => None
  end.

(** [setResults(prev => prev.filter(r => r.id !== id))] *)
Definition removeRow (id' : jsstring) (results : list RecognitionResult)
  : list RecognitionResult :=
  filter (fun r => id r <> id') results.

(** A row is settled: it is not pending, a failed row has no payload
  and confidence 0, and a row without a list of codes that succeeded
  has a payload. *)
Definition settled (r : RecognitionResult) : Prop :=
  status r <> pending
  /\ (status r = failed -> serialNumber r = [] /\ (confidence r == 0)%Q)
  /\ (status r = success -> qrResults r = None -> serialNumber r <> []).

Definition a_file (n : string) : Upload.File :=
  {| Upload.name := js n; Upload.type := js "image/png"; Upload.size := 1000 |}.

Definition even_clock (i : nat) : PageClock :=
  {| p_id := 1000; p_timestamp := 1000; p_start := 1000; p_end := 1100;
     p_multi := quick_clock; p_single := timely_clock |}.

Definition blank_page : PageState :=
  {| page_results := [];
     processingStats := {| total := 0; completed := 0; succeeded := 0;
                           failures := 0 |};
     currentIndex := 0; isProcessing := false; store := initial |}.

End Page.

(** ** When the batch page can finish a file *)
Module Finishing.

(** The reader loads the file, and the canvas the image is drawn on, if
  the image loads, has a width and a height. *)
Definition can_finish (env : Env) (readAsDataURL : Upload.File -> option jsstring)
    (file : Upload.File) : Prop :=
  exists imageData,
    readAsDataURL file = Some imageData
    /\ forall canvas ctx,
         input_canvas env (FromString imageData) = Some (canvas, ctx) ->
         0 < canvas_width canvas /\ 0 < canvas_height canvas.

(** Every file is read as the data URL "data:" followed by its name. *)
Definition read_name (file : Upload.File) : option jsstring :=
  Some (js "data:" ++ Upload.name file).

End Finishing.
Import Finishing.

(** ** The grid of the region scan *)
Module Grid.

(** The point [(px, py)] lies in the region (left and top edges
  included, right and bottom edges excluded). *)
Definition in_region (r : Region) (px py : Q) : Prop :=
  (reg_x r <= px /\ px < reg_x r + reg_w r
   /\ reg_y r <= py /\ py < reg_y r + reg_h r)%Q.

(** Regions with the same corner and extent. *)
Definition same_region (r1 r2 : Region) : Prop :=
  (reg_x r1 == reg_x r2 /\ reg_y r1 == reg_y r2
   /\ reg_w r1 == reg_w r2 /\ reg_h r1 == reg_h r2)%Q.

End Grid.
Import Grid.

(** ** The settings page *)
Module SettingsPage.
Import Store.

(** The state of the page: its two [useState] cells and the store it
  reads and writes. *)
Record Page := {
  localSettings : AppSettings;
  hasChanges : bool;
  store : AppState
}.

(** Mounting the page: [useState(settings)]. *)
Definition mount (store : AppState) : Page :=
  {| localSettings := settings store; hasChanges := false; store := store |}.

(** A settings object passed where a [Partial<AppSettings>] is expected:
  every key is given. *)
Definition every (s : AppSettings) : PartialSettings :=
  {| p_language := Some (language s);
     p_qrCodeFormats := Some (qrCodeFormats s);
     p_confidence := Some (min_confidence s);
     p_autoSave := Some (autoSave s);
     p_maxBatchSize := Some (maxBatchSize s);
     p_processingDelay := Some (processingDelay s);
     p_imageQuality := Some (imageQuality s);
     p_enableFlash := Some (enableFlash s);
     p_autoFocus := Some (autoFocus s);
     p_enableVibration := Some (enableVibration s);
     p_enableSound := Some (enableSound s) |}.

(** The arguments [(key, value)] of [handleSettingChange], for the keys
  of the settings and values of the key's type. *)
Inductive Change :=
| set_language (value : Language)
| set_qrCodeFormats (value : list Format)
| set_confidence (value : Q)
| set_autoSave (value : bool)
| set_maxBatchSize (value : Z)
| set_processingDelay (value : Z)
| set_imageQuality (value : Q)
| set_enableFlash (value : bool)
| set_autoFocus (value : bool)
| set_enableVibration (value : bool)
| set_enableSound (value : bool).

(** [{ [key]: value }] *)
Definition keyed (c : Change) : PartialSettings :=
  match c with
  | set_language v =>
    {| p_language := Some v; p_qrCodeFormats := None; p_confidence := None;
       p_autoSave := None; p_maxBatchSize := None; p_processingDelay := None;
       p_imageQuality := None; p_enableFlash := None; p_autoFocus := None;
       p_enableVibration := None; p_enableSound := None |}
  | set_qrCodeFormats v =>
    {| p_language := None; p_qrCodeFormats := Some v; p_confidence := None;
       p_autoSave := None; p_maxBatchSize := None; p_processingDelay := None;
       p_imageQuality := None; p_enableFlash := None; p_autoFocus := None;
       p_enableVibration := None; p_enableSound := None |}
  | set_confidence v =>
    {| p_language := None; p_qrCodeFormats := None; p_confidence := Some v;
       p_autoSave := None; p_maxBatchSize := None; p_processingDelay := None;
       p_imageQuality := None; p_enableFlash := None; p_autoFocus := None;
       p_enableVibration := None; p_enableSound := None |}
  | set_autoSave v =>
    {| p_language := None; p_qrCodeFormats := None; p_confidence := None;
       p_autoSave := Some v; p_maxBatchSize := None; p_processingDelay := None;
       p_imageQuality := None; p_enableFlash := None; p_autoFocus := None;
       p_enableVibration := None; p_enableSound := None |}
  | set_maxBatchSize v =>
    {| p_language := None; p_qrCodeFormats := None; p_confidence := None;
       p_autoSave := None; p_maxBatchSize := Some v; p_processingDelay := None;
       p_imageQuality := None; p_enableFlash := None; p_autoFocus := None;
       p_enableVibration := None; p_enableSound := None |}
  | set_processingDelay v =>
    {| p_language := None; p_qrCodeFormats := None; p_confidence := None;
       p_autoSave := None; p_maxBatchSize := None; p_processingDelay := Some v;
       p_imageQuality := None; p_enableFlash := None; p_autoFocus := None;
       p_enableVibration := None; p_enableSound := None |}
  | set_imageQuality v =>
    {| p_language := None; p_qrCodeFormats := None; p_confidence := None;
       p_autoSave := None; p_maxBatchSize := None; p_processingDelay := None;
       p_imageQuality := Some v; p_enableFlash := None; p_autoFocus := None;
       p_enableVibration := None; p_enableSound := None |}
  | set_enableFlash v =>
    {| p_language := None; p_qrCodeFormats := None; p_confidence := None;
       p_autoSave := None; p_maxBatchSize := None; p_processingDelay := None;
       p_imageQuality := None; p_enableFlash := Some v; p_autoFocus := None;
       p_enableVibration := None; p_enableSound := None |}
  | set_autoFocus v =>
    {| p_language := None; p_qrCodeFormats := None; p_confidence := None;
       p_autoSave := None; p_maxBatchSize := None; p_processingDelay := None;
       p_imageQuality := None; p_enableFlash := None; p_autoFocus := Some v;
       p_enableVibration := None; p_enableSound := None |}
  | set_enableVibration v =>
    {| p_language := None; p_qrCodeFormats := None; p_confidence := None;
       p_autoSave := None; p_maxBatchSize := None; p_processingDelay := None;
       p_imageQuality := None; p_enableFlash := None; p_autoFocus := None;
       p_enableVibration := Some v; p_enableSound := None |}
  | set_enableSound v =>
    {| p_language := None; p_qrCodeFormats := None; p_confidence := None;
       p_autoSave := None; p_maxBatchSize := None; p_processingDelay := None;
       p_imageQuality := None; p_enableFlash := None; p_autoFocus := None;
       p_enableVibration := None; p_enableSound := Some v |}
  end.

(** [setLocalSettings(prev => ({ ...prev, [key]: value }))] and
  [setHasChanges(true)]. *)
Definition handleSettingChange (c : Change) (page : Page) : Page :=
  {| localSettings := spread (localSettings page) (keyed c);
     hasChanges := true;
     store := store page |}.

Definition handleSave (page : Page) : Page :=
  {| localSettings := localSettings page;
     hasChanges := false;
     store := updateSettings (every (localSettings page)) (store page) |}.

(** The object [defaultSettings] of [handleReset], on the keys of the
  settings (it also carries [ocrLanguage] and [serialNumberPatterns],
  which no code of the application reads). *)
Definition reset_settings : AppSettings :=
  {| language := zh_CN;
     qrCodeFormats := [QR_CODE; DATA_MATRIX; AZTEC];
     min_confidence := 7 # 10;
     autoSave := true; maxBatchSize := 20; processingDelay := 500;
     imageQuality := 8 # 10; enableFlash := true; autoFocus := true;
     enableVibration := true; enableSound := true |}.

(** [confirmed] is the answer of [window.confirm]. *)
Definition handleReset (confirmed : bool) (page : Page) : Page :=
  if confirmed then
    {| localSettings := reset_settings;
       hasChanges := false;
       store := updateSettings (every reset_settings) (store page) |}
  else page.

Definition handleClearHistory (confirmed : bool) (page : Page) : Page :=
  if confirmed then
    {| localSettings := localSettings page;
       hasChanges := hasChanges page;
       store := clearHistory (store page) |}
  else page.

(** What the user does on the page. *)
Inductive Action :=
| change (c : Change)
| save
| reset (confirmed : bool)
| clear (confirmed : bool).

Definition act (page : Page) (a : Action) : Page :=
  match a with
  | change c => handleSettingChange c page
  | save => handleSave page
  | reset confirmed => handleReset confirmed page
  | clear confirmed => handleClearHistory confirmed page
  end.

Definition session (actions : list Action) (page : Page) : Page :=
  foldl act page actions.

(** The controls of the page call [handleSettingChange] with every key
  but [qrCodeFormats]. *)
Definition offered (a : Action) : bool :=
  match a with
  | change (set_qrCodeFormats _) => false
  | _ => true
  end.

Definition is_reset (a : Action) : bool :=
  match a with reset true => true | _ => false end.

Definition is_clear (a : Action) : bool :=
  match a with clear true => true | _ => false end.

End SettingsPage.

(** ** The home page *)
Module HomePage.
Import Store.

(** The two readings of [Date.now()] of a handler, and the clocks of
  the two recognitions it may start. *)
Record HomeClock := {
  h_id : Z;
  h_timestamp : Z;
  h_multi : MultiClock;
  h_single : SingleClock
}.

Inductive Toast :=
| toast_success (message : jsstring)
| toast_error (message : jsstring).

(** The state of the page, the toasts shown so far (latest first) and
  the store behind the page. *)
Record HomeState := {
  showCamera : bool;
  isProcessing : bool;
  toasts : list Toast;
  store : AppState
}.

Definition setShowCamera (b : bool) (home : HomeState) : HomeState :=
  {| showCamera := b; isProcessing := isProcessing home;
     toasts := toasts home; store := store home |}.

Definition setIsProcessing (b : bool) (home : HomeState) : HomeState :=
  {| showCamera := showCamera home; isProcessing := b;
     toasts := toasts home; store := store home |}.

Definition toast (t : Toast) (home : HomeState) : HomeState :=
  {| showCamera := showCamera home; isProcessing := isProcessing home;
     toasts := t :: toasts home; store := store home |}.

Definition add (result : RecognitionResult) (home : HomeState) : HomeState :=
  {| showCamera := showCamera home; isProcessing := isProcessing home;
     toasts := toasts home; store := addResult result (store home) |}.

Section WithEnv.
Context (env : Env).
(** [readAsDataURL]: the data URL the reader loads; [None] when it
  fires no [load] event (there is no [error] handler). *)
Context (readAsDataURL : Upload.File -> option jsstring).

(** The body of the [try] block, which the two handlers share word for
  word but for [originalFileName], given by [handleFileSelect] only. *)
Definition recognize_and_add (clk : HomeClock) (imageData : jsstring)
    (fileName : option jsstring) (home : HomeState) : M HomeState :=
  let* multiResult :=
    recognizeMultipleQRCodes env (h_multi clk) (FromString imageData) in
  match Orchestrator.results multiResult with
  | first :: rest =>
    let home :=
      add {| id := string_of_Z (h_id clk); image := imageData;
             serialNumber := Recognizer.serialNumber first;
             confidence := Recognizer.confidence first;
             status := success;
             timestamp := h_timestamp clk;
             processingTime := Some (multi_processingTime multiResult);
             originalFileName := fileName;
             qrType := Some (Recognizer.qrType first);
             qrDescription := Some (Recognizer.qrDescription first);
             qrResults := Some (Orchestrator.results multiResult);
             totalFound := Some (Orchestrator.totalFound multiResult) |}
          home in
    match rest with
    | [] =>
      ret (toast (toast_success
                    (js "识别成功: "
                     ++ (if falsy (Recognizer.qrDescription first)
                         then js "二维码"
                         else Recognizer.qrDescription first)))
             home)
    | _ =>
      ret (toast (toast_success
                    (js "识别成功: 发现 "
                     ++ string_of_Z (Z.of_nat (Orchestrator.totalFound multiResult))
                     ++ js " 个二维码"))
             home)
    end
  | [] =>
    let* result :=
      recognizeImage env (h_single clk) (FromString imageData) in
    let validation := validateQRData (Recognizer.serialNumber result) in
    let home :=
      add {| id := string_of_Z (h_id clk); image := imageData;
             serialNumber := Recognizer.serialNumber result;
             confidence := Recognizer.confidence result;
             status := if falsy (Recognizer.serialNumber result)
                       then failed else success;
             timestamp := h_timestamp clk;
             processingTime := Some (Recognizer.processingTime result);
             originalFileName := fileName;
             qrType := Some (vtype validation);
             qrDescription := Some (vdescription validation);
             qrResults := None; totalFound := None |}
          home in
    if falsy (Recognizer.serialNumber result) then
      ret (toast (toast_error (js "未能识别出二维码")) home)
    else
      ret (toast (toast_success (js "识别成功: " ++ vdescription validation)) home)
  end.

(** [try { ... } catch { toast.error(...) } finally { setIsProcessing(false) }] *)
Definition guarded (clk : HomeClock) (imageData : jsstring)
    (fileName : option jsstring) (home : HomeState) : M HomeState :=
  let* home :=
    try_catch (recognize_and_add clk imageData fileName home)
      (fun _ => ret (toast (toast_error (js "识别失败，请重试")) home)) in
  ret (setIsProcessing false home).

Definition handleCameraCapture (clk : HomeClock) (imageData : jsstring)
    (home : HomeState) : M HomeState :=
  let home := setShowCamera false home in
  let home := setIsProcessing true home in
  guarded clk imageData None home.

(** [files] is [event.target.files]; the handler is followed up to the
  end of the [load] callback of its reader. *)
Definition handleFileSelect (clk : HomeClock) (files : option (list Upload.File))
    (home : HomeState) : M HomeState :=
  match files with
  | None | Some [] => ret home
  | Some (file :: _) =>
    if negb (starts_with (js "image/") (Upload.type file)) then
      ret (toast (toast_error (js "请选择图片文件")) home)
    else
      let home := setIsProcessing true home in
      match readAsDataURL file with
      | None => hang
      | Some imageData => guarded clk imageData (Some (Upload.name file)) home
      end
  end.

End WithEnv.

Definition is_success (t : Toast) : bool :=
  match t with toast_success _ => true | toast_error _ => false end.

(** The canvas the image is drawn on, if the image loads, has a width
  and a height. *)
Definition sized (env : Env) (imageData : jsstring) : Prop :=
  forall canvas ctx,
    input_canvas env (FromString imageData) = Some (canvas, ctx) ->
    0 < canvas_width canvas /\ 0 < canvas_height canvas.

(** What a handler leaves behind once the recognition of [imageData]
  has ended: one more row in the history and one more toast. *)
Definition recorded (env : Env) (clk : HomeClock) (imageData : jsstring)
    (fileName : option jsstring) (home home' : HomeState) : Prop :=
  isProcessing home' = false
  /\ settings (store home') = settings (store home)
  /\ exists row t,
       results (store home') = row :: results (store home)
       /\ toasts home' = t :: toasts home
       /\ id row = string_of_Z (h_id clk)
       /\ image row = imageData
       /\ timestamp row = h_timestamp clk
       /\ originalFileName row = fileName
       /\ status row <> pending
       /\ (is_success t = true <-> status row = success)
       /\ (status row = failed ->
           serialNumber row = [] /\ qrResults row = None
           /\ t = toast_error (js "未能识别出二维码"))
       /\ (forall rs, qrResults row = Some rs ->
             rs <> [] /\ status row = success
             /\ totalFound row = Some (length rs)
             /\ Forall (genuine env) rs).

Definition steady_clock : HomeClock :=
  {| h_id := 1000; h_timestamp := 1001;
     h_multi := quick_clock; h_single := timely_clock |}.

(** The page as it is mounted over an empty store, with the camera
  open. *)
Definition camera_open : HomeState :=
  {| showCamera := true; isProcessing := false; toasts := [];
     store := initial |}.

End HomePage.

(** ** Copying and sharing the results *)
Module Display.
Import Store.

(** [r.status === 'success'] *)
Definition is_success (r : RecognitionResult) : bool :=
  match status r with success => true | _ => false end.

Definition successResults (results : list RecognitionResult)
  : list RecognitionResult :=
  filter (fun r => is_success r = true) results.

(** The payloads one row adds to [allQRData]. *)
Definition row_data (result : RecognitionResult) : list jsstring :=
  match qrResults result with
  | Some (qr :: qrs) => Recognizer.serialNumber <$> (qr :: qrs)
  | _ => if falsy (serialNumber result) then [] else [serialNumber result]
  end.

Definition allQRData (results : list RecognitionResult) : list jsstring :=
  successResults results ≫= row_data.

(** [xs.join(sep)] *)
Fixpoint join (sep : jsstring) (xs : list jsstring) : jsstring :=
  match xs with
  | [] => []
  | [x] => x
  | x :: rest => x ++ sep ++ join sep rest
  end.

Definition line_feed : N := 10.

(** [allQRData.filter(Boolean)] *)
Definition payloads (results : list RecognitionResult) : list jsstring :=
  filter (fun s => falsy s = false) (allQRData results).

(** [allQRData.filter(Boolean).join('\n')] *)
Definition serialNumbers (results : list RecognitionResult) : jsstring :=
  join [line_feed] (payloads results).

Inductive Notice := copied | copy_failed | nothing_to_copy.

(** What a button leaves behind: the text written to the clipboard, the
  text handed to the share sheet, the toast shown. *)
Record Effect := {
  written : option jsstring;
  shared : option jsstring;
  notice : option Notice
}.

Section WithNavigator.
(** [writeText] and [share] tell whether the promise of the call
  resolves; [canShare] whether [navigator.share] is there. *)
Context (writeText : jsstring -> bool) (canShare : bool)
        (share : jsstring -> bool).

Definition copyToClipboard (text : jsstring) : Effect :=
  if writeText text then
    {| written := Some text; shared := None; notice := Some copied |}
  else
    {| written := None; shared := None; notice := Some copy_failed |}.

Definition copyAllSerialNumbers (results : list RecognitionResult) : Effect :=
  let serialNumbers := serialNumbers results in
  if falsy serialNumbers then
    {| written := None; shared := None; notice := Some nothing_to_copy |}
  else copyToClipboard serialNumbers.

Definition shareResults (results : list RecognitionResult) : Effect :=
  let serialNumbers := serialNumbers results in
  if canShare && negb (falsy serialNumbers) then
    if share serialNumbers then
      {| written := None; shared := Some serialNumbers; notice := None |}
    else copyToClipboard serialNumbers
  else copyToClipboard serialNumbers.

End WithNavigator.

(** [text.split(sep)] for a separator of one code unit. *)
Fixpoint split_on (sep : N) (text : jsstring) : list jsstring :=
  match text with
  | [] => [[]]
  | c :: rest =>
    if (c =? sep)%N then [] :: split_on sep rest
    else match split_on sep rest with
         | first :: others => (c :: first) :: others
         | [] => [[c]]
         end
  end.

(** The row shows the payload [p]: as one of its codes, or, when it has
  no list of codes, as its own payload. *)
Definition shows (row : RecognitionResult) (p : jsstring) : Prop :=
  match qrResults row with
  | Some (qr :: qrs) => exists q, q ∈ qr :: qrs /\ Recognizer.serialNumber q = p
  | _ => serialNumber row = p
  end.

(** A code with the given payload. *)
Definition code_with (text : string) : QRResult :=
  {| Recognizer.serialNumber := js text;
     Recognizer.qrType := "TEXT";
     Recognizer.qrDescription := [];
     Recognizer.confidence := 1;
     Recognizer.processingTime := 0;
     Recognizer.position := None |}.

(** A row with the given status, payload and list of codes. *)
Definition row_with (s : Status) (payload : string) (codes : option (list string))
  : RecognitionResult :=
  {| id := js "1"; image := []; serialNumber := js payload; confidence := 1;
     status := s; timestamp := 0; processingTime := None;
     originalFileName := None; qrType := None; qrDescription := None;
     qrResults := match codes with
                  | Some texts => Some (code_with <$> texts)
                  | None => None
                  end;
     totalFound := None |}.

Definition sample_rows : list RecognitionResult :=
  [ row_with success "first" (Some ["A"; ""; "B"]%string);
    row_with failed "X" None;
    row_with success "C" (Some []);
    row_with pending "Y" None;
    row_with success "" None ].

End Display.

(** ** The history page *)
Module HistoryPage.
Import Store.

Inductive FilterType := show_all | show_success | show_failed.
Inductive SortType := newest | oldest | by_confidence.

Record DateRange := { range_start : jsstring; range_end : jsstring }.

(** [s.includes(q)] *)
Fixpoint includes (q s : jsstring) : bool :=
  starts_with q s
  || match s with
     | [] => false
     | _ :: rest => includes q rest
     end.

(** [Array.prototype.sort] is stable: with a comparator that orders
  the elements consistently, an element stays in front of a later one
  unless the comparator is positive on the pair. [before a b] says
  that the comparator is not positive on [(a, b)]; the elements are
  inserted from the right. *)
Fixpoint insert_sorted {A} (before : A -> A -> bool) (a : A) (sorted : list A)
  : list A :=
  match sorted with
  | [] => [a]
  | b :: rest =>
    if before a b then a :: b :: rest
    else b :: insert_sorted before a rest
  end.

Definition sort {A} (before : A -> A -> bool) (xs : list A) : list A :=
  foldr (insert_sorted before) [] xs.

(** [compare(a, b) <= 0] for the three comparators. *)
Definition before (sortType : SortType) (a b : RecognitionResult) : bool :=
  match sortType with
  | newest => timestamp b - timestamp a <=? 0
  | oldest => timestamp a - timestamp b <=? 0
  | by_confidence => Qle_bool (confidence b - confidence a) 0
  end.

Section WithLibrary.
(** [String.prototype.toLowerCase] and [trim], and
  [new Date(text).getTime()], which is [None] when it is [NaN]. *)
Context (toLowerCase trim : jsstring -> jsstring)
        (getTime : jsstring -> option Z).

(** [text && text.toLowerCase().includes(query)] *)
Definition optional_includes (query : jsstring) (text : option jsstring) : bool :=
  match text with
  | Some text => negb (falsy text) && includes query (toLowerCase text)
  | None => false
  end.

Definition matches_query (query : jsstring) (result : RecognitionResult) : bool :=
  includes query (toLowerCase (serialNumber result))
  || optional_includes query (qrDescription result)
  || optional_includes query (originalFileName result).

Definition has_status (filterType : FilterType) (result : RecognitionResult)
  : bool :=
  match filterType, status result with
  | show_all, _ => true
  | show_success, success => true
  | show_failed, failed => true
  | _, _ => false
  end.

(** [result.timestamp >= startDate] *)
Definition from_start (start : jsstring) (result : RecognitionResult) : bool :=
  match getTime start with
  | Some startDate => startDate <=? timestamp result
  | None => false
  end.

(** [result.timestamp < endDate], the end date being a day after the
  date given. *)
Definition until_end (end_ : jsstring) (result : RecognitionResult) : bool :=
  match getTime end_ with
  | Some t => timestamp result <? t + 24 * 60 * 60 * 1000
  | None => false
  end.

Definition filteredResults (results : list RecognitionResult)
    (searchQuery : jsstring) (filterType : FilterType) (sortType : SortType)
    (dateRange : DateRange) : list RecognitionResult :=
  let filtered := results in
  let filtered :=
    if falsy (trim searchQuery) then filtered
    else
      let query := toLowerCase searchQuery in
      filter (fun result => matches_query query result = true) filtered in
  let filtered :=
    match filterType with
    | show_all => filtered
    | _ => filter (fun result => has_status filterType result = true) filtered
    end in
  let filtered :=
    if falsy (range_start dateRange) then filtered
    else filter (fun result => from_start (range_start dateRange) result = true)
           filtered in
  let filtered :=
    if falsy (range_end dateRange) then filtered
    else filter (fun result => until_end (range_end dateRange) result = true)
           filtered in
  sort (before sortType) filtered.

(** The row passes every filter that is switched on. *)
Definition visible (searchQuery : jsstring) (filterType : FilterType)
    (dateRange : DateRange) (result : RecognitionResult) : bool :=
  (falsy (trim searchQuery) || matches_query (toLowerCase searchQuery) result)
  && has_status filterType result
  && (falsy (range_start dateRange) || from_start (range_start dateRange) result)
  && (falsy (range_end dateRange) || until_end (range_end dateRange) result).

End WithLibrary.

Record Stats := {
  total : nat;
  n_success : nat;
  n_failed : nat;
  successRate : Q
}.

Definition stats (results : list RecognitionResult) : Stats :=
  let total := length results in
  let success :=
    length (filter (fun r => has_status show_success r = true) results) in
  let failed :=
    length (filter (fun r => has_status show_failed r = true) results) in
  let successRate :=
    if (0 <? total)%nat
    then (inject_Z (Z.of_nat success) / inject_Z (Z.of_nat total) * 100)%Q
    else 0%Q in
  {| total := total; n_success := success; n_failed := failed;
     successRate := successRate |}.

(** Rows in the order the comparator asks for. *)
Definition in_order (sortType : SortType) (rows : list RecognitionResult) : Prop :=
  StronglySorted (fun a b => before sortType a b = true) rows.

End HistoryPage.

(** ** Selecting rows of the result list *)
Module Selecting.
Import Store.

(** A [Set<string>]: its elements in the order they were added. *)
Definition Selection := list jsstring.

Definition has (id : jsstring) (selected : Selection) : bool :=
  bool_decide (id ∈ selected).

Definition set_add (id : jsstring) (selected : Selection) : Selection :=
  if has id selected then selected else selected ++ [id].

Definition set_delete (id : jsstring) (selected : Selection) : Selection :=
  filter (fun x => x <> id) selected.

(** [new Set(xs)] *)
Definition new_Set (xs : list jsstring) : Selection :=
  foldl (fun selected x => set_add x selected) [] xs.

Definition toggleResultSelection (id : jsstring) (selectedResults : Selection)
  : Selection :=
  let newSelected := selectedResults in
  if has id newSelected then set_delete id newSelected
  else set_add id newSelected.

Definition selectAll (results : list RecognitionResult) : Selection :=
  new_Set (id <$> results).

Definition clearSelection : Selection := [].

(** [selectedResults.size === results.length]: the button then reads
  "deselect all". *)
Definition shows_deselect (selectedResults : Selection)
    (results : list RecognitionResult) : bool :=
  (length selectedResults =? length results)%nat.

(** The button that deletes the selected rows:
  [selectedResults.forEach(id => onRemove?.(id)); clearSelection()]. *)
Definition delete_selected {S} (onRemove : jsstring -> S -> S)
    (selectedResults : Selection) (state : S) : S * Selection :=
  (foldl (fun state id => onRemove id state) state selectedResults,
   clearSelection).

End Selecting.

(** ** Pausing and resuming a batch *)
Module Resuming.
Import Store Page.

(** The "resume" button is rendered when
  [isPaused && currentIndex < selectedFiles.length]; its handler is the
  one created by the same render, so it sees the same [isPaused]. *)
Definition resume_offered (isPaused : bool) (selectedFiles : list Upload.File)
    (page : PageState) : bool :=
  isPaused && (currentIndex page <? length selectedFiles)%nat.

Section WithEnv.
Context (env : Env) (readAsDataURL : Upload.File -> option jsstring).

(** [isPaused] is the value the handler closed over when it was
  created: [setIsPaused(false)] does not change it. *)
Definition resumeProcessing (clock : nat -> PageClock) (isPaused : bool)
    (selectedFiles : list Upload.File) (page : PageState) : M PageState :=
  if (length selectedFiles <=? currentIndex page)%nat then ret page
  else
    let start := currentIndex page in
    let page := {| page_results := page_results page;
                   processingStats := processingStats page;
                   currentIndex := currentIndex page;
                   isProcessing := true; store := store page |} in
    let* page :=
      process_from env readAsDataURL clock isPaused start
        (drop start selectedFiles) page in
    ret {| page_results := page_results page;
           processingStats := processingStats page;
           currentIndex := length selectedFiles; isProcessing := false;
           store := store page |}.

End WithEnv.

(** The page as a pause leaves it while the first of two files is being
  processed. *)
Definition paused_page : PageState :=
  {| page_results := imap (placeholder (fun _ => 1000)) [a_file "a.png"; a_file "b.png"];
     processingStats := {| total := 2; completed := 0; succeeded := 0;
                           failures := 0 |};
     currentIndex := 0; isProcessing := false; store := initial |}.

End Resuming.

(** ** The shutter of the camera view *)
Module Shutter.
Import Store HomePage.

(** The camera view at the time the shutter is pressed:
  - [has_video], [has_canvas]: whether the two refs are set;
  - [has_context]: whether the canvas yields a 2d context;
  - [shot_width], [shot_height]: the intrinsic size of the stream;
  - [shot_pixels w h], [shot_scaled w h]: what is read back from the
    canvas of [w] by [h] once the frame is drawn on it;
  - [toDataURL q]: the JPEG data URL of the canvas at quality [q]. *)
Record Shot := {
  has_video : bool;
  has_canvas : bool;
  has_context : bool;
  shot_width : Z;
  shot_height : Z;
  shot_pixels : Z -> Z -> Q -> Q -> Q -> Q -> option RawImage;
  shot_scaled : Z -> Z -> Q -> option RawImage;
  toDataURL : Q -> jsstring
}.

Inductive CameraToast :=
| camera_success (message : jsstring)
| camera_warning
| camera_error.

(** The argument of [onCapture] and the toast of the camera view. *)
Record Capture := {
  captured : jsstring;
  camera_toast : CameraToast
}.

(** The canvas with the frame drawn on it; its context was obtained
  before. *)
Definition drawn (shot : Shot) : Canvas :=
  let width := if shot_width shot =? 0 then 1920 else shot_width shot in
  let height := if shot_height shot =? 0 then 1080 else shot_height shot in
  {| canvas_width := width; canvas_height := height;
     getContext2d := true;
     read_pixels := shot_pixels shot width height;
     scaled_pixels := shot_scaled shot width height |}.

Section WithEnv.
Context (env : Env).

(** [None] when the handler returns without calling [onCapture]. *)
Definition capturePhoto (clk : SingleClock) (shot : Shot) : M (option Capture) :=
  if negb (has_video shot) || negb (has_canvas shot) then ret None
  else if negb (has_context shot) then ret None
  else
    let canvas := drawn shot in
    try_catch
      (let* result := recognizeImage env clk (FromCanvas canvas) in
       if negb (falsy (Recognizer.serialNumber result)) then
         ret (Some {| captured := toDataURL shot (95 # 100);
                      camera_toast :=
                        camera_success
                          (js "识别成功！" ++ Recognizer.qrDescription result) |})
       else
         ret (Some {| captured := toDataURL shot (9 # 10);
                      camera_toast := camera_warning |}))
      (fun _ =>
         ret (Some {| captured := toDataURL shot (9 # 10);
                      camera_toast := camera_error |})).

(** The camera view as the home page mounts it, with
  [onCapture={handleCameraCapture}]: pressing the shutter. *)
Definition press (clk : SingleClock) (home_clk : HomeClock) (shot : Shot)
    (home : HomeState) : M (HomeState * option CameraToast) :=
  let* capture := capturePhoto clk shot in
  match capture with
  | None => ret (home, None)
  | Some capture =>
    let* home := handleCameraCapture env home_clk (captured capture) home in
    ret (home, Some (camera_toast capture))
  end.

End WithEnv.

(** The scanner reads the canvas of the camera view, but nothing is
  read from an image loaded from a data URL. *)
Definition canvas_only_env : Env :=
  {| jsQR_lib := fun _ _ => Returned None;
     scanImage := fun input =>
       match input with
       | FromCanvas _ => Returned (js "A")
       | FromString _ => Thrown (js "No QR code found")
       end;
     loadImage := fun _ => Some scalable_canvas |}.

Definition a_shot : Shot :=
  {| has_video := true; has_canvas := true; has_context := true;
     shot_width := 1280; shot_height := 720;
     shot_pixels := fun _ _ _ _ _ _ => Some one_pixel_raw;
     shot_scaled := fun _ _ _ => Some one_pixel_raw;
     toDataURL := fun _ => js "data:image/jpeg;base64,AA" |}.

End Shutter.
(** * Properties *)

(** ** Payload classifier *)

Lemma validate_first_match (data : jsstring) :
  vtype (validateQRData data)
  = if falsy data then "UNKNOWN"%string else first_matching_rule data.
Proof.
  unfold validateQRData, first_matching_rule, rules; simpl.
  destruct (falsy data); [reflexivity|].
  repeat match goal with
  | |- context [if ?b then _ else _] => destruct b; simpl; try reflexivity
  end.
Qed.

Lemma detect_first_match (data : jsstring) :
  detectQRType data
  = if falsy data then "unknown"%string else first_matching_rule data.
Proof.
  unfold detectQRType, first_matching_rule, rules; simpl.
  destruct (falsy data); [reflexivity|].
  repeat match goal with
  | |- context [if ?b then _ else _] => destruct b; simpl; try reflexivity
  end.
Qed.

(** C4. The classifier maps the seven non-empty literals of the table to
  URL, EMAIL, PHONE, SMS, WIFI, VCARD and TEXT, maps the empty string to
  UNKNOWN with the description "empty data", and on every input answers
  with the first rule that matches in the order URL, EMAIL, PHONE, SMS,
  WIFI, VCARD, TEXT being the answer for non-empty input no rule
  matches. [detectQRType] follows the same rules. *)
Theorem classifier_table_and_order :
  Forall (fun lt => vtype (validateQRData (js lt.1)) = lt.2
                    /\ detectQRType (js lt.1) = lt.2) literal_table
  /\ validateQRData []
     = {| isValid := false; vtype := "UNKNOWN"; vdescription := js "空数据" |}
  /\ (forall data, vtype (validateQRData data)
        = if falsy data then "UNKNOWN"%string else first_matching_rule data)
  /\ (forall data, data <> [] -> detectQRType data = first_matching_rule data)
  /\ (forall data, data <> [] ->
        find (fun r => r.2 data) rules = None ->
        vtype (validateQRData data) = "TEXT"%string).
Proof.
  split; [|split; [|split; [|split]]].
  - unfold literal_table. repeat constructor; vm_compute; reflexivity.
  - reflexivity.
  - exact validate_first_match.
  - intros data Hne. rewrite detect_first_match.
    destruct data; [congruence | reflexivity].
  - intros data Hne Hnone. rewrite validate_first_match.
    destruct data; [congruence |]. simpl.
    unfold first_matching_rule. rewrite Hnone. reflexivity.
Qed.

Lemma classifier_table_and_order_witness :
  detectQRType (js "hello world") = first_matching_rule (js "hello world")
  /\ vtype (validateQRData (js "hello world")) = "TEXT"%string.
Proof.
  pose proof classifier_table_and_order as (_ & _ & _ & Hd & Ht).
  split.
  - apply Hd. vm_compute. discriminate.
  - apply Ht; vm_compute; [discriminate | reflexivity].
Defined.

Lemma detect_nonempty (data : jsstring) :
  detectQRType data <> "unknown"%string -> falsy data = false.
Proof. destruct data; [intros H; exfalso; apply H; reflexivity | reflexivity]. Qed.

(** C5. For a payload classified as URL or TEXT the description is the
  type's label, the first 30 code units of the payload, and the ellipsis
  marker exactly when the payload is longer than 30: a payload of 31
  gets its first 30 code units and the marker, a payload of 30 is
  embedded whole with no marker after it. *)
Theorem description_truncation (data : jsstring) :
  detectQRType data = "URL"%string \/ detectQRType data = "TEXT"%string ->
  generateDescription data (detectQRType data)
  = label_of (detectQRType data) ++ take 30 data
    ++ (if (30 <? length data)%nat then ellipsis else [])
  /\ (length data = 31%nat ->
      generateDescription data (detectQRType data)
      = label_of (detectQRType data) ++ take 30 data ++ ellipsis)
  /\ (length data = 30%nat ->
      generateDescription data (detectQRType data)
      = label_of (detectQRType data) ++ data).
Proof.
  intros Hty.
  assert (Hne : falsy data = false).
  { apply detect_nonempty. destruct Hty as [-> | ->]; discriminate. }
  assert (Heq : generateDescription data (detectQRType data)
    = label_of (detectQRType data) ++ take 30 data
      ++ (if (30 <? length data)%nat then ellipsis else [])).
  { unfold generateDescription, truncate30, substring0. rewrite Hne.
    destruct Hty as [-> | ->]; reflexivity. }
  split; [exact Heq|]. split; intros Hlen; rewrite Heq, Hlen; simpl.
  - reflexivity.
  - rewrite firstn_all2 by lia. rewrite app_nil_r. reflexivity.
Qed.

Lemma description_truncation_witness :
  generateDescription (js "https://example.com/abcdefghijk")
    (detectQRType (js "https://example.com/abcdefghijk"))
  = js "网址链接: https://example.com/abcdefghij...".
Proof.
  pose proof (description_truncation (js "https://example.com/abcdefghijk"))
    as H.
  destruct H as (_ & H31 & _); [left; vm_compute; reflexivity |].
  rewrite H31 by (vm_compute; reflexivity). vm_compute. reflexivity.
Defined.

(** ** Typed arrays and loops *)

Lemma store_length (a : list Z) i v : length (store a i v) = length a.
Proof. unfold store. destruct (i <? 0); [reflexivity | apply length_insert]. Qed.

Lemma store_lookup_ne (a : list Z) i v (j : nat) :
  Z.of_nat j <> i -> store a i v !! j = a !! j.
Proof.
  intros Hne. unfold store. destruct (Z.ltb_spec i 0); [reflexivity|].
  apply list_lookup_insert_ne. lia.
Qed.

Lemma store_lookup_eq (a : list Z) (j : nat) v :
  (j < length a)%nat -> store a (Z.of_nat j) v !! j = Some (toUint8Clamp v).
Proof.
  intros Hlt. unfold store. destruct (Z.ltb_spec (Z.of_nat j) 0); [lia|].
  rewrite Nat2Z.id. apply list_lookup_insert_eq. exact Hlt.
Qed.

Lemma elem_of_nat (a : list Z) (j : nat) :
  elem a (Z.of_nat j) = inject_Z <$> (a !! j).
Proof.
  unfold elem. destruct (Z.ltb_spec (Z.of_nat j) 0); [lia|].
  rewrite Nat2Z.id. reflexivity.
Qed.

Lemma with_new_twice w h a b : with_new (with_new w h a) h b = with_new w h b.
Proof. reflexivity. Qed.

Lemma array_at_new h a : array_at (h ++ [a]) (length h) = a.
Proof.
  unfold array_at. rewrite lookup_app_r by lia.
  rewrite Nat.sub_diag. reflexivity.
Qed.

Lemma array_at_old h a l : (l < length h)%nat -> array_at (h ++ [a]) l = array_at h l.
Proof. intros Hl. unfold array_at. rewrite lookup_app_l by exact Hl. reflexivity. Qed.

Lemma run_array_get_new w h a i :
  array_get (length h) i (with_new w h a) = (Ok (elem a i), with_new w h a).
Proof. unfold array_get, with_new; simpl. rewrite array_at_new. reflexivity. Qed.

Lemma run_array_get_old w h a l i :
  (l < length h)%nat ->
  array_get l i (with_new w h a) = (Ok (elem (array_at h l) i), with_new w h a).
Proof.
  intros Hl. unfold array_get, with_new; simpl.
  rewrite array_at_old by exact Hl. reflexivity.
Qed.

Lemma run_array_set_new w h a i v :
  array_set (length h) i v (with_new w h a) = (Ok tt, with_new w h (store a i v)).
Proof.
  unfold array_set, with_new, set_heap; simpl. do 2 f_equal.
  rewrite alter_app_r_alt by lia. rewrite Nat.sub_diag. reflexivity.
Qed.

Lemma run_array_length_new w h a :
  array_length (length h) (with_new w h a) = (Ok (length a), with_new w h a).
Proof. unfold array_length, with_new; simpl. rewrite array_at_new. reflexivity. Qed.

Lemma run_new_array w src :
  new_Uint8ClampedArray src w
  = (Ok (length (heap w)), with_new w (heap w) (array_at (heap w) src)).
Proof. reflexivity. Qed.

(** A loop whose body updates the newest array by [g] is a fold of [g]. *)
Lemma forM_fold {A} (xs : list A) (body : A -> M unit)
    (g : list Z -> A -> list Z) w h :
  (forall x a, body x (with_new w h a) = (Ok tt, with_new w h (g a x))) ->
  forall a, forM_ xs body (with_new w h a) = (Ok tt, with_new w h (foldl g a xs)).
Proof.
  intros Hbody. induction xs as [|x xs IH]; intros a; simpl.
  - reflexivity.
  - unfold bind. rewrite Hbody. apply IH.
Qed.

(** A fold whose steps only read the world is a fold of values. *)
Lemma foldM_pure {A B} (f : B -> A -> M B) (g : B -> A -> B) (xs : list A) w :
  (forall b x, f b x w = (Ok (g b x), w)) ->
  forall b, foldM f b xs w = (Ok (foldl g b xs), w).
Proof.
  intros Hf. induction xs as [|x xs IH]; intros b; simpl.
  - reflexivity.
  - unfold bind. rewrite Hf. apply IH.
Qed.

Lemma run_rgb_body w h f i a :
  rgb_body (length h) f i (with_new w h a)
  = (Ok tt, with_new w h (rgb_update f a i)).
Proof.
  unfold rgb_body, bind.
  rewrite run_array_get_new, run_array_set_new.
  rewrite run_array_get_new, run_array_set_new.
  rewrite run_array_get_new, run_array_set_new.
  reflexivity.
Qed.

Lemma run_rgb_loop w h f (imageData : ImageData) (src : list Z) :
  (let* len := array_length (length h) in
   forM_ (by_fours len) (rgb_body (length h) f) ;;;
   ret {| data := length h; width := width imageData;
          height := height imageData |}) (with_new w h src)
  = (Ok {| data := length h; width := width imageData;
           height := height imageData |},
     with_new w h (map_rgb f src)).
Proof.
  unfold bind at 1. rewrite run_array_length_new.
  unfold bind. rewrite (forM_fold _ _ (rgb_update f) w h).
  - reflexivity.
  - intros x a. apply run_rgb_body.
Qed.

Lemma run_enhanceContrast (imageData : ImageData) w :
  enhanceContrast imageData w
  = (Ok {| data := length (heap w); width := width imageData;
           height := height imageData |},
     with_new w (heap w)
       (map_rgb (contrast_value (3 # 2)) (array_at (heap w) (data imageData)))).
Proof.
  unfold enhanceContrast. unfold bind at 1. rewrite run_new_array.
  apply (run_rgb_loop w (heap w) (contrast_value (3 # 2))).
Qed.

Lemma run_adjustBrightness (imageData : ImageData) brightness w :
  adjustBrightness imageData brightness w
  = (Ok {| data := length (heap w); width := width imageData;
           height := height imageData |},
     with_new w (heap w)
       (map_rgb (brightness_value brightness)
                (array_at (heap w) (data imageData)))).
Proof.
  unfold adjustBrightness. unfold bind at 1. rewrite run_new_array.
  apply (run_rgb_loop w (heap w) (brightness_value brightness)).
Qed.

(** *** Contrast and brightness, sample by sample *)

Lemma store_self_lookup (f : Number -> Number) (a : list Z) (k j : nat) :
  store a (Z.of_nat k) (f (elem a (Z.of_nat k))) !! j
  = if decide (k = j) then sample f <$> a !! j else a !! j.
Proof.
  case_decide as Hk.
  - subst j. destruct (a !! k) as [v|] eqn:Hv.
    + rewrite store_lookup_eq by (eapply lookup_lt_Some; exact Hv).
      rewrite elem_of_nat, Hv. reflexivity.
    + unfold store. destruct (Z.of_nat k <? 0); [exact Hv|].
      rewrite list_insert_ge by (apply lookup_ge_None; rewrite Nat2Z.id; exact Hv).
      exact Hv.
  - apply store_lookup_ne. lia.
Qed.

Lemma rgb_update_lookup (f : Number -> Number) (a : list Z) (n j : nat) :
  rgb_update f a (Z.of_nat n) !! j
  = if decide (n <= j < n + 3)%nat then sample f <$> a !! j else a !! j.
Proof.
  unfold rgb_update.
  replace (Z.of_nat n + 1) with (Z.of_nat (n + 1)) by lia.
  replace (Z.of_nat n + 2) with (Z.of_nat (n + 2)) by lia.
  rewrite !store_self_lookup.
  repeat case_decide; try lia; try reflexivity.
Qed.

Lemma by_fours_eq (n : nat) :
  by_fours n
  = (fun k : nat => 4 * Z.of_nat k) <$> seq 0 (Z.to_nat ((Z.of_nat n + 3) / 4)).
Proof.
  unfold by_fours, seqZ. rewrite <- list_fmap_compose.
  apply list_fmap_ext. intros _ k _. simpl. f_equal. lia.
Qed.

Lemma foldl_rgb_lookup (f : Number -> Number) (a : list Z) (K j : nat) :
  foldl (rgb_update f) a ((fun k : nat => 4 * Z.of_nat k) <$> seq 0 K) !! j
  = if decide (j < 4 * K /\ j mod 4 <> 3)%nat then sample f <$> a !! j
    else a !! j.
Proof.
  induction K as [|K IH].
  - cbn [seq fmap list_fmap foldl]. case_decide; [lia | reflexivity].
  - rewrite seq_S, fmap_app, foldl_app. cbn [fmap list_fmap foldl Nat.add].
    replace (4 * Z.of_nat K) with (Z.of_nat (4 * K)) by lia.
    rewrite rgb_update_lookup, IH.
    pose proof (Nat.mod_upper_bound j 4 ltac:(lia)) as Hm.
    pose proof (Nat.div_mod_eq j 4) as Hd.
    repeat case_decide; try reflexivity; try lia.
Qed.

Lemma map_rgb_lookup (f : Number -> Number) (a : list Z) (j : nat) :
  map_rgb f a !! j
  = if decide (j mod 4 = 3)%nat then a !! j else sample f <$> a !! j.
Proof.
  unfold map_rgb. rewrite by_fours_eq, foldl_rgb_lookup.
  destruct (a !! j) as [v|] eqn:Hv.
  - apply lookup_lt_Some in Hv.
    assert (j < 4 * Z.to_nat ((Z.of_nat (length a) + 3) / 4))%nat.
    { pose proof (Z.div_mod (Z.of_nat (length a) + 3) 4 ltac:(lia)).
      pose proof (Z.mod_pos_bound (Z.of_nat (length a) + 3) 4 ltac:(lia)).
      lia. }
    repeat case_decide; try reflexivity; lia.
  - repeat case_decide; reflexivity.
Qed.

Lemma map_rgb_length (f : Number -> Number) (a : list Z) :
  length (map_rgb f a) = length a.
Proof.
  unfold map_rgb. generalize (by_fours (length a)). intros idxs.
  revert a. induction idxs as [|i idxs IH]; intros a; simpl; [reflexivity|].
  rewrite IH. unfold rgb_update. rewrite !store_length. reflexivity.
Qed.

(** *** Sharpening *)

Lemma run_conv_sum w h a (imageData : ImageData) y x c :
  (data imageData < length h)%nat ->
  foldM (fun sum ky =>
    foldM (fun sum kx =>
      let idx := ((y + ky) * width imageData + (x + kx)) * 4 + c in
      let* v := array_get (data imageData) idx in
      ret (nadd sum (nmul v (elem kernel ((ky + 1) * 3 + (kx + 1))))))
      sum (seqZ (-1) 3))
    (num 0) (seqZ (-1) 3) (with_new w h a)
  = (Ok (conv_sum (array_at h (data imageData)) (width imageData) y x c),
     with_new w h a).
Proof.
  intros Hl. unfold conv_sum.
  apply (foldM_pure _
    (fun sum ky => foldl (fun sum kx =>
       nadd sum (nmul (elem (array_at h (data imageData))
                        (((y + ky) * width imageData + (x + kx)) * 4 + c))
                      (elem kernel ((ky + 1) * 3 + (kx + 1)))))
       sum (seqZ (-1) 3))).
  intros b ky. apply foldM_pure. intros b' kx.
  unfold bind. rewrite run_array_get_old by exact Hl. reflexivity.
Qed.

Lemma bind_ok {A B} (m : M A) (k : A -> M B) w a w' :
  m w = (Ok a, w') -> bind m k w = k a w'.
Proof. intros H. unfold bind. rewrite H. reflexivity. Qed.

Lemma run_sharpenImage (imageData : ImageData) w :
  (data imageData < length (heap w))%nat ->
  sharpenImage imageData w
  = (Ok {| data := length (heap w); width := width imageData;
           height := height imageData |},
     with_new w (heap w)
       (sharpen_pure (array_at (heap w) (data imageData))
          (width imageData) (height imageData))).
Proof.
  intros Hl. unfold sharpenImage.
  rewrite (bind_ok _ _ _ _ _ (run_new_array _ _)). cbv beta zeta.
  set (orig := array_at (heap w) (data imageData)).
  erewrite bind_ok; [reflexivity|].
  apply (forM_fold _ _
    (fun a y => foldl (fun a x =>
       foldl (fun a c => sharpen_write orig (width imageData) a (y, x, c))
         a (seqZ 0 3)) a (seqZ 1 (width imageData - 2)))).
  intros y a.
  apply (forM_fold _ _ (fun a x =>
     foldl (fun a c => sharpen_write orig (width imageData) a (y, x, c))
       a (seqZ 0 3))).
  intros x a'.
  apply (forM_fold _ _
    (fun a c => sharpen_write orig (width imageData) a (y, x, c))).
  intros c a''.
  erewrite bind_ok by (apply run_conv_sum; exact Hl).
  apply run_array_set_new.
Qed.

Lemma foldl_pointwise {A B} (f g : A -> B -> A) (l : list B) :
  (forall a x, f a x = g a x) -> forall a, foldl f a l = foldl g a l.
Proof.
  intros Hfg. induction l as [|x l IH]; intros a; simpl; [reflexivity|].
  rewrite Hfg. apply IH.
Qed.

Lemma foldl_bind_list {A B C} (f : A -> C -> A) (k : B -> list C) (l : list B) :
  forall a, foldl f a (l ≫= k) = foldl (fun a x => foldl f a (k x)) a l.
Proof.
  induction l as [|x l IH]; intros a; [reflexivity|].
  change ((x :: l) ≫= k) with (k x ++ (l ≫= k)).
  rewrite foldl_app. simpl. apply IH.
Qed.

Lemma sharpen_pure_flat (orig : list Z) (width height : Z) :
  sharpen_pure orig width height
  = foldl (sharpen_write orig width) orig (interior width height).
Proof.
  unfold sharpen_pure, interior. rewrite foldl_bind_list.
  apply foldl_pointwise. intros a y. rewrite foldl_bind_list.
  apply foldl_pointwise. intros a' x. rewrite foldl_bind_list.
  apply foldl_pointwise. intros a'' c. reflexivity.
Qed.

Lemma elem_of_interior (width height y x c : Z) :
  (y, x, c) ∈ interior width height
  <-> 1 <= y <= height - 2 /\ 1 <= x <= width - 2 /\ 0 <= c < 3.
Proof.
  unfold interior. rewrite list_elem_of_bind. split.
  - intros (y' & Hin & Hy). apply list_elem_of_bind in Hin.
    destruct Hin as (x' & Hin & Hx). apply list_elem_of_bind in Hin.
    destruct Hin as (c' & Hin & Hc). apply list_elem_of_singleton in Hin.
    inversion Hin; subst.
    apply elem_of_seqZ in Hy, Hx, Hc. lia.
  - intros (Hy & Hx & Hc). exists y. split; [|apply elem_of_seqZ; lia].
    apply list_elem_of_bind. exists x. split; [|apply elem_of_seqZ; lia].
    apply list_elem_of_bind. exists c. split; [|apply elem_of_seqZ; lia].
    apply list_elem_of_singleton. reflexivity.
Qed.

Section Writes.
Context {T : Type} (idx : T -> Z) (val : T -> Number).

Local Abbreviation write := (write_at idx val).

Lemma foldl_write_length (ts : list T) (a : list Z) :
  length (foldl write a ts) = length a.
Proof.
  revert a. induction ts as [|t ts IH]; intros a; simpl; [reflexivity|].
  rewrite IH. apply store_length.
Qed.

Lemma foldl_write_other (ts : list T) (a : list Z) (j : nat) :
  (forall t, t ∈ ts -> idx t <> Z.of_nat j) ->
  foldl write a ts !! j = a !! j.
Proof.
  revert a. induction ts as [|t ts IH]; intros a Hne; simpl; [reflexivity|].
  rewrite IH by (intros t' Ht'; apply Hne; right; exact Ht').
  apply store_lookup_ne. intros Heq. apply (Hne t); [left | congruence].
Qed.

Lemma foldl_write_hit (ts : list T) (a : list Z) (j : nat) (t0 : T) :
  t0 ∈ ts -> idx t0 = Z.of_nat j -> (j < length a)%nat ->
  (forall t, t ∈ ts -> idx t = Z.of_nat j -> val t = val t0) ->
  foldl write a ts !! j = Some (toUint8Clamp (val t0)).
Proof.
  intros Hin Hidx Hlt. induction ts as [|t ts IH] using rev_ind; intros Hval.
  - inversion Hin.
  - rewrite foldl_app. simpl. unfold write_at at 1.
    destruct (decide (idx t = Z.of_nat j)) as [Heq|Hne].
    + rewrite Heq, store_lookup_eq by (rewrite foldl_write_length; exact Hlt).
      rewrite (Hval t); [reflexivity | | exact Heq].
      apply elem_of_app. right. left.
    + rewrite store_lookup_ne by congruence.
      apply elem_of_app in Hin. destruct Hin as [Hin|Hin].
      * apply IH; [exact Hin|].
        intros t' Ht'. apply Hval. apply elem_of_app. left. exact Ht'.
      * apply list_elem_of_singleton in Hin. subst t0. contradiction.
Qed.

End Writes.

Lemma sharpen_write_eq (orig : list Z) (width : Z) (a : list Z) (t : Z * Z * Z) :
  sharpen_write orig width a t
  = write_at (fun t => let '(y, x, c) := t in offset width y x c)
      (fun t => let '(y, x, c) := t in
         Math_min (num 255) (Math_max (num 0) (conv_sum orig width y x c)))
      a t.
Proof. destruct t as [[y x] c]. reflexivity. Qed.

Lemma offset_range (width height y x c : Z) :
  0 <= y < height -> 0 <= x < width -> 0 <= c < 4 ->
  0 <= offset width y x c < width * height * 4.
Proof. unfold offset. intros Hy Hx Hc. nia. Qed.

Lemma offset_inj (width y x c y' x' c' : Z) :
  0 <= x < width -> 0 <= x' < width -> 0 <= c < 4 -> 0 <= c' < 4 ->
  offset width y x c = offset width y' x' c' ->
  y = y' /\ x = x' /\ c = c'.
Proof.
  unfold offset. intros Hx Hx' Hc Hc' Heq.
  assert (c = c') by lia. subst c'.
  assert (Hp : y * width + x = y' * width + x') by lia.
  assert (y = y') by nia. subst y'. lia.
Qed.

(** *** Arithmetic on integer-valued numbers *)

Lemma nadd_num (a b : Z) : nadd (num a) (num b) = num (a + b).
Proof.
  unfold nadd, lift2, num, inject_Z, Qplus; simpl.
  rewrite !Z.mul_1_r. reflexivity.
Qed.

Lemma nmul_num (a b : Z) : nmul (num a) (num b) = num (a * b).
Proof. reflexivity. Qed.

Lemma Math_max_num (a b : Z) : Math_max (num a) (num b) = num (Z.max a b).
Proof.
  unfold Math_max, lift2, num, Qmax, GenericMinMax.gmax, Qcompare, inject_Z, Z.max.
  simpl. rewrite !Z.mul_1_r. destruct (a ?= b); reflexivity.
Qed.

Lemma Math_min_num (a b : Z) : Math_min (num a) (num b) = num (Z.min a b).
Proof.
  unfold Math_min, lift2, num, Qmin, GenericMinMax.gmin, Qcompare, inject_Z, Z.min.
  simpl. rewrite !Z.mul_1_r. destruct (a ?= b); reflexivity.
Qed.

Lemma toUint8Clamp_num (z : Z) : 0 <= z <= 255 -> toUint8Clamp (num z) = z.
Proof.
  intros Hz. unfold toUint8Clamp, num.
  destruct (Qle_bool (inject_Z z) 0) eqn:H0.
  { apply Qle_bool_iff in H0. unfold Qle, inject_Z in H0; simpl in H0. lia. }
  destruct (Qle_bool 255 (inject_Z z)) eqn:H255.
  { apply Qle_bool_iff in H255. unfold Qle, inject_Z in H255; simpl in H255. lia. }
  rewrite Qfloor_Z.
  assert (Hlt : (inject_Z z < inject_Z z + (1 # 2))%Q).
  { unfold Qlt, Qplus, inject_Z; simpl. lia. }
  assert (Hc : Qcompare (inject_Z z) (inject_Z z + (1 # 2)) = Lt)
    by (apply Qlt_alt; exact Hlt).
  rewrite Hc. reflexivity.
Qed.

Lemma clamp_num (z : Z) :
  toUint8Clamp (Math_min (num 255) (Math_max (num 0) (num z)))
  = Z.min 255 (Z.max 0 z).
Proof. rewrite Math_max_num, Math_min_num. apply toUint8Clamp_num. lia. Qed.

Lemma elem_in_range (a : list Z) (i : Z) :
  0 <= i < Z.of_nat (length a) -> elem a i = num (at_index a i).
Proof.
  intros Hi. unfold elem, at_index, num.
  destruct (Z.ltb_spec i 0); [lia|].
  destruct (lookup_lt_is_Some_2 a (Z.to_nat i)) as [v Hv]; [lia|].
  rewrite Hv. reflexivity.
Qed.

Lemma conv_sum_interior (orig : list Z) (width height y x c : Z) :
  well_formed orig width height ->
  1 <= y <= height - 2 -> 1 <= x <= width - 2 -> 0 <= c < 3 ->
  conv_sum orig width y x c
  = num (5 * at_index orig (offset width y x c)
         - at_index orig (offset width (y - 1) x c)
         - at_index orig (offset width (y + 1) x c)
         - at_index orig (offset width y (x - 1) c)
         - at_index orig (offset width y (x + 1) c)).
Proof.
  intros (Hw & Hh & Hlen) Hy Hx Hc. unfold conv_sum.
  change (seqZ (-1) 3) with [-1; 0; 1]. cbn [foldl].
  repeat match goal with
  | |- context [elem orig (((y + ?ky) * width + (x + ?kx)) * 4 + c)] =>
    change (((y + ky) * width + (x + kx)) * 4 + c)
      with (offset width (y + ky) (x + kx) c);
    rewrite (elem_in_range orig (offset width (y + ky) (x + kx) c))
      by (rewrite Hlen; apply offset_range; lia)
  end.
  change (elem kernel ((-1 + 1) * 3 + (-1 + 1))) with (num 0).
  change (elem kernel ((-1 + 1) * 3 + (0 + 1))) with (num (-1)).
  change (elem kernel ((-1 + 1) * 3 + (1 + 1))) with (num 0).
  change (elem kernel ((0 + 1) * 3 + (-1 + 1))) with (num (-1)).
  change (elem kernel ((0 + 1) * 3 + (0 + 1))) with (num 5).
  change (elem kernel ((0 + 1) * 3 + (1 + 1))) with (num (-1)).
  change (elem kernel ((1 + 1) * 3 + (-1 + 1))) with (num 0).
  change (elem kernel ((1 + 1) * 3 + (0 + 1))) with (num (-1)).
  change (elem kernel ((1 + 1) * 3 + (1 + 1))) with (num 0).
  rewrite !nmul_num, !nadd_num. f_equal.
  replace (y + 0) with y by lia. replace (x + 0) with x by lia.
  replace (y + -1) with (y - 1) by lia. replace (x + -1) with (x - 1) by lia.
  lia.
Qed.

Lemma sharpen_pure_length (orig : list Z) (width height : Z) :
  length (sharpen_pure orig width height) = length orig.
Proof.
  rewrite sharpen_pure_flat.
  rewrite (foldl_pointwise _ _ _ (sharpen_write_eq orig width)).
  apply foldl_write_length.
Qed.

(** What the sharpened buffer holds at an interior colour sample. *)
Lemma sharpen_pure_interior (orig : list Z) (width height y x c : Z) :
  well_formed orig width height ->
  1 <= y <= height - 2 -> 1 <= x <= width - 2 -> 0 <= c < 3 ->
  sharpen_pure orig width height !! Z.to_nat (offset width y x c)
  = Some (Z.min 255 (Z.max 0
      (5 * at_index orig (offset width y x c)
       - at_index orig (offset width (y - 1) x c)
       - at_index orig (offset width (y + 1) x c)
       - at_index orig (offset width y (x - 1) c)
       - at_index orig (offset width y (x + 1) c)))).
Proof.
  intros Hwf Hy Hx Hc.
  pose proof Hwf as (Hw & Hh & Hlen).
  pose proof (offset_range width height y x c ltac:(lia) ltac:(lia) ltac:(lia))
    as Hr.
  rewrite sharpen_pure_flat.
  rewrite (foldl_pointwise _ _ _ (sharpen_write_eq orig width)).
  rewrite (foldl_write_hit _ _ _ _ _ (y, x, c)).
  - rewrite (conv_sum_interior orig width height) by assumption.
    rewrite clamp_num. reflexivity.
  - apply elem_of_interior. lia.
  - rewrite Z2Nat.id by lia. reflexivity.
  - lia.
  - intros [[y' x'] c'] Hin Heq. apply elem_of_interior in Hin.
    rewrite Z2Nat.id in Heq by lia.
    apply offset_inj in Heq; [|lia..].
    destruct Heq as (-> & -> & ->). reflexivity.
Qed.

(** Samples no interior colour offset points at keep their value. *)
Lemma sharpen_pure_elsewhere (orig : list Z) (width height : Z) (j : nat) :
  (forall y x c, 1 <= y <= height - 2 -> 1 <= x <= width - 2 -> 0 <= c < 3 ->
     offset width y x c <> Z.of_nat j) ->
  sharpen_pure orig width height !! j = orig !! j.
Proof.
  intros Hne. rewrite sharpen_pure_flat.
  rewrite (foldl_pointwise _ _ _ (sharpen_write_eq orig width)).
  apply foldl_write_other. intros [[y x] c] Hin.
  apply elem_of_interior in Hin. apply Hne; lia.
Qed.

(** ** Image transform library *)

Lemma heap_with_new w h a : heap (with_new w h a) = h ++ [a].
Proof. reflexivity. Qed.

Lemma contrast_value_num (v : Z) :
  contrast_value (3 # 2) (num v)
  = Some (Qmin 255 (Qmax 0 ((inject_Z v - 128) * (3 # 2) + 128))).
Proof. reflexivity. Qed.

(** The store rounds halves to the even neighbour and clamps. *)
Example contrast_rounding :
  sample (contrast_value (3 # 2)) <$> [0; 43; 128; 129; 131; 213; 255]
  = [0; 0; 128; 130; 132; 255; 255].
Proof. vm_compute. reflexivity. Qed.

Example brightness_clamps :
  sample (brightness_value 30) <$> [0; 100; 230; 255] = [30; 130; 255; 255]
  /\ sample (brightness_value (-30)) <$> [0; 20; 100] = [0; 0; 70].
Proof. split; vm_compute; reflexivity. Qed.

(** C8 (as stated) fails: the red sample 129 of a one-pixel image
  becomes 130, while the formula gives 129.5. *)
Lemma contrast_exact_fails : ~ contrast_exact one_pixel_world one_pixel.
Proof.
  intros H.
  specialize (H _ _ 0%nat 129 130 (run_enhanceContrast one_pixel one_pixel_world)).
  assert (Hq : (inject_Z 130
                == Qmin 255 (Qmax 0 ((inject_Z 129 - 128) * (3 # 2) + 128)))%Q).
  { apply H; [vm_compute; lia | reflexivity | vm_compute; reflexivity]. }
  vm_compute in Hq. discriminate Hq.
Qed.

(** C8 (amended). For every pixel buffer, contrast enhancement returns a
  new buffer of the same width, height and length in which every R, G
  and B sample is clamp(0, 255, (in - 128) * 1.5 + 128) rounded to the
  nearest integer, halves to the even neighbour, as the store into the
  8-bit array does; every alpha sample is the input's, and no array that
  existed before the call, the input's among them, is changed. *)
Theorem enhanceContrast_samples (w : World) (imageData : ImageData) :
  (data imageData < length (heap w))%nat ->
  exists out w',
    enhanceContrast imageData w = (Ok out, w')
    /\ width out = width imageData /\ height out = height imageData
    /\ data out <> data imageData
    /\ (forall l, (l < length (heap w))%nat -> heap w' !! l = heap w !! l)
    /\ length (array_at (heap w') (data out))
       = length (array_at (heap w) (data imageData))
    /\ forall (j : nat) (v : Z),
         array_at (heap w) (data imageData) !! j = Some v ->
         array_at (heap w') (data out) !! j
         = Some (if decide (j mod 4 = 3)%nat then v
                 else toUint8Clamp
                   (Some (Qmin 255 (Qmax 0 ((inject_Z v - 128) * (3 # 2) + 128))))).
Proof.
  intros Hl. eexists _, _. split; [apply run_enhanceContrast|].
  rewrite heap_with_new; cbn [data width height]; rewrite array_at_new.
  repeat split.
  - lia.
  - intros l Hlt. apply lookup_app_l. exact Hlt.
  - apply map_rgb_length.
  - intros j v Hv. rewrite map_rgb_lookup, Hv.
    case_decide; [reflexivity|]. cbn [fmap option_fmap option_map].
    unfold sample. rewrite contrast_value_num. reflexivity.
Qed.

Lemma enhanceContrast_samples_witness :
  exists out w',
    enhanceContrast one_pixel one_pixel_world = (Ok out, w')
    /\ array_at (heap w') (data out) = [130; 0; 0; 255]
    /\ array_at (heap w') (data one_pixel) = [129; 0; 0; 255].
Proof.
  destruct (enhanceContrast_samples one_pixel_world one_pixel)
    as (out & w' & Hrun & _); [vm_compute; lia|].
  exists out, w'. split; [exact Hrun|].
  rewrite run_enhanceContrast in Hrun. inversion Hrun; subst.
  split; vm_compute; reflexivity.
Defined.

(** C9. On a buffer of width * height * 4 samples, sharpening gives each
  R, G and B sample of an interior pixel the value of the kernel
  [0,-1,0; -1,5,-1; 0,-1,0] over the input's neighbourhood, clamped to
  [0, 255]; the samples of the one-pixel border and every alpha sample
  keep their input value, and the input array is unchanged. *)
Theorem sharpenImage_kernel (w : World) (imageData : ImageData) :
  (data imageData < length (heap w))%nat ->
  well_formed (array_at (heap w) (data imageData))
    (width imageData) (height imageData) ->
  exists out w',
    sharpenImage imageData w = (Ok out, w')
    /\ array_at (heap w') (data imageData) = array_at (heap w) (data imageData)
    /\ forall y x c,
         0 <= y < height imageData -> 0 <= x < width imageData -> 0 <= c < 4 ->
         let orig := array_at (heap w) (data imageData) in
         let at_ y x := at_index orig (offset (width imageData) y x c) in
         array_at (heap w') (data out) !! Z.to_nat (offset (width imageData) y x c)
         = Some (if is_interior (width imageData) (height imageData) y x
                    && (c <? 3)
                 then Z.min 255 (Z.max 0
                        (5 * at_ y x - at_ (y - 1) x - at_ (y + 1) x
                         - at_ y (x - 1) - at_ y (x + 1)))
                 else at_ y x).
Proof.
  intros Hl Hwf. eexists _, _. split; [apply run_sharpenImage; exact Hl|].
  rewrite heap_with_new; cbn [data width height]; rewrite array_at_new. split.
  { apply array_at_old. exact Hl. }
  intros y x c Hy Hx Hc.
  destruct (is_interior (width imageData) (height imageData) y x && (c <? 3))
    eqn:Hin.
  - unfold is_interior in Hin.
    apply (sharpen_pure_interior _ _ _ _ _ _ Hwf); lia.
  - pose proof Hwf as (Hw & Hh & Hlen).
    pose proof (offset_range _ _ y x c Hy Hx Hc) as Hr.
    rewrite sharpen_pure_elsewhere.
    + unfold at_index.
      destruct (lookup_lt_is_Some_2 (array_at (heap w) (data imageData))
                  (Z.to_nat (offset (width imageData) y x c))) as [v Hv]; [lia|].
      rewrite Hv. reflexivity.
    + intros y' x' c' Hy' Hx' Hc' Heq. rewrite Z2Nat.id in Heq by lia.
      apply offset_inj in Heq; [|lia..].
      destruct Heq as (-> & -> & ->). unfold is_interior in Hin. lia.
Qed.

Lemma sharpenImage_kernel_witness :
  exists out w',
    sharpenImage nine_pixel nine_pixel_world = (Ok out, w')
    /\ array_at (heap w') (data out) !! 16%nat = Some 255
    /\ array_at (heap w') (data out) !! 18%nat = Some 60
    /\ array_at (heap w') (data out) !! 0%nat = Some 10.
Proof.
  destruct (sharpenImage_kernel nine_pixel_world nine_pixel)
    as (out & w' & Hrun & _ & Hpix).
  { vm_compute; lia. }
  { repeat split; vm_compute; congruence. }
  exists out, w'. split; [exact Hrun|].
  assert (Hh : height nine_pixel = 3) by reflexivity.
  assert (Hw : width nine_pixel = 3) by reflexivity.
  split; [|split].
  - exact (Hpix 1 1 0 ltac:(lia) ltac:(lia) ltac:(lia)).
  - exact (Hpix 1 1 2 ltac:(lia) ltac:(lia) ltac:(lia)).
  - exact (Hpix 0 0 0 ltac:(lia) ltac:(lia) ltac:(lia)).
Defined.

Lemma map_rgb_frame (f : Number -> Number) (imageData : ImageData) (w : World)
    (t : M ImageData) :
  (data imageData < length (heap w))%nat ->
  t w = (Ok {| data := length (heap w); width := width imageData;
               height := height imageData |},
         with_new w (heap w) (map_rgb f (array_at (heap w) (data imageData)))) ->
  preserves_frame t imageData w.
Proof.
  intros Hl Hrun. eexists _, _. split; [exact Hrun|].
  rewrite heap_with_new; cbn [data width height]; rewrite array_at_new.
  repeat split.
  - apply map_rgb_length.
  - intros j Hj. rewrite map_rgb_lookup. case_decide; [reflexivity | contradiction].
  - lia.
  - intros l Hlt. apply lookup_app_l. exact Hlt.
Qed.

(** C10. Contrast enhancement, brightness adjustment by any delta and
  sharpening each return a new image with the input's width, height and
  data length and the input's alpha samples, and change no array that
  existed before the call, the input's among them. *)
Theorem transforms_preserve_frame (w : World) (imageData : ImageData) :
  (data imageData < length (heap w))%nat ->
  preserves_frame (enhanceContrast imageData) imageData w
  /\ (forall delta : Q,
        preserves_frame (adjustBrightness imageData delta) imageData w)
  /\ preserves_frame (sharpenImage imageData) imageData w.
Proof.
  intros Hl. split; [|split].
  - eapply map_rgb_frame; [exact Hl | apply run_enhanceContrast].
  - intros delta. eapply map_rgb_frame; [exact Hl | apply run_adjustBrightness].
  - eexists _, _. split; [apply run_sharpenImage; exact Hl|].
    rewrite heap_with_new; cbn [data width height]; rewrite array_at_new.
    repeat split.
    + apply sharpen_pure_length.
    + intros j Hj. apply sharpen_pure_elsewhere.
      intros y x c _ _ Hc. unfold offset.
      pose proof (Nat.div_mod_eq j 4). lia.
    + lia.
    + intros l Hlt. apply lookup_app_l. exact Hlt.
Qed.

Lemma transforms_preserve_frame_witness :
  preserves_frame (enhanceContrast nine_pixel) nine_pixel nine_pixel_world
  /\ preserves_frame (adjustBrightness nine_pixel (-30)) nine_pixel nine_pixel_world
  /\ preserves_frame (sharpenImage nine_pixel) nine_pixel nine_pixel_world.
Proof.
  destruct (transforms_preserve_frame nine_pixel_world nine_pixel)
    as (Hc & Hb & Hs); [vm_compute; lia|].
  split; [exact Hc | split; [exact (Hb (-30)%Q) | exact Hs]].
Defined.

(** ** Single-region exhaustive path *)

Lemma bind_ext {A B} (m : M A) (k1 k2 : A -> M B) w :
  (forall a w', k1 a w' = k2 a w') -> bind m k1 w = bind m k2 w.
Proof. intros H. unfold bind. destruct (m w) as [[a|e|] w']; auto. Qed.

Lemma bind_assoc {A B C} (m : M A) (f : A -> M B) (g : B -> M C) w :
  bind (bind m f) g w = bind m (fun a => bind (f a) g) w.
Proof. unfold bind. destruct (m w) as [[a|e|] w']; reflexivity. Qed.

Lemma bind_ret {A B} (a : A) (k : A -> M B) w : bind (ret a) k w = k a w.
Proof. reflexivity. Qed.

Lemma try_scales_each env canvas (ss : list Q) w :
  try_scales env canvas ss w = try_each env (scaleImage canvas <$> ss) w.
Proof.
  revert w. induction ss as [|s ss IH]; intros w; [reflexivity|].
  cbn [try_scales try_each fmap list_fmap].
  apply bind_ext. intros [img|] w'; [|apply IH].
  apply bind_ext. intros [c|] w''; [reflexivity | apply IH].
Qed.

Ltac step_view :=
  unfold some_image; rewrite ?bind_assoc; apply bind_ext; intros ? ?;
  rewrite ?bind_ret; apply bind_ext; intros [?|] ?; [reflexivity|];
  cbn [return_if_found].

Lemma strategies_as_try_each env canvas ctx w :
  tryMultipleRecognitionStrategies env canvas ctx w
  = (let* img := getImageData ctx 0 0 (inject_Z (canvas_width canvas))
                   (inject_Z (canvas_height canvas)) in
     try_each env (strategy_producers canvas img)) w.
Proof.
  unfold tryMultipleRecognitionStrategies. apply bind_ext. intros img w1.
  cbn [strategy_producers app try_each]. rewrite bind_ret.
  apply bind_ext. intros [c|] w2; [reflexivity|]. cbn [return_if_found].
  do 4 step_view. apply try_scales_each.
Qed.

Lemma raw_of_eta (w : World) (l : nat) (orig : RawImage) :
  array_at (heap w) l = raw_data orig ->
  raw_of w {| data := l; width := raw_width orig; height := raw_height orig |}
  = orig.
Proof. intros H. unfold raw_of; simpl. rewrite H. destruct orig; reflexivity. Qed.

Lemma produces_original l orig :
  produces l orig
    (ret (Some {| data := l; width := raw_width orig; height := raw_height orig |}))
    (Some orig).
Proof.
  intros w Hinv. eexists _, _. split; [reflexivity|].
  split; [exact Hinv|]. split; [reflexivity|].
  simpl. f_equal. apply raw_of_eta. apply Hinv.
Qed.

Lemma produces_transform l orig (t : ImageData -> M ImageData)
    (F : list Z -> Z -> Z -> list Z) :
  (forall img w, (data img < length (heap w))%nat ->
     t img w = (Ok {| data := length (heap w); width := width img;
                      height := height img |},
                with_new w (heap w)
                  (F (array_at (heap w) (data img)) (width img) (height img)))) ->
  produces l orig
    (some_image (t {| data := l; width := raw_width orig;
                      height := raw_height orig |}))
    (run_transform t orig).
Proof.
  intros Ht w [Hl Harr]. eexists _, _. split.
  { unfold some_image. erewrite bind_ok by (apply Ht; exact Hl). reflexivity. }
  split.
  { split.
    - rewrite heap_with_new, length_app. lia.
    - rewrite heap_with_new, array_at_old by exact Hl. exact Harr. }
  split; [reflexivity|].
  unfold run_transform. rewrite Ht by (simpl; lia).
  cbn [fmap option_fmap option_map]. f_equal.
  unfold raw_of. cbn [data width height].
  rewrite !heap_with_new, Harr. cbn [heap length].
  rewrite array_at_new. reflexivity.
Qed.

Lemma produces_scaled l orig canvas (scale : Q) :
  produces l orig (scaleImage canvas scale) (scaled_pixels canvas scale).
Proof.
  intros w [Hl Harr]. unfold scaleImage.
  destruct (scaled_pixels canvas scale) as [raw|].
  - eexists _, _. split; [reflexivity|]. split.
    { split.
      - simpl. rewrite length_app. lia.
      - simpl. rewrite array_at_old by exact Hl. exact Harr. }
    split; [reflexivity|].
    cbn [fmap option_fmap option_map]. f_equal.
    unfold raw_of; simpl. rewrite array_at_new. destruct raw; reflexivity.
  - eexists _, _. split; [reflexivity|]. repeat split; assumption.
Qed.

Lemma produces_views l orig canvas :
  Forall2 (produces l orig)
    (strategy_producers canvas
       {| data := l; width := raw_width orig; height := raw_height orig |})
    (strategy_views canvas orig).
Proof.
  unfold strategy_producers, strategy_views.
  apply Forall2_app.
  - constructor; [apply produces_original|].
    constructor.
    { apply (produces_transform l orig enhanceContrast
               (fun a _ _ => map_rgb (contrast_value (3 # 2)) a)).
      intros img w _. apply run_enhanceContrast. }
    constructor.
    { apply (produces_transform l orig (fun img => adjustBrightness img 30)
               (fun a _ _ => map_rgb (brightness_value 30) a)).
      intros img w _. apply run_adjustBrightness. }
    constructor.
    { apply (produces_transform l orig (fun img => adjustBrightness img (-30))
               (fun a _ _ => map_rgb (brightness_value (-30)) a)).
      intros img w _. apply run_adjustBrightness. }
    constructor; [|constructor].
    apply (produces_transform l orig sharpenImage sharpen_pure).
    intros img w Hl. apply run_sharpenImage. exact Hl.
  - unfold scales. cbn [fmap list_fmap].
    do 5 (constructor; [apply produces_scaled|]).
    constructor.
Qed.

Lemma holds_original_log l orig c w :
  holds_original l orig w -> holds_original l orig (log_call c w).
Proof. intros H. exact H. Qed.

Lemma try_each_cascade env l orig ps views :
  Forall2 (produces l orig) ps views ->
  forall w, holds_original l orig w ->
    exists w',
      try_each env ps w = ((cascade env (omap id views)).2, w')
      /\ decode_log w' = decode_log w ++ (cascade env (omap id views)).1.
Proof.
  induction 1 as [|p view ps views Hp _ IH]; intros w Hinv.
  - exists w. split; [reflexivity|]. simpl. rewrite app_nil_r. reflexivity.
  - destruct (Hp w Hinv) as (x & w1 & Hrun & Hinv1 & Hlog1 & Hview).
    cbn [try_each]. rewrite (bind_ok _ _ _ _ _ Hrun).
    destruct x as [img|]; simpl in Hview; subst view.
    + cbn [omap list_omap id cascade]. unfold bind, jsQR.
      destruct (jsQR_lib env (raw_of w1 img) attemptBoth) as [[c|]|e] eqn:Hq;
        cbn [outcome_of].
      * eexists. split; [reflexivity|]. simpl. rewrite Hlog1. reflexivity.
      * cbn [return_if_found].
        destruct (IH _ (holds_original_log l orig
                          {| call_image := raw_of w1 img;
                             call_mode := attemptBoth |} w1 Hinv1))
          as (w' & Hrest & Hlog').
        exists w'. destruct (cascade env (omap id views)) as [calls r].
        split; [exact Hrest|].
        rewrite Hlog'. simpl. rewrite Hlog1, <- app_assoc. reflexivity.
      * eexists. split; [reflexivity|]. simpl. rewrite Hlog1. reflexivity.
    + cbn [omap list_omap]. destruct (IH w1 Hinv1) as (w' & Hrest & Hlog').
      exists w'. split; [exact Hrest|]. rewrite Hlog', Hlog1. reflexivity.
Qed.

Lemma cascade_spec env (imgs : list RawImage) :
  exists k,
    (cascade env imgs).1 = both_polarities <$> take k imgs
    /\ (forall (i : nat) img, (i + 1 < k)%nat -> imgs !! i = Some img ->
          jsQR_lib env img attemptBoth = Returned None)
    /\ last_attempt env imgs k (cascade env imgs).2.
Proof.
  induction imgs as [|img imgs (k & Hcalls & Hbefore & Hlast)].
  - exists 0%nat. repeat split; [intros; lia | constructor].
  - cbn [cascade].
    destruct (jsQR_lib env img attemptBoth) as [[c|]|e] eqn:Hq.
    + exists 1%nat. repeat split; [intros; lia|].
      exists img, c. repeat split; [lia | exact Hq].
    + destruct (cascade env imgs) as [calls r]. simpl in *.
      exists (S k). split; [rewrite Hcalls; reflexivity|]. split.
      * intros [|i] img' Hi Hlk; simpl in Hlk.
        -- inversion Hlk; subst. exact Hq.
        -- apply (Hbefore i); [lia | exact Hlk].
      * destruct r as [[text|]|e|]; simpl in *.
        -- destruct Hlast as (img' & c & Hk & Hlk & Hq' & Ht).
           exists img', c. repeat split; try assumption; try lia.
           destruct k; [lia|]. simpl in *. rewrite Nat.sub_0_r in Hlk. exact Hlk.
        -- destruct Hlast as [-> Hall]. split; [reflexivity|].
           constructor; assumption.
        -- destruct Hlast as (img' & Hk & Hlk & Hq').
           exists img'. repeat split; try assumption; try lia.
           destruct k; [lia|]. simpl in *. rewrite Nat.sub_0_r in Hlk. exact Hlk.
        -- exact Hlast.
    + exists 1%nat. repeat split; [intros; lia|].
      exists img. repeat split; [lia | exact Hq].
Qed.

Lemma cascade_all_empty env (imgs : list RawImage) :
  Forall (fun img => jsQR_lib env img attemptBoth = Returned None) imgs ->
  (cascade env imgs).2 = Ok None.
Proof.
  induction 1 as [|img imgs Hq _ IH]; [reflexivity|].
  cbn [cascade]. rewrite Hq. destruct (cascade env imgs). exact IH.
Qed.

Lemma run_getImageData canvas x y w h raw world :
  read_pixels canvas x y w h = Some raw ->
  getImageData (Some canvas) x y w h world
  = (Ok {| data := length (heap world); width := raw_width raw;
           height := raw_height raw |},
     with_new world (heap world) (raw_data raw)).
Proof. intros H. unfold getImageData. rewrite H. reflexivity. Qed.

Lemma strategy_views_defined canvas orig :
  exists c b d s,
    take 5 (strategy_views canvas orig)
    = [Some orig; Some c; Some b; Some d; Some s].
Proof.
  unfold strategy_views, run_transform.
  rewrite run_enhanceContrast, !run_adjustBrightness.
  rewrite run_sharpenImage by (simpl; lia).
  eexists _, _, _, _. reflexivity.
Qed.

(** C7. The exhaustive path decodes, with both polarities, the original
  region, the contrast-enhanced, the brightened (+30), the darkened
  (-30) and the sharpened region and then the region rescaled by 0.5,
  0.75, 1.25, 1.5 and 2.0, in this order (a rescaled view that cannot
  be made is passed over). The decoder is called on a prefix of this
  list that ends with the first view on which it does not come back
  empty: a decode there is returned and no later view is tried; when
  it comes back empty on every view the result is [null], with no
  exception. *)
Theorem strategies_in_order (env : Env) (canvas : Canvas) (orig : RawImage)
    (w : World) :
  read_pixels canvas 0 0 (inject_Z (canvas_width canvas))
    (inject_Z (canvas_height canvas)) = Some orig ->
  let imgs := strategy_images canvas orig in
  (exists c b d s,
     take 5 (strategy_views canvas orig)
     = [Some orig; Some c; Some b; Some d; Some s])
  /\ exists r w' k,
       tryMultipleRecognitionStrategies env canvas (Some canvas) w = (r, w')
       /\ decode_log w' = decode_log w ++ (both_polarities <$> take k imgs)
       /\ (forall (i : nat) img, (i + 1 < k)%nat -> imgs !! i = Some img ->
             jsQR_lib env img attemptBoth = Returned None)
       /\ last_attempt env imgs k r
       /\ (Forall (fun img => jsQR_lib env img attemptBoth = Returned None) imgs ->
           r = Ok None).
Proof.
  intros Hread imgs. split; [apply strategy_views_defined|].
  rewrite strategies_as_try_each.
  rewrite (bind_ok _ _ _ _ _ (run_getImageData _ _ _ _ _ _ _ Hread)).
  destruct (try_each_cascade env (length (heap w)) orig _ _
              (produces_views (length (heap w)) orig canvas)
              (with_new w (heap w) (raw_data orig)))
    as (w' & Hrun & Hlog).
  { split.
    - rewrite heap_with_new, length_app. simpl. lia.
    - rewrite heap_with_new. apply array_at_new. }
  fold (strategy_images canvas orig) in Hrun, Hlog. fold imgs in Hrun, Hlog.
  destruct (cascade_spec env imgs) as (k & Hcalls & Hbefore & Hlast).
  exists (cascade env imgs).2, w', k.
  split; [exact Hrun|]. split; [rewrite Hlog, Hcalls; reflexivity|].
  split; [exact Hbefore|]. split; [exact Hlast|].
  apply cascade_all_empty.
Qed.

Lemma strategies_in_order_witness :
  (exists r w' k,
     tryMultipleRecognitionStrategies contrast_only_env one_pixel_canvas
       (Some one_pixel_canvas) fresh_world = (r, w')
     /\ decode_log w'
        = both_polarities
            <$> take k (strategy_images one_pixel_canvas one_pixel_raw))
  /\ (tryMultipleRecognitionStrategies contrast_only_env one_pixel_canvas
        (Some one_pixel_canvas) fresh_world).1 = Ok (Some (js "hello world"))
  /\ length (decode_log
       (tryMultipleRecognitionStrategies contrast_only_env one_pixel_canvas
          (Some one_pixel_canvas) fresh_world).2) = 2%nat.
Proof.
  split.
  - destruct (strategies_in_order contrast_only_env one_pixel_canvas
                one_pixel_raw fresh_world eq_refl)
      as (_ & r & w' & k & Hrun & Hlog & _).
    exists r, w', k. split; [exact Hrun | exact Hlog].
  - split; vm_compute; reflexivity.
Defined.

(** ** Outcomes of computations *)

Section Ensures.
Context {A : Type}.
Implicit Types (m : M A) (P : A -> Prop) (T H : Prop).

Lemma ensures_ret a P T H : P a -> ensures (ret a) P T H.
Proof. intros Ha w. exact Ha. Qed.

Lemma ensures_throw e P T H : T -> ensures (@throw A e) P T H.
Proof. intros Ht w. exact Ht. Qed.

Lemma ensures_hang P T H : H -> ensures (@hang A) P T H.
Proof. intros Hh w. exact Hh. Qed.

Lemma ensures_weaken m P P' T T' H H' :
  ensures m P T H -> (forall a, P a -> P' a) -> (T -> T') -> (H -> H') ->
  ensures m P' T' H'.
Proof.
  intros Hm HP HT HH w. specialize (Hm w).
  destruct (m w) as [[a|e|] w']; simpl in *; auto.
Qed.

Lemma ensures_any m : ensures m (fun _ => True) True True.
Proof. intros w. destruct (m w) as [[a|e|] w']; exact I. Qed.

Lemma ensures_try_catch m (h : jsstring -> M A) P T T' H :
  ensures m P T' H -> (forall e, T' -> ensures (h e) P T H) ->
  ensures (try_catch m h) P T H.
Proof.
  intros Hm Hh w. unfold try_catch. specialize (Hm w).
  destruct (m w) as [[a|e|] w']; simpl in *; auto.
  apply (Hh e Hm w').
Qed.

Lemma ensures_attempt m P T T' H :
  ensures m P T' H -> ensures (attempt m) (settled_with P T') T H.
Proof.
  intros Hm w. unfold attempt. specialize (Hm w).
  destruct (m w) as [[a|e|] w']; simpl in *; auto.
Qed.


Lemma ensures_returns m P w :
  ensures m P False False -> exists a w', m w = (Ok a, w') /\ P a.
Proof.
  intros Hm. specialize (Hm w).
  destruct (m w) as [[a|e|] w']; simpl in *; try contradiction.
  exists a, w'. split; [reflexivity | exact Hm].
Qed.

Lemma ensures_never_throws m P H w e w' :
  ensures m P False H -> m w <> (Throw e, w').
Proof. intros Hm Hrun. specialize (Hm w). rewrite Hrun in Hm. exact Hm. Qed.

End Ensures.

Lemma ensures_bind {A B} (m : M A) (k : A -> M B) (Q : A -> Prop)
    (P : B -> Prop) T H :
  ensures m Q T H -> (forall a, Q a -> ensures (k a) P T H) ->
  ensures (bind m k) P T H.
Proof.
  intros Hm Hk w. unfold bind. specialize (Hm w).
  destruct (m w) as [[a|e|] w']; simpl in *; auto.
  apply (Hk a Hm w').
Qed.

Lemma ensures_mapM {A B} (f : A -> M B) (P : B -> Prop) T H (xs : list A) :
  Forall (fun x => ensures (f x) P T H) xs ->
  ensures (mapM f xs) (Forall P) T H.
Proof.
  induction 1 as [|x xs Hx _ IH]; simpl.
  - apply ensures_ret. constructor.
  - eapply ensures_bind; [exact Hx|]. intros y Hy.
    eapply ensures_bind; [exact IH|]. intros ys Hys.
    apply ensures_ret. constructor; assumption.
Qed.

Lemma ensures_foldM {A B} (f : B -> A -> M B) (Inv : B -> Prop) T H
    (xs : list A) :
  (forall b x, Inv b -> ensures (f b x) Inv T H) ->
  forall b, Inv b -> ensures (foldM f b xs) Inv T H.
Proof.
  intros Hf. induction xs as [|x xs IH]; intros b Hb; simpl.
  - apply ensures_ret. exact Hb.
  - eapply ensures_bind; [apply Hf; exact Hb|]. intros b' Hb'. apply IH. exact Hb'.
Qed.

Lemma ensures_forM_ {A} (body : A -> M unit) T H (xs : list A) :
  (forall x, ensures (body x) (fun _ => True) T H) ->
  ensures (forM_ xs body) (fun _ => True) T H.
Proof.
  intros Hb. induction xs as [|x xs IH]; simpl.
  - apply ensures_ret. exact I.
  - eapply ensures_bind; [apply Hb|]. intros _ _. exact IH.
Qed.

Lemma ensures_allSettled {A} (ps : list (M A)) (P : A -> Prop) T T' H :
  Forall (fun p => ensures p P T' H) ps ->
  ensures (allSettled ps) (Forall (settled_with P T')) T H.
Proof.
  induction 1 as [|p ps Hp _ IH]; simpl.
  - apply ensures_ret. constructor.
  - eapply ensures_bind; [apply ensures_attempt; exact Hp|]. intros r Hr.
    eapply ensures_bind; [exact IH|]. intros rs Hrs.
    apply ensures_ret. constructor; assumption.
Qed.

(** Store and library primitives always return or, for the library
  calls, throw; none hangs. *)
Lemma ensures_value {A} (m : M A) P T H :
  (forall w, exists a w', m w = (Ok a, w') /\ P a) -> ensures m P T H.
Proof. intros Hm w. destruct (Hm w) as (a & w' & -> & Ha). exact Ha. Qed.

Lemma ensures_array_get l i T H : ensures (array_get l i) (fun _ => True) T H.
Proof. apply ensures_value. intros w. eexists _, _. split; [reflexivity | exact I]. Qed.

Lemma ensures_array_set l i v T H : ensures (array_set l i v) (fun _ => True) T H.
Proof. apply ensures_value. intros w. eexists _, _. split; [reflexivity | exact I]. Qed.

Lemma ensures_array_length l T H : ensures (array_length l) (fun _ => True) T H.
Proof. apply ensures_value. intros w. eexists _, _. split; [reflexivity | exact I]. Qed.

Lemma ensures_new_array src T H :
  ensures (new_Uint8ClampedArray src) (fun _ => True) T H.
Proof. apply ensures_value. intros w. eexists _, _. split; [reflexivity | exact I]. Qed.

Lemma ensures_enhanceContrast img T H :
  ensures (enhanceContrast img) (fun _ => True) T H.
Proof.
  apply ensures_value. intros w. eexists _, _.
  split; [apply run_enhanceContrast | exact I].
Qed.

Lemma ensures_adjustBrightness img delta T H :
  ensures (adjustBrightness img delta) (fun _ => True) T H.
Proof.
  apply ensures_value. intros w. eexists _, _.
  split; [apply run_adjustBrightness | exact I].
Qed.

Lemma ensures_sharpenImage img T H :
  ensures (sharpenImage img) (fun _ => True) T H.
Proof.
  unfold sharpenImage.
  eapply ensures_bind; [apply ensures_new_array|]. intros data' _. cbv zeta.
  eapply ensures_bind; [|intros; apply ensures_ret; exact I].
  apply ensures_forM_. intros y. apply ensures_forM_. intros x.
  apply ensures_forM_. intros c.
  eapply ensures_bind with (Q := fun _ => True); [|intros; apply ensures_array_set].
  apply ensures_foldM; [|exact I]. intros sum ky _.
  apply ensures_foldM; [|exact I]. intros sum' kx _.
  eapply ensures_bind; [apply ensures_array_get|].
  intros; apply ensures_ret; exact I.
Qed.

Lemma ensures_jsQR env img mode H :
  ensures (jsQR env img mode) (fun _ => True) True H.
Proof.
  intros w. unfold jsQR; simpl.
  destruct (jsQR_lib env (raw_of w img) mode); exact I.
Qed.

Lemma ensures_scanImage env imageData H :
  ensures (QrScanner_scanImage env imageData) (fun _ => True) True H.
Proof.
  intros w. unfold QrScanner_scanImage; simpl.
  destruct (scanImage env imageData); exact I.
Qed.

Lemma ensures_getImageData ctx x y w h H :
  ensures (getImageData ctx x y w h) (fun _ => True) True H.
Proof.
  intros world. unfold getImageData.
  destruct ctx as [canvas|]; [|exact I].
  destruct (read_pixels canvas x y w h); exact I.
Qed.

Lemma ensures_scaleImage canvas scale T H :
  ensures (scaleImage canvas scale) (fun _ => True) T H.
Proof.
  intros w. unfold scaleImage. destruct (scaled_pixels canvas scale); exact I.
Qed.

Lemma ensures_canvas_and_context env imageData H :
  ensures (canvas_and_context env imageData) (fun _ => True) True H.
Proof.
  intros w. destruct imageData as [s|canvas]; simpl; [|exact I].
  unfold createCanvasFromImageData.
  destruct (loadImage env s) as [canvas|]; [|exact I].
  destruct (getContext canvas); exact I.
Qed.

(** ** Deduplication *)

(** Position keys round each coordinate to the nearest integer, halves
  upwards. *)
Example position_key_rounds :
  position_key (41 # 4) (79 # 4) = js "10_20"
  /\ position_key (-5 # 2) (1 # 2) = js "-2_1".
Proof. split; vm_compute; reflexivity. Qed.







(** *** The candidates of the three stages carry a position *)







(** *** The stages keep the payloads distinct *)







(** ** Timed entry points *)

Lemma ensures_try_scales env canvas (ss : list Q) :
  ensures (try_scales env canvas ss) (fun _ => True) True False.
Proof.
  induction ss as [|s ss IH]; simpl.
  - apply ensures_ret. exact I.
  - eapply ensures_bind; [apply ensures_scaleImage|]. intros [img|] _; [|exact IH].
    eapply ensures_bind; [apply ensures_jsQR|]. intros [c|] _; [|exact IH].
    apply ensures_ret. exact I.
Qed.

Ltac decode_then :=
  eapply ensures_bind; [apply ensures_jsQR|]; intros [?|] _;
  [apply ensures_ret; exact I|]; cbn [return_if_found].

Lemma ensures_tryMultiple env canvas ctx :
  ensures (tryMultipleRecognitionStrategies env canvas ctx)
    (fun _ => True) True False.
Proof.
  unfold tryMultipleRecognitionStrategies.
  eapply ensures_bind; [apply ensures_getImageData|]. intros img _.
  decode_then.
  eapply ensures_bind; [apply ensures_enhanceContrast|]. intros ? _. decode_then.
  eapply ensures_bind; [apply ensures_adjustBrightness|]. intros ? _. decode_then.
  eapply ensures_bind; [apply ensures_adjustBrightness|]. intros ? _. decode_then.
  eapply ensures_bind; [apply ensures_sharpenImage|]. intros ? _. decode_then.
  apply ensures_try_scales.
Qed.

Lemma ensures_recognizeCanvasWithJsQR env canvas :
  ensures (recognizeCanvasWithJsQR env canvas) (fun _ => True) True False.
Proof.
  unfold recognizeCanvasWithJsQR.
  destruct (getContext canvas); [|apply ensures_throw; exact I].
  eapply ensures_bind; [apply ensures_tryMultiple|]. intros [text|] _.
  - destruct (negb (falsy text)); [apply ensures_ret | apply ensures_throw]; exact I.
  - apply ensures_throw. exact I.
Qed.

Lemma ensures_recognizeWithJsQR env s :
  ensures (recognizeWithJsQR env s) (fun _ => True) True False.
Proof.
  unfold recognizeWithJsQR.
  destruct (loadImage env s) as [canvas|]; [|apply ensures_throw; exact I].
  destruct (getContext canvas); [|apply ensures_throw; exact I].
  eapply ensures_bind; [apply ensures_tryMultiple|]. intros [text|] _.
  - destruct (negb (falsy text)); [apply ensures_ret | apply ensures_throw]; exact I.
  - apply ensures_throw. exact I.
Qed.

Lemma ensures_recognizeWithQrScannerFast env imageData :
  ensures (recognizeWithQrScannerFast env imageData) fast_shape False False.
Proof.
  unfold recognizeWithQrScannerFast.
  eapply ensures_bind with
    (Q := fun o => forall r, o = Some r -> exists text, r = decoded text None).
  - apply ensures_try_catch with (T' := True);
      [|intros; apply ensures_ret; discriminate].
    eapply ensures_bind; [apply ensures_scanImage|]. intros result _.
    destruct (negb (falsy result)); apply ensures_ret; [|discriminate].
    intros r Hr. inversion Hr. eexists; reflexivity.
  - intros [r|] Hr; apply ensures_ret.
    + left. apply Hr. reflexivity.
    + right. reflexivity.
Qed.

Lemma ensures_recognizeWithJsQRFast env imageData :
  ensures (recognizeWithJsQRFast env imageData) fast_shape False False.
Proof.
  unfold recognizeWithJsQRFast.
  eapply ensures_bind with
    (Q := fun o => forall r, o = Some r -> exists text, r = decoded text None).
  - apply ensures_try_catch with (T' := True);
      [|intros; apply ensures_ret; discriminate].
    eapply ensures_bind; [apply ensures_canvas_and_context|].
    intros [canvas ctx] _.
    eapply ensures_bind; [apply ensures_getImageData|]. intros img _.
    eapply ensures_bind; [apply ensures_jsQR|]. intros [c|] _;
      apply ensures_ret; [|discriminate].
    intros r Hr. inversion Hr. eexists; reflexivity.
  - intros [r|] Hr; apply ensures_ret.
    + left. apply Hr. reflexivity.
    + right. reflexivity.
Qed.

Lemma first_fulfilled_shape (rs : list (Result QRResult)) (value : QRResult) :
  Forall (settled_with fast_shape False) rs ->
  first_fulfilled rs = Some value ->
  exists text, text <> [] /\ value = decoded text None.
Proof.
  induction 1 as [|r rs Hr _ IH]; simpl; [discriminate|].
  destruct r as [v|e]; [|contradiction].
  destruct (falsy (serialNumber v)) eqn:Hf; simpl; [exact IH|].
  intros Hv. inversion Hv; subst v.
  destruct Hr as [[text ->] | ->]; [|discriminate Hf].
  exists text. split; [|reflexivity]. intros ->. discriminate Hf.
Qed.

Lemma ensures_performFastSingleRecognition env imageData startTime now_gate :
  ensures (performFastSingleRecognition env imageData startTime now_gate)
    single_shape False False.
Proof.
  unfold performFastSingleRecognition. cbv zeta.
  eapply ensures_bind.
  { apply ensures_allSettled with (P := fast_shape) (T' := False).
    repeat constructor;
      [apply ensures_recognizeWithQrScannerFast
      | apply ensures_recognizeWithJsQRFast]. }
  intros fastResults Hfast.
  destruct (first_fulfilled fastResults) as [value|] eqn:Hfirst.
  { apply ensures_ret. left. eapply first_fulfilled_shape; eassumption. }
  eapply ensures_bind with
    (Q := fun o => forall r, o = Some r ->
                   exists text, text <> [] /\ r = decoded text None).
  - destruct (now_gate - startTime <? 800);
      [|apply ensures_ret; discriminate].
    apply ensures_try_catch with (T' := True);
      [|intros; apply ensures_ret; discriminate].
    eapply ensures_bind with (Q := fun _ => True).
    + apply ensures_try_catch with (T' := True); [apply ensures_scanImage|].
      intros e _. destruct imageData as [s|canvas];
        [apply ensures_recognizeWithJsQR | apply ensures_recognizeCanvasWithJsQR].
    + intros text _. destruct (falsy text) eqn:Hf; simpl;
        apply ensures_ret; [discriminate|].
      intros r Hr. inversion Hr. exists text. split; [|reflexivity].
      intros ->. discriminate Hf.
  - intros [r|] Hr; apply ensures_ret.
    + left. apply Hr. reflexivity.
    + right. reflexivity.
Qed.

Lemma ensures_ensure_initialized T H :
  ensures ensure_initialized (fun _ => True) T H.
Proof.
  intros w. unfold ensure_initialized, initialize.
  destruct (isInitialized w); exact I.
Qed.

Lemma timer_won_spec (settles_at fires_at : Z) (timer : option Z) (fired : Z) :
  timer_won settles_at fires_at timer = Some fired
  <-> timer = Some fired /\ fires_at <= fired < settles_at.
Proof.
  unfold timer_won. destruct timer as [t|]; [|split; [discriminate | intros [H _]; discriminate H]].
  destruct (Z.leb_spec fires_at t), (Z.ltb_spec t settles_at); simpl;
    split; try discriminate;
    try (intros [= ->]; split; [reflexivity | lia]);
    try (intros [[= ->] Hb]; first [reflexivity | lia]).
Qed.

Lemma timer_won_in_time (settles_at fires_at : Z) (timer : option Z) :
  settles_at <= fires_at -> timer_won settles_at fires_at timer = None.
Proof.
  intros Hle. destruct (timer_won settles_at fires_at timer) as [t|] eqn:Hwon;
    [|reflexivity].
  apply timer_won_spec in Hwon. lia.
Qed.

Lemma ensures_race_timeout {A} (p : M A) (P : A -> Prop) T T' H
    (settles_at fires_at : Z) (timer : option Z) (msg : jsstring) :
  ensures p P T' H ->
  ensures (race_timeout p settles_at fires_at timer msg)
    (fun '(r, now) =>
       match timer_won settles_at fires_at timer with
       | Some fired => r = Thrown msg /\ now = fired
       | None => settled_with P T' r /\ now = settles_at
       end)
    T H.
Proof.
  intros Hp. unfold race_timeout.
  eapply ensures_bind; [apply ensures_attempt; exact Hp|]. intros r Hr.
  destruct (timer_won settles_at fires_at timer); apply ensures_ret.
  - split; reflexivity.
  - split; [exact Hr | reflexivity].
Qed.

Lemma timeout_message_includes :
  includes (js "单图识别超时") (js "超时") = true.
Proof. vm_compute. reflexivity. Qed.

Lemma ensures_recognizeImage env clk imageData :
  ensures (recognizeImage env clk imageData)
    (fun r =>
       match timer_won (s_settle clk) (s_start clk + 1500) (s_timer clk) with
       | Some fired => r = empty_result (js "识别超时") (fired - s_start clk)
       | None =>
         exists r0, single_shape r0
                    /\ r = set_processingTime (s_settle clk - s_start clk) r0
       end)
    False False.
Proof.
  unfold recognizeImage. cbv zeta.
  eapply ensures_bind; [apply ensures_ensure_initialized|]. intros _ _.
  eapply ensures_bind.
  { apply ensures_race_timeout with (P := single_shape) (T' := False).
    apply ensures_performFastSingleRecognition. }
  intros [settled now] Hrace.
  destruct (timer_won (s_settle clk) (s_start clk + 1500) (s_timer clk))
    as [fired|].
  - destruct Hrace as [-> ->]. apply ensures_ret.
    rewrite timeout_message_includes. reflexivity.
  - destruct Hrace as [Hs ->]. destruct settled as [result|e]; [|contradiction].
    apply ensures_ret. exists result. split; [exact Hs | reflexivity].
Qed.




(** *** The multi-code entry point *)

Lemma ensures_recognizeMultiple_no_throw env clk imageData :
  ensures (recognizeMultipleQRCodes env clk imageData) (fun _ => True) False True.
Proof.
  unfold recognizeMultipleQRCodes. cbv zeta.
  eapply ensures_bind; [apply ensures_ensure_initialized|]. intros _ _.
  eapply ensures_bind.
  { apply ensures_attempt with (P := fun _ => True) (T' := True).
    apply ensures_canvas_and_context. }
  intros [[canvas ctx]|e] _; [|apply ensures_ret; exact I].
  eapply ensures_bind.
  { apply ensures_race_timeout with (P := fun _ => True) (T' := True).
    apply ensures_any. }
  intros [[rs|e] now] _; apply ensures_ret; exact I.
Qed.

Lemma run_ensure_initialized w :
  exists w', ensure_initialized w = (Ok tt, w') /\ heap w' = heap w
             /\ decode_log w' = decode_log w.
Proof.
  unfold ensure_initialized, initialize.
  destruct (isInitialized w); eexists; repeat split.
Qed.



(** *** The stages return unless the window loop cannot advance *)

Lemma ensures_strategy_attempt env (strategy : M ImageData) :
  ensures strategy (fun _ => True) True False ->
  ensures
    (try_catch
       (let* processedData := strategy in
        let* code := jsQR env processedData dontInvert in
        match code with
        | Some c =>
          ret (Some (decoded (code_data c)
                       (Some (position_of (top_left_x c) (top_left_y c) c))))
        | None => ret None
        end)
       (fun _ => ret None))
    (fun _ => True) False False.
Proof.
  intros Hs. apply ensures_try_catch with (T' := True);
    [|intros; apply ensures_ret; exact I].
  eapply ensures_bind; [exact Hs|]. intros processed _.
  eapply ensures_bind; [apply ensures_jsQR|]. intros [c|] _;
    apply ensures_ret; exact I.
Qed.

Lemma ensures_quickFullImageScan env canvas ctx :
  ensures (quickFullImageScan env canvas ctx) (fun _ => True) False False.
Proof.
  unfold quickFullImageScan.
  apply ensures_try_catch with (T' := True);
    [|intros; apply ensures_ret; exact I].
  eapply ensures_bind; [apply ensures_getImageData|]. intros imageData _.
  eapply ensures_bind with (Q := fun _ => True);
    [|intros; apply ensures_ret; exact I].
  eapply ensures_weaken with (P := Forall (fun _ => True)) (T := True)
    (H := False); [|auto..].
  apply ensures_mapM.
  constructor; [|constructor; [|constructor; [|constructor]]];
    (eapply ensures_weaken with (T := False) (H := False);
     [apply ensures_strategy_attempt | auto..]).
  - apply ensures_ret. exact I.
  - apply ensures_enhanceContrast.
  - apply ensures_adjustBrightness.
Qed.

Lemma ensures_smartRegionScan env canvas ctx found :
  ensures (smartRegionScan env canvas ctx found) (fun _ => True) False False.
Proof.
  unfold smartRegionScan. cbv zeta.
  eapply ensures_bind with (Q := fun _ => True);
    [|intros; apply ensures_ret; exact I].
  eapply ensures_weaken with (P := Forall (fun _ => True)) (T := False)
    (H := False); [|auto..].
  apply ensures_mapM. apply Forall_forall. intros region _.
  apply ensures_try_catch with (T' := True);
    [|intros; apply ensures_ret; exact I].
  eapply ensures_bind; [apply ensures_getImageData|]. intros regionData _.
  eapply ensures_bind; [apply ensures_jsQR|]. intros [c|] _;
    [|apply ensures_ret; exact I].
  match goal with |- context [if ?b then _ else _] => destruct b end;
    apply ensures_ret; exact I.
Qed.

Lemma ensures_scanRegionAsync env ctx x y w h ox oy :
  ensures (scanRegionAsync env ctx x y w h ox oy) (fun _ => True) False False.
Proof.
  unfold scanRegionAsync.
  apply ensures_try_catch with (T' := True);
    [|intros; apply ensures_ret; exact I].
  eapply ensures_bind; [apply ensures_getImageData|]. intros regionData _.
  eapply ensures_bind; [apply ensures_jsQR|]. intros [c|] _;
    apply ensures_ret; exact I.
Qed.

Lemma loop_values_advancing (limit step : Q) :
  (0 < step)%Q -> loop_values limit step <> None.
Proof.
  intros Hstep. unfold loop_values.
  destruct (Qle_bool 0 limit); [|discriminate].
  destruct (Qle_bool step 0) eqn:Hle; [|discriminate].
  apply Qle_bool_iff in Hle. exfalso.
  apply (Qlt_irrefl 0). eapply Qlt_le_trans; eassumption.
Qed.

Lemma window_origins_defined (width height : Z) :
  0 < width -> 0 < height ->
  window_origins (inject_Z width) (inject_Z height)
    (Qmin (inject_Z width) (inject_Z height) * (4 # 10))
    (Qmin (inject_Z width) (inject_Z height) * (4 # 10) * (6 # 10))
  <> None.
Proof.
  intros Hw Hh.
  assert (Hstep : (0 < Qmin (inject_Z width) (inject_Z height)
                       * (4 # 10) * (6 # 10))%Q).
  { assert (Hmin : (0 < Qmin (inject_Z width) (inject_Z height))%Q).
    { apply Q.min_glb_lt; unfold Qlt, inject_Z; simpl; lia. }
    repeat apply Qmult_lt_0_compat; try exact Hmin; reflexivity. }
  unfold window_origins.
  pose proof (loop_values_advancing
                (inject_Z height
                 - Qmin (inject_Z width) (inject_Z height) * (4 # 10))
                _ Hstep) as Hy.
  pose proof (loop_values_advancing
                (inject_Z width
                 - Qmin (inject_Z width) (inject_Z height) * (4 # 10))
                _ Hstep) as Hx.
  destruct (loop_values (inject_Z height - _) _) as [[|y ys]|];
    [discriminate | | contradiction].
  destruct (loop_values (inject_Z width - _) _) as [xs|];
    [discriminate | contradiction].
Qed.

Lemma ensures_optimizedSlidingWindow env canvas ctx found :
  0 < canvas_width canvas -> 0 < canvas_height canvas ->
  ensures (optimizedSlidingWindow env canvas ctx found) (fun _ => True)
    False False.
Proof.
  intros Hw Hh. unfold optimizedSlidingWindow. cbv zeta.
  pose proof (window_origins_defined _ _ Hw Hh) as Hdef.
  destruct (window_origins _ _ _ _) as [origins|]; [|contradiction].
  eapply ensures_bind with (Q := fun _ => True).
  - apply ensures_foldM; [|exact I].
    intros [results scanPromises] [x y] _. unfold window_step.
    eapply ensures_bind with (Q := fun _ => True).
    + destruct (negb (has_key found (position_key x y)));
        [|apply ensures_ret; exact I].
      eapply ensures_bind; [apply ensures_scanRegionAsync|].
      intros; apply ensures_ret; exact I.
    + intros pend _. destruct (6 <=? length pend)%nat; apply ensures_ret; exact I.
  - intros [results scanPromises] _.
    destruct (0 <? length scanPromises)%nat; apply ensures_ret; exact I.
Qed.

Lemma ensures_performOptimizedRecognition env clk canvas ctx startTime :
  0 < canvas_width canvas -> 0 < canvas_height canvas ->
  ensures (performOptimizedRecognition env clk canvas ctx startTime)
    (fun _ => True) False False.
Proof.
  intros Hw Hh. unfold performOptimizedRecognition.
  eapply ensures_bind with (Q := fun _ => True).
  { unfold full_frame_stage.
    eapply ensures_bind; [apply ensures_quickFullImageScan|].
    intros; apply ensures_ret; exact I. }
  intros st1 _.
  eapply ensures_bind with (Q := fun _ => True).
  { destruct (m_gate_grid clk - startTime <? 1000);
      [|apply ensures_ret; exact I].
    unfold grid_stage.
    eapply ensures_bind; [apply ensures_smartRegionScan|].
    intros; apply ensures_ret; exact I. }
  intros st2 _.
  eapply ensures_bind with (Q := fun _ => True).
  { destruct (m_gate_window clk - startTime <? 1500);
      [|apply ensures_ret; exact I].
    unfold window_stage.
    eapply ensures_bind; [apply ensures_optimizedSlidingWindow; assumption|].
    intros; apply ensures_ret; exact I. }
  intros st3 _. apply ensures_ret. exact I.
Qed.

Lemma run_canvas_and_context env imageData cc w :
  input_canvas env imageData = Some cc ->
  canvas_and_context env imageData w = (Ok cc, w).
Proof.
  unfold input_canvas, canvas_and_context, createCanvasFromImageData.
  destruct imageData as [s|canvas].
  - destruct (loadImage env s) as [canvas|]; [|discriminate].
    destruct (getContext canvas); [|discriminate].
    intros H; inversion H; reflexivity.
  - intros H; inversion H; reflexivity.
Qed.

Lemma run_canvas_and_context_fails env imageData :
  input_canvas env imageData = None ->
  exists e, forall w, canvas_and_context env imageData w = (Throw e, w).
Proof.
  destruct imageData as [s|canvas]; simpl; [|discriminate].
  unfold createCanvasFromImageData.
  destruct (loadImage env s) as [canvas|]; [|eexists; reflexivity].
  destruct (getContext canvas); [discriminate | eexists; reflexivity].
Qed.

Lemma ensures_unless {A} (m : M A) (P : A -> Prop) (R : Prop) :
  ensures m P False True -> (R -> ensures m (fun _ => True) False False) ->
  ensures m P False (~ R).
Proof.
  intros HP HR w. specialize (HP w).
  destruct (m w) as [[a|e|] w'] eqn:Hrun; simpl in *; [exact HP | exact HP|].
  intros Hr. specialize (HR Hr w). rewrite Hrun in HR. exact HR.
Qed.

Lemma recognizeMultiple_returns env clk imageData :
  sized_input env imageData ->
  ensures (recognizeMultipleQRCodes env clk imageData) (fun _ => True)
    False False.
Proof.
  intros Hpos w. unfold recognizeMultipleQRCodes. cbv zeta.
  destruct (run_ensure_initialized w) as (w1 & Hinit & _).
  rewrite (bind_ok _ _ _ _ _ Hinit).
  destruct (input_canvas env imageData) as [[canvas ctx]|] eqn:Hcanvas.
  - assert (Hready : attempt (canvas_and_context env imageData) w1
                     = (Ok (Returned (canvas, ctx)), w1)).
    { unfold attempt. rewrite (run_canvas_and_context _ _ _ _ Hcanvas).
      reflexivity. }
    rewrite (bind_ok _ _ _ _ _ Hready).
    destruct (Hpos canvas ctx Hcanvas) as [Hw Hh].
    refine (ensures_bind _ _ _ _ _ _ _ _ w1).
    + apply ensures_race_timeout with (P := fun _ => True) (T' := False).
      apply ensures_performOptimizedRecognition; assumption.
    + intros [[rs|e] now] _; apply ensures_ret; exact I.
  - destruct (run_canvas_and_context_fails _ _ Hcanvas) as (e & Hfail).
    assert (Hready : attempt (canvas_and_context env imageData) w1
                     = (Ok (Thrown e), w1)).
    { unfold attempt. rewrite Hfail. reflexivity. }
    rewrite (bind_ok _ _ _ _ _ Hready). exact I.
Qed.


(** *** A canvas without width or height *)








(** *** The stages only add to the results *)







(** * Properties of the rest of the service *)

(** ** Regular expressions: the matcher decides the language *)

Lemma nullable_matches r : nullable r = true <-> matches r [].
Proof.
  split.
  - induction r; simpl; intros H; try discriminate.
    + constructor.
    + apply andb_true_iff in H as [H1 H2].
      apply (matches_cat _ _ [] []); auto.
    + apply orb_true_iff in H as [H|H];
        [apply matches_alt_l | apply matches_alt_r]; auto.
    + constructor.
  - intros H. remember [] as s eqn:Hs. induction H; simpl; subst; auto.
    + discriminate.
    + apply app_eq_nil in Hs as [-> ->]. rewrite IHmatches1, IHmatches2; auto.
    + rewrite IHmatches; auto.
    + rewrite IHmatches. apply orb_true_r. reflexivity.
Qed.

Lemma matches_fail s : ~ matches Fail s.
Proof. intros H. inversion H. Qed.

Lemma matches_eps_inv s : matches Eps s -> s = [].
Proof. intros H. inversion H. reflexivity. Qed.

Lemma cat_inv r1 r2 s :
  matches (Cat r1 r2) s ->
  exists s1 s2, s = s1 ++ s2 /\ matches r1 s1 /\ matches r2 s2.
Proof. intros H. inversion H; subst. eauto. Qed.

Lemma alt_inv r1 r2 s : matches (Alt r1 r2) s -> matches r1 s \/ matches r2 s.
Proof. intros H. inversion H; subst; auto. Qed.

Lemma cls_inv p s : matches (Cls p) s -> exists c, s = [c] /\ p c = true.
Proof. intros H. inversion H; subst. eauto. Qed.

Lemma cat_matches r1 r2 s : matches (cat r1 r2) s <-> matches (Cat r1 r2) s.
Proof.
  unfold cat. split.
  - destruct r1; destruct r2; intros H; try exact H;
      try (exfalso; eapply matches_fail; exact H);
      try (apply (matches_cat Eps _ [] s); [constructor | exact H]).
  - intros H. pose proof H as Hc.
    apply cat_inv in Hc as (s1 & s2 & -> & H1 & H2).
    destruct r1; destruct r2; try exact H;
      try (exfalso; eapply matches_fail; eassumption);
      try (apply matches_eps_inv in H1; subst; exact H2).
Qed.

Lemma alt_matches r1 r2 s : matches (alt r1 r2) s <-> matches (Alt r1 r2) s.
Proof.
  unfold alt. split.
  - destruct r1; destruct r2; intros H; try exact H;
      try (exfalso; eapply matches_fail; exact H);
      try (apply matches_alt_r; exact H); try (apply matches_alt_l; exact H).
  - intros H. pose proof H as Ha. apply alt_inv in Ha as [H1|H2];
      destruct r1; destruct r2; try exact H;
      try (exfalso; eapply matches_fail; eassumption); try assumption.
Qed.

Lemma star_cons_inv r c s :
  matches (Star r) (c :: s) ->
  exists s1 s2, s = s1 ++ s2 /\ matches r (c :: s1) /\ matches (Star r) s2.
Proof.
  intros H. remember (Star r) as r' eqn:Hr. remember (c :: s) as cs eqn:Hcs.
  induction H as [| | | | | |r0 s1 s2 H1 _ H2 IH2]; try discriminate.
  inversion Hr; subst r0.
  destruct s1 as [|c1 s1]; simpl in Hcs.
  - apply IH2; auto.
  - inversion Hcs; subst. exists s1, s2. auto.
Qed.

Lemma deriv_matches c r s : matches (deriv c r) s <-> matches r (c :: s).
Proof.
  revert s. induction r as [| |p|r1 IH1 r2 IH2|r1 IH1 r2 IH2|r IH];
    intros s; simpl.
  - split; intros H; inversion H.
  - split; intros H; inversion H.
  - destruct (p c) eqn:Hp; split; intros H.
    + apply matches_eps_inv in H. subst. constructor. exact Hp.
    + apply cls_inv in H as (c' & Heq & _). inversion Heq; subst. constructor.
    + inversion H.
    + apply cls_inv in H as (c' & Heq & Hc). inversion Heq; subst. congruence.
  - destruct (nullable r1) eqn:Hn.
    + rewrite alt_matches. split; intros H.
      * apply alt_inv in H as [H1|H2].
        -- apply cat_matches, cat_inv in H1 as (s1 & s2 & -> & Ha & Hb).
           apply IH1 in Ha. apply (matches_cat _ _ (c :: s1) s2); assumption.
        -- apply IH2 in H2. apply (matches_cat _ _ [] (c :: s)); [|exact H2].
           apply nullable_matches. exact Hn.
      * apply cat_inv in H as (s1 & s2 & Heq & Ha & Hb).
        destruct s1 as [|c1 s1]; simpl in Heq.
        -- subst. apply matches_alt_r. apply IH2. exact Hb.
        -- inversion Heq; subst. apply matches_alt_l. apply cat_matches.
           constructor; [apply IH1; exact Ha | exact Hb].
    + rewrite cat_matches. split; intros H.
      * apply cat_inv in H as (s1 & s2 & -> & Ha & Hb).
        apply IH1 in Ha. apply (matches_cat _ _ (c :: s1) s2); assumption.
      * apply cat_inv in H as (s1 & s2 & Heq & Ha & Hb).
        destruct s1 as [|c1 s1]; simpl in Heq.
        -- apply nullable_matches in Ha. congruence.
        -- inversion Heq; subst. constructor; [apply IH1; exact Ha | exact Hb].
  - rewrite alt_matches. split; intros H.
    + apply alt_inv in H as [H|H];
        [apply matches_alt_l; apply IH1 | apply matches_alt_r; apply IH2];
        assumption.
    + apply alt_inv in H as [H|H];
        [apply matches_alt_l; apply IH1 | apply matches_alt_r; apply IH2];
        assumption.
  - rewrite cat_matches. split; intros H.
    + apply cat_inv in H as (s1 & s2 & -> & Ha & Hb).
      apply IH in Ha. apply (matches_star_cons _ (c :: s1) s2); assumption.
    + apply star_cons_inv in H as (s1 & s2 & -> & Ha & Hb).
      constructor; [apply IH; exact Ha | exact Hb].
Qed.

Lemma test_whole_matches r s : test_whole r s = true <-> matches r s.
Proof.
  revert r. induction s as [|c s IH]; intros r; simpl.
  - apply nullable_matches.
  - rewrite IH. apply deriv_matches.
Qed.

Lemma test_prefix_matches r s :
  test_prefix r s = true <-> exists p q, s = p ++ q /\ matches r p.
Proof.
  revert r. induction s as [|c s IH]; intros r; simpl.
  - rewrite orb_false_r, nullable_matches. split.
    + intros H. exists [], []. auto.
    + intros (p & q & Hs & H). symmetry in Hs.
      apply app_eq_nil in Hs as [-> _]. exact H.
  - rewrite orb_true_iff, nullable_matches, IH. split.
    + intros [H|(p & q & -> & H)].
      * exists [], (c :: s). auto.
      * exists (c :: p), q. split; [reflexivity|]. apply deriv_matches. exact H.
    + intros (p & q & Hs & H). destruct p as [|c' p]; simpl in Hs.
      * left. exact H.
      * inversion Hs; subst. right. exists p, q. split; [reflexivity|].
        apply deriv_matches. exact H.
Qed.

(** *** The languages of the pattern syntax *)

Lemma cat_iff r1 r2 s :
  matches (Cat r1 r2) s
  <-> exists s1 s2, s = s1 ++ s2 /\ matches r1 s1 /\ matches r2 s2.
Proof.
  split; [apply cat_inv|]. intros (s1 & s2 & -> & H1 & H2).
  constructor; assumption.
Qed.

Lemma chr_matches a s : matches (chr a) s <-> s = [N_of_ascii a].
Proof.
  unfold chr. split.
  - intros H. apply cls_inv in H as (c & -> & Hc).
    apply N.eqb_eq in Hc. subst. reflexivity.
  - intros ->. constructor. apply N.eqb_refl.
Qed.

Lemma lit_matches str s : matches (lit str) s <-> s = codes str.
Proof.
  unfold lit, codes. generalize (list_ascii_of_string str). intros l.
  revert s. induction l as [|a l IH]; intros s; simpl.
  - split; [apply matches_eps_inv | intros ->; constructor].
  - rewrite cat_iff. split.
    + intros (s1 & s2 & -> & H1 & H2). apply chr_matches in H1. subst s1.
      apply IH in H2. subst s2. reflexivity.
    + intros ->. exists [N_of_ascii a], (map N_of_ascii l).
      split; [reflexivity|]. split; [apply chr_matches | apply IH]; reflexivity.
Qed.

Lemma star_cls_matches p s : matches (Star (Cls p)) s <-> all_in p s.
Proof.
  unfold all_in. split.
  - intros H. remember (Star (Cls p)) as r eqn:Hr.
    induction H as [| | | | | |r0 s1 s2 H1 _ H2 IH2]; try discriminate.
    + constructor.
    + inversion Hr; subst r0. apply cls_inv in H1 as (c & -> & Hc).
      constructor; [exact Hc | apply IH2; reflexivity].
  - induction 1 as [|c s Hc _ IH]; [constructor|].
    apply (matches_star_cons _ [c] s); [constructor; exact Hc | exact IH].
Qed.

Lemma plus_cls_matches p s :
  matches (plus (Cls p)) s <-> s <> [] /\ all_in p s.
Proof.
  unfold plus. rewrite cat_iff. split.
  - intros (s1 & s2 & -> & H1 & H2). apply cls_inv in H1 as (c & -> & Hc).
    apply star_cls_matches in H2. split; [discriminate|].
    constructor; assumption.
  - intros [Hne Hall]. destruct s as [|c s]; [contradiction|].
    inversion Hall; subst. exists [c], s. split; [reflexivity|].
    split; [constructor; assumption | apply star_cls_matches; assumption].
Qed.

Lemma at_least_cls_matches (n : nat) p s :
  matches (at_least n (Cls p)) s <-> (n <= length s)%nat /\ all_in p s.
Proof.
  revert s. induction n as [|n IH]; intros s; simpl.
  - rewrite star_cls_matches. split; [intros H; split; [lia | exact H] | tauto].
  - rewrite cat_iff. split.
    + intros (s1 & s2 & -> & H1 & H2). apply cls_inv in H1 as (c & -> & Hc).
      apply IH in H2 as [Hlen Hall]. split; [simpl; lia|].
      constructor; assumption.
    + intros [Hlen Hall]. destruct s as [|c s]; [simpl in Hlen; lia|].
      inversion Hall; subst. exists [c], s. split; [reflexivity|].
      split; [constructor; assumption|]. apply IH. simpl in Hlen.
      split; [lia | assumption].
Qed.

Lemma opt_chr_matches a s :
  matches (opt (chr a)) s <-> s = [] \/ s = [N_of_ascii a].
Proof.
  unfold opt. split.
  - intros H. apply alt_inv in H as [H|H].
    + right. apply chr_matches. exact H.
    + left. apply matches_eps_inv. exact H.
  - intros [-> | ->];
      [apply matches_alt_r; constructor
      | apply matches_alt_l; apply chr_matches; reflexivity].
Qed.

Lemma test_prefix_fail s : test_prefix Fail s = false.
Proof. induction s; simpl; auto. Qed.

Lemma test_whole_fail s : test_whole Fail s = false.
Proof. induction s; simpl; auto. Qed.

(** *** The shapes the classifier's patterns accept *)

Lemma bare_email_test s :
  test_whole re_bare_email s = true <-> bare_email_shape s.
Proof.
  rewrite test_whole_matches. unfold re_bare_email, bare_email_shape. split.
  - intros H. apply cat_inv in H as (a & s1 & -> & Ha & H).
    apply cat_inv in H as (at_ & s2 & -> & Hat & H).
    apply cat_inv in H as (b & s3 & -> & Hb & H).
    apply cat_inv in H as (dot_ & c & -> & Hdot & Hc).
    apply chr_matches in Hat, Hdot. subst.
    apply plus_cls_matches in Ha as [? ?], Hb as [? ?], Hc as [? ?].
    exists a, b, c. repeat split; assumption.
  - intros (a & b & c & -> & Ha & Hb & Hc & Haa & Hab & Hac).
    repeat (constructor; try (apply plus_cls_matches; split; assumption);
            try (apply chr_matches; reflexivity)).
Qed.

Lemma bare_phone_test s :
  test_whole re_bare_phone s = true <-> bare_phone_shape s.
Proof.
  rewrite test_whole_matches. unfold re_bare_phone, bare_phone_shape. split.
  - intros H. apply cat_inv in H as (o & body & -> & Ho & Hbody).
    apply opt_chr_matches in Ho. apply at_least_cls_matches in Hbody as [? ?].
    exists body. split; [|split; assumption].
    destruct Ho as [-> | ->]; [left | right]; reflexivity.
  - intros (body & Hs & Hall & Hlen).
    destruct Hs as [-> | ->].
    + apply (matches_cat _ _ [] body);
        [apply opt_chr_matches; left; reflexivity
        | apply at_least_cls_matches; split; assumption].
    + apply (matches_cat _ _ [43%N] body);
        [apply opt_chr_matches; right; reflexivity
        | apply at_least_cls_matches; split; assumption].
Qed.

Lemma url_test s : is_url s = true <-> url_shape s.
Proof.
  unfold is_url. rewrite test_prefix_matches. unfold re_url, url_shape. split.
  - intros (p & q & -> & H).
    apply cat_inv in H as (h & s1 & -> & Hh & H).
    apply cat_inv in H as (o & s2 & -> & Ho & H).
    apply cat_inv in H as (sl & body & -> & Hsl & Hbody).
    apply lit_matches in Hh, Hsl. apply opt_chr_matches in Ho.
    apply plus_cls_matches in Hbody as [Hne Hall].
    destruct body as [|c body]; [contradiction|]. inversion Hall; subst.
    exists c, (body ++ q). split; [assumption|].
    destruct Ho as [-> | ->]; [left | right];
      rewrite <- !app_assoc; reflexivity.
  - intros (c & rest & Hc & Hs).
    destruct Hs as [-> | ->].
    + exists (js "http://" ++ [c]), rest.
      split; [rewrite <- app_assoc; reflexivity|].
      apply (matches_cat _ _ (codes "http") (codes "://" ++ [c]));
        [apply lit_matches; reflexivity|].
      apply (matches_cat _ _ [] (codes "://" ++ [c]));
        [apply opt_chr_matches; left; reflexivity|].
      apply (matches_cat _ _ (codes "://") [c]);
        [apply lit_matches; reflexivity|].
      apply plus_cls_matches. split; [discriminate|].
      constructor; [exact Hc | constructor].
    + exists (js "https://" ++ [c]), rest.
      split; [rewrite <- app_assoc; reflexivity|].
      apply (matches_cat _ _ (codes "http") ([115%N] ++ codes "://" ++ [c]));
        [apply lit_matches; reflexivity|].
      apply (matches_cat _ _ [115%N] (codes "://" ++ [c]));
        [apply opt_chr_matches; right; reflexivity|].
      apply (matches_cat _ _ (codes "://") [c]);
        [apply lit_matches; reflexivity|].
      apply plus_cls_matches. split; [discriminate|].
      constructor; [exact Hc | constructor].
Qed.

Lemma starts_with_app p s :
  starts_with p s = true <-> exists rest, s = p ++ rest.
Proof.
  revert s. induction p as [|a p IH]; intros s; simpl.
  - split; [intros _; exists s; reflexivity | reflexivity].
  - destruct s as [|b s].
    + split; [discriminate | intros (rest & H); discriminate H].
    + rewrite andb_true_iff, N.eqb_eq, IH. split.
      * intros [-> (rest & ->)]. exists rest. reflexivity.
      * intros (rest & H). injection H as -> ->. split; [reflexivity|].
        exists rest. reflexivity.
Qed.

Lemma test_prefix_dead r c s :
  nullable r = false -> deriv c r = Fail -> test_prefix r (c :: s) = false.
Proof. intros Hn Hd. simpl. rewrite Hn, Hd. apply test_prefix_fail. Qed.

Lemma test_whole_dead r c s : deriv c r = Fail -> test_whole r (c :: s) = false.
Proof. intros Hd. simpl. rewrite Hd. apply test_whole_fail. Qed.

Lemma test_prefix_lit str s :
  test_prefix (lit str) s = true <-> exists rest, s = codes str ++ rest.
Proof.
  rewrite test_prefix_matches. split.
  - intros (p & q & -> & H). apply lit_matches in H. subst. exists q. reflexivity.
  - intros (rest & ->). exists (codes str), rest.
    split; [reflexivity | apply lit_matches; reflexivity].
Qed.

Lemma url_shape_head s : url_shape s -> exists rest, s = 104%N :: rest.
Proof.
  intros (c & rest & _ & [-> | ->]); eexists; reflexivity.
Qed.

Lemma mailto_head s :
  test_prefix re_mailto s = true -> exists rest, s = 109%N :: rest.
Proof.
  rewrite test_prefix_matches. intros (p & q & -> & H).
  apply cat_inv in H as (m & s1 & -> & Hm & _). apply lit_matches in Hm.
  subst m. eexists. reflexivity.
Qed.

Lemma bare_email_has_at s : bare_email_shape s -> 64%N ∈ s.
Proof.
  intros (a & b & c & -> & _). apply elem_of_app. right. left.
Qed.

(** The rules of [detectQRType] and [validateQRData] give the same tag,
    except for the spelling of the tag of the empty string. *)
Lemma validate_tag_of_detect s :
  s <> [] -> vtype (validateQRData s) = detectQRType s.
Proof.
  intros Hne. unfold validateQRData, detectQRType.
  destruct s; [contradiction|]. cbn [falsy].
  repeat match goal with
  | |- context [if ?b then _ else _] => destruct b; try reflexivity
  end.
Qed.

Lemma detect_url_iff s : detectQRType s = "URL"%string <-> is_url s = true.
Proof.
  unfold detectQRType. destruct s as [|c s].
  - cbn [falsy]. split; [discriminate | intros H; vm_compute in H; discriminate H].
  - cbn [falsy]. destruct (is_url (c :: s)); [tauto|].
    split; [|discriminate].
    repeat match goal with
    | |- context [if ?b then _ else _] => destruct b; try discriminate
    end.
Qed.

(** X1. A payload is classified as URL, by [detectQRType] and by
  [validateQRData] alike, exactly when it starts with [http://] or
  [https://] followed by at least one code unit that is not a line
  terminator; nothing is required of what follows. *)
Theorem url_classified_exactly (s : jsstring) :
  (detectQRType s = "URL"%string <-> url_shape s)
  /\ (vtype (validateQRData s) = "URL"%string <-> url_shape s).
Proof.
  assert (H : detectQRType s = "URL"%string <-> url_shape s).
  { rewrite detect_url_iff. apply url_test. }
  split; [exact H|].
  destruct s as [|c s].
  - split; [discriminate|]. intros Hs. apply url_shape_head in Hs as (? & Hs).
    discriminate Hs.
  - rewrite validate_tag_of_detect by discriminate. exact H.
Qed.

Lemma prefixed_not_other (c : N) (s : jsstring) :
  c = 87%N \/ c = 66%N ->
  is_url (c :: s) = false
  /\ test_prefix re_mailto (c :: s) = false
  /\ is_phone (c :: s) = false
  /\ is_sms (c :: s) = false.
Proof.
  unfold is_url, is_phone, is_sms.
  intros [-> | ->];
    rewrite !test_prefix_dead, ?test_whole_dead by reflexivity;
    repeat split; reflexivity.
Qed.

(** X2. A payload that starts with [WIFI:] or [BEGIN:VCARD] is typed
  WIFI, respectively VCARD, unless it has the shape x@y.z with a single
  [@] (non-empty x, y, z); then the e-mail rule, which is tried first,
  wins and the type is EMAIL. No such payload is typed as anything
  else. *)
Theorem config_prefix_unless_email (s : jsstring) :
  starts_with (js "WIFI:") s = true \/ starts_with (js "BEGIN:VCARD") s = true ->
  (bare_email_shape s -> detectQRType s = "EMAIL"%string)
  /\ (~ bare_email_shape s ->
      detectQRType s
      = if starts_with (js "WIFI:") s then "WIFI"%string else "VCARD"%string).
Proof.
  intros Hpre.
  assert (Hhead : exists c rest, s = c :: rest /\ (c = 87%N \/ c = 66%N)).
  { destruct Hpre as [H|H]; apply starts_with_app in H as (rest & ->);
      eexists _, _; (split; [reflexivity|]); [left | right]; reflexivity. }
  destruct Hhead as (c & rest & Hs & Hc).
  destruct (prefixed_not_other c rest Hc) as (Hu & Hm & Hp & Hsms).
  rewrite <- Hs in Hu, Hm, Hp, Hsms.
  assert (Hdet : detectQRType s
    = if test_whole re_bare_email s then "EMAIL"%string
      else if is_wifi s then "WIFI"%string
      else if is_vcard s then "VCARD"%string else "TEXT"%string).
  { unfold detectQRType, is_email. rewrite Hu, Hm, Hp, Hsms. subst s.
    reflexivity. }
  split.
  - intros He. apply bare_email_test in He. rewrite Hdet, He. reflexivity.
  - intros Hne. rewrite Hdet.
    destruct (test_whole re_bare_email s) eqn:He;
      [exfalso; apply Hne, bare_email_test; exact He|].
    assert (Hw : is_wifi s = starts_with (js "WIFI:") s).
    { apply eq_true_iff_eq. unfold is_wifi, re_wifi.
      rewrite test_prefix_lit, starts_with_app. reflexivity. }
    assert (Hv : is_vcard s = starts_with (js "BEGIN:VCARD") s).
    { apply eq_true_iff_eq. unfold is_vcard, re_vcard.
      rewrite test_prefix_lit, starts_with_app. reflexivity. }
    rewrite Hw, Hv. destruct Hpre as [H|H]; rewrite H; [reflexivity|].
    destruct (starts_with (js "WIFI:") s); reflexivity.
Qed.

Lemma config_prefix_unless_email_witness :
  detectQRType (js "WIFI:S:me@home.net;T:WPA;P:secret;;") = "EMAIL"%string
  /\ detectQRType (js "BEGIN:VCARD N:Li;TEL:139;EMAIL:a@b;END:VCARD")
     = "VCARD"%string.
Proof.
  split.
  - apply (config_prefix_unless_email (js "WIFI:S:me@home.net;T:WPA;P:secret;;"));
      [left; reflexivity|].
    exists (js "WIFI:S:me"), (js "home"), (js "net;T:WPA;P:secret;;").
    vm_compute. repeat split; try discriminate; repeat constructor.
  - apply (config_prefix_unless_email
             (js "BEGIN:VCARD N:Li;TEL:139;EMAIL:a@b;END:VCARD"));
      [right; reflexivity|].
    intros He. apply bare_email_test in He. vm_compute in He. discriminate He.
Defined.

Lemma phone_body_no_at body : all_in phone_char body -> 64%N ∉ body.
Proof.
  intros Hall Hin. unfold all_in in Hall. rewrite Forall_forall in Hall.
  specialize (Hall _ Hin). vm_compute in Hall. discriminate Hall.
Qed.

(** X3. A payload made of at least seven digits, hyphens, parentheses
  and white-space code units, with an optional leading [+], is typed
  PHONE by both classifiers: no earlier rule (URL, e-mail) can match
  it. *)
Theorem bare_phone_number_is_phone (s : jsstring) :
  bare_phone_shape s ->
  detectQRType s = "PHONE"%string
  /\ vtype (validateQRData s) = "PHONE"%string.
Proof.
  intros Hshape.
  assert (Hphone : test_whole re_bare_phone s = true)
    by (apply bare_phone_test; exact Hshape).
  destruct Hshape as (body & Hs & Hall & Hlen).
  destruct body as [|d body]; [simpl in Hlen; lia|].
  assert (Hd : phone_char d = true) by (inversion Hall; assumption).
  assert (Hhead : exists c rest, s = c :: rest /\ c <> 104%N /\ c <> 109%N).
  { destruct Hs as [-> | ->]; eexists _, _; (split; [reflexivity|]).
    - split; intros ->; vm_compute in Hd; discriminate Hd.
    - split; discriminate. }
  destruct Hhead as (c & rest & Hcs & Hc1 & Hc2).
  assert (Hurl : is_url s = false).
  { destruct (is_url s) eqn:Hu; [|reflexivity].
    apply url_test, url_shape_head in Hu as (r & Hr).
    rewrite Hcs in Hr. injection Hr as Hr _. contradiction. }
  assert (Hmail : test_prefix re_mailto s = false).
  { destruct (test_prefix re_mailto s) eqn:Hm; [|reflexivity].
    apply mailto_head in Hm as (r & Hr).
    rewrite Hcs in Hr. injection Hr as Hr _. contradiction. }
  assert (Hbare : test_whole re_bare_email s = false).
  { destruct (test_whole re_bare_email s) eqn:He; [|reflexivity].
    apply bare_email_test, bare_email_has_at in He.
    pose proof (phone_body_no_at _ Hall) as Hno.
    destruct Hs as [-> | ->]; [contradiction|].
    apply elem_of_cons in He as [He | He]; [discriminate He | contradiction]. }
  assert (Hdet : detectQRType s = "PHONE"%string).
  { unfold detectQRType, is_email, is_phone.
    rewrite Hurl, Hmail, Hbare, Hphone, orb_true_r. rewrite Hcs. reflexivity. }
  split; [exact Hdet|].
  rewrite validate_tag_of_detect; [exact Hdet | rewrite Hcs; discriminate].
Qed.

Lemma bare_phone_number_is_phone_witness :
  detectQRType (js "+86 (010) 6552-9988") = "PHONE"%string
  /\ vtype (validateQRData (js "+86 (010) 6552-9988")) = "PHONE"%string.
Proof.
  apply (bare_phone_number_is_phone (js "+86 (010) 6552-9988")).
  exists (js "86 (010) 6552-9988"). vm_compute.
  split; [right; reflexivity|]. split; [repeat constructor | lia].
Defined.

(** ** Helpers of the recognition service *)

(** The loop of [mergeAndDeduplicateResults], as a recursion on the
    input that starts from a set of payloads already seen. *)
Lemma merge_unfold (r : QRResult) (rs : list QRResult) u seen :
  (foldl merge_step (u, seen) (r :: rs)).1
  = if decide ((serialNumber r ∉ seen) /\ serialNumber r <> [])
    then (foldl merge_step (u ++ [r], {[serialNumber r]} ∪ seen) rs).1
    else (foldl merge_step (u, seen) rs).1.
Proof.
  simpl. unfold has_key.
  destruct (serialNumber r) as [|c s] eqn:Hs; simpl.
  - rewrite andb_false_r. rewrite decide_False by tauto. reflexivity.
  - rewrite andb_true_r. case_bool_decide as Hin; simpl.
    + rewrite decide_False by tauto. reflexivity.
    + rewrite decide_True by (split; [exact Hin | discriminate]). reflexivity.
Qed.

Lemma merge_acc (rs : list QRResult) u seen :
  (foldl merge_step (u, seen) rs).1
  = u ++ (foldl merge_step ([], seen) rs).1.
Proof.
  revert u seen. induction rs as [|r rs IH]; intros u seen.
  - simpl. rewrite app_nil_r. reflexivity.
  - rewrite !merge_unfold. case_decide.
    + rewrite (IH (u ++ [r])), (IH ([] ++ [r])). rewrite <- app_assoc. reflexivity.
    + apply IH.
Qed.

Lemma merge_cons (r : QRResult) (rs : list QRResult) seen :
  (foldl merge_step ([], seen) (r :: rs)).1
  = if decide ((serialNumber r ∉ seen) /\ serialNumber r <> [])
    then r :: (foldl merge_step ([], {[serialNumber r]} ∪ seen) rs).1
    else (foldl merge_step ([], seen) rs).1.
Proof.
  rewrite merge_unfold. case_decide; [|reflexivity].
  rewrite merge_acc. reflexivity.
Qed.

Lemma merge_from_sound (rs : list QRResult) seen :
  let out := (foldl merge_step ([], seen) rs).1 in
  sublist out rs
  /\ NoDup (payloads out)
  /\ Forall (fun r => serialNumber r <> [] /\ serialNumber r ∉ seen) out.
Proof.
  revert seen. induction rs as [|r rs IH]; intros seen; cbv zeta.
  - simpl. repeat split; constructor.
  - rewrite merge_cons. case_decide as Hd.
    + destruct (IH ({[serialNumber r]} ∪ seen)) as (Hsub & Hnd & Hall).
      split; [constructor; exact Hsub|]. split.
      * unfold payloads. rewrite fmap_cons. constructor; [|exact Hnd].
        intros Hin. apply list_elem_of_fmap in Hin as (r' & Heq & Hin).
        rewrite Forall_forall in Hall. destruct (Hall _ Hin) as [_ Hno].
        apply Hno. rewrite <- Heq. set_solver.
      * constructor; [tauto|]. eapply Forall_impl; [exact Hall|].
        intros r' [? Hno]. split; [assumption | set_solver].
    + destruct (IH seen) as (Hsub & Hnd & Hall).
      split; [apply sublist_cons; exact Hsub|]. split; assumption.
Qed.

Lemma merge_from_first (pre post : list QRResult) (r : QRResult) seen :
  serialNumber r <> [] -> serialNumber r ∉ seen ->
  serialNumber r ∉ payloads pre ->
  r ∈ (foldl merge_step ([], seen) (pre ++ r :: post)).1.
Proof.
  revert seen. induction pre as [|p pre IH]; intros seen Hne Hseen Hpre.
  - simpl app. rewrite merge_cons, decide_True by tauto. left.
  - unfold payloads in Hpre. rewrite fmap_cons in Hpre.
    apply not_elem_of_cons in Hpre as [Hp Hpre].
    change ((p :: pre) ++ r :: post) with (p :: (pre ++ r :: post)).
    rewrite merge_cons. case_decide.
    + right. apply IH; [assumption | set_solver | assumption].
    + apply IH; assumption.
Qed.

Lemma merge_from_fixed (rs : list QRResult) seen :
  NoDup (payloads rs) ->
  Forall (fun r => serialNumber r <> [] /\ serialNumber r ∉ seen) rs ->
  (foldl merge_step ([], seen) rs).1 = rs.
Proof.
  revert seen. induction rs as [|r rs IH]; intros seen Hnd Hall; [reflexivity|].
  unfold payloads in Hnd. rewrite fmap_cons in Hnd.
  apply NoDup_cons in Hnd as [Hr Hnd].
  inversion Hall as [|? ? [Hne Hseen] Hall']; subst.
  rewrite merge_cons, decide_True by tauto. f_equal. apply IH; [exact Hnd|].
  rewrite Forall_forall in Hall' |- *. intros r' Hin.
  destruct (Hall' _ Hin) as [? ?]. split; [assumption|].
  intros Hs. apply elem_of_union in Hs as [Hs | Hs]; [|contradiction].
  apply elem_of_singleton in Hs. apply Hr. rewrite <- Hs.
  apply list_elem_of_fmap. exists r'. split; [reflexivity | exact Hin].
Qed.

(** X4. [mergeAndDeduplicateResults] returns a sub-sequence of its input
  in which the payloads are non-empty and pairwise distinct. It keeps
  the first result of every non-empty payload: a result whose payload is
  non-empty and carried by no earlier result is in the output. A list
  whose payloads are already non-empty and distinct is returned as it
  is, so merging twice is merging once. *)
Theorem merge_keeps_first_of_each_payload (rs : list QRResult) :
  let out := mergeAndDeduplicateResults rs in
  sublist out rs
  /\ NoDup (payloads out)
  /\ Forall (fun r => serialNumber r <> []) out
  /\ (forall (i : nat) r, rs !! i = Some r -> serialNumber r <> [] ->
        serialNumber r ∉ earlier_payloads rs i -> r ∈ out)
  /\ (NoDup (payloads rs) -> Forall (fun r => serialNumber r <> []) rs ->
      out = rs)
  /\ mergeAndDeduplicateResults out = out.
Proof.
  cbv zeta. unfold mergeAndDeduplicateResults.
  destruct (merge_from_sound rs ∅) as (Hsub & Hnd & Hall).
  assert (Hne : Forall (fun r => serialNumber r <> [])
                  (foldl merge_step ([], ∅) rs).1).
  { eapply Forall_impl; [exact Hall|]. intros r [? _]. assumption. }
  split; [exact Hsub|]. split; [exact Hnd|]. split; [exact Hne|].
  split; [|split].
  - intros i r Hi Hr Hfirst.
    rewrite <- (take_drop_middle rs i r Hi).
    apply merge_from_first; [assumption | set_solver | exact Hfirst].
  - intros Hd Hn. apply merge_from_fixed; [exact Hd|].
    eapply Forall_impl; [exact Hn|]. intros r ?. split; [assumption | set_solver].
  - apply merge_from_fixed; [exact Hnd | exact Hall].
Qed.

Lemma length_bind_const {A B} (f : A -> list B) (l : list A) (n : nat) :
  (forall a, a ∈ l -> length (f a) = n) ->
  length (l ≫= f) = (length l * n)%nat.
Proof.
  induction l as [|a l IH]; intros Hf; [reflexivity|].
  rewrite bind_cons, length_app, Hf by left.
  rewrite IH; [reflexivity|]. intros b Hb. apply Hf. right. exact Hb.
Qed.

Lemma elem_of_divide (width height rows cols : Z) (r : Rect) :
  r ∈ divideImageIntoRegions width height rows cols
  <-> exists row col,
        0 <= row < rows /\ 0 <= col < cols
        /\ r = {| x := col * (width / cols); y := row * (height / rows);
                  rect_width := width / cols; rect_height := height / rows |}.
Proof.
  unfold divideImageIntoRegions. cbv zeta. rewrite list_elem_of_bind. split.
  - intros (row & Hin & Hrow). apply list_elem_of_bind in Hin as (col & Hin & Hcol).
    apply elem_of_seqZ in Hrow, Hcol. apply list_elem_of_singleton in Hin.
    exists row, col. repeat split; try lia. exact Hin.
  - intros (row & col & Hrow & Hcol & ->). exists row. split.
    + apply list_elem_of_bind. exists col.
      split; [apply list_elem_of_singleton; reflexivity|].
      apply elem_of_seqZ. lia.
    + apply elem_of_seqZ. lia.
Qed.

(** X5. [divideImageIntoRegions], for a positive number of rows and
  columns of a [width] by [height] image, returns [rows * cols]
  rectangles of [floor(width / cols)] by [floor(height / rows)] pixels,
  all inside the image. No pixel lies in two of them, and a pixel of
  the image lies in one exactly when it is left of column
  [cols * floor(width / cols)] and above row [rows * floor(height /
  rows)]: the remainder strips on the right and at the bottom belong
  to no region. *)
Theorem regions_tile_up_to_remainder (width height rows cols : Z) :
  0 <= width -> 0 <= height -> 0 < rows -> 0 < cols ->
  let out := divideImageIntoRegions width height rows cols in
  Z.of_nat (length out) = rows * cols
  /\ Forall (fun r => rect_width r = width / cols
                      /\ rect_height r = height / rows
                      /\ 0 <= x r /\ x r + rect_width r <= width
                      /\ 0 <= y r /\ y r + rect_height r <= height) out
  /\ (forall r1 r2 px py, r1 ∈ out -> r2 ∈ out ->
        covers r1 px py -> covers r2 px py -> r1 = r2)
  /\ (forall px py, 0 <= px < width -> 0 <= py < height ->
        (exists r, r ∈ out /\ covers r px py)
        <-> px < width - width mod cols /\ py < height - height mod rows).
Proof.
  intros Hw Hh Hrows Hcols. cbv zeta.
  pose proof (Z.mul_div_le width cols Hcols) as Hdw.
  pose proof (Z.mul_div_le height rows Hrows) as Hdh.
  pose proof (Z.div_pos width cols Hw Hcols) as Hrw.
  pose proof (Z.div_pos height rows Hh Hrows) as Hrh.
  split; [|split; [|split]].
  - unfold divideImageIntoRegions. cbv zeta.
    rewrite (length_bind_const _ _ (Z.to_nat cols)).
    + rewrite length_seqZ. lia.
    + intros row _. rewrite (length_bind_const _ _ 1%nat).
      * rewrite length_seqZ. lia.
      * reflexivity.
  - apply Forall_forall. intros r Hr.
    apply elem_of_divide in Hr as (row & col & Hrow & Hcol & ->). simpl.
    repeat split; nia.
  - intros r1 r2 px py H1 H2 [Hx1 Hy1] [Hx2 Hy2].
    apply elem_of_divide in H1 as (row1 & col1 & Hrow1 & Hcol1 & ->).
    apply elem_of_divide in H2 as (row2 & col2 & Hrow2 & Hcol2 & ->).
    simpl in *.
    assert (col1 = col2) by nia. assert (row1 = row2) by nia. subst.
    reflexivity.
  - intros px py Hpx Hpy.
    rewrite (Z.mod_eq width cols), (Z.mod_eq height rows) by lia. split.
    + intros (r & Hr & [Hx Hy]).
      apply elem_of_divide in Hr as (row & col & Hrow & Hcol & ->).
      simpl in *. split; nia.
    + intros [Hx Hy].
      assert (Hrw' : 0 < width / cols) by nia.
      assert (Hrh' : 0 < height / rows) by nia.
      pose proof (Z.div_mod px (width / cols) ltac:(lia)) as Hqx.
      pose proof (Z.mod_pos_bound px (width / cols) Hrw') as Hmx.
      pose proof (Z.div_mod py (height / rows) ltac:(lia)) as Hqy.
      pose proof (Z.mod_pos_bound py (height / rows) Hrh') as Hmy.
      eexists. split.
      * apply elem_of_divide.
        exists (py / (height / rows)), (px / (width / cols)).
        split; [|split; [|reflexivity]].
        -- split; [apply Z.div_pos; lia|].
           apply Z.div_lt_upper_bound; lia.
        -- split; [apply Z.div_pos; lia|].
           apply Z.div_lt_upper_bound; lia.
      * unfold covers. simpl. lia.
Qed.

Lemma regions_tile_up_to_remainder_witness :
  Z.of_nat (length (divideImageIntoRegions 10 7 2 3)) = 2 * 3
  /\ ((exists r, r ∈ divideImageIntoRegions 10 7 2 3 /\ covers r 9 0)
      <-> 9 < 10 - 10 mod 3 /\ 0 < 7 - 7 mod 2).
Proof.
  destruct (regions_tile_up_to_remainder 10 7 2 3) as (Hlen & _ & _ & Hcov);
    [lia | lia | lia | lia |].
  split; [exact Hlen | apply Hcov; lia].
Defined.

(** ** Brightness and sharpening on 8-bit samples *)

Lemma sample_brightness (v d : Z) :
  sample (brightness_value (inject_Z d)) v = saturate (v + d).
Proof.
  unfold sample, brightness_value, saturate.
  change (Some (inject_Z d)) with (num d).
  rewrite nadd_num. apply clamp_num.
Qed.

Lemma saturate_add_add (v d1 d2 : Z) :
  0 <= v <= 255 -> 0 <= d1 * d2 ->
  saturate (saturate (v + d1) + d2) = saturate (v + (d1 + d2)).
Proof.
  intros Hv Hd. unfold saturate.
  assert (0 <= d1 /\ 0 <= d2 \/ d1 <= 0 /\ d2 <= 0) as [[? ?]|[? ?]] by nia; lia.
Qed.

Lemma bytes_lookup (a : list Z) (j : nat) (v : Z) :
  bytes a -> a !! j = Some v -> 0 <= v <= 255.
Proof.
  intros Hb Hj. unfold bytes in Hb. rewrite Forall_forall in Hb.
  apply Hb. eapply list_elem_of_lookup_2. exact Hj.
Qed.

(** X6. On 8-bit samples, [adjustBrightness] with an integer amount is
  saturating addition: every R, G and B sample becomes min(255, max(0,
  in + d)) and alpha is kept. With amount 0 the result is an identical
  copy, and two adjustments in the same direction compose to the
  adjustment by the sum of the amounts. *)
Theorem brightness_is_saturating_addition (w : World) (imageData : ImageData)
    (d1 d2 : Z) :
  (data imageData < length (heap w))%nat ->
  bytes (array_at (heap w) (data imageData)) ->
  let input := array_at (heap w) (data imageData) in
  exists out w1,
    adjustBrightness imageData (inject_Z d1) w = (Ok out, w1)
    /\ (forall (j : nat) v, input !! j = Some v ->
          array_at (heap w1) (data out) !! j
          = Some (if decide (j mod 4 = 3)%nat then v else saturate (v + d1)))
    /\ (d1 = 0 -> array_at (heap w1) (data out) = input)
    /\ (0 <= d1 * d2 ->
        exists out2 w2 out3 w3,
          adjustBrightness out (inject_Z d2) w1 = (Ok out2, w2)
          /\ adjustBrightness imageData (inject_Z (d1 + d2)) w = (Ok out3, w3)
          /\ array_at (heap w2) (data out2) = array_at (heap w3) (data out3)).
Proof.
  intros Hl Hb input. eexists _, _.
  split; [apply run_adjustBrightness|].
  rewrite heap_with_new; cbn [data width height]; rewrite array_at_new.
  fold input.
  assert (Hlook : forall (j : nat) v, input !! j = Some v ->
            map_rgb (brightness_value (inject_Z d1)) input !! j
            = Some (if decide (j mod 4 = 3)%nat then v else saturate (v + d1))).
  { intros j v Hv. rewrite map_rgb_lookup, Hv.
    case_decide; [reflexivity|]. simpl. rewrite sample_brightness. reflexivity. }
  split; [exact Hlook|]. split.
  - intros ->. apply list_eq. intros j.
    destruct (input !! j) as [v|] eqn:Hv.
    + rewrite (Hlook j v Hv). pose proof (bytes_lookup _ _ _ Hb Hv).
      case_decide; [reflexivity|]. unfold saturate. f_equal. lia.
    + apply lookup_ge_None. rewrite map_rgb_length.
      apply lookup_ge_None. exact Hv.
  - intros Hsign. eexists _, _, _, _.
    split; [apply run_adjustBrightness|].
    split; [apply run_adjustBrightness|].
    rewrite !heap_with_new; cbn [data width height].
    rewrite array_at_new.
    rewrite !array_at_new. fold input.
    apply list_eq. intros j. rewrite !map_rgb_lookup.
    case_decide; [reflexivity|].
    destruct (input !! j) as [v|] eqn:Hv; [|reflexivity]. simpl.
    rewrite !sample_brightness. f_equal.
    apply saturate_add_add; [|exact Hsign]. eapply bytes_lookup; eassumption.
Qed.

Lemma brightness_is_saturating_addition_witness :
  exists out w1,
    adjustBrightness nine_pixel (inject_Z 200) nine_pixel_world = (Ok out, w1)
    /\ array_at (heap w1) (data out) !! 16%nat = Some 255
    /\ array_at (heap w1) (data out) !! 17%nat = Some 255
    /\ array_at (heap w1) (data out) !! 18%nat = Some 220
    /\ array_at (heap w1) (data out) !! 19%nat = Some 255.
Proof.
  destruct (brightness_is_saturating_addition nine_pixel_world nine_pixel 200 0)
    as (out & w1 & Hrun & Hpix & _).
  { vm_compute; lia. }
  { unfold bytes. vm_compute. repeat constructor; discriminate. }
  exists out, w1. split; [exact Hrun|].
  split; [|split; [|split]].
  - exact (Hpix 16%nat 100 eq_refl).
  - exact (Hpix 17%nat 60 eq_refl).
  - exact (Hpix 18%nat 20 eq_refl).
  - exact (Hpix 19%nat 255 eq_refl).
Defined.

Lemma offset_decompose (width height : Z) (j : nat) :
  Z.of_nat j < width * height * 4 -> 0 <= width -> 0 <= height ->
  exists y x c,
    0 <= y < height /\ 0 <= x < width /\ 0 <= c < 4
    /\ offset width y x c = Z.of_nat j.
Proof.
  intros Hj Hw Hh.
  assert (Hw' : 0 < width) by nia.
  pose proof (Z.div_mod (Z.of_nat j) 4 ltac:(lia)) as H4.
  pose proof (Z.mod_pos_bound (Z.of_nat j) 4 ltac:(lia)) as Hm4.
  set (p := Z.of_nat j / 4) in *.
  pose proof (Z.div_mod p width ltac:(lia)) as Hp.
  pose proof (Z.mod_pos_bound p width Hw') as Hmp.
  assert (Hp0 : 0 <= p) by (apply Z.div_pos; lia).
  assert (Hy0 : 0 <= p / width) by (apply Z.div_pos; lia).
  exists (p / width), (p mod width), (Z.of_nat j mod 4).
  repeat split; try lia.
  - apply Z.div_lt_upper_bound; [lia|]. nia.
  - unfold offset. lia.
Qed.

(** X7. Sharpening an image of one colour returns an identical copy:
  on a buffer of width * height * 4 8-bit samples in which every pixel
  has the same R, G and B, whatever the alpha samples, every sample of
  the result is the input's. *)
Theorem sharpen_fixes_uniform_image (w : World) (imageData : ImageData)
    (colour : Z -> Z) :
  (data imageData < length (heap w))%nat ->
  let input := array_at (heap w) (data imageData) in
  well_formed input (width imageData) (height imageData) ->
  bytes input ->
  uniform input (width imageData) (height imageData) colour ->
  exists out w',
    sharpenImage imageData w = (Ok out, w')
    /\ data out <> data imageData
    /\ array_at (heap w') (data out) = input.
Proof.
  intros Hl input Hwf Hb Hu. eexists _, _.
  split; [apply run_sharpenImage; exact Hl|].
  rewrite heap_with_new; cbn [data width height]; rewrite array_at_new.
  split; [lia|]. fold input.
  pose proof Hwf as (Hw & Hh & Hlen).
  apply list_eq. intros j.
  destruct (input !! j) as [v|] eqn:Hv.
  - pose proof (lookup_lt_Some _ _ _ Hv) as Hj.
    destruct (offset_decompose (width imageData) (height imageData) j)
      as (y & x & c & Hy & Hx & Hc & Hoff); [lia | lia | lia |].
    destruct (is_interior (width imageData) (height imageData) y x && (c <? 3))
      eqn:Hin.
    + unfold is_interior in Hin.
      assert (Hk : forall y' x', 0 <= y' < height imageData ->
                 0 <= x' < width imageData ->
                 at_index input (offset (width imageData) y' x' c) = v).
      { intros y' x' Hy' Hx'. rewrite (Hu y' x' c) by lia.
        rewrite <- (Hu y x c) by lia. unfold at_index.
        rewrite Hoff, Nat2Z.id, Hv. reflexivity. }
      rewrite <- (Nat2Z.id j), <- Hoff.
      rewrite (sharpen_pure_interior _ _ (height imageData)) by (auto; lia).
      rewrite !Hk by lia.
      pose proof (bytes_lookup _ _ _ Hb Hv). f_equal. lia.
    + rewrite sharpen_pure_elsewhere; [exact Hv|].
      intros y' x' c' Hy' Hx' Hc' Heq. rewrite <- Hoff in Heq.
      apply offset_inj in Heq; [|lia..].
      destruct Heq as (-> & -> & ->). unfold is_interior in Hin. lia.
  - apply lookup_ge_None. rewrite sharpen_pure_length.
    apply lookup_ge_None. exact Hv.
Qed.

Lemma sharpen_fixes_uniform_image_witness :
  exists out w',
    sharpenImage nine_pixel flat_world = (Ok out, w')
    /\ data out <> data nine_pixel
    /\ array_at (heap w') (data out) = array_at (heap flat_world) 0.
Proof.
  apply (sharpen_fixes_uniform_image flat_world nine_pixel
           (fun c => 90 - 30 * c)).
  - vm_compute; lia.
  - repeat split; vm_compute; congruence.
  - unfold bytes. vm_compute. repeat constructor; discriminate.
  - intros y x c Hy Hx Hc.
    change (height nine_pixel) with 3 in Hy. change (width nine_pixel) with 3 in Hx.
    assert (Hys : y = 0 \/ y = 1 \/ y = 2) by lia.
    assert (Hxs : x = 0 \/ x = 1 \/ x = 2) by lia.
    assert (Hcs : c = 0 \/ c = 1 \/ c = 2) by lia.
    destruct Hys as [-> | [-> | ->]], Hxs as [-> | [-> | ->]],
      Hcs as [-> | [-> | ->]]; reflexivity.
Defined.

(** ** Effects on the store and the decoder log *)

Lemma extends_by_refl n w : extends_by n w w.
Proof.
  split; [exists []; rewrite app_nil_r; reflexivity|].
  split; [|auto]. exists []. rewrite app_nil_r. split; [reflexivity | simpl; lia].
Qed.

Lemma extends_by_trans n k w w1 w2 :
  extends_by n w w1 -> extends_by k w1 w2 -> extends_by (n + k) w w2.
Proof.
  intros ((a1 & Hh1) & (c1 & Hl1 & Hn1) & Hi1) ((a2 & Hh2) & (c2 & Hl2 & Hn2) & Hi2).
  split; [exists (a1 ++ a2); rewrite Hh2, Hh1, app_assoc; reflexivity|].
  split; [|auto]. exists (c1 ++ c2).
  split; [rewrite Hl2, Hl1, app_assoc; reflexivity|].
  rewrite length_app. lia.
Qed.

Lemma extends_by_mono n k w w' :
  (n <= k)%nat -> extends_by n w w' -> extends_by k w w'.
Proof.
  intros Hle (Hh & (c & Hl & Hn) & Hi). split; [exact Hh|]. split; [|exact Hi].
  exists c. split; [exact Hl | lia].
Qed.

Section Grows.
Context {A : Type}.
Implicit Types (m : M A).

Lemma grows_ret (a : A) n : grows n (ret a).
Proof. intros w. apply extends_by_refl. Qed.

Lemma grows_throw e n : grows n (@throw A e).
Proof. intros w. apply extends_by_refl. Qed.

Lemma grows_hang n : grows n (@hang A).
Proof. intros w. apply extends_by_refl. Qed.

Lemma grows_mono n k m : (n <= k)%nat -> grows n m -> grows k m.
Proof. intros Hle Hm w. eapply extends_by_mono; [exact Hle | apply Hm]. Qed.

Lemma grows_try_catch n k m (h : jsstring -> M A) :
  grows n m -> (forall e, grows k (h e)) -> grows (n + k) (try_catch m h).
Proof.
  intros Hm Hh w. unfold try_catch. specialize (Hm w).
  destruct (m w) as [[a|e|] w1]; simpl in *;
    try (eapply extends_by_mono; [|exact Hm]; lia).
  eapply extends_by_trans; [exact Hm | apply Hh].
Qed.

Lemma grows_attempt n m : grows n m -> grows n (attempt m).
Proof.
  intros Hm w. unfold attempt. specialize (Hm w).
  destruct (m w) as [[a|e|] w1]; exact Hm.
Qed.

(** A computation whose final world is the initial one with one more
  array. *)
Lemma grows_with_new m n :
  (forall w, exists a, (m w).2 = with_new w (heap w) a) -> grows n m.
Proof.
  intros Hm w. destruct (Hm w) as (a & ->).
  split; [exists [a]; reflexivity|]. split; [|auto].
  exists []. rewrite app_nil_r. split; [reflexivity | simpl; lia].
Qed.

End Grows.

Lemma grows_bind {A B} n k (m : M A) (f : A -> M B) :
  grows n m -> (forall a, grows k (f a)) -> grows (n + k) (bind m f).
Proof.
  intros Hm Hf w. unfold bind. specialize (Hm w).
  destruct (m w) as [[a|e|] w1]; simpl in *;
    try (eapply extends_by_mono; [|exact Hm]; lia).
  eapply extends_by_trans; [exact Hm | apply Hf].
Qed.

Lemma grows_mapM {A B} n (f : A -> M B) (xs : list A) :
  Forall (fun x => grows n (f x)) xs -> grows (length xs * n) (mapM f xs).
Proof.
  induction 1 as [|x xs Hx _ IH]; simpl; [apply grows_ret|].
  apply grows_bind; [exact Hx|]. intros y.
  replace (length xs * n)%nat with (length xs * n + 0)%nat by lia.
  apply grows_bind; [exact IH|]. intros ys. apply grows_ret.
Qed.

Lemma grows_foldM {A B} n (f : B -> A -> M B) (xs : list A) (b : B) :
  (forall b x, grows n (f b x)) -> grows (length xs * n) (foldM f b xs).
Proof.
  intros Hf. revert b. induction xs as [|x xs IH]; intros b; simpl;
    [apply grows_ret|].
  apply grows_bind; [apply Hf | intros b'; apply IH].
Qed.

Lemma grows_allSettled {A} (ps : list (M A)) (ns : list nat) :
  Forall2 (fun p n => grows n p) ps ns ->
  grows (foldr Nat.add 0%nat ns) (allSettled ps).
Proof.
  induction 1 as [|p n ps ns Hp _ IH]; simpl; [apply grows_ret|].
  apply grows_bind; [apply grows_attempt; exact Hp|]. intros r.
  replace (foldr Nat.add 0 ns)%nat with (foldr Nat.add 0 ns + 0)%nat by lia.
  apply grows_bind; [exact IH|]. intros rs. apply grows_ret.
Qed.

(** *** Loops that write the newest array *)

Lemma touches_newest_ret {A} h (a : A) : touches_newest h (ret a).
Proof. intros w arr. exists a, arr. reflexivity. Qed.

Lemma touches_newest_bind {A B} h (m : M A) (f : A -> M B) :
  touches_newest h m -> (forall a, touches_newest h (f a)) ->
  touches_newest h (bind m f).
Proof.
  intros Hm Hf w arr. destruct (Hm w arr) as (a & arr1 & Hrun).
  rewrite (bind_ok _ _ _ _ _ Hrun). apply Hf.
Qed.

Lemma touches_newest_forM_ {A} h (xs : list A) (body : A -> M unit) :
  (forall x, touches_newest h (body x)) -> touches_newest h (forM_ xs body).
Proof.
  intros Hb. induction xs as [|x xs IH]; simpl; [apply touches_newest_ret|].
  apply touches_newest_bind; [apply Hb | intros _; exact IH].
Qed.

Lemma touches_newest_foldM {A B} h (f : B -> A -> M B) (xs : list A) (b : B) :
  (forall b x, touches_newest h (f b x)) -> touches_newest h (foldM f b xs).
Proof.
  intros Hf. revert b. induction xs as [|x xs IH]; intros b; simpl;
    [apply touches_newest_ret|].
  apply touches_newest_bind; [apply Hf | intros b'; apply IH].
Qed.

Lemma touches_newest_get h l i : touches_newest h (array_get l i).
Proof. intros w arr. eexists _, arr. reflexivity. Qed.

Lemma touches_newest_set h i v : touches_newest h (array_set (length h) i v).
Proof. intros w arr. eexists _, _. apply run_array_set_new. Qed.

Lemma sharpenImage_adds_array (imageData : ImageData) w :
  exists out a, sharpenImage imageData w = (Ok out, with_new w (heap w) a).
Proof.
  unfold sharpenImage.
  rewrite (bind_ok _ _ _ _ _ (run_new_array _ _)). cbv beta zeta.
  refine (touches_newest_bind (heap w) _ _ _ _ w _).
  - apply touches_newest_forM_. intros y. apply touches_newest_forM_. intros x.
    apply touches_newest_forM_. intros c.
    apply touches_newest_bind; [|intros; apply touches_newest_set].
    apply touches_newest_foldM. intros sum ky.
    apply touches_newest_foldM. intros sum' kx.
    apply touches_newest_bind; [apply touches_newest_get|].
    intros v. apply touches_newest_ret.
  - intros _. apply touches_newest_ret.
Qed.

(** *** The primitives and the transforms *)

Lemma grows_enhanceContrast img : grows 0 (enhanceContrast img).
Proof.
  apply grows_with_new. intros w. rewrite run_enhanceContrast.
  eexists. reflexivity.
Qed.

Lemma grows_adjustBrightness img d : grows 0 (adjustBrightness img d).
Proof.
  apply grows_with_new. intros w. rewrite run_adjustBrightness.
  eexists. reflexivity.
Qed.

Lemma grows_sharpenImage img : grows 0 (sharpenImage img).
Proof.
  apply grows_with_new. intros w.
  destruct (sharpenImage_adds_array img w) as (out & a & ->).
  exists a. reflexivity.
Qed.

Lemma grows_alloc content : grows 0 (alloc content).
Proof. apply grows_with_new. intros w. exists content. reflexivity. Qed.

Lemma grows_getImageData ctx x y w h : grows 0 (getImageData ctx x y w h).
Proof.
  unfold getImageData. destruct ctx as [canvas|]; [|apply grows_throw].
  destruct (read_pixels canvas x y w h); [|apply grows_throw].
  apply (grows_bind 0 0); [apply grows_alloc | intros; apply grows_ret].
Qed.

Lemma grows_scaleImage canvas scale : grows 0 (scaleImage canvas scale).
Proof.
  unfold scaleImage. destruct (scaled_pixels canvas scale); [|apply grows_ret].
  apply (grows_bind 0 0); [apply grows_alloc | intros; apply grows_ret].
Qed.

Lemma grows_jsQR env img mode : grows 1 (jsQR env img mode).
Proof.
  intros w. unfold jsQR; simpl.
  split; [exists []; rewrite app_nil_r; reflexivity|]. split; [|auto].
  eexists [_]. split; [reflexivity | simpl; lia].
Qed.

Lemma grows_scanImage env imageData : grows 0 (QrScanner_scanImage env imageData).
Proof. intros w. apply extends_by_refl. Qed.

Lemma grows_canvas_and_context env imageData :
  grows 0 (canvas_and_context env imageData).
Proof.
  destruct imageData as [s|canvas]; simpl; [|apply grows_ret].
  unfold createCanvasFromImageData.
  destruct (loadImage env s) as [canvas|]; [|apply grows_throw].
  destruct (getContext canvas); [apply grows_ret | apply grows_throw].
Qed.

Lemma grows_ensure_initialized : grows 0 ensure_initialized.
Proof.
  intros w. unfold ensure_initialized, initialize.
  destruct (isInitialized w) eqn:Hi; simpl; [apply extends_by_refl|].
  split; [exists []; rewrite app_nil_r; reflexivity|]. split; [|auto].
  exists []. rewrite app_nil_r. split; [reflexivity | simpl; lia].
Qed.

(** *** The single-image recognizers *)

Lemma grows_try_scales env canvas (ss : list Q) :
  grows (length ss) (try_scales env canvas ss).
Proof.
  induction ss as [|s ss IH]; simpl; [apply grows_ret|].
  apply (grows_bind 0 (S (length ss))); [apply grows_scaleImage|].
  intros [img|].
  - apply (grows_bind 1 (length ss)); [apply grows_jsQR|].
    intros [c|]; simpl; [apply grows_ret | exact IH].
  - eapply grows_mono; [|exact IH]. lia.
Qed.

Ltac decode_step k :=
  apply (grows_bind 1 k); [apply grows_jsQR|];
  intros [?|]; cbn [return_if_found]; [apply grows_ret|].

Lemma grows_tryMultiple env canvas ctx :
  grows 10 (tryMultipleRecognitionStrategies env canvas ctx).
Proof.
  unfold tryMultipleRecognitionStrategies.
  apply (grows_bind 0 10); [apply grows_getImageData|]. intros img.
  decode_step 9%nat.
  apply (grows_bind 0 9); [apply grows_enhanceContrast|]. intros ?.
  decode_step 8%nat.
  apply (grows_bind 0 8); [apply grows_adjustBrightness|]. intros ?.
  decode_step 7%nat.
  apply (grows_bind 0 7); [apply grows_adjustBrightness|]. intros ?.
  decode_step 6%nat.
  apply (grows_bind 0 6); [apply grows_sharpenImage|]. intros ?.
  decode_step 5%nat.
  apply (grows_try_scales env canvas scales).
Qed.

Lemma grows_text_or_throw env canvas ctx :
  grows 10
    (let* result := tryMultipleRecognitionStrategies env canvas ctx in
     match result with
     | Some text => if negb (falsy text) then ret text
                    else throw (js "未检测到二维码")
     | None => throw (js "未检测到二维码")
     end).
Proof.
  apply (grows_bind 10 0); [apply grows_tryMultiple|]. intros [text|].
  - destruct (negb (falsy text)); [apply grows_ret | apply grows_throw].
  - apply grows_throw.
Qed.

Lemma grows_recognizeCanvasWithJsQR env canvas :
  grows 10 (recognizeCanvasWithJsQR env canvas).
Proof.
  unfold recognizeCanvasWithJsQR.
  destruct (getContext canvas); [|apply grows_throw].
  apply grows_text_or_throw.
Qed.

Lemma grows_recognizeWithJsQR env s : grows 10 (recognizeWithJsQR env s).
Proof.
  unfold recognizeWithJsQR.
  destruct (loadImage env s) as [canvas|]; [|apply grows_throw].
  destruct (getContext canvas); [|apply grows_throw].
  apply grows_text_or_throw.
Qed.

Lemma grows_recognizeWithQrScannerFast env imageData :
  grows 0 (recognizeWithQrScannerFast env imageData).
Proof.
  unfold recognizeWithQrScannerFast.
  apply (grows_bind 0 0); [|intros [r|]; apply grows_ret].
  apply (grows_try_catch 0 0); [|intros; apply grows_ret].
  apply (grows_bind 0 0); [apply grows_scanImage|]. intros result.
  destruct (negb (falsy result)); apply grows_ret.
Qed.

Lemma grows_recognizeWithJsQRFast env imageData :
  grows 1 (recognizeWithJsQRFast env imageData).
Proof.
  unfold recognizeWithJsQRFast.
  apply (grows_bind 1 0); [|intros [r|]; apply grows_ret].
  apply (grows_try_catch 1 0); [|intros; apply grows_ret].
  apply (grows_bind 0 1); [apply grows_canvas_and_context|].
  intros [canvas ctx].
  apply (grows_bind 0 1); [apply grows_getImageData|]. intros img.
  apply (grows_bind 1 0); [apply grows_jsQR|]. intros [c|]; apply grows_ret.
Qed.

Lemma grows_performFastSingleRecognition env imageData startTime now_gate :
  grows 11 (performFastSingleRecognition env imageData startTime now_gate).
Proof.
  unfold performFastSingleRecognition. cbv zeta.
  apply (grows_bind 1 10).
  { apply (grows_allSettled _ [0; 1]%nat).
    constructor; [apply grows_recognizeWithQrScannerFast|].
    constructor; [apply grows_recognizeWithJsQRFast | constructor]. }
  intros fastResults.
  destruct (first_fulfilled fastResults) as [value|]; [apply grows_ret|].
  apply (grows_bind 10 0); [|intros [r|]; apply grows_ret].
  destruct (now_gate - startTime <? 800); [|apply grows_ret].
  apply (grows_try_catch 10 0); [|intros; apply grows_ret].
  apply (grows_bind 10 0).
  - apply (grows_try_catch 0 10); [apply grows_scanImage|].
    intros e. destruct imageData as [s|canvas];
      [apply grows_recognizeWithJsQR | apply grows_recognizeCanvasWithJsQR].
  - intros text. destruct (negb (falsy text)); apply grows_ret.
Qed.

Lemma grows_race_timeout {A} n (p : M A) settles_at fires_at timer msg :
  grows n p -> grows n (race_timeout p settles_at fires_at timer msg).
Proof.
  intros Hp. unfold race_timeout.
  replace n with (n + 0)%nat by lia.
  apply grows_bind; [apply grows_attempt; exact Hp|]. intros r.
  destruct (timer_won settles_at fires_at timer); apply grows_ret.
Qed.

Lemma grows_recognizeImage env clk imageData :
  grows 11 (recognizeImage env clk imageData).
Proof.
  unfold recognizeImage. cbv zeta.
  apply (grows_bind 0 11); [apply grows_ensure_initialized|]. intros _.
  apply (grows_bind 11 0).
  - apply grows_race_timeout. apply grows_performFastSingleRecognition.
  - intros [[result|e] now]; apply grows_ret.
Qed.

(** X8. One call of the single-image recognizer runs the decoder at
  most eleven times (once on the fast path, ten times on the
  exhaustive one), however it ends. It only adds to the store: every
  pixel array that existed before the call is in place and unchanged
  afterwards, and a service that was initialized stays so. Eleven calls
  are reached when the scanner rejects the image and the decoder finds
  nothing in any view. *)
Theorem single_image_decode_budget :
  (forall env clk imageData, grows 11 (recognizeImage env clk imageData))
  /\ (exists env clk imageData w,
        length (decode_log (recognizeImage env clk imageData w).2)
        = (length (decode_log w) + 11)%nat).
Proof.
  split; [exact grows_recognizeImage|].
  exists unreadable_env, timely_clock, (FromString (js "photo.png")), fresh_world.
  vm_compute. reflexivity.
Qed.

(** *** The stages of the multi-code recognizer *)

Lemma grows_decode_attempt env (strategy : M ImageData) (k : QRCode -> M (option QRResult)) :
  grows 0 strategy -> (forall c, grows 0 (k c)) ->
  grows 1
    (try_catch
       (let* processedData := strategy in
        let* code := jsQR env processedData dontInvert in
        match code with
        | Some c => k c
        | None => ret None
        end)
       (fun _ => ret None)).
Proof.
  intros Hs Hk.
  apply (grows_try_catch 1 0); [|intros; apply grows_ret].
  apply (grows_bind 0 1); [exact Hs|]. intros processed.
  apply (grows_bind 1 0); [apply grows_jsQR|].
  intros [c|]; [apply Hk | apply grows_ret].
Qed.

Lemma grows_quickFullImageScan env canvas ctx :
  grows 3 (quickFullImageScan env canvas ctx).
Proof.
  unfold quickFullImageScan.
  apply (grows_try_catch 3 0); [|intros; apply grows_ret].
  apply (grows_bind 0 3); [apply grows_getImageData|]. intros imageData.
  cbv zeta.
  apply (grows_bind 3 0); [|intros; apply grows_ret].
  apply (grows_mapM 1 _ [_; _; _]).
  constructor; [|constructor; [|constructor; [|constructor]]];
    (apply grows_decode_attempt; [|intros; apply grows_ret]).
  - apply grows_ret.
  - apply grows_enhanceContrast.
  - apply grows_adjustBrightness.
Qed.

Lemma grows_smartRegionScan env canvas ctx found :
  grows 9 (smartRegionScan env canvas ctx found).
Proof.
  unfold smartRegionScan. cbv zeta.
  apply (grows_bind 9 0); [|intros; apply grows_ret].
  apply (grows_mapM 1 _ (regions _ _)).
  apply Forall_forall. intros region _.
  apply (grows_try_catch 1 0); [|intros; apply grows_ret].
  apply (grows_bind 0 1); [apply grows_getImageData|]. intros regionData.
  apply (grows_bind 1 0); [apply grows_jsQR|].
  intros [c|]; [|apply grows_ret].
  match goal with |- context [if ?b then _ else _] => destruct b end;
    apply grows_ret.
Qed.

Lemma grows_scanRegionAsync env ctx x y w h ox oy :
  grows 1 (scanRegionAsync env ctx x y w h ox oy).
Proof.
  unfold scanRegionAsync.
  apply (grows_try_catch 1 0); [|intros; apply grows_ret].
  apply (grows_bind 0 1); [apply grows_getImageData|]. intros regionData.
  apply (grows_bind 1 0); [apply grows_jsQR|].
  intros [c|]; apply grows_ret.
Qed.

Lemma grows_window_step env ctx found windowSize st origin :
  grows 1 (window_step env ctx found windowSize st origin).
Proof.
  destruct st as [results scanPromises], origin as [x y]. unfold window_step.
  apply (grows_bind 1 0).
  - destruct (negb (has_key found (position_key x y))); [|apply grows_ret].
    apply (grows_bind 1 0); [apply grows_scanRegionAsync|].
    intros scan. apply grows_ret.
  - intros pend. destruct (6 <=? length pend)%nat; apply grows_ret.
Qed.

Lemma grows_optimizedSlidingWindow env canvas ctx found :
  grows (length (windows canvas)) (optimizedSlidingWindow env canvas ctx found).
Proof.
  unfold optimizedSlidingWindow, windows. cbv zeta.
  destruct (window_origins _ _ _ _) as [origins|]; [|apply grows_hang].
  simpl default.
  replace (length origins) with (length origins * 1 + 0)%nat by lia.
  apply grows_bind.
  - apply grows_foldM. intros st origin. apply grows_window_step.
  - intros [results scanPromises].
    destruct (0 <? length scanPromises)%nat; apply grows_ret.
Qed.

Lemma grows_performOptimizedRecognition env clk canvas ctx startTime :
  grows (multi_budget canvas)
    (performOptimizedRecognition env clk canvas ctx startTime).
Proof.
  unfold performOptimizedRecognition, multi_budget.
  apply (grows_bind 3 (9 + length (windows canvas))).
  { unfold full_frame_stage.
    apply (grows_bind 3 0); [apply grows_quickFullImageScan|].
    intros; apply grows_ret. }
  intros st1.
  apply (grows_bind 9 (length (windows canvas))).
  { destruct (m_gate_grid clk - startTime <? 1000); [|apply grows_ret].
    unfold grid_stage.
    apply (grows_bind 9 0); [apply grows_smartRegionScan|].
    intros; apply grows_ret. }
  intros st2.
  replace (length (windows canvas)) with (length (windows canvas) + 0)%nat by lia.
  apply grows_bind; [|intros; apply grows_ret].
  destruct (m_gate_window clk - startTime <? 1500); [|apply grows_ret].
  unfold window_stage.
  replace (length (windows canvas)) with (length (windows canvas) + 0)%nat by lia.
  apply grows_bind; [apply grows_optimizedSlidingWindow|].
  intros; apply grows_ret.
Qed.

Lemma grows_recognizeMultiple_on env clk imageData canvas ctx :
  input_canvas env imageData = Some (canvas, ctx) ->
  grows (multi_budget canvas) (recognizeMultipleQRCodes env clk imageData).
Proof.
  intros Hcanvas w. unfold recognizeMultipleQRCodes. cbv zeta.
  destruct (run_ensure_initialized w) as (w1 & Hinit & _).
  pose proof (grows_ensure_initialized w) as Hext. rewrite Hinit in Hext.
  simpl in Hext.
  rewrite (bind_ok _ _ _ _ _ Hinit).
  assert (Hready : attempt (canvas_and_context env imageData) w1
                   = (Ok (Returned (canvas, ctx)), w1)).
  { unfold attempt. rewrite (run_canvas_and_context _ _ _ _ Hcanvas). reflexivity. }
  rewrite (bind_ok _ _ _ _ _ Hready).
  apply (extends_by_mono (0 + (multi_budget canvas + 0))); [lia|].
  apply (extends_by_trans 0 (multi_budget canvas + 0) w w1); [exact Hext|].
  refine (grows_bind (multi_budget canvas) 0 _ _ _ _ w1).
  - apply grows_race_timeout. apply grows_performOptimizedRecognition.
  - intros [[results|e] now]; apply grows_ret.
Qed.

Lemma grows_recognizeMultiple_off env clk imageData :
  input_canvas env imageData = None ->
  grows 0 (recognizeMultipleQRCodes env clk imageData).
Proof.
  intros Hnone w. unfold recognizeMultipleQRCodes. cbv zeta.
  destruct (run_ensure_initialized w) as (w1 & Hinit & _).
  pose proof (grows_ensure_initialized w) as Hext. rewrite Hinit in Hext.
  simpl in Hext.
  rewrite (bind_ok _ _ _ _ _ Hinit).
  destruct (run_canvas_and_context_fails _ _ Hnone) as (e & Hfail).
  assert (Hready : attempt (canvas_and_context env imageData) w1
                   = (Ok (Thrown e), w1)).
  { unfold attempt. rewrite Hfail. reflexivity. }
  rewrite (bind_ok _ _ _ _ _ Hready). exact Hext.
Qed.

(** ** The geometry of the sliding windows *)

Lemma loop_values_bounds (limit step : Q) (vs : list Q) :
  (0 < step)%Q -> loop_values limit step = Some vs ->
  forall v, v ∈ vs -> (0 <= v /\ v <= limit)%Q.
Proof.
  intros Hstep. unfold loop_values.
  destruct (Qle_bool 0 limit) eqn:Hlim;
    [|intros Hvs v Hv; inversion Hvs; subst; inversion Hv].
  destruct (Qle_bool step 0); [discriminate|].
  intros Hvs v Hv. inversion Hvs; subst vs. clear Hvs.
  apply list_elem_of_fmap in Hv as (k & -> & Hk). apply elem_of_seqZ in Hk.
  assert (Hk0 : (0 <= inject_Z k)%Q) by (unfold Qle, inject_Z; simpl; lia).
  split; [apply Qmult_le_0_compat; [exact Hk0 | apply Qlt_le_weak; exact Hstep]|].
  assert (Hkf : (inject_Z k <= limit / step)%Q).
  { eapply Qle_trans; [|apply Qfloor_le].
    unfold Qle, inject_Z; simpl. lia. }
  apply (Qmult_le_compat_r _ _ step) in Hkf; [|apply Qlt_le_weak; exact Hstep].
  eapply Qle_trans; [exact Hkf|].
  assert (Heq : (limit / step * step == limit)%Q).
  { field. intros H0. rewrite H0 in Hstep. apply (Qlt_irrefl 0 Hstep). }
  rewrite Heq. apply Qle_refl.
Qed.

Lemma elem_of_window_origins width height windowSize stepSize os (o : Q * Q) :
  window_origins width height windowSize stepSize = Some os -> o ∈ os ->
  exists ys xs,
    loop_values (height - windowSize) stepSize = Some ys
    /\ loop_values (width - windowSize) stepSize = Some xs
    /\ o.2 ∈ ys /\ o.1 ∈ xs.
Proof.
  unfold window_origins. intros Hos Ho.
  destruct (loop_values (height - windowSize) stepSize) as [[|y ys]|];
    [inversion Hos; subst; inversion Ho | | discriminate].
  destruct (loop_values (width - windowSize) stepSize) as [xs|]; [|discriminate].
  injection Hos as <-.
  exists (y :: ys), xs. split; [reflexivity|]. split; [reflexivity|].
  apply elem_of_app in Ho as [Ho|Ho].
  - apply list_elem_of_fmap in Ho as (x' & -> & Hx').
    split; [left | exact Hx'].
  - change (o ∈ ys ≫= (fun y => (fun x => (x, y)) <$> xs)) in Ho.
    apply list_elem_of_bind in Ho as (y' & Ho & Hy').
    apply list_elem_of_fmap in Ho as (x' & -> & Hx').
    split; [right; exact Hy' | exact Hx'].
Qed.

Lemma window_step_positive (canvas : Canvas) :
  0 < canvas_width canvas -> 0 < canvas_height canvas ->
  (0 < window_size canvas * (6 # 10))%Q.
Proof.
  intros Hw Hh. unfold window_size.
  assert (Hmin : (0 < Qmin (inject_Z (canvas_width canvas))
                          (inject_Z (canvas_height canvas)))%Q).
  { apply Q.min_glb_lt; unfold Qlt, inject_Z; simpl; lia. }
  repeat apply Qmult_lt_0_compat; try exact Hmin; reflexivity.
Qed.

Lemma windows_inside (canvas : Canvas) :
  0 < canvas_width canvas -> 0 < canvas_height canvas ->
  Forall (inside canvas) (windows canvas).
Proof.
  intros Hw Hh. apply Forall_forall. intros o Ho.
  unfold windows in Ho. cbv zeta in Ho.
  fold (window_size canvas) in Ho.
  destruct (window_origins _ _ _ _) as [os|] eqn:Hos; [|inversion Ho].
  simpl in Ho.
  destruct (elem_of_window_origins _ _ _ _ _ _ Hos Ho)
    as (ys & xs & Hys & Hxs & Hy & Hx).
  pose proof (window_step_positive canvas Hw Hh) as Hstep.
  destruct (loop_values_bounds _ _ _ Hstep Hys _ Hy) as [Hy0 Hy1].
  destruct (loop_values_bounds _ _ _ Hstep Hxs _ Hx) as [Hx0 Hx1].
  unfold inside. repeat split; lra.
Qed.

Lemma Qmin_same (q : Q) : Qmin q q = q.
Proof.
  unfold Qmin, GenericMinMax.gmin. destruct (Qcompare q q); reflexivity.
Qed.

Lemma loop_values_square (m : Q) :
  (0 < m)%Q ->
  let step := (m * (4 # 10) * (6 # 10))%Q in
  loop_values (m - m * (4 # 10)) step
  = Some [(inject_Z 0 * step)%Q; (inject_Z 1 * step)%Q; (inject_Z 2 * step)%Q].
Proof.
  intros Hm step. unfold loop_values.
  assert (Hlim : Qle_bool 0 (m - m * (4 # 10)) = true).
  { apply Qle_bool_iff. lra. }
  assert (Hstep : Qle_bool step 0 = false).
  { destruct (Qle_bool step 0) eqn:Hle; [|reflexivity].
    apply Qle_bool_iff in Hle. unfold step in Hle. lra. }
  rewrite Hlim, Hstep.
  assert (Hq : ((m - m * (4 # 10)) / step == 5 # 2)%Q).
  { unfold step. field. lra. }
  rewrite Hq. reflexivity.
Qed.

Lemma windows_of_square (canvas : Canvas) (n : Z) :
  0 < n -> canvas_width canvas = n -> canvas_height canvas = n ->
  let step := (inject_Z n * (4 # 10) * (6 # 10))%Q in
  windows canvas
  = y ← [(inject_Z 0 * step)%Q; (inject_Z 1 * step)%Q; (inject_Z 2 * step)%Q];
    (fun x => (x, y)) <$>
      [(inject_Z 0 * step)%Q; (inject_Z 1 * step)%Q; (inject_Z 2 * step)%Q].
Proof.
  intros Hn Hw Hh step. unfold windows. cbv zeta. rewrite Hw, Hh, Qmin_same.
  unfold window_origins.
  assert (Hm : (0 < inject_Z n)%Q) by (unfold Qlt, inject_Z; simpl; lia).
  rewrite (loop_values_square _ Hm). reflexivity.
Qed.

(** X9. One call of the multi-code recognizer on a canvas runs the
  decoder at most 3 times on the full frame, 9 times on the grid and
  once per sliding window: at most 21 times on a square canvas, which a
  decoder that finds nothing reaches. It only adds arrays to the store.
  When the image source yields no canvas, the decoder is not run at
  all. *)
Theorem multi_code_decode_budget :
  (forall env clk imageData canvas ctx,
     input_canvas env imageData = Some (canvas, ctx) ->
     grows (multi_budget canvas) (recognizeMultipleQRCodes env clk imageData)
     /\ (0 < canvas_width canvas -> canvas_height canvas = canvas_width canvas ->
         multi_budget canvas = 21%nat))
  /\ (forall env clk imageData,
        input_canvas env imageData = None ->
        grows 0 (recognizeMultipleQRCodes env clk imageData))
  /\ (exists env clk canvas w,
        length (decode_log
                  (recognizeMultipleQRCodes env clk (FromCanvas canvas) w).2)
        = (length (decode_log w) + 21)%nat).
Proof.
  split; [|split].
  - intros env clk imageData canvas ctx Hcanvas.
    split; [apply (grows_recognizeMultiple_on _ _ _ _ _ Hcanvas)|].
    intros Hw Hh. unfold multi_budget.
    rewrite (windows_of_square canvas (canvas_width canvas) Hw eq_refl Hh).
    reflexivity.
  - intros env clk imageData. apply grows_recognizeMultiple_off.
  - exists unreadable_env, quick_clock, (square_canvas 10 one_pixel_raw),
      fresh_world.
    vm_compute. reflexivity.
Qed.

Lemma multi_code_decode_budget_witness :
  grows 21 (recognizeMultipleQRCodes unreadable_env quick_clock
              (FromCanvas (square_canvas 10 one_pixel_raw))).
Proof.
  destruct multi_code_decode_budget as (Hon & _ & _).
  destruct (Hon unreadable_env quick_clock
              (FromCanvas (square_canvas 10 one_pixel_raw))
              (square_canvas 10 one_pixel_raw)
              (Some (square_canvas 10 one_pixel_raw)) eq_refl) as [Hg Hn].
  rewrite <- Hn; [exact Hg | reflexivity | reflexivity].
Defined.

(** X10. On a canvas with positive width and height the sliding-window
  loop ends and every window it visits lies inside the canvas. On a
  square canvas of side n it visits nine windows, with origins at 0,
  0.24 n and 0.48 n along each axis, so no window reaches beyond
  0.88 n: the last 12 % of the width and of the height are in no
  window. *)
Theorem sliding_windows_inside_canvas (env : Env) (canvas : Canvas)
    (ctx : option Canvas) (found : gset jsstring) :
  0 < canvas_width canvas -> 0 < canvas_height canvas ->
  ensures (optimizedSlidingWindow env canvas ctx found) (fun _ => True)
    False False
  /\ Forall (inside canvas) (windows canvas)
  /\ (canvas_height canvas = canvas_width canvas ->
      length (windows canvas) = 9%nat
      /\ Forall (fun o =>
           (o.1 + window_size canvas <= (22 # 25) * inject_Z (canvas_width canvas)
            /\ o.2 + window_size canvas
               <= (22 # 25) * inject_Z (canvas_width canvas))%Q)
           (windows canvas)).
Proof.
  intros Hw Hh.
  split; [apply ensures_optimizedSlidingWindow; assumption|].
  split; [apply windows_inside; assumption|].
  intros Hsq.
  rewrite (windows_of_square canvas (canvas_width canvas) Hw eq_refl Hsq).
  split; [reflexivity|].
  unfold window_size. rewrite Hsq, Qmin_same.
  assert (Hn : (0 < inject_Z (canvas_width canvas))%Q)
    by (unfold Qlt, inject_Z; simpl; lia).
  set (n := inject_Z (canvas_width canvas)) in *.
  assert (H0 : (inject_Z 0 == 0)%Q) by reflexivity.
  assert (H1 : (inject_Z 1 == 1)%Q) by reflexivity.
  assert (H2 : (inject_Z 2 == 2)%Q) by reflexivity.
  repeat constructor; simpl; rewrite ?H0, ?H1, ?H2; lra.
Qed.

Lemma sliding_windows_inside_canvas_witness :
  Forall (inside (square_canvas 100 one_pixel_raw))
    (windows (square_canvas 100 one_pixel_raw))
  /\ length (windows (square_canvas 100 one_pixel_raw)) = 9%nat.
Proof.
  destruct (sliding_windows_inside_canvas blind_env
              (square_canvas 100 one_pixel_raw) None ∅)
    as (_ & Hin & Hsq); [reflexivity | reflexivity |].
  split; [exact Hin | apply Hsq; reflexivity].
Defined.

(** ** The sliding-window stage without its batches *)

Lemma non_null_app {A} (xs ys : list (option A)) :
  non_null (xs ++ ys) = non_null xs ++ non_null ys.
Proof. unfold non_null. apply omap_app. Qed.

Lemma window_loop_unbatched env ctx found windowSize (origins : list (Q * Q)) :
  forall results pending w,
    (let* '(results, scanPromises) :=
       foldM (window_step env ctx found windowSize)
         (results, pending) origins in
     ret (results ++ non_null scanPromises)) w
    = (let* found_now := scan_windows env ctx found windowSize origins in
       ret (results ++ non_null pending ++ found_now)) w.
Proof.
  unfold scan_windows. cbv zeta.
  induction origins as [|[x y] origins IH]; intros results pending w.
  - simpl. unfold bind, ret. rewrite app_nil_r. reflexivity.
  - cbn [foldM]. rewrite bind_assoc.
    unfold window_step at 1.
    change (negb (has_key found (position_key x y)))
      with (unseen found (x, y)).
    destruct (unseen found (x, y)) eqn:Hseen.
    + rewrite filter_cons_True by exact Hseen. cbn [mapM fst snd].
      rewrite !bind_assoc. apply bind_ext. intros scan w1.
      rewrite !bind_ret.
      destruct (6 <=? length (pending ++ [scan]))%nat; rewrite bind_ret.
      * rewrite (IH (results ++ non_null (pending ++ [scan])) [] w1).
        rewrite !bind_assoc. apply bind_ext. intros scans w2.
        rewrite !bind_ret. unfold ret. do 2 f_equal.
        rewrite non_null_app.
        destruct scan as [r|]; simpl; rewrite <- ?app_assoc; reflexivity.
      * rewrite (IH results (pending ++ [scan]) w1).
        rewrite !bind_assoc. apply bind_ext. intros scans w2.
        rewrite !bind_ret. unfold ret. do 2 f_equal.
        rewrite non_null_app.
        destruct scan as [r|]; simpl; rewrite <- ?app_assoc; reflexivity.
    + rewrite filter_cons_False by (rewrite Hseen; discriminate).
      rewrite bind_assoc, bind_ret.
      destruct (6 <=? length pending)%nat; rewrite bind_ret.
      * rewrite (IH (results ++ non_null pending) [] w).
        apply bind_ext. intros found_now w2. unfold ret. do 2 f_equal.
        simpl. rewrite <- app_assoc. reflexivity.
      * apply IH.
Qed.

Lemma bind_ret_r {A} (m : M A) w : bind m ret w = m w.
Proof. unfold bind, ret. destruct (m w) as [[a|e|] w']; reflexivity. Qed.

Lemma mapM_length {A B} (f : A -> M B) (xs : list A) :
  ensures (mapM f xs) (fun ys => length ys = length xs) True True.
Proof.
  induction xs as [|x xs IH]; simpl; [apply ensures_ret; reflexivity|].
  eapply ensures_bind; [apply ensures_any|]. intros y _.
  eapply ensures_bind; [exact IH|]. intros ys Hys.
  apply ensures_ret. simpl. rewrite Hys. reflexivity.
Qed.

Lemma non_null_length {A} (xs : list (option A)) :
  (length (non_null xs) <= length xs)%nat.
Proof.
  unfold non_null. induction xs as [|[x|] xs IH]; simpl; [lia| |];
    change (list_omap (option A) A id xs) with (omap id xs); lia.
Qed.

(** X11. The batches of six in the sliding-window loop do not change
  what it computes: whatever window origins the two nested loops visit
  and whatever the window size, the loop with its batches and the
  flush after it ends, in every world, exactly as scanning the windows
  that are not in the seen set one after the other, in the order of the
  loops, and keeping the decodes; the same decoder calls are made in
  the same order. It returns at most one result per unseen window. *)
Theorem sliding_window_is_sequential_scan (env : Env) (ctx : option Canvas)
    (found : gset jsstring) (windowSize : Q) (origins : list (Q * Q)) :
  (forall w,
     window_loop env ctx found windowSize origins w
     = scan_windows env ctx found windowSize origins w)
  /\ ensures (window_loop env ctx found windowSize origins)
       (fun rs => (length rs
                   <= length (filter (fun o => unseen found o = true)
                                origins))%nat)
       True True.
Proof.
  assert (Heq : forall w,
     window_loop env ctx found windowSize origins w
     = scan_windows env ctx found windowSize origins w).
  { intros w. unfold window_loop.
    rewrite <- (bind_ret_r (scan_windows env ctx found windowSize origins) w).
    transitivity
      ((let* found_now := scan_windows env ctx found windowSize origins in
        ret ([] ++ non_null [] ++ found_now)) w); [|reflexivity].
    rewrite <- window_loop_unbatched.
    apply bind_ext. intros [results scanPromises] w1.
    destruct scanPromises as [|p ps]; simpl; [rewrite app_nil_r|];
      reflexivity. }
  split; [exact Heq|].
  intros w. rewrite Heq. revert w.
  unfold scan_windows.
  eapply ensures_bind; [apply mapM_length|]. intros scans Hlen.
  apply ensures_ret. rewrite <- Hlen. apply non_null_length.
Qed.

Lemma sliding_window_is_sequential_scan_witness :
  exists origins,
    Doubles.window_origins 100 480 120 = Some origins
    /\ Doubles.to_Q (Doubles.window_size 480 120) = 48%Q
    /\ length origins = 45%nat
    /\ window_loop always_A_env (Some Doubles.wide_canvas) ∅ 48 origins
         fresh_world
       = scan_windows always_A_env (Some Doubles.wide_canvas) ∅ 48 origins
           fresh_world.
Proof.
  destruct (Doubles.window_origins 100 480 120) as [origins|] eqn:Horigins;
    [|vm_compute in Horigins; discriminate Horigins].
  exists origins. split; [reflexivity|]. split; [vm_compute; reflexivity|].
  split.
  - vm_compute in Horigins. injection Horigins as <-. reflexivity.
  - apply (proj1 (sliding_window_is_sequential_scan always_A_env
                    (Some Doubles.wide_canvas) ∅ 48 origins)).
Defined.

(** ** Where a reported payload comes from *)

Lemma jsQR_decodable env img mode H :
  ensures (jsQR env img mode)
    (fun code => forall c, code = Some c -> decodable env (code_data c)) True H.
Proof.
  intros w. unfold jsQR; simpl.
  destruct (jsQR_lib env (raw_of w img) mode) as [code|e] eqn:Hcall; [|exact I].
  simpl. intros c ->. exists (raw_of w img), mode, c. split; [exact Hcall | reflexivity].
Qed.

Lemma try_scales_decodable env canvas (ss : list Q) :
  ensures (try_scales env canvas ss)
    (fun o => forall t, o = Some t -> decodable env t) True False.
Proof.
  induction ss as [|s ss IH]; simpl.
  - apply ensures_ret. discriminate.
  - eapply ensures_bind; [apply ensures_scaleImage|]. intros [img|] _; [|exact IH].
    eapply ensures_bind; [apply jsQR_decodable|]. intros [c|] Hc; [|exact IH].
    apply ensures_ret. intros t Ht. injection Ht as <-. apply Hc. reflexivity.
Qed.

Ltac decodable_step :=
  eapply ensures_bind; [apply jsQR_decodable|];
  let Hc := fresh "Hc" in
  intros [?|] Hc; cbn [return_if_found];
  [apply ensures_ret;
   let t := fresh "t" in let Ht := fresh "Ht" in
   intros t Ht; injection Ht as <-; apply Hc; reflexivity|].

Lemma tryMultiple_decodable env canvas ctx :
  ensures (tryMultipleRecognitionStrategies env canvas ctx)
    (fun o => forall t, o = Some t -> decodable env t) True False.
Proof.
  unfold tryMultipleRecognitionStrategies.
  eapply ensures_bind; [apply ensures_getImageData|]. intros img _.
  decodable_step.
  eapply ensures_bind; [apply ensures_enhanceContrast|]. intros ? _.
  decodable_step.
  eapply ensures_bind; [apply ensures_adjustBrightness|]. intros ? _.
  decodable_step.
  eapply ensures_bind; [apply ensures_adjustBrightness|]. intros ? _.
  decodable_step.
  eapply ensures_bind; [apply ensures_sharpenImage|]. intros ? _.
  decodable_step.
  apply try_scales_decodable.
Qed.

Lemma text_or_throw_decodable env canvas ctx :
  ensures
    (let* result := tryMultipleRecognitionStrategies env canvas ctx in
     match result with
     | Some text => if negb (falsy text) then ret text
                    else throw (js "未检测到二维码")
     | None => throw (js "未检测到二维码")
     end)
    (fun t => t <> [] /\ decodable env t) True False.
Proof.
  eapply ensures_bind; [apply tryMultiple_decodable|]. intros [text|] Ht.
  - destruct text as [|c text]; simpl; [apply ensures_throw; exact I|].
    apply ensures_ret. split; [discriminate | apply Ht; reflexivity].
  - apply ensures_throw. exact I.
Qed.

Lemma recognizeCanvasWithJsQR_decodable env canvas :
  ensures (recognizeCanvasWithJsQR env canvas)
    (fun t => t <> [] /\ decodable env t) True False.
Proof.
  unfold recognizeCanvasWithJsQR.
  destruct (getContext canvas); [|apply ensures_throw; exact I].
  apply text_or_throw_decodable.
Qed.

Lemma recognizeWithJsQR_decodable env s :
  ensures (recognizeWithJsQR env s)
    (fun t => t <> [] /\ decodable env t) True False.
Proof.
  unfold recognizeWithJsQR.
  destruct (loadImage env s) as [canvas|]; [|apply ensures_throw; exact I].
  destruct (getContext canvas); [|apply ensures_throw; exact I].
  apply text_or_throw_decodable.
Qed.

Lemma scanImage_readable env imageData H :
  ensures (QrScanner_scanImage env imageData)
    (fun t => scanImage env imageData = Returned t) True H.
Proof.
  intros w. unfold QrScanner_scanImage; simpl.
  destruct (scanImage env imageData); [reflexivity | exact I].
Qed.

Lemma sourced_empty env imageData d t : sourced env imageData (empty_result d t).
Proof. intros Hne. exfalso. apply Hne. reflexivity. Qed.

Lemma recognizeWithQrScannerFast_sourced env imageData :
  ensures (recognizeWithQrScannerFast env imageData) (sourced env imageData)
    False False.
Proof.
  unfold recognizeWithQrScannerFast.
  eapply ensures_bind with
    (Q := fun o => forall r, o = Some r -> sourced env imageData r).
  - apply ensures_try_catch with (T' := True);
      [|intros; apply ensures_ret; discriminate].
    eapply ensures_bind; [apply scanImage_readable|]. intros result Hres.
    destruct (negb (falsy result)); apply ensures_ret; [|discriminate].
    intros r Hr. injection Hr as <-. intros _. left. exact Hres.
  - intros [r|] Hr; apply ensures_ret;
      [apply Hr; reflexivity | apply sourced_empty].
Qed.

Lemma recognizeWithJsQRFast_sourced env imageData :
  ensures (recognizeWithJsQRFast env imageData) (sourced env imageData)
    False False.
Proof.
  unfold recognizeWithJsQRFast.
  eapply ensures_bind with
    (Q := fun o => forall r, o = Some r -> sourced env imageData r).
  - apply ensures_try_catch with (T' := True);
      [|intros; apply ensures_ret; discriminate].
    eapply ensures_bind; [apply ensures_canvas_and_context|].
    intros [canvas ctx] _.
    eapply ensures_bind; [apply ensures_getImageData|]. intros img _.
    eapply ensures_bind; [apply jsQR_decodable|]. intros [c|] Hc;
      apply ensures_ret; [|discriminate].
    intros r Hr. injection Hr as <-. intros _. right. apply Hc. reflexivity.
  - intros [r|] Hr; apply ensures_ret;
      [apply Hr; reflexivity | apply sourced_empty].
Qed.

Lemma first_fulfilled_sourced env imageData (rs : list (Result QRResult)) value :
  Forall (settled_with (sourced env imageData) False) rs ->
  first_fulfilled rs = Some value -> sourced env imageData value.
Proof.
  induction 1 as [|r rs Hr _ IH]; simpl; [discriminate|].
  destruct r as [v|e]; [|contradiction].
  destruct (negb (falsy (serialNumber v))); [|exact IH].
  intros Hv. injection Hv as <-. exact Hr.
Qed.

Lemma performFastSingleRecognition_sourced env imageData startTime now_gate :
  ensures (performFastSingleRecognition env imageData startTime now_gate)
    (sourced env imageData) False False.
Proof.
  unfold performFastSingleRecognition. cbv zeta.
  eapply ensures_bind.
  { apply ensures_allSettled with (P := sourced env imageData) (T' := False).
    constructor; [apply recognizeWithQrScannerFast_sourced|].
    constructor; [apply recognizeWithJsQRFast_sourced | constructor]. }
  intros fastResults Hfast.
  destruct (first_fulfilled fastResults) as [value|] eqn:Hfirst.
  { apply ensures_ret. eapply first_fulfilled_sourced; eassumption. }
  eapply ensures_bind with
    (Q := fun o => forall r, o = Some r -> sourced env imageData r).
  - destruct (now_gate - startTime <? 800);
      [|apply ensures_ret; discriminate].
    apply ensures_try_catch with (T' := True);
      [|intros; apply ensures_ret; discriminate].
    eapply ensures_bind with (Q := readable env imageData).
    + apply ensures_try_catch with (T' := True).
      * apply ensures_weaken with
          (P := fun t => scanImage env imageData = Returned t)
          (T := True) (H := False); [apply scanImage_readable | | auto | auto].
        intros t Ht. left. exact Ht.
      * intros e _.
        apply ensures_weaken with
          (P := fun t => t <> [] /\ decodable env t) (T := True) (H := False);
          [|intros t [_ Ht]; right; exact Ht | auto | auto].
        destruct imageData as [s|canvas];
          [apply recognizeWithJsQR_decodable
          | apply recognizeCanvasWithJsQR_decodable].
    + intros text Htext. destruct (negb (falsy text));
        apply ensures_ret; [|discriminate].
      intros r Hr. injection Hr as <-. intros _. exact Htext.
  - intros [r|] Hr; apply ensures_ret;
      [apply Hr; reflexivity | apply sourced_empty].
Qed.

Lemma recognizeImage_sourced env clk imageData :
  ensures (recognizeImage env clk imageData) (sourced env imageData) False False.
Proof.
  unfold recognizeImage. cbv zeta.
  eapply ensures_bind; [apply ensures_ensure_initialized|]. intros _ _.
  eapply ensures_bind.
  { apply ensures_race_timeout with (P := sourced env imageData) (T' := False).
    apply performFastSingleRecognition_sourced. }
  intros [settled now] Hrace.
  destruct settled as [result|e]; apply ensures_ret; [|apply sourced_empty].
  destruct (timer_won (s_settle clk) (s_start clk + 1500) (s_timer clk)).
  - destruct Hrace as [Hs _]. discriminate Hs.
  - destruct Hrace as [Hs _]. exact Hs.
Qed.

Lemma non_null_Forall {A} (P : A -> Prop) (rs : list (option A)) :
  Forall (fun o => forall r, o = Some r -> P r) rs -> Forall P (non_null rs).
Proof.
  unfold non_null. induction 1 as [|o rs Ho _ IH]; simpl; [constructor|].
  destruct o as [r|]; simpl; [|exact IH].
  constructor; [apply Ho; reflexivity | exact IH].
Qed.

Lemma decoded_genuine env (c : QRCode) pos :
  decodable env (code_data c) ->
  genuine env (decoded (code_data c) (Some pos)).
Proof. intros Hc. exists (code_data c), pos. split; [reflexivity | exact Hc]. Qed.

Lemma scanRegionAsync_genuine env ctx x y w h ox oy :
  ensures (scanRegionAsync env ctx x y w h ox oy)
    (fun o => forall r, o = Some r -> genuine env r) False False.
Proof.
  unfold scanRegionAsync.
  apply ensures_try_catch with (T' := True);
    [|intros; apply ensures_ret; discriminate].
  eapply ensures_bind; [apply ensures_getImageData|]. intros regionData _.
  eapply ensures_bind; [apply jsQR_decodable|]. intros [c|] Hc;
    apply ensures_ret; [|discriminate].
  intros r Hr. injection Hr as <-. apply decoded_genuine, Hc. reflexivity.
Qed.

Lemma strategy_attempt_genuine env (strategy : M ImageData) :
  ensures strategy (fun _ => True) True False ->
  ensures
    (try_catch
       (let* processedData := strategy in
        let* code := jsQR env processedData dontInvert in
        match code with
        | Some c =>
          ret (Some (decoded (code_data c)
                       (Some (position_of (top_left_x c) (top_left_y c) c))))
        | None => ret None
        end)
       (fun _ => ret None))
    (fun o => forall r, o = Some r -> genuine env r) False False.
Proof.
  intros Hs. apply ensures_try_catch with (T' := True);
    [|intros; apply ensures_ret; discriminate].
  eapply ensures_bind; [exact Hs|]. intros processed _.
  eapply ensures_bind; [apply jsQR_decodable|]. intros [c|] Hc;
    apply ensures_ret; [|discriminate].
  intros r Hr. injection Hr as <-. apply decoded_genuine, Hc. reflexivity.
Qed.

Lemma quickFullImageScan_genuine env canvas ctx :
  ensures (quickFullImageScan env canvas ctx) (Forall (genuine env)) False False.
Proof.
  unfold quickFullImageScan.
  apply ensures_try_catch with (T' := True);
    [|intros; apply ensures_ret; constructor].
  eapply ensures_bind; [apply ensures_getImageData|]. intros imageData _.
  cbv zeta.
  eapply ensures_bind with
    (Q := Forall (fun o => forall r, o = Some r -> genuine env r));
    [|intros rs Hrs; apply ensures_ret, non_null_Forall, Hrs].
  apply ensures_weaken with
    (P := Forall (fun o => forall r, o = Some r -> genuine env r))
    (T := False) (H := False); [|auto..].
  apply ensures_mapM.
  constructor; [|constructor; [|constructor; [|constructor]]];
    apply strategy_attempt_genuine.
  - apply ensures_ret. exact I.
  - apply ensures_enhanceContrast.
  - apply ensures_adjustBrightness.
Qed.

Lemma smartRegionScan_genuine env canvas ctx found :
  ensures (smartRegionScan env canvas ctx found) (Forall (genuine env))
    False False.
Proof.
  unfold smartRegionScan. cbv zeta.
  eapply ensures_bind with
    (Q := Forall (fun o => forall r, o = Some r -> genuine env r));
    [|intros rs Hrs; apply ensures_ret, non_null_Forall, Hrs].
  apply ensures_mapM. apply Forall_forall. intros region _.
  apply ensures_try_catch with (T' := True);
    [|intros; apply ensures_ret; discriminate].
  eapply ensures_bind; [apply ensures_getImageData|]. intros regionData _.
  eapply ensures_bind; [apply jsQR_decodable|]. intros [c|] Hc;
    [|apply ensures_ret; discriminate].
  match goal with |- context [if ?b then _ else _] => destruct b end;
    apply ensures_ret; [|discriminate].
  intros r Hr. injection Hr as <-. apply decoded_genuine, Hc. reflexivity.
Qed.

Lemma optimizedSlidingWindow_genuine env canvas ctx found :
  ensures (optimizedSlidingWindow env canvas ctx found) (Forall (genuine env))
    False True.
Proof.
  unfold optimizedSlidingWindow. cbv zeta.
  match goal with |- context [window_origins ?a ?b ?c ?d] =>
    destruct (window_origins a b c d) as [origins|] end;
    [|apply ensures_hang; exact I].
  eapply ensures_bind.
  - apply ensures_foldM with
      (Inv := fun st : list QRResult * list (option QRResult) =>
                Forall (genuine env) st.1
                /\ Forall (fun o => forall r, o = Some r -> genuine env r) st.2).
    + intros [results scanPromises] [x y] [Hres Hpend]. simpl in Hres, Hpend.
      unfold window_step.
      eapply ensures_bind with
        (Q := Forall (fun o => forall r, o = Some r -> genuine env r)).
      * destruct (negb (has_key found (position_key x y)));
          [|apply ensures_ret; exact Hpend].
        eapply ensures_bind.
        { eapply ensures_weaken with (T := False) (H := False);
            [apply scanRegionAsync_genuine | | auto | auto].
          intros o Ho. exact Ho. }
        intros scan Hscan. apply ensures_ret.
        apply Forall_app. split; [exact Hpend|]. constructor; [exact Hscan|].
        constructor.
      * intros pend Hp.
        destruct (6 <=? length pend)%nat; apply ensures_ret; simpl.
        -- split; [|constructor]. apply Forall_app. split; [exact Hres|].
           apply non_null_Forall. exact Hp.
        -- split; assumption.
    + simpl. split; constructor.
  - intros [results scanPromises] [Hres Hpend]. simpl in Hres, Hpend.
    destruct (0 <? length scanPromises)%nat; apply ensures_ret; [|exact Hres].
    apply Forall_app. split; [exact Hres|].
    apply non_null_Forall. exact Hpend.
Qed.

Lemma add_unique_Forall (P : QRResult -> Prop)
    (st : list QRResult * gset jsstring) (c : QRResult) :
  Forall P st.1 -> P c -> Forall P (add_unique st c).1.
Proof.
  destruct st as [results found]. intros Hres Hc. unfold add_unique.
  destruct (negb (has_payload results (serialNumber c))
            && negb (has_key found (result_position_key c))); [|exact Hres].
  simpl. apply Forall_app. split; [exact Hres|]. constructor; [exact Hc|].
  constructor.
Qed.

Lemma addUniqueResults_Forall (P : QRResult -> Prop) results batch found :
  Forall P results -> Forall P batch ->
  Forall P (addUniqueResults results batch found).1.
Proof.
  unfold addUniqueResults.
  enough (Hgen : forall st : list QRResult * gset jsstring,
             Forall P st.1 -> Forall P batch ->
             Forall P (foldl add_unique st batch).1)
    by (intros Hr Hb; apply (Hgen (results, found)); assumption).
  induction batch as [|c batch IH]; intros st Hst Hb; simpl; [exact Hst|].
  inversion Hb; subst. apply IH; [|assumption].
  apply add_unique_Forall; assumption.
Qed.

Lemma performOptimizedRecognition_genuine env clk canvas ctx startTime :
  ensures (performOptimizedRecognition env clk canvas ctx startTime)
    (Forall (genuine env)) False True.
Proof.
  unfold performOptimizedRecognition.
  eapply ensures_bind with (Q := fun st => Forall (genuine env) st.1).
  { unfold full_frame_stage.
    eapply ensures_bind.
    { eapply ensures_weaken with (T := False) (H := False);
        [apply quickFullImageScan_genuine | intros a Ha; exact Ha | auto | auto]. }
    intros rs Hrs. apply ensures_ret.
    apply addUniqueResults_Forall; [constructor | exact Hrs]. }
  intros st1 H1.
  eapply ensures_bind with (Q := fun st => Forall (genuine env) st.1).
  { destruct (m_gate_grid clk - startTime <? 1000);
      [|apply ensures_ret; exact H1].
    unfold grid_stage.
    eapply ensures_bind.
    { eapply ensures_weaken with (T := False) (H := False);
        [apply smartRegionScan_genuine | intros a Ha; exact Ha | auto | auto]. }
    intros rs Hrs. apply ensures_ret.
    apply addUniqueResults_Forall; assumption. }
  intros st2 H2.
  eapply ensures_bind with (Q := fun st => Forall (genuine env) st.1).
  { destruct (m_gate_window clk - startTime <? 1500);
      [|apply ensures_ret; exact H2].
    unfold window_stage.
    eapply ensures_bind; [apply optimizedSlidingWindow_genuine|].
    intros rs Hrs. apply ensures_ret.
    apply addUniqueResults_Forall; assumption. }
  intros st3 H3. apply ensures_ret. exact H3.
Qed.

Lemma recognizeMultiple_genuine env clk imageData :
  ensures (recognizeMultipleQRCodes env clk imageData)
    (fun r => totalFound r = length (results r)
              /\ Forall (genuine env) (results r))
    False True.
Proof.
  unfold recognizeMultipleQRCodes. cbv zeta.
  eapply ensures_bind; [apply ensures_ensure_initialized|]. intros _ _.
  eapply ensures_bind.
  { apply ensures_attempt with (P := fun _ => True) (T' := True).
    apply ensures_canvas_and_context. }
  intros [[canvas ctx]|e] _;
    [|apply ensures_ret; split; [reflexivity | constructor]].
  eapply ensures_bind.
  { apply ensures_race_timeout with (P := Forall (genuine env)) (T' := False).
    apply performOptimizedRecognition_genuine. }
  intros [[rs|e] now] Hrace; apply ensures_ret;
    (split; [reflexivity|]); [|constructor].
  simpl. destruct Hrace as [Hs _]. exact Hs.
Qed.

(** X12. No payload is invented. A non-empty payload returned by the
  single-image recognizer is what the scanner read in this input or
  what the decoder returned for some pixel buffer. The results of the
  multi-code recognizer are all records of a decode: each carries a
  payload the decoder returned, its type and description, confidence
  1 and a position, and [totalFound] is their number. *)
Theorem payloads_come_from_the_readers (env : Env) :
  (forall clk imageData,
     ensures (recognizeImage env clk imageData) (sourced env imageData)
       False False)
  /\ (forall clk imageData,
        ensures (recognizeMultipleQRCodes env clk imageData)
          (fun r => totalFound r = length (results r)
                    /\ Forall (genuine env) (results r))
          False True).
Proof.
  split; [exact (recognizeImage_sourced env)
         | exact (recognizeMultiple_genuine env)].
Qed.

Lemma payloads_come_from_the_readers_witness :
  exists r w',
    recognizeImage two_reader_env timely_clock (FromString (js "photo.png"))
      fresh_world = (Ok r, w')
    /\ serialNumber r = js "S"
    /\ readable two_reader_env (FromString (js "photo.png")) (serialNumber r).
Proof.
  destruct (payloads_come_from_the_readers two_reader_env) as [Hsingle _].
  specialize (Hsingle timely_clock (FromString (js "photo.png")) fresh_world).
  destruct (recognizeImage two_reader_env timely_clock
              (FromString (js "photo.png")) fresh_world) as [o w'] eqn:Hrun.
  vm_compute in Hrun. injection Hrun as <- <-.
  eexists _, _. split; [reflexivity|]. split; [reflexivity|].
  apply Hsingle. discriminate.
Defined.

(** ** The fast path of the single-image recognizer *)

Lemma run_recognizeWithQrScannerFast env imageData t w :
  scanImage env imageData = Returned t -> t <> [] ->
  recognizeWithQrScannerFast env imageData w = (Ok (decoded t None), w).
Proof.
  intros Hscan Hne. unfold recognizeWithQrScannerFast, try_catch, bind,
    QrScanner_scanImage. rewrite Hscan. simpl.
  destruct t as [|c t]; [contradiction|]. reflexivity.
Qed.

Lemma fast_results_scanner_first env imageData t w :
  scanImage env imageData = Returned t -> t <> [] ->
  exists r2 w',
    allSettled [recognizeWithQrScannerFast env imageData;
                recognizeWithJsQRFast env imageData] w
    = (Ok [Returned (decoded t None); Returned r2], w')
    /\ extends_by 1 w w'.
Proof.
  intros Hscan Hne.
  destruct (ensures_returns _ _ w (ensures_recognizeWithJsQRFast env imageData))
    as (r2 & w' & Hrun & _).
  exists r2, w'. split.
  - assert (H1 : attempt (recognizeWithQrScannerFast env imageData) w
                 = (Ok (Returned (decoded t None)), w)).
    { unfold attempt.
      rewrite (run_recognizeWithQrScannerFast _ _ _ _ Hscan Hne). reflexivity. }
    assert (H2 : attempt (recognizeWithJsQRFast env imageData) w
                 = (Ok (Returned r2), w')).
    { unfold attempt. rewrite Hrun. reflexivity. }
    cbn [allSettled].
    rewrite (bind_ok _ _ _ _ _ H1), bind_assoc, (bind_ok _ _ _ _ _ H2).
    reflexivity.
  - pose proof (grows_recognizeWithJsQRFast env imageData w) as Hg.
    rewrite Hrun in Hg. exact Hg.
Qed.

Lemma run_performFast_scanner env imageData startTime now_gate t w :
  scanImage env imageData = Returned t -> t <> [] ->
  exists w',
    performFastSingleRecognition env imageData startTime now_gate w
    = (Ok (decoded t None), w')
    /\ extends_by 1 w w'.
Proof.
  intros Hscan Hne.
  destruct (fast_results_scanner_first _ _ _ w Hscan Hne)
    as (r2 & w' & Hfast & Hext).
  exists w'. split; [|exact Hext].
  unfold performFastSingleRecognition. cbv zeta.
  rewrite (bind_ok _ _ _ _ _ Hfast). cbn [first_fulfilled decoded serialNumber].
  destruct t as [|c t]; [contradiction|]. reflexivity.
Qed.

(** X13. What the scanner reads wins. When [QrScanner.scanImage]
  resolves with a non-empty text for the input, the fast stage returns
  the record of that text, whatever the decoder finds and whatever the
  clock shows; the exhaustive path is not entered, so the decoder is
  run at most once. If the recognition settles within the 1.5 s, the
  single-image recognizer returns that record with the elapsed time. *)
Theorem scanner_result_takes_precedence (env : Env) (clk : SingleClock)
    (imageData : ImageInput) (t : jsstring) (w : World) :
  scanImage env imageData = Returned t -> t <> [] ->
  (forall startTime now_gate, exists w',
     performFastSingleRecognition env imageData startTime now_gate w
     = (Ok (decoded t None), w')
     /\ extends_by 1 w w')
  /\ (s_settle clk <= s_start clk + 1500 ->
      exists w',
        recognizeImage env clk imageData w
        = (Ok (set_processingTime (s_settle clk - s_start clk) (decoded t None)),
           w')
        /\ extends_by 1 w w').
Proof.
  intros Hscan Hne. split.
  - intros startTime now_gate. apply run_performFast_scanner; assumption.
  - intros Hle. unfold recognizeImage. cbv zeta.
    destruct (run_ensure_initialized w) as (w1 & Hinit & _).
    pose proof (grows_ensure_initialized w) as Hext0. rewrite Hinit in Hext0.
    simpl in Hext0.
    rewrite (bind_ok _ _ _ _ _ Hinit).
    destruct (run_performFast_scanner env imageData (s_start clk) (s_gate clk)
                t w1 Hscan Hne) as (w' & Hrun & Hext).
    exists w'. split; [|exact (extends_by_trans 0 1 _ _ _ Hext0 Hext)].
    unfold race_timeout.
    assert (Hatt : attempt (performFastSingleRecognition env imageData
                              (s_start clk) (s_gate clk)) w1
                   = (Ok (Returned (decoded t None)), w')).
    { unfold attempt. rewrite Hrun. reflexivity. }
    rewrite bind_assoc, (bind_ok _ _ _ _ _ Hatt).
    rewrite (timer_won_in_time _ _ _ Hle). reflexivity.
Qed.

Lemma scanner_result_takes_precedence_witness :
  exists w',
    recognizeImage two_reader_env timely_clock (FromString (js "photo.png"))
      fresh_world
    = (Ok (set_processingTime 120 (decoded (js "S") None)), w')
    /\ extends_by 1 fresh_world w'.
Proof.
  destruct (scanner_result_takes_precedence two_reader_env timely_clock
              (FromString (js "photo.png")) (js "S") fresh_world)
    as [_ Hrec]; [reflexivity | discriminate |].
  apply Hrec. vm_compute. discriminate.
Defined.

(** ** Batch recognition of a list of images *)

Lemma ensures_conj {A} (m : M A) (P Q : A -> Prop) T H :
  ensures m P T H -> ensures m Q T H -> ensures m (fun a => P a /\ Q a) T H.
Proof.
  intros HP HQ w. specialize (HP w). specialize (HQ w).
  destruct (m w) as [[a|e|] w']; simpl in *; auto.
Qed.

Lemma insert_next_hole {A} (done : list A) (a : A) (m : nat) :
  <[length done := Some a]> ((Some <$> done) ++ replicate (S m) None)
  = (Some <$> (done ++ [a])) ++ replicate m None.
Proof.
  rewrite insert_app_r_alt by (rewrite length_fmap; lia).
  rewrite length_fmap, Nat.sub_diag. simpl.
  rewrite fmap_app, <- app_assoc. reflexivity.
Qed.

Lemma recognize_into_fills env clk (done : list QRResult) (m : nat)
    (imageData : jsstring) :
  ensures
    (recognize_into env clk ((Some <$> done) ++ replicate (S m) None)
       (length done) imageData)
    (fun results => exists r,
       sourced env (FromString imageData) r
       /\ results = (Some <$> (done ++ [r])) ++ replicate m None)
    False False.
Proof.
  unfold recognize_into.
  apply ensures_try_catch with (T' := False); [|intros e []].
  eapply ensures_bind; [apply recognizeImage_sourced|]. intros r Hr.
  apply ensures_ret. exists r. split; [exact Hr | apply insert_next_hole].
Qed.

Lemma run_batch_fills env clk (batch : list jsstring) :
  forall (pre post : list jsstring) (done : list QRResult) (i b : nat),
    (i + b)%nat = length pre ->
    Forall2 (fun img r => sourced env (FromString img) r) pre done ->
    ensures
      (run_batch env clk i b batch
         ((Some <$> done) ++ replicate (length batch + length post) None))
      (fun results => exists done',
         Forall2 (fun img r => sourced env (FromString img) r)
           (pre ++ batch) done'
         /\ results = (Some <$> done') ++ replicate (length post) None)
      False False.
Proof.
  induction batch as [|img batch IH]; intros pre post done i b Hi Hdone.
  - simpl. apply ensures_ret. exists done. rewrite app_nil_r.
    split; [exact Hdone | reflexivity].
  - cbn [run_batch]. pose proof (Forall2_length _ _ _ Hdone) as Hlen.
    rewrite Hi, Hlen. cbn [length Nat.add].
    eapply ensures_bind; [apply recognize_into_fills|].
    intros results (r & Hr & ->).
    assert (Hdone' : Forall2 (fun img r => sourced env (FromString img) r)
                       (pre ++ [img]) (done ++ [r])).
    { apply Forall2_app; [exact Hdone|]. constructor; [exact Hr | constructor]. }
    specialize (IH (pre ++ [img]) post (done ++ [r]) i (S b)).
    rewrite <- app_assoc in IH. apply IH; [|exact Hdone'].
    rewrite length_app. simpl. lia.
Qed.

Lemma batch_loop_reaches env clk (imageDataList : list jsstring) (m : nat) :
  forall (k0 : nat) (done : list QRResult),
    let n := length imageDataList in
    let indices := (fun k => 3 * k)%nat <$> seq k0 m in
    (n <= 3 * (k0 + m))%nat ->
    (m = 0%nat \/ 3 * (k0 + m - 1) < n)%nat ->
    Forall2 (fun img r => sourced env (FromString img) r)
      (take (3 * k0) imageDataList) done ->
    ensures
      (batch_loop env clk imageDataList indices
         ((Some <$> done) ++ replicate (n - 3 * k0) None))
      (fun results => exists done',
         Forall2 (fun img r => sourced env (FromString img) r)
           (take (3 * k0 + reached clk n indices) imageDataList) done'
         /\ results = (Some <$> done') ++ replicate (n - length done') None)
      False False.
Proof.
  induction m as [|m IH]; intros k0 done n indices Hhi Hlo Hdone;
    subst indices; pose proof (Forall2_length _ _ _ Hdone) as Hlen;
    rewrite length_take in Hlen; fold n in Hlen.
  - simpl. apply ensures_ret. exists done. rewrite Nat.add_0_r.
    split; [exact Hdone|]. do 2 f_equal. lia.
  - cbn [seq fmap list_fmap batch_loop reached]. fold n.
    set (i := (3 * k0)%nat) in *.
    assert (Hi : (i < n)%nat) by lia.
    set (batch := take 3 (drop i imageDataList)).
    set (post := drop (i + 3) imageDataList).
    assert (Hsplit : (n - i = length batch + length post)%nat).
    { unfold batch, post. rewrite length_take, !length_drop. fold n. lia. }
    rewrite Hsplit.
    eapply ensures_bind.
    { apply (run_batch_fills env clk batch (take i imageDataList) post done i 0);
        [rewrite length_take; fold n; lia | exact Hdone]. }
    intros results (done' & Hdone' & ->).
    unfold batch in Hdone'. rewrite take_take_drop in Hdone'.
    pose proof (Forall2_length _ _ _ Hdone') as Hlen'.
    rewrite length_take in Hlen'. fold n in Hlen'.
    assert (Hpost : length post = (n - length done')%nat).
    { unfold post. rewrite length_drop. fold n. lia. }
    destruct (out_of_time clk n i).
    + apply ensures_ret. exists done'. rewrite Nat.add_0_r.
      split; [exact Hdone' | rewrite Hpost; reflexivity].
    + specialize (IH (S k0) done').
      cbv zeta in IH. fold n in IH.
      replace (3 * S k0)%nat with (i + 3)%nat in IH by lia.
      replace (n - (i + 3))%nat with (length post) in IH by lia.
      replace (i + (3 + reached clk n ((fun k => 3 * k)%nat <$> seq (S k0) m)))%nat
        with (i + 3 + reached clk n ((fun k => 3 * k)%nat <$> seq (S k0) m))%nat
        by lia.
      apply IH; [lia | lia | exact Hdone'].
Qed.

Lemma non_null_filled {A} (done : list A) (m : nat) :
  non_null ((Some <$> done) ++ replicate m None) = done.
Proof.
  rewrite non_null_app.
  assert (H1 : non_null (Some <$> done) = done).
  { unfold non_null. induction done as [|a done IH]; simpl; [reflexivity|].
    f_equal. exact IH. }
  assert (H2 : non_null (replicate m (@None A)) = []).
  { unfold non_null. induction m as [|m IH]; simpl; [reflexivity | exact IH]. }
  rewrite H1, H2. apply app_nil_r.
Qed.

Lemma reached_in_time clk n (k0 m : nat) :
  (forall i, out_of_time clk n i = false) ->
  reached clk n ((fun k => 3 * k)%nat <$> seq k0 m) = (3 * m)%nat.
Proof.
  intros Hin. revert k0. induction m as [|m IH]; intros k0; [reflexivity|].
  cbn [seq fmap list_fmap reached]. rewrite Hin, IH. lia.
Qed.

Lemma by_threes_covers (n : nat) : (n <= 3 * ((n + 2) / 3))%nat.
Proof.
  pose proof (Nat.div_mod_eq (n + 2) 3).
  pose proof (Nat.mod_upper_bound (n + 2) 3). lia.
Qed.

Lemma by_threes_below (n : nat) :
  ((n + 2) / 3 = 0 \/ 3 * (0 + (n + 2) / 3 - 1) < n)%nat.
Proof.
  pose proof (Nat.div_mod_eq (n + 2) 3).
  pose proof (Nat.mod_upper_bound (n + 2) 3). lia.
Qed.

Lemma recognizeImage_blank_description env clk imageData :
  ensures (recognizeImage env clk imageData)
    (fun r => serialNumber r = [] ->
              qrDescription r = js "未识别到二维码"
              \/ qrDescription r = js "识别超时")
    False False.
Proof.
  eapply ensures_weaken; [apply ensures_recognizeImage | | auto | auto].
  intros r Hr Hblank.
  destruct (timer_won (s_settle clk) (s_start clk + 1500) (s_timer clk)).
  - right. rewrite Hr. reflexivity.
  - destruct Hr as (r0 & [(text & Hne & ->) | ->] & ->);
      [contradiction | left; reflexivity].
Qed.

Lemma recognize_in_turn_app env clk (xs ys : list jsstring) :
  forall k w out1 w1 out2 w2,
    recognize_in_turn env clk k xs w = (Ok out1, w1) ->
    recognize_in_turn env clk (k + length xs) ys w1 = (Ok out2, w2) ->
    recognize_in_turn env clk k (xs ++ ys) w = (Ok (out1 ++ out2), w2).
Proof.
  induction xs as [|x xs IH]; intros k w out1 w1 out2 w2 H1 H2.
  - injection H1 as <- <-. rewrite Nat.add_0_r in H2. exact H2.
  - cbn [recognize_in_turn app] in *.
    destruct (ensures_returns _ _ w
                (ensures_recognizeImage env (b_image clk k) (FromString x)))
      as (r & wr & Hr & _).
    rewrite (bind_ok _ _ _ _ _ Hr) in H1. rewrite (bind_ok _ _ _ _ _ Hr).
    unfold bind at 1 in H1.
    destruct (recognize_in_turn env clk (S k) xs wr) as [[rs|e|] w1'] eqn:Hrs;
      try discriminate H1.
    injection H1 as <- <-.
    cbn [length] in H2. rewrite Nat.add_succ_r in H2.
    rewrite (bind_ok _ _ _ _ _ (IH (S k) wr rs w1' out2 w2 Hrs H2)).
    reflexivity.
Qed.

Lemma recognize_in_turn_returns env clk (imgs : list jsstring) :
  forall k w, exists out w',
    recognize_in_turn env clk k imgs w = (Ok out, w')
    /\ length out = length imgs
    /\ Forall (fun r => serialNumber r = [] ->
                        qrDescription r = js "未识别到二维码"
                        \/ qrDescription r = js "识别超时") out.
Proof.
  induction imgs as [|img imgs IH]; intros k w.
  - exists [], w. repeat split. constructor.
  - cbn [recognize_in_turn].
    destruct (ensures_returns _ _ w
                (recognizeImage_blank_description env (b_image clk k)
                   (FromString img))) as (r & wr & Hr & Hblank).
    destruct (IH (S k) wr) as (rs & w' & Hrs & Hlen & Hall).
    exists (r :: rs), w'. rewrite (bind_ok _ _ _ _ _ Hr), (bind_ok _ _ _ _ _ Hrs).
    split; [reflexivity|]. split; [simpl; rewrite Hlen; reflexivity|].
    constructor; assumption.
Qed.

Lemma run_batch_in_turn env clk (batch : list jsstring) :
  forall (done : list QRResult) (p i b : nat) w,
    length done = (i + b)%nat ->
    exists out w',
      recognize_in_turn env clk (i + b) batch w = (Ok out, w')
      /\ length out = length batch
      /\ run_batch env clk i b batch
           ((Some <$> done) ++ replicate (length batch + p) None) w
         = (Ok ((Some <$> (done ++ out)) ++ replicate p None), w').
Proof.
  induction batch as [|img batch IH]; intros done p i b w Hdone.
  - exists [], w. rewrite app_nil_r. repeat split.
  - cbn [run_batch recognize_in_turn length Nat.add].
    destruct (ensures_returns _ _ w
                (ensures_recognizeImage env (b_image clk (i + b))
                   (FromString img))) as (r & wr & Hr & _).
    assert (Hinto : recognize_into env clk
                      ((Some <$> done) ++ replicate (S (length batch + p)) None)
                      (i + b) img w
                    = (Ok ((Some <$> (done ++ [r]))
                           ++ replicate (length batch + p) None), wr)).
    { unfold recognize_into, try_catch.
      rewrite (bind_ok _ _ _ _ _ Hr). unfold ret.
      rewrite <- Hdone, insert_next_hole. reflexivity. }
    destruct (IH (done ++ [r]) p i (S b) wr) as (out & w' & Hout & Hlen & Hrun).
    { rewrite length_app. simpl. lia. }
    exists (r :: out), w'.
    rewrite (bind_ok _ _ _ _ _ Hr), (bind_ok _ _ _ _ _ Hinto).
    replace (S (i + b)) with (i + S b)%nat by lia.
    rewrite (bind_ok _ _ _ _ _ Hout).
    split; [reflexivity|]. split; [simpl; rewrite Hlen; reflexivity|].
    rewrite Hrun, <- app_assoc. reflexivity.
Qed.

Lemma batch_loop_in_turn env clk (imageDataList : list jsstring) (m : nat) :
  forall (k0 : nat) (done : list QRResult) w,
    let n := length imageDataList in
    let indices := (fun k => 3 * k)%nat <$> seq k0 m in
    (n <= 3 * (k0 + m))%nat ->
    (m = 0%nat \/ 3 * (k0 + m - 1) < n)%nat ->
    length done = Nat.min (3 * k0) n ->
    exists out w',
      recognize_in_turn env clk (3 * k0)
        (take (reached clk n indices) (drop (3 * k0) imageDataList)) w
      = (Ok out, w')
      /\ batch_loop env clk imageDataList indices
           ((Some <$> done) ++ replicate (n - 3 * k0) None) w
         = (Ok ((Some <$> (done ++ out))
                ++ replicate (n - length done - length out) None), w').
Proof.
  induction m as [|m IH]; intros k0 done w n indices Hhi Hlo Hdone;
    subst indices.
  - exists [], w. cbn [seq fmap list_fmap batch_loop reached take length].
    split; [reflexivity|].
    rewrite app_nil_r. unfold ret. do 4 f_equal. lia.
  - cbn [seq fmap list_fmap batch_loop reached]. fold n.
    set (i := (3 * k0)%nat) in *.
    assert (Hi : (i < n)%nat) by lia.
    assert (Hdone' : length done = i) by lia.
    set (batch := take 3 (drop i imageDataList)).
    set (post := drop (i + 3) imageDataList).
    assert (Hbatch : length batch = Nat.min 3 (n - i)).
    { unfold batch. rewrite length_take, length_drop. reflexivity. }
    assert (Hsplit : (n - i = length batch + length post)%nat).
    { unfold post. rewrite Hbatch, length_drop. fold n. lia. }
    rewrite Hsplit.
    destruct (run_batch_in_turn env clk batch done (length post) i 0 w)
      as (out & w1 & Hout & Hlen & Hrun); [lia|].
    rewrite Nat.add_0_r in Hout.
    rewrite (bind_ok _ _ _ _ _ Hrun).
    destruct (out_of_time clk n i).
    + exists out, w1. rewrite Nat.add_0_r. fold batch.
      split; [exact Hout|]. unfold ret. do 4 f_equal. lia.
    + destruct (IH (S k0) (done ++ out) w1) as (out2 & w2 & Hout2 & Hrun2).
      { lia. }
      { lia. }
      { rewrite length_app. lia. }
      cbv zeta in Hout2, Hrun2. fold n in Hout2, Hrun2.
      replace (3 * S k0)%nat with (i + 3)%nat in Hout2, Hrun2 by lia.
      replace (n - (i + 3))%nat with (length post) in Hrun2
        by (unfold post; rewrite length_drop; reflexivity).
      exists (out ++ out2), w2. split.
      * set (rest := reached clk n ((fun k => 3 * k)%nat <$> seq (S k0) m)) in *.
        assert (Htake : take (3 + rest) (drop i imageDataList)
                        = batch ++ take rest (drop (i + 3) imageDataList)).
        { unfold batch. rewrite <- take_take_drop, drop_drop. reflexivity. }
        destruct (decide (3 <= n - i)%nat) as [Hfull|Hshort].
        -- rewrite Htake.
           apply (recognize_in_turn_app env clk batch _ i w out w1 out2 w2 Hout).
           rewrite Hbatch. replace (Nat.min 3 (n - i)) with 3%nat by lia.
           exact Hout2.
        -- assert (Hnone : drop (i + 3) imageDataList = []).
           { apply drop_ge. fold n. lia. }
           rewrite Hnone, take_nil in Hout2. injection Hout2 as <- <-.
           rewrite app_nil_r.
           assert (Hall : take (3 + rest) (drop i imageDataList) = batch).
           { unfold batch. rewrite !take_ge; [reflexivity|..];
               rewrite length_drop; fold n; lia. }
           rewrite Hall. exact Hout.
      * rewrite Hrun2, <- app_assoc. do 4 f_equal.
        rewrite !length_app. lia.
Qed.

(** X14. The batch recognizer never throws and never hangs. What it
  returns is, in every world, what the single-image recognizer returns
  for the images of a prefix of the list, one after the other and each
  with the clock of its place: the fallback record of the catch branch
  is never stored, and a record with an empty payload says "not found"
  or "timed out". Batches of three are processed up to and including
  the first batch after which more than 2000 ms per listed image have
  passed, and the images after that batch are left out without a
  trace. The first batch is always processed; with no such reading
  every image has its result. *)
Theorem batch_results_are_a_prefix (env : Env) (clk : BatchClock)
    (imageDataList : list jsstring) :
  let n := length imageDataList in
  let upto := reached clk n (by_threes n) in
  (forall w,
     recognizeImages env clk imageDataList w
     = recognize_in_turn env clk 0 (take upto imageDataList) w)
  /\ ensures (recognizeImages env clk imageDataList)
       (fun out =>
          Forall2 (fun img r => sourced env (FromString img) r)
            (take upto imageDataList) out
          /\ length out = Nat.min upto n
          /\ Forall (fun r => r <> failed_record
                              /\ (serialNumber r = [] ->
                                  qrDescription r = js "未识别到二维码"
                                  \/ qrDescription r = js "识别超时")) out)
       False False
  /\ (n = 0%nat \/ 3 <= upto)%nat
  /\ ((forall i, out_of_time clk n i = false) -> (n <= upto)%nat)
  /\ (out_of_time clk n 0 = true -> (0 < n)%nat -> upto = 3%nat).
Proof.
  intros n upto.
  assert (Heq : forall w,
            recognizeImages env clk imageDataList w
            = recognize_in_turn env clk 0 (take upto imageDataList) w).
  { intros w. unfold recognizeImages. cbv zeta. fold n.
    destruct (batch_loop_in_turn env clk imageDataList ((n + 2) / 3) 0 [] w)
      as (out & w' & Hout & Hrun);
      [apply by_threes_covers | apply by_threes_below | reflexivity|].
    cbv zeta in Hout, Hrun. fold n in Hout, Hrun.
    rewrite Nat.mul_0_r, Nat.sub_0_r in Hrun. rewrite Nat.mul_0_r in Hout.
    fold (by_threes n) in Hout, Hrun. fold upto in Hout.
    rewrite drop_0 in Hout.
    rewrite (bind_ok _ _ _ _ _ Hrun), Hout. unfold ret.
    rewrite non_null_filled. reflexivity. }
  split; [exact Heq|]. split; [|split; [|split]].
  - apply ensures_conj.
    + unfold recognizeImages. cbv zeta. fold n.
      eapply ensures_bind.
      { pose proof (batch_loop_reaches env clk imageDataList ((n + 2) / 3) 0 [])
          as Hloop.
        cbv zeta in Hloop. fold n in Hloop.
        rewrite Nat.mul_0_r, Nat.sub_0_r in Hloop.
        apply Hloop; [apply by_threes_covers | apply by_threes_below | constructor]. }
      intros results (done & Hdone & ->). apply ensures_ret.
      rewrite non_null_filled. rewrite Nat.add_0_l in Hdone.
      fold (by_threes n) in Hdone. fold upto in Hdone. exact Hdone.
    + intros w. rewrite Heq.
      destruct (recognize_in_turn_returns env clk (take upto imageDataList) 0 w)
        as (out & w' & Hrun & Hlen & Hall).
      rewrite Hrun. simpl. split.
      * rewrite Hlen, length_take. reflexivity.
      * eapply Forall_impl; [exact Hall|]. intros r Hr. split; [|exact Hr].
        intros ->. destruct (Hr eq_refl) as [H|H]; vm_compute in H; discriminate H.
  - unfold upto, by_threes. destruct n as [|n']; [left; reflexivity|]. right.
    destruct ((S n' + 2) / 3)%nat as [|q] eqn:Hq.
    + pose proof (by_threes_covers (S n')). rewrite Hq in *. lia.
    + cbn [seq fmap list_fmap reached]. lia.
  - intros Hin. unfold upto, by_threes. rewrite (reached_in_time _ _ _ _ Hin).
    apply by_threes_covers.
  - intros Hout Hn. unfold upto, by_threes.
    destruct ((n + 2) / 3)%nat as [|q] eqn:Hq.
    + pose proof (by_threes_covers n). rewrite Hq in *. lia.
    + cbn [seq fmap list_fmap reached]. rewrite Nat.mul_0_r, Hout. reflexivity.
Qed.

Lemma batch_results_are_a_prefix_witness :
  (exists out w',
     recognizeImages scanner_env slow_clock
       [js "a.png"; js "b.png"; js "c.png"; js "d.png"] fresh_world
     = (Ok out, w')
     /\ recognize_in_turn scanner_env slow_clock 0
          [js "a.png"; js "b.png"; js "c.png"] fresh_world
        = (Ok out, w')
     /\ length out = 3%nat
     /\ Forall (fun r => r <> failed_record) out)
  /\ (exists out w',
        recognizeImages scanner_env still_clock
          [js "a.png"; js "b.png"; js "c.png"; js "d.png"] fresh_world
        = (Ok out, w')
        /\ recognize_in_turn scanner_env still_clock 0
             [js "a.png"; js "b.png"; js "c.png"; js "d.png"] fresh_world
           = (Ok out, w')
        /\ length out = 4%nat).
Proof.
  split.
  - destruct (batch_results_are_a_prefix scanner_env slow_clock
                [js "a.png"; js "b.png"; js "c.png"; js "d.png"])
      as (Heq & Hrun & _ & _ & Hthree).
    destruct (ensures_returns _ _ fresh_world Hrun)
      as (out & w' & Hout & _ & Hlen & Hall).
    exists out, w'. split; [exact Hout|].
    assert (Hup := Hthree eq_refl ltac:(simpl; lia)).
    rewrite Hup in Heq, Hlen.
    split; [rewrite <- Hout; symmetry; apply Heq|].
    split; [exact Hlen|].
    eapply Forall_impl; [exact Hall|]. intros r Hr. apply Hr.
  - destruct (batch_results_are_a_prefix scanner_env still_clock
                [js "a.png"; js "b.png"; js "c.png"; js "d.png"])
      as (Heq & Hrun & _ & Hall & _).
    destruct (ensures_returns _ _ fresh_world Hrun)
      as (out & w' & Hout & _ & Hlen & _).
    exists out, w'. split; [exact Hout|].
    specialize (Hall (fun _ => eq_refl)).
    split.
    + rewrite <- Hout, Heq, take_ge; [reflexivity | exact Hall].
    + rewrite Hlen. simpl length in *. lia.
Defined.

(** ** Scanning a camera frame *)

Lemma grows_scanFromCamera env videoElement :
  grows 10 (scanFromCamera env videoElement).
Proof.
  unfold scanFromCamera.
  apply (grows_bind 0 10); [apply grows_ensure_initialized|]. intros _.
  apply (grows_try_catch 0 10).
  { intros w. apply extends_by_refl. }
  intros e. apply (grows_try_catch 10 0); [|intros; apply grows_throw].
  cbv zeta. destruct (getContext (frame_canvas videoElement));
    [apply grows_text_or_throw | apply grows_throw].
Qed.

Lemma camera_fallback_outcome env videoElement w :
  match (try_catch
           (let canvas := frame_canvas videoElement in
            match getContext canvas with
            | None => throw (js "无法创建 Canvas 上下文")
            | Some ctx =>
              let* result :=
                tryMultipleRecognitionStrategies env canvas (Some ctx) in
              match result with
              | Some text => if negb (falsy text) then ret text
                             else throw (js "未检测到二维码")
              | None => throw (js "未检测到二维码")
              end
            end)
           (fun _ => throw camera_failure) w).1 with
  | Ok text => text <> [] /\ decodable env text
  | Throw e => e = camera_failure
  | Hang => False
  end.
Proof.
  unfold try_catch. cbv zeta.
  destruct (getContext (frame_canvas videoElement)) as [ctx|];
    [|reflexivity].
  pose proof (text_or_throw_decodable env (frame_canvas videoElement) (Some ctx) w)
    as Hrun.
  match goal with |- context [match ?p with _ => _ end] =>
    match type of Hrun with context [?q] =>
      unify p q; destruct p as [[text|e|] w'] end end;
    simpl in *; [exact Hrun | reflexivity | exact Hrun].
Qed.

(** X15. Scanning a camera frame returns a text or throws; the only
  exception it raises is "相机二维码识别失败", and it never hangs.
  When the scanner resolves, its text is returned as it is and the
  decoder is not run; otherwise the frame is drawn on a canvas of the
  size of the stream (of 640 by 480 when the stream reports none) and
  the text returned is a non-empty payload the decoder found in one of
  at most ten views. When no drawing context can be made, the call
  throws without running the decoder. *)
Theorem camera_scan_outcomes (env : Env) (videoElement : Video) (w : World) :
  match (scanFromCamera env videoElement w).1 with
  | Ok text =>
    scan_video videoElement = Returned text
    \/ ((exists e, scan_video videoElement = Thrown e)
        /\ text <> [] /\ decodable env text)
  | Throw e =>
    e = camera_failure /\ exists e', scan_video videoElement = Thrown e'
  | Hang => False
  end
  /\ extends_by 10 w (scanFromCamera env videoElement w).2
  /\ (forall text, scan_video videoElement = Returned text ->
        (scanFromCamera env videoElement w).1 = Ok text
        /\ decode_log (scanFromCamera env videoElement w).2 = decode_log w)
  /\ (forall e, scan_video videoElement = Thrown e ->
        new_context videoElement = false ->
        (scanFromCamera env videoElement w).1 = Throw camera_failure
        /\ decode_log (scanFromCamera env videoElement w).2 = decode_log w)
  /\ (videoWidth videoElement = 0 -> attr_width videoElement = 0 ->
      videoHeight videoElement = 0 -> attr_height videoElement = 0 ->
      canvas_width (frame_canvas videoElement) = 640
      /\ canvas_height (frame_canvas videoElement) = 480).
Proof.
  split; [|split; [apply grows_scanFromCamera|split; [|split]]].
  - unfold scanFromCamera.
    destruct (run_ensure_initialized w) as (w1 & Hinit & _).
    rewrite (bind_ok _ _ _ _ _ Hinit). unfold try_catch at 1.
    destruct (scan_video videoElement) as [text|e]; simpl; [left; reflexivity|].
    pose proof (camera_fallback_outcome env videoElement w1) as Hfb.
    destruct (try_catch _ _ w1) as [[text|e'|] w2]; simpl in *.
    + right. split; [eexists; reflexivity | exact Hfb].
    + split; [exact Hfb | eexists; reflexivity].
    + exact Hfb.
  - intros text Hscan. unfold scanFromCamera.
    destruct (run_ensure_initialized w) as (w1 & Hinit & _ & Hlog).
    rewrite (bind_ok _ _ _ _ _ Hinit). unfold try_catch at 1.
    rewrite Hscan. simpl. split; [reflexivity | exact Hlog].
  - intros e Hscan Hctx. unfold scanFromCamera.
    destruct (run_ensure_initialized w) as (w1 & Hinit & _ & Hlog).
    rewrite (bind_ok _ _ _ _ _ Hinit). unfold try_catch, getContext, frame_canvas.
    rewrite Hscan. simpl. rewrite Hctx. simpl. split; [reflexivity | exact Hlog].
  - intros Hvw Haw Hvh Hah. unfold frame_canvas, first_truthy. simpl.
    rewrite Hvw, Haw, Hvh, Hah. split; reflexivity.
Qed.

Lemma camera_scan_outcomes_witness :
  (scanFromCamera unreadable_env bright_video fresh_world).1
  = Ok (js "https://example.org")
  /\ (scanFromCamera unreadable_env dark_video fresh_world).1
     = Throw camera_failure
  /\ canvas_width (frame_canvas dark_video) = 640.
Proof.
  destruct (camera_scan_outcomes unreadable_env bright_video fresh_world)
    as (_ & _ & Hok & _).
  destruct (camera_scan_outcomes unreadable_env dark_video fresh_world)
    as (Hout & _ & _ & _ & Hsize).
  split; [apply (Hok (js "https://example.org") eq_refl)|]. split.
  - destruct (scanFromCamera unreadable_env dark_video fresh_world) as [o w'] eqn:Hrun.
    vm_compute in Hrun. injection Hrun as <- _. reflexivity.
  - apply Hsize; reflexivity.
Defined.

(** ** The text recognition service *)

Section Patterns.
Import OCR.

Lemma run_length_all (p : N -> bool) (s : jsstring) :
  all_in p s -> run_length p s = length s.
Proof.
  induction 1 as [|c s Hc _ IH]; simpl; [reflexivity|].
  rewrite Hc, IH. reflexivity.
Qed.

Lemma run_length_le (p : N -> bool) (s : jsstring) :
  (run_length p s <= length s)%nat.
Proof. induction s as [|c s IH]; simpl; [lia|]. destruct (p c); simpl; lia. Qed.

Lemma elem_of_counts (a : Atom) (s : jsstring) (k : nat) :
  k ∈ counts a s -> (rep_min a <= k <= length s)%nat.
Proof.
  unfold counts. rewrite elem_of_reverse, elem_of_seq. intros Hk.
  pose proof (run_length_le (atom_class a) s).
  destruct (rep_max a); lia.
Qed.

Lemma first_count_matches (f : nat -> option nat) (ks : list nat) (r : nat) :
  foldr (fun k later => match f k with
                        | Some m => Some (k + m)%nat
                        | None => later
                        end) None ks = Some r ->
  exists k m, k ∈ ks /\ f k = Some m /\ r = (k + m)%nat.
Proof.
  induction ks as [|k ks IH]; simpl; [discriminate|].
  destruct (f k) as [m|] eqn:Hk.
  - intros Hr. injection Hr as <-. exists k, m. split; [left | auto].
  - intros Hr. destruct (IH Hr) as (k' & m & Hin & Hf & ->).
    exists k', m. split; [right; exact Hin | auto].
Qed.

(** A match is at least as long as the quantifiers require and no
    longer than the text. *)
Lemma match_here_bounds (p : Pattern) :
  forall (s : jsstring) (n : nat),
    match_here p s = Some n -> (min_length p <= n <= length s)%nat.
Proof.
  induction p as [|a p IH]; intros s n; simpl.
  - intros Hn. injection Hn as <-. lia.
  - intros Hn. apply first_count_matches in Hn as (k & m & Hk & Hm & ->).
    apply elem_of_counts in Hk. apply IH in Hm. rewrite length_drop in Hm. lia.
Qed.

Lemma matches_from_short (p : Pattern) (fuel : nat) :
  forall s : jsstring,
    (length s < min_length p)%nat -> matches_from fuel p s = [].
Proof.
  induction fuel as [|fuel IH]; intros s Hs; [reflexivity|].
  destruct s as [|c s]; [reflexivity|]. cbn [matches_from].
  destruct (match_here p (c :: s)) as [n|] eqn:Hn.
  - apply match_here_bounds in Hn. lia.
  - apply IH. simpl in Hs. lia.
Qed.

(** A run of the class, of sufficient length, is matched whole by the
    open-ended quantifier. *)
Lemma match_here_run (q : N -> bool) (n : nat) (s : jsstring) :
  all_in q s -> (n <= length s)%nat ->
  match_here [at_least_of q n] s = Some (length s).
Proof.
  intros Hall Hn. cbn [match_here]. unfold counts. cbn [rep_max rep_min
    atom_class at_least_of].
  rewrite (run_length_all _ _ Hall).
  replace (S (length s) - n)%nat with (S (length s - n)) by lia.
  rewrite seq_S, reverse_app, reverse_singleton. cbn [foldr app].
  replace (n + (length s - n))%nat with (length s) by lia.
  f_equal. lia.
Qed.

Lemma match_all_run (q : N -> bool) (n : nat) (s : jsstring) :
  all_in q s -> (n <= length s)%nat -> s <> [] ->
  match_all [at_least_of q n] s = [s].
Proof.
  intros Hall Hn Hne. unfold match_all.
  destruct s as [|c s]; [contradiction|]. cbn [length matches_from].
  rewrite (match_here_run q n (c :: s) Hall Hn). cbn [length].
  change (S (length s)) with (length (c :: s)).
  rewrite firstn_all, drop_all. f_equal.
  destruct (length s); reflexivity.
Qed.

Lemma clean_upper_or_digit (text : jsstring) :
  all_in upper_or_digit (clean text).
Proof.
  unfold clean, toUpperCase, all_in. apply Forall_fmap.
  apply Forall_forall. intros c Hc.
  apply list_elem_of_filter in Hc as [Hc _]. simpl.
  unfold alnum in Hc. unfold upper_or_digit, upper, lower, digit in *.
  destruct (N.leb_spec 97 c), (N.leb_spec c 122); simpl in *;
    repeat match goal with
    | |- context [(?a <=? ?b)%N] => destruct (N.leb_spec a b)
    | H : context [(?a <=? ?b)%N] |- _ => destruct (N.leb_spec a b)
    end; simpl in *; try reflexivity; try discriminate; lia.
Qed.

Lemma first_match_short (ps : list Pattern) (s : jsstring) :
  Forall (fun p => (length s < min_length p)%nat) ps ->
  first_match ps s = None.
Proof.
  induction 1 as [|p ps Hp _ IH]; simpl; [reflexivity|].
  unfold match_all. rewrite matches_from_short by exact Hp. exact IH.
Qed.

Lemma extract_of_clean (text : jsstring) :
  extractSerialNumber text
  = if (6 <=? length (clean text))%nat then clean text else [].
Proof.
  unfold extractSerialNumber.
  destruct text as [|c0 text0]; [reflexivity|]. cbn [falsy].
  set (text := c0 :: text0). cbv zeta.
  pose proof (clean_upper_or_digit text) as Hall.
  destruct (Nat.le_gt_cases 8 (length (clean text))) as [Hlong|Hshort].
  - assert (Hne : clean text <> []) by (intros H0; rewrite H0 in Hlong; simpl in Hlong; lia).
    cbn [patterns first_match].
    rewrite (match_all_run _ _ _ Hall Hlong Hne). cbn [longest foldl].
    destruct (Nat.leb_spec 6 (length (clean text))); [reflexivity | lia].
  - rewrite first_match_short.
    + destruct (clean text) as [|c s] eqn:Hclean; [reflexivity|].
      unfold any_run.
      rewrite (match_all_run upper_or_digit 1 (c :: s));
        [reflexivity | exact Hall | simpl; lia | discriminate].
    + unfold patterns.
      repeat first
        [apply Forall_nil_2
        | apply Forall_cons_2;
          [unfold min_length; cbn [foldr rep_min at_least_of exactly]; lia|]].
Qed.

End Patterns.

Section SerialNumbers.
Import OCR.

Lemma clean_fixed (s : jsstring) : all_in upper_or_digit s -> clean s = s.
Proof.
  unfold clean, toUpperCase. induction 1 as [|c s Hc _ IH]; [reflexivity|].
  assert (Hc' : (48 <= c <= 57 \/ 65 <= c <= 90)%N).
  { unfold upper_or_digit, upper, digit in Hc.
    apply orb_true_iff in Hc as [Hc|Hc]; apply andb_true_iff in Hc as [H1 H2];
      apply N.leb_le in H1, H2; lia. }
  assert (Hws : white_space c = false /\ alnum c = true /\ lower c = false).
  { unfold alnum, white_space, upper, lower, digit.
    destruct Hc' as [Hd|Hu];
      repeat match goal with
      | |- context [(?a <=? ?b)%N] =>
        first [rewrite (proj2 (N.leb_le a b)) by lia
              | rewrite (proj2 (N.leb_gt a b)) by lia]
      | |- context [(?a =? ?b)%N] => rewrite (proj2 (N.eqb_neq a b)) by lia
      end; repeat split; reflexivity. }
  destruct Hws as (Hw & Ha & Hl).
  rewrite filter_cons_True by exact Hw.
  rewrite filter_cons_True by exact Ha.
  rewrite fmap_cons, Hl. f_equal. exact IH.
Qed.

(** X16. The serial number extracted from a recognized text is the
  text with everything but ASCII letters and digits removed and the
  letters in upper case, provided at least six code units are left,
  and the empty string otherwise. (The patterns after the first can
  never be the ones that match.) So a serial number is empty or has at
  least six code units, all in [A-Z0-9], and extracting from a serial
  number gives it back. *)
Theorem serial_number_is_cleaned_text (text : jsstring) :
  extractSerialNumber text
  = (if (6 <=? length (clean text))%nat then clean text else [])
  /\ all_in upper_or_digit (extractSerialNumber text)
  /\ (extractSerialNumber text = []
      \/ (6 <= length (extractSerialNumber text))%nat)
  /\ extractSerialNumber (extractSerialNumber text) = extractSerialNumber text.
Proof.
  pose proof (extract_of_clean text) as Heq.
  pose proof (clean_upper_or_digit text) as Hall.
  assert (Hout : all_in upper_or_digit (extractSerialNumber text)).
  { rewrite Heq. destruct (6 <=? length (clean text))%nat;
      [exact Hall | constructor]. }
  split; [exact Heq|]. split; [exact Hout|]. split.
  - rewrite Heq. destruct (Nat.leb_spec 6 (length (clean text)));
      [right; assumption | left; reflexivity].
  - rewrite (extract_of_clean (extractSerialNumber text)).
    rewrite (clean_fixed _ Hout). rewrite Heq.
    destruct (Nat.leb_spec 6 (length (clean text))) as [Hle|Hlt].
    + apply Nat.leb_le in Hle. rewrite Hle. reflexivity.
    + reflexivity.
Qed.

Example serial_number_samples :
  extractSerialNumber (js "S/N: ab-1234 56") = js "SNAB123456"
  /\ extractSerialNumber (js "No. 12-3") = []
  /\ extractSerialNumber (js "AB123456 CD99") = js "AB123456CD99".
Proof. repeat split; vm_compute; reflexivity. Qed.

End SerialNumbers.

Section TextRecognition.
Import TextService.

Lemma initialize_outcome engine st :
  match initialize engine st with
  | (Ok _, st') => st' = ready
  | (Throw e, st') =>
    e = js "OCR引擎初始化失败" /\ isInitialized st' = isInitialized st
    /\ (createWorker engine = Returned tt -> worker st' = true)
  | (Hang, _) => False
  end.
Proof.
  unfold initialize.
  destruct (isInitialized st && worker st) eqn:Hst.
  - apply andb_true_iff in Hst as [Hi Hw]. destruct st; simpl in *; subst.
    reflexivity.
  - destruct (createWorker engine) as [[]|e];
      [|repeat split; intros H; discriminate H].
    destruct (setParameters engine) as [[]|e]; [reflexivity|].
    repeat split.
Qed.

Lemma recognizeImage_outcome engine startTime endTime imageData st :
  match recognizeImage engine startTime endTime imageData st with
  | (Ok r, st') =>
    st' = ready
    /\ exists text c,
         recognize engine imageData = Returned (text, c)
         /\ r = {| serialNumber := OCR.extractSerialNumber text;
                   confidence := c / 100;
                   processingTime := endTime - startTime |}
  | (Throw e, st') =>
    (e = js "OCR引擎初始化失败" /\ isInitialized st' = isInitialized st)
    \/ (e = js "图片识别失败" /\ st' = ready
        /\ exists e', recognize engine imageData = Thrown e')
  | (Hang, _) => False
  end.
Proof.
  unfold recognizeImage.
  destruct (negb (isInitialized st) || negb (worker st)) eqn:Hst.
  - pose proof (initialize_outcome engine st) as Hinit.
    destruct (initialize engine st) as [[[]|e|] st1]; [|left|contradiction].
    + subst st1. destruct (recognize engine imageData) as [[text c]|e].
      * split; [reflexivity|]. eexists _, _. split; reflexivity.
      * right. repeat split. eexists; reflexivity.
    + destruct Hinit as (-> & Hi & _). split; [reflexivity | exact Hi].
  - apply orb_false_iff in Hst as [Hi Hw].
    apply negb_false_iff in Hi, Hw.
    assert (Hready : st = ready) by (destruct st; simpl in *; subst; reflexivity).
    destruct (recognize engine imageData) as [[text c]|e].
    + split; [exact Hready|]. eexists _, _. split; reflexivity.
    + right. repeat split; [exact Hready | eexists; reflexivity].
Qed.

Lemma recognize_each_records engine clock (imageDataList : list jsstring) :
  forall k results st,
  exists out st',
    recognize_each engine clock k imageDataList results st
    = (Ok (results ++ out), st')
    /\ Forall2 (record_of engine) imageDataList out.
Proof.
  induction imageDataList as [|img rest IH]; intros k results st.
  - exists [], st. rewrite app_nil_r. split; [reflexivity | constructor].
  - cbn [recognize_each].
    pose proof (recognizeImage_outcome engine (clock k).1 (clock k).2 img st)
      as Hone.
    destruct (recognizeImage engine (clock k).1 (clock k).2 img st)
      as [[r|e|] st1]; [| |contradiction].
    + destruct (IH (S k) (results ++ [r]) st1) as (out & st' & Hrun & Hout).
      exists (r :: out), st'. rewrite Hrun, <- app_assoc.
      split; [reflexivity|]. constructor; [|exact Hout].
      destruct Hone as (_ & text & c & Hrec & ->). right.
      exists text, c. repeat split. exact Hrec.
    + destruct (IH (S k) (results ++ [blank]) st1) as (out & st' & Hrun & Hout).
      exists (blank :: out), st'. rewrite Hrun, <- app_assoc.
      split; [reflexivity|]. constructor; [left; reflexivity | exact Hout].
Qed.

Lemma recognize_each_broken engine clock (imageDataList : list jsstring) e :
  createWorker engine = Thrown e ->
  forall k results st,
    isInitialized st = false ->
    recognize_each engine clock k imageDataList results st
    = (Ok (results ++ replicate (length imageDataList) blank), st).
Proof.
  intros Hbroken.
  induction imageDataList as [|img rest IH]; intros k results st Hst.
  - simpl. rewrite app_nil_r. reflexivity.
  - cbn [recognize_each]. unfold recognizeImage, initialize.
    rewrite Hst, Hbroken. simpl.
    rewrite (IH (S k) (results ++ [blank]) st Hst), <- app_assoc. reflexivity.
Qed.

(** X17. The batch text recognizer never throws: it returns one record
  per image, in input order, which is the blank record (empty serial
  number, confidence 0, time 0) or holds the serial number extracted
  from what the engine read in that image and the engine's confidence
  divided by 100. Every serial number is empty or has at least six
  code units. When the engine cannot be started, every record is
  blank and the service stays uninitialized. *)
Theorem text_batch_one_record_per_image (engine : Engine)
    (clock : nat -> Z * Z) (imageDataList : list jsstring) (st : State) :
  exists out st',
    recognizeImages engine clock imageDataList st = (Ok out, st')
    /\ Forall2 (record_of engine) imageDataList out
    /\ Forall (fun r => serialNumber r = []
                        \/ (6 <= length (serialNumber r))%nat) out
    /\ ((exists e, createWorker engine = Thrown e) ->
        isInitialized st = false ->
        out = replicate (length imageDataList) blank /\ st' = st).
Proof.
  unfold recognizeImages.
  destruct (recognize_each_records engine clock imageDataList 0 [] st)
    as (out & st' & Hrun & Hout).
  exists out, st'. split; [exact Hrun|]. split; [exact Hout|]. split.
  - clear Hrun. induction Hout as [|img r imgs rs Hr _ IH]; constructor;
      [|exact IH].
    destruct Hr as [-> | (text & c & _ & -> & _)]; [left; reflexivity|].
    rewrite extract_of_clean.
    destruct (Nat.leb_spec 6 (length (OCR.clean text)));
      [right; assumption | left; reflexivity].
  - intros [e Hbroken] Hst.
    rewrite (recognize_each_broken engine clock imageDataList e Hbroken 0 [] st Hst)
      in Hrun.
    injection Hrun as <- <-. split; reflexivity.
Qed.

Lemma text_batch_one_record_per_image_witness :
  (exists st',
     recognizeImages label_engine (fun _ => (0, 40))
       [js "a.png"; js "blurred.png"] idle
     = (Ok [ {| serialNumber := js "SNAB123456"; confidence := 87 / 100;
                processingTime := 40 |}; blank ], st'))
  /\ (exists out st',
        recognizeImages broken_engine (fun _ => (0, 40))
          [js "a.png"; js "b.png"] idle = (Ok out, st')
        /\ out = [blank; blank] /\ st' = idle).
Proof.
  split.
  - eexists. vm_compute. reflexivity.
  - destruct (text_batch_one_record_per_image broken_engine (fun _ => (0, 40))
                [js "a.png"; js "b.png"] idle)
      as (out & st' & Hrun & _ & _ & Hbroken).
    exists out, st'. split; [exact Hrun|].
    apply Hbroken; [eexists; reflexivity | reflexivity].
Defined.

End TextRecognition.

(** ** The application store *)

Section StoreLaws.
Import Store.

Lemma default_over {A} (x : A) (a b : option A) :
  default (default x a) b = default x (over a b).
Proof. destruct b; reflexivity. Qed.

Lemma spread_combine (s : AppSettings) (a b : PartialSettings) :
  spread (spread s a) b = spread s (combine a b).
Proof.
  unfold spread, combine. cbn -[default over]. f_equal; apply default_over.
Qed.

Lemma removeResult_ids (i : jsstring) (state : AppState) :
  ids (removeResult i state) = filter (fun j => j <> i) (ids state).
Proof.
  unfold ids, removeResult; simpl.
  induction (results state) as [|r rs IH]; [reflexivity|].
  rewrite fmap_cons, !filter_cons.
  destruct (decide (id r <> i)); [rewrite fmap_cons, IH; reflexivity|].
  exact IH.
Qed.

Lemma filter_keeps_all {A} (P : A -> Prop) `{!forall x, Decision (P x)}
    (l : list A) :
  (forall x, x ∈ l -> P x) -> filter P l = l.
Proof.
  induction l as [|x l IH]; intros Hall; [reflexivity|].
  rewrite filter_cons_True by (apply Hall; left).
  f_equal. apply IH. intros y Hy. apply Hall. right. exact Hy.
Qed.

Lemma filter_keeps_none {A} (P : A -> Prop) `{!forall x, Decision (P x)}
    (l : list A) :
  (forall x, x ∈ l -> ~ P x) -> filter P l = [].
Proof.
  induction l as [|x l IH]; intros Hnone; [reflexivity|].
  rewrite filter_cons_False by (apply Hnone; left).
  apply IH. intros y Hy. apply Hnone. right. exact Hy.
Qed.

Lemma remove_all_ids (settings0 : AppSettings) (rs : list RecognitionResult) :
  forall keep : list RecognitionResult,
    Forall (fun r => id r ∈ (id <$> rs)) keep ->
    foldr removeResult {| results := keep; settings := settings0 |} (id <$> rs)
    = {| results := []; settings := settings0 |}.
Proof.
  induction rs as [|r rs IH]; intros keep Hkeep.
  - simpl. destruct keep as [|k keep]; [reflexivity|].
    inversion Hkeep as [|? ? Hk _]; subst. inversion Hk.
  - rewrite fmap_cons. cbn [foldr].
    set (inner := foldr removeResult _ _).
    assert (Hinner : results inner
                     = filter (fun k => id k ∉ (id <$> rs)) keep
                     /\ settings inner = settings0).
    { unfold inner. clear IH Hkeep inner.
      induction (id <$> rs) as [|i others IHi]; simpl.
      - split; [|reflexivity]. symmetry. apply filter_keeps_all.
        intros k _ Hk. inversion Hk.
      - destruct IHi as [Hres Hset]. split; [|exact Hset].
        rewrite Hres, list_filter_filter. apply list_filter_iff.
        intros k. rewrite not_elem_of_cons. tauto. }
    destruct Hinner as [Hres Hset]. unfold removeResult. rewrite Hres, Hset.
    f_equal. rewrite list_filter_filter.
    apply filter_keeps_none. intros k Hk [Hne Hnot].
    rewrite Forall_forall in Hkeep. specialize (Hkeep k Hk).
    rewrite fmap_cons in Hkeep. apply elem_of_cons in Hkeep as [Heq|Hin];
      [contradiction | contradiction].
Qed.

(** X18. In the store, [removeResult] removes every row with the given
  id and no other and keeps the order; removing twice is removing
  once, removals commute, and removing a row that was just added under
  a new id gives the history back. Removing the id of every row is
  [clearHistory]. Two settings updates are one update with the later
  keys over the earlier, and an update without keys changes nothing.
  History operations do not touch the settings and settings updates do
  not touch the history. *)
Theorem history_and_settings_laws (state : AppState) :
  (forall i, ids (removeResult i state)
             = filter (fun j => j <> i) (ids state)
             /\ sublist (results (removeResult i state)) (results state)
             /\ settings (removeResult i state) = settings state
             /\ removeResult i (removeResult i state) = removeResult i state)
  /\ (forall i j, removeResult i (removeResult j state)
                  = removeResult j (removeResult i state))
  /\ (forall r, id r ∉ ids state ->
        removeResult (id r) (addResult r state) = state)
  /\ foldr removeResult state (ids state) = clearHistory state
  /\ (forall a b,
        updateSettings b (updateSettings a state)
        = updateSettings (combine a b) state
        /\ results (updateSettings a state) = results state
        /\ (forall r, settings (addResult r (updateSettings a state))
                       = settings (updateSettings a state)))
  /\ updateSettings
       {| p_language := None; p_qrCodeFormats := None; p_confidence := None;
          p_autoSave := None; p_maxBatchSize := None;
          p_processingDelay := None; p_imageQuality := None;
          p_enableFlash := None; p_autoFocus := None;
          p_enableVibration := None; p_enableSound := None |} state
     = state.
Proof.
  split; [|split; [|split; [|split; [|split]]]].
  - intros i. split; [apply removeResult_ids|]. split; [apply sublist_filter|].
    split; [reflexivity|].
    unfold removeResult; simpl. f_equal. apply list_filter_filter_l.
    intros r Hr. exact Hr.
  - intros i j. unfold removeResult; simpl. f_equal.
    rewrite !list_filter_filter. apply list_filter_iff. intros r. tauto.
  - intros r Hfresh. unfold removeResult, addResult; simpl.
    rewrite filter_cons_False by (intros H; apply H; reflexivity).
    destruct state as [rs st]; simpl in *. f_equal.
    unfold ids in Hfresh; simpl in Hfresh.
    induction rs as [|r' rs IH]; [reflexivity|].
    rewrite fmap_cons in Hfresh. apply not_elem_of_cons in Hfresh as [Hne Hrest].
    rewrite filter_cons_True by congruence. f_equal. apply IH. exact Hrest.
  - destruct state as [rs st]. unfold ids, clearHistory; simpl.
    apply remove_all_ids. apply Forall_forall. intros r Hr.
    apply list_elem_of_fmap. exists r. split; [reflexivity | exact Hr].
  - intros a b. split; [|split; [reflexivity | intros r; reflexivity]].
    unfold updateSettings; simpl. f_equal. apply spread_combine.
  - destruct state as [rs [? ? ? ? ? ? ? ? ? ? ?]]. reflexivity.
Qed.

Lemma history_and_settings_laws_witness :
  removeResult (js "7-0")
    (addResult (Build_RecognitionResult (js "7-0") [] (js "A") 1 success 7
                  None None None None None None) initial)
  = initial.
Proof.
  destruct (history_and_settings_laws initial) as (_ & _ & Hround & _).
  apply (Hround (Build_RecognitionResult (js "7-0") [] (js "A") 1 success 7
                   None None None None None None)).
  intros Hin. inversion Hin.
Defined.

End StoreLaws.

(** ** Selecting the images to process *)

Section Selection.
Import Upload.

Lemma removeFile_cons (index : Z) (file : File) (rest : list File) :
  removeFile index (file :: rest)
  = if 0 =? index then removeFile (index - 1) rest
    else file :: removeFile (index - 1) rest.
Proof.
  unfold removeFile. rewrite imap_cons. cbn [omap list_omap].
  assert (Hshift : imap ((fun (i : nat) (f : File) =>
                            if Z.of_nat i =? index then None else Some f) ∘ S) rest
                   = imap (fun (i : nat) (f : File) =>
                             if Z.of_nat i =? index - 1 then None else Some f) rest).
  { apply imap_ext. intros i f _. unfold compose.
    destruct (Z.eqb_spec (Z.of_nat (S i)) index), (Z.eqb_spec (Z.of_nat i) (index - 1));
      try reflexivity; lia. }
  rewrite Hshift. change (Z.of_nat 0) with 0.
  destruct (0 =? index); reflexivity.
Qed.

Lemma removeFile_out_of_range (index : Z) (files : list File) :
  index < 0 -> removeFile index files = files.
Proof.
  revert index. induction files as [|f files IH]; intros index Hneg;
    [reflexivity|].
  rewrite removeFile_cons. destruct (Z.eqb_spec 0 index); [lia|].
  f_equal. apply IH. lia.
Qed.

Lemma removeFile_delete (i : nat) (files : list File) :
  removeFile (Z.of_nat i) files = delete i files.
Proof.
  revert i. induction files as [|f files IH]; intros i; [reflexivity|].
  rewrite removeFile_cons. destruct i as [|i].
  - simpl. apply removeFile_out_of_range. lia.
  - destruct (Z.eqb_spec 0 (Z.of_nat (S i))); [lia|].
    replace (Z.of_nat (S i) - 1) with (Z.of_nat i) by lia.
    rewrite IH. reflexivity.
Qed.

(** X19. For a limit [maxFiles >= 0] and a selection of valid files,
  the selection after [handleFileSelect] holds only files whose type
  starts with [image/] and whose size is at most 10 MiB, taken in
  order from the old selection and the new files. In multiple mode it
  has at most [maxFiles] files, starts with the old selection when
  that fits, and is the old selection cut at the limit when it was
  already full (the new files are dropped). In single mode it is the
  first valid new file alone, or empty when there is none, whatever
  was selected before. [removeFile] deletes the file at the index and
  nothing when the index is out of range. *)
Theorem selection_is_valid_and_bounded (multiple : bool) (maxFiles : Z)
    (selectedFiles files : list File) :
  0 <= maxFiles ->
  Forall (fun f => valid f = true) selectedFiles ->
  exists new,
    handleFileSelect multiple maxFiles selectedFiles (Some files) = Some new
    /\ Forall (fun f => valid f = true) new
    /\ sublist new (selectedFiles ++ files)
    /\ (multiple = true ->
        Z.of_nat (length new) <= maxFiles
        /\ (Z.of_nat (length selectedFiles) <= maxFiles ->
            selectedFiles `prefix_of` new)
        /\ (maxFiles <= Z.of_nat (length selectedFiles) ->
            new = take (Z.to_nat maxFiles) selectedFiles))
    /\ (multiple = false ->
        new = take 1 (filter (fun f => valid f = true) files))
    /\ (forall i : nat, removeFile (Z.of_nat i) new = delete i new)
    /\ (forall index, index < 0 \/ Z.of_nat (length new) <= index ->
          removeFile index new = new).
Proof.
  intros Hmax Hsel. unfold handleFileSelect.
  set (validFiles := filter (fun f => valid f = true) files).
  assert (Hvalid : Forall (fun f => valid f = true) validFiles).
  { apply Forall_forall. intros f Hf.
    apply list_elem_of_filter in Hf as [Hf _]. exact Hf. }
  assert (Hslice : forall n (l : list File), 0 <= n ->
            slice0 n l = take (Z.to_nat n) l).
  { intros n l Hn. unfold slice0. destruct (Z.leb_spec 0 n); [reflexivity | lia]. }
  assert (Hsub : sublist validFiles files) by apply sublist_filter.
  assert (Hcut : forall n (l : list File), sublist (take n l) l).
  { intros n l. rewrite <- (take_drop n l) at 2. apply sublist_inserts_r.
    reflexivity. }
  assert (Hrem : forall new : list File,
            (forall i : nat, removeFile (Z.of_nat i) new = delete i new)
            /\ (forall index, index < 0 \/ Z.of_nat (length new) <= index ->
                  removeFile index new = new)).
  { intros new. split; [intros i; apply removeFile_delete|].
    intros index [Hneg|Hbig]; [apply removeFile_out_of_range; exact Hneg|].
    assert (Hnn : 0 <= index) by lia.
    rewrite <- (Z2Nat.id index Hnn), removeFile_delete.
    rewrite delete_take_drop, take_ge, drop_ge by lia. apply app_nil_r. }
  destruct multiple; (eexists; split; [reflexivity|]).
  - rewrite Hslice by exact Hmax.
    split; [apply Forall_take, Forall_app; split; assumption|].
    split; [etrans; [apply Hcut|]; apply sublist_app; [reflexivity | exact Hsub]|].
    split; [|split; [discriminate | apply Hrem]].
    intros _. split; [rewrite length_take; lia|]. split.
    + intros Hfit. rewrite take_app_ge by lia.
      apply prefix_app_r. reflexivity.
    + intros Hfull. rewrite take_app_le by lia. reflexivity.
  - rewrite Hslice by lia.
    split; [apply Forall_take; exact Hvalid|].
    split; [etrans; [apply Hcut|]; apply sublist_inserts_l; exact Hsub|].
    split; [discriminate|]. split; [intros _; reflexivity | apply Hrem].
Qed.

Lemma selection_is_valid_and_bounded_witness :
  handleFileSelect true 2 []
    (Some [ {| name := js "a.png"; type := js "image/png"; size := 1000 |};
            {| name := js "b.txt"; type := js "text/plain"; size := 10 |};
            {| name := js "c.jpg"; type := js "image/jpeg"; size := 20000000 |};
            {| name := js "d.gif"; type := js "image/gif"; size := 2000 |};
            {| name := js "e.png"; type := js "image/png"; size := 3000 |} ])
  = Some [ {| name := js "a.png"; type := js "image/png"; size := 1000 |};
           {| name := js "d.gif"; type := js "image/gif"; size := 2000 |} ].
Proof.
  destruct (selection_is_valid_and_bounded true 2 []
    [ {| name := js "a.png"; type := js "image/png"; size := 1000 |};
      {| name := js "b.txt"; type := js "text/plain"; size := 10 |};
      {| name := js "c.jpg"; type := js "image/jpeg"; size := 20000000 |};
      {| name := js "d.gif"; type := js "image/gif"; size := 2000 |};
      {| name := js "e.png"; type := js "image/png"; size := 3000 |} ])
    as (new & Hrun & _); [lia | constructor |].
  rewrite Hrun. vm_compute in Hrun. injection Hrun as <-. reflexivity.
Defined.

End Selection.

(** ** The batch page *)

Section BatchPage.
Import Store Page.

Lemma recognizeImage_blank_confidence env clk imageData :
  ensures (recognizeImage env clk imageData)
    (fun r => Recognizer.serialNumber r = [] ->
              (Recognizer.confidence r == 0)%Q)
    False False.
Proof.
  eapply ensures_weaken; [apply ensures_recognizeImage | | auto | auto].
  intros r Hr Hblank.
  destruct (timer_won (s_settle clk) (s_start clk + 1500) (s_timer clk)).
  - rewrite Hr. reflexivity.
  - destruct Hr as (r0 & [(text & Hne & ->) | ->] & ->);
      [contradiction | reflexivity].
Qed.

Lemma processImage_settles env readAsDataURL clk file index :
  ensures (processImage env readAsDataURL clk file index)
    (fun r =>
       settled r
       /\ id r = result_id (p_id clk) index
       /\ originalFileName r = Some (Upload.name file)
       /\ readAsDataURL file = Some (image r)
       /\ match qrResults r with
          | Some rs =>
            exists first rest,
              rs = first :: rest /\ status r = success
              /\ serialNumber r = Recognizer.serialNumber first
              /\ totalFound r = Some (length rs)
              /\ Forall (genuine env) rs
          | None =>
            qrType r = Some (vtype (validateQRData (serialNumber r)))
            /\ (status r = failed <-> serialNumber r = [])
          end)
    False True.
Proof.
  unfold processImage.
  destruct (readAsDataURL file) as [imageData|] eqn:Hread;
    [|apply ensures_hang; exact I].
  cbv zeta. apply ensures_try_catch with (T' := False); [|intros e []].
  eapply ensures_bind; [apply recognizeMultiple_genuine|].
  intros multiResult [Htotal Hgen].
  destruct (Orchestrator.results multiResult) as [|first rest] eqn:Hres.
  - eapply ensures_bind.
    { eapply ensures_weaken with (T := False) (H := False);
        [apply recognizeImage_blank_confidence | intros a Ha; exact Ha
        | auto | auto]. }
    intros qrResult Hblank. apply ensures_ret. unfold settled; simpl.
    destruct (Recognizer.serialNumber qrResult) as [|c sn] eqn:Hsn; simpl.
    + repeat split; try discriminate; try reflexivity; auto.
    + repeat split; try discriminate; try reflexivity.
  - apply ensures_ret. unfold settled; simpl.
    repeat split; try discriminate.
    exists first, rest. repeat split; [|exact Hgen].
    rewrite Htotal. reflexivity.
Qed.

Lemma processImage_returns env readAsDataURL clk file index :
  can_finish env readAsDataURL file ->
  ensures (processImage env readAsDataURL clk file index) (fun _ => True)
    False False.
Proof.
  intros (imageData & Hread & Hpos). unfold processImage. rewrite Hread.
  cbv zeta. apply ensures_try_catch with (T' := False); [|intros e []].
  eapply ensures_bind; [apply recognizeMultiple_returns; exact Hpos|].
  intros multiResult _.
  destruct (Orchestrator.results multiResult); [|apply ensures_ret; exact I].
  eapply ensures_bind; [apply ensures_recognizeImage|].
  intros; apply ensures_ret; exact I.
Qed.

(** X20. Processing one file on the batch page never throws, and it
  returns a row whenever the reader loads the file and the image, if
  it loads, has a width and a height. The row is never pending: it
  carries the id made of the clock reading and the index, the file
  name and the data URL. With codes found by the multi-code
  recognizer it is a success showing the first of them, with the list
  (every entry a record of a decode) and its length as total.
  Otherwise it shows what the single-image recognizer returned: it is
  failed exactly when that payload is empty, and then has confidence
  0, and its type is what [validateQRData] says of the payload. When
  the reader does not load the file, the call does not end. *)
Theorem processed_row_is_settled (env : Env)
    (readAsDataURL : Upload.File -> option jsstring) (clk : PageClock)
    (file : Upload.File) (index : nat) :
  ensures (processImage env readAsDataURL clk file index)
    (fun r =>
       settled r
       /\ id r = result_id (p_id clk) index
       /\ originalFileName r = Some (Upload.name file)
       /\ readAsDataURL file = Some (image r)
       /\ match qrResults r with
          | Some rs =>
            exists first rest,
              rs = first :: rest /\ status r = success
              /\ serialNumber r = Recognizer.serialNumber first
              /\ totalFound r = Some (length rs)
              /\ Forall (genuine env) rs
          | None =>
            qrType r = Some (vtype (validateQRData (serialNumber r)))
            /\ (status r = failed <-> serialNumber r = [])
          end)
    False (~ can_finish env readAsDataURL file)
  /\ (readAsDataURL file = None ->
      forall w, (processImage env readAsDataURL clk file index w).1 = Hang).
Proof.
  split.
  - apply ensures_unless; [apply processImage_settles|].
    apply processImage_returns.
  - intros Hread w. unfold processImage. rewrite Hread. reflexivity.
Qed.

Lemma processed_row_is_settled_witness :
  exists r w',
    processImage scanner_env read_name (even_clock 0) (a_file "a.png") 0
      fresh_world = (Ok r, w')
    /\ status r = success /\ serialNumber r = js "A"
    /\ qrType r = Some "TEXT"%string.
Proof.
  destruct (processed_row_is_settled scanner_env read_name (even_clock 0)
              (a_file "a.png") 0) as [Hrow _].
  specialize (Hrow fresh_world).
  destruct (processImage scanner_env read_name (even_clock 0) (a_file "a.png") 0
              fresh_world) as [o w'] eqn:Hrun.
  vm_compute in Hrun. injection Hrun as <- <-. simpl in Hrow.
  destruct Hrow as (_ & _ & _ & _ & Htype & _).
  eexists _, _. split; [reflexivity|]. split; [reflexivity|].
  split; [reflexivity | exact Htype].
Defined.

Lemma count_settled (r : RecognitionResult) (stats : Stats) :
  settled r ->
  completed (count r stats) = S (completed stats)
  /\ (succeeded (count r stats) + failures (count r stats)
      = S (succeeded stats + failures stats))%nat
  /\ total (count r stats) = total stats.
Proof.
  intros (Hst & _). unfold count; simpl.
  destruct (status r); [repeat split; lia.. | contradiction].
Qed.

Lemma process_from_settles env readAsDataURL clock (files : list Upload.File) :
  forall (done rows : list RecognitionResult) (page : PageState),
    length rows = length files ->
    page_results page = done ++ rows ->
    ensures
      (process_from env readAsDataURL clock false (length done) files page)
      (fun page' =>
         exists new,
           Forall2 (fun file r => settled r
                                  /\ originalFileName r = Some (Upload.name file))
             files new
           /\ page_results page' = done ++ new
           /\ completed (processingStats page')
              = (completed (processingStats page) + length files)%nat
           /\ (succeeded (processingStats page')
               + failures (processingStats page')
               = succeeded (processingStats page)
                 + failures (processingStats page) + length files)%nat
           /\ total (processingStats page') = total (processingStats page)
           /\ results (store page') = reverse new ++ results (store page)
           /\ settings (store page') = settings (store page))
      False True.
Proof.
  induction files as [|file files IH]; intros done rows page Hlen Hrows.
  - destruct rows; [|discriminate Hlen]. simpl. apply ensures_ret.
    exists []. rewrite !Nat.add_0_r.
    repeat split; [constructor | exact Hrows].
  - destruct rows as [|row rows]; [discriminate Hlen|].
    cbn [process_from].
    eapply ensures_bind with
      (Q := fun page1 => exists r,
         settled r /\ originalFileName r = Some (Upload.name file)
         /\ page1 = {| page_results := <[length done := r]> (page_results page);
                       processingStats := count r (processingStats page);
                       currentIndex := length done;
                       isProcessing := isProcessing page;
                       store := addResult r (store page) |}).
    { unfold process_at.
      apply ensures_try_catch with (T' := False); [|intros e []].
      eapply ensures_bind; [apply processImage_settles|].
      intros r (Hset & _ & Hname & _). apply ensures_ret.
      exists r. split; [exact Hset|]. split; [exact Hname | reflexivity]. }
    intros page1 (r & Hset & Hname & Hpage1).
    assert (Hrows1 : page_results page1 = (done ++ [r]) ++ rows).
    { subst page1. simpl. rewrite Hrows.
      rewrite insert_app_r_alt by lia. rewrite Nat.sub_diag. simpl.
      rewrite <- app_assoc. reflexivity. }
    specialize (IH (done ++ [r]) rows page1).
    rewrite length_app in IH. simpl in IH.
    replace (length done + 1)%nat with (S (length done)) in IH by lia.
    eapply ensures_weaken; [apply IH; [simpl in Hlen; lia | exact Hrows1] | | auto | auto].
    intros page2 (new & Hnew & Hres & Hc & Hsf & Ht & Hstore & Hsettings).
    destruct (count_settled r (processingStats page) Hset) as (Hc1 & Hsf1 & Ht1).
    exists (r :: new). subst page1. simpl in *.
    split; [constructor; [split; assumption | exact Hnew]|].
    split; [rewrite Hres, <- app_assoc; reflexivity|].
    split; [lia|]. split; [lia|]. split; [congruence|].
    split; [|exact Hsettings].
    rewrite Hstore, reverse_cons, <- app_assoc. reflexivity.
Qed.

Lemma process_from_returns env readAsDataURL clock isPaused
    (files : list Upload.File) :
  Forall (can_finish env readAsDataURL) files ->
  forall i page,
    ensures (process_from env readAsDataURL clock isPaused i files page)
      (fun _ => True) False False.
Proof.
  induction 1 as [|file files Hfile _ IH]; intros i page; simpl.
  - apply ensures_ret. exact I.
  - destruct isPaused; [apply ensures_ret; exact I|].
    eapply ensures_bind with (Q := fun _ => True); [|intros; apply IH].
    unfold process_at.
    apply ensures_try_catch with (T' := False); [|intros e []].
    eapply ensures_bind; [apply processImage_returns; exact Hfile|].
    intros; apply ensures_ret; exact I.
Qed.

(** X21. A batch run over a non-empty selection, started while the page
  is not paused, never throws, and it ends when every file can be
  finished. At its end the statistics add up: the total and the number
  completed are the number of files, and successes plus failures are
  that number too, since no row is left pending; the rows are those of
  the files, in order, each with its file's name; the history of the
  store holds the new rows in front of what it held, the latest
  first, and its settings are untouched. A handler that closed over a
  paused page processes no file: every row stays a pending placeholder
  and the counters stay 0. *)
Theorem batch_statistics_add_up (env : Env)
    (readAsDataURL : Upload.File -> option jsstring)
    (clock : nat -> PageClock) (now : nat -> Z)
    (selectedFiles : list Upload.File) (page : PageState) :
  selectedFiles <> [] ->
  ensures
    (startBatchProcessing env readAsDataURL clock now false selectedFiles page)
    (fun page' =>
       let stats := processingStats page' in
       total stats = length selectedFiles
       /\ completed stats = length selectedFiles
       /\ (succeeded stats + failures stats)%nat = length selectedFiles
       /\ Forall2 (fun file r => settled r
                                 /\ originalFileName r = Some (Upload.name file))
            selectedFiles (page_results page')
       /\ results (store page')
          = reverse (page_results page') ++ results (store page)
       /\ settings (store page') = settings (store page)
       /\ currentIndex page' = length selectedFiles
       /\ isProcessing page' = false)
    False True
  /\ (Forall (can_finish env readAsDataURL) selectedFiles ->
      ensures
        (startBatchProcessing env readAsDataURL clock now false selectedFiles page)
        (fun _ => True) False False)
  /\ (forall w, exists page',
        startBatchProcessing env readAsDataURL clock now true selectedFiles page w
        = (Ok page', w)
        /\ page_results page' = imap (placeholder now) selectedFiles
        /\ Forall (fun r => status r = pending) (page_results page')
        /\ completed (processingStats page') = 0%nat
        /\ store page' = store page).
Proof.
  intros Hne. destruct selectedFiles as [|file files]; [contradiction|].
  set (selectedFiles := file :: files) in *.
  split; [|split].
  - unfold startBatchProcessing. fold selectedFiles. cbv zeta.
    eapply ensures_bind.
    { apply (process_from_settles env readAsDataURL clock selectedFiles []
               (imap (placeholder now) selectedFiles));
        [apply length_imap | reflexivity]. }
    intros page1 (new & Hnew & Hres & Hc & Hsf & Ht & Hstore & Hsettings).
    apply ensures_ret. simpl in *.
    rewrite Hres. repeat split; try assumption; try lia.
  - intros Hall. unfold startBatchProcessing. fold selectedFiles. cbv zeta.
    eapply ensures_bind with (Q := fun _ => True);
      [apply process_from_returns; exact Hall|].
    intros; apply ensures_ret; exact I.
  - intros w. eexists. split; [reflexivity|]. simpl.
    split; [reflexivity|]. split; [|split; reflexivity].
    change (Forall (fun r => status r = pending)
              (imap (placeholder now) selectedFiles)).
    apply Forall_forall. intros r Hr.
    apply elem_of_lookup_imap_1 in Hr as (i & f & -> & _). reflexivity.
Qed.

Lemma batch_statistics_add_up_witness :
  exists page' w',
    startBatchProcessing scanner_env read_name even_clock (fun _ => 1000) false
      [a_file "a.png"; a_file "b.png"] blank_page fresh_world
    = (Ok page', w')
    /\ completed (processingStats page') = 2%nat
    /\ (succeeded (processingStats page') + failures (processingStats page'))%nat
       = 2%nat
    /\ length (results (store page')) = 2%nat.
Proof.
  destruct (batch_statistics_add_up scanner_env read_name even_clock
              (fun _ => 1000) [a_file "a.png"; a_file "b.png"] blank_page)
    as (Hrun & _ & _); [discriminate|].
  specialize (Hrun fresh_world).
  destruct (startBatchProcessing scanner_env read_name even_clock
              (fun _ => 1000) false [a_file "a.png"; a_file "b.png"]
              blank_page fresh_world) as [o w'] eqn:Hout.
  vm_compute in Hout. injection Hout as <- <-.
  cbv zeta in Hrun. destruct Hrun as (_ & Hc & Hsf & _ & Hstore & _).
  eexists _, _. split; [reflexivity|].
  split; [exact Hc|]. split; [exact Hsf|]. rewrite Hstore. reflexivity.
Defined.

End BatchPage.

Section Retry.
Import Store Page.

Lemma findIndex_lookup (rows : list RecognitionResult) :
  forall (k : nat) (r : RecognitionResult),
    NoDup (id <$> rows) -> rows !! k = Some r ->
    findIndex (id r) rows = Some k.
Proof.
  induction rows as [|row rows IH]; intros k r Hnd Hk; [discriminate Hk|].
  rewrite fmap_cons in Hnd. apply NoDup_cons in Hnd as [Hrow Hnd].
  destruct k as [|k]; simpl in *.
  - injection Hk as ->. rewrite bool_decide_eq_true_2 by reflexivity.
    reflexivity.
  - rewrite bool_decide_eq_false_2.
    + rewrite (IH k r Hnd Hk). reflexivity.
    + intros Heq. apply Hrow. rewrite Heq.
      apply list_elem_of_fmap. exists r.
      split; [reflexivity | eapply list_elem_of_lookup_2; exact Hk].
Qed.

Lemma findIndex_absent (rows : list RecognitionResult) (i : jsstring) :
  i ∉ (id <$> rows) -> findIndex i rows = None.
Proof.
  induction rows as [|row rows IH]; intros Hno; [reflexivity|].
  rewrite fmap_cons in Hno. apply not_elem_of_cons in Hno as [Hne Hno].
  simpl. rewrite bool_decide_eq_false_2 by congruence.
  rewrite (IH Hno). reflexivity.
Qed.

Lemma removeRow_delete (rows : list RecognitionResult) :
  forall (j : nat) (r : RecognitionResult),
    NoDup (id <$> rows) -> rows !! j = Some r ->
    removeRow (id r) rows = delete j rows.
Proof.
  unfold removeRow.
  induction rows as [|row rows IH]; intros j r Hnd Hj; [discriminate Hj|].
  rewrite fmap_cons in Hnd. apply NoDup_cons in Hnd as [Hrow Hnd].
  destruct j as [|j]; simpl in Hj.
  - injection Hj as ->. rewrite filter_cons_False by (intros H; apply H; reflexivity).
    simpl. apply filter_keeps_all. intros x Hx Heq. apply Hrow. rewrite <- Heq.
    apply list_elem_of_fmap. exists x. split; [reflexivity | exact Hx].
  - rewrite filter_cons_True.
    + simpl. f_equal. apply IH; assumption.
    + intros Heq. apply Hrow. rewrite Heq.
      apply list_elem_of_fmap. exists r.
      split; [reflexivity | eapply list_elem_of_lookup_2; exact Hj].
Qed.

(** X22. On the batch page the rows and the files are matched by
  position. With distinct row ids, retrying a row processes the file at
  the row's position. After a row was removed the rows behind it have
  moved up while the files have not: retrying the row that was at
  position k behind the removed one processes the file at k - 1, the
  file of its predecessor; rows in front of the removed one keep their
  file, and the removed row can no longer be retried. *)
Theorem retry_after_removal_shifts_files (rows : list RecognitionResult)
    (selectedFiles : list Upload.File) (j k : nat) (rj rk : RecognitionResult) :
  NoDup (id <$> rows) ->
  rows !! j = Some rj -> rows !! k = Some rk ->
  retry_file rows selectedFiles (id rk) = selectedFiles !! k
  /\ retry_file (removeRow (id rj) rows) selectedFiles (id rj) = None
  /\ ((j < k)%nat ->
      retry_file (removeRow (id rj) rows) selectedFiles (id rk)
      = selectedFiles !! (k - 1)%nat)
  /\ ((k < j)%nat ->
      retry_file (removeRow (id rj) rows) selectedFiles (id rk)
      = selectedFiles !! k).
Proof.
  intros Hnd Hj Hk. unfold retry_file.
  rewrite (findIndex_lookup rows k rk Hnd Hk).
  split; [reflexivity|].
  rewrite (removeRow_delete rows j rj Hnd Hj).
  assert (Hnd' : NoDup (id <$> delete j rows)).
  { eapply sublist_NoDup; [exact Hnd|]. apply fmap_sublist, sublist_delete. }
  split; [|split].
  - rewrite findIndex_absent; [reflexivity|].
    rewrite <- (removeRow_delete rows j rj Hnd Hj). unfold removeRow.
    intros Hin. apply list_elem_of_fmap in Hin as (x & Hx & Hin).
    apply list_elem_of_filter in Hin as [Hne _]. congruence.
  - intros Hlt.
    assert (Hk' : delete j rows !! (k - 1)%nat = Some rk).
    { rewrite list_lookup_delete_ge by lia.
      replace (S (k - 1)) with k by lia. exact Hk. }
    rewrite (findIndex_lookup _ _ _ Hnd' Hk'). reflexivity.
  - intros Hlt.
    assert (Hk' : delete j rows !! k = Some rk)
      by (rewrite list_lookup_delete_lt by lia; exact Hk).
    rewrite (findIndex_lookup _ _ _ Hnd' Hk'). reflexivity.
Qed.

Lemma retry_after_removal_shifts_files_witness :
  retry_file
    (removeRow (js "1000-0")
       [placeholder (fun _ => 1000) 0 (a_file "a.png");
        placeholder (fun _ => 1000) 1 (a_file "b.png")])
    [a_file "a.png"; a_file "b.png"] (js "1000-1")
  = Some (a_file "a.png").
Proof.
  destruct (retry_after_removal_shifts_files
              [placeholder (fun _ => 1000) 0 (a_file "a.png");
               placeholder (fun _ => 1000) 1 (a_file "b.png")]
              [a_file "a.png"; a_file "b.png"] 0 1
              (placeholder (fun _ => 1000) 0 (a_file "a.png"))
              (placeholder (fun _ => 1000) 1 (a_file "b.png")))
    as (_ & _ & Hshift & _); [|reflexivity|reflexivity|].
  - vm_compute. repeat constructor; [|intros H; inversion H].
    intros H. apply elem_of_cons in H as [H|H]; [discriminate H | inversion H].
  - apply Hshift. lia.
Defined.

End Retry.

(** ** The grid of the region scan *)

Lemma elem_of_regions (width height : Q) (r : Region) :
  r ∈ regions width height ->
  exists i j : Z,
    0 <= i <= 2 /\ 0 <= j <= 2
    /\ (reg_x r == inject_Z i * width / 3 /\ reg_y r == inject_Z j * height / 3
        /\ reg_w r == width / 3 /\ reg_h r == height / 3)%Q.
Proof.
  unfold regions. intros Hin.
  repeat (apply elem_of_cons in Hin as [-> | Hin];
          [first
             [ exists 0, 0; simpl; repeat split; try lia; field
             | exists 1, 0; simpl; repeat split; try lia; field
             | exists 2, 0; simpl; repeat split; try lia; field
             | exists 0, 1; simpl; repeat split; try lia; field
             | exists 1, 1; simpl; repeat split; try lia; field
             | exists 2, 1; simpl; repeat split; try lia; field
             | exists 0, 2; simpl; repeat split; try lia; field
             | exists 1, 2; simpl; repeat split; try lia; field
             | exists 2, 2; simpl; repeat split; try lia; field ]|]).
  inversion Hin.
Qed.

Ltac thirds :=
  unfold Qdiv in *; change (/ 3)%Q with (1 # 3)%Q in *; lra.

Lemma third_index_cases (i : Z) : 0 <= i <= 2 -> i = 0 \/ i = 1 \/ i = 2.
Proof. lia. Qed.

Lemma region_column_unique (width px : Q) (i i' : Z) :
  (0 < width)%Q -> 0 <= i <= 2 -> 0 <= i' <= 2 ->
  (inject_Z i * width / 3 <= px)%Q ->
  (px < inject_Z i * width / 3 + width / 3)%Q ->
  (inject_Z i' * width / 3 <= px)%Q ->
  (px < inject_Z i' * width / 3 + width / 3)%Q ->
  i = i'.
Proof.
  intros Hw Hi Hi' H1 H2 H3 H4.
  destruct (third_index_cases i Hi) as [-> | [-> | ->]];
    destruct (third_index_cases i' Hi') as [-> | [-> | ->]];
    try reflexivity; exfalso;
    change (inject_Z 0) with 0%Q in *; change (inject_Z 1) with 1%Q in *;
    change (inject_Z 2) with 2%Q in *; thirds.
Qed.

(** X23. The nine regions of the region scan tile the canvas: on a
  canvas of positive size every region lies inside the canvas, every
  point of the canvas lies in a region, and two regions holding the
  same point are the same region. *)
Theorem regions_tile_the_canvas (width height px py : Q) :
  (0 < width)%Q -> (0 < height)%Q ->
  (0 <= px)%Q -> (px < width)%Q -> (0 <= py)%Q -> (py < height)%Q ->
  length (regions width height) = 9%nat
  /\ (forall r, r ∈ regions width height ->
        (0 <= reg_x r /\ reg_x r + reg_w r <= width
         /\ 0 <= reg_y r /\ reg_y r + reg_h r <= height)%Q)
  /\ (exists r, r ∈ regions width height /\ in_region r px py)
  /\ (forall r1 r2,
        r1 ∈ regions width height -> r2 ∈ regions width height ->
        in_region r1 px py -> in_region r2 px py -> same_region r1 r2).
Proof.
  intros Hw Hh Hx0 Hx1 Hy0 Hy1.
  split; [reflexivity|]. split; [|split].
  - intros r Hr.
    destruct (elem_of_regions _ _ _ Hr)
      as (i & j & Hi & Hj & Ex & Ey & Ew & Eh).
    rewrite Ex, Ey, Ew, Eh.
    destruct (third_index_cases i Hi) as [-> | [-> | ->]];
      destruct (third_index_cases j Hj) as [-> | [-> | ->]];
      change (inject_Z 0) with 0%Q; change (inject_Z 1) with 1%Q;
      change (inject_Z 2) with 2%Q; thirds.
  - unfold regions, in_region.
    destruct (Qlt_le_dec px (width / 3)) as [Hx | Hx];
      [|destruct (Qlt_le_dec px (2 * width / 3)) as [Hx' | Hx']];
      (destruct (Qlt_le_dec py (height / 3)) as [Hy | Hy];
       [|destruct (Qlt_le_dec py (2 * height / 3)) as [Hy' | Hy']]).
    + eexists. split; [apply list_elem_of_lookup_2 with 0%nat; reflexivity|].
      simpl. thirds.
    + eexists. split; [apply list_elem_of_lookup_2 with 3%nat; reflexivity|].
      simpl. thirds.
    + eexists. split; [apply list_elem_of_lookup_2 with 6%nat; reflexivity|].
      simpl. thirds.
    + eexists. split; [apply list_elem_of_lookup_2 with 1%nat; reflexivity|].
      simpl. thirds.
    + eexists. split; [apply list_elem_of_lookup_2 with 4%nat; reflexivity|].
      simpl. thirds.
    + eexists. split; [apply list_elem_of_lookup_2 with 7%nat; reflexivity|].
      simpl. thirds.
    + eexists. split; [apply list_elem_of_lookup_2 with 2%nat; reflexivity|].
      simpl. thirds.
    + eexists. split; [apply list_elem_of_lookup_2 with 5%nat; reflexivity|].
      simpl. thirds.
    + eexists. split; [apply list_elem_of_lookup_2 with 8%nat; reflexivity|].
      simpl. thirds.
  - intros r1 r2 Hr1 Hr2 (A1 & A2 & A3 & A4) (B1 & B2 & B3 & B4).
    destruct (elem_of_regions _ _ _ Hr1)
      as (i & j & Hi & Hj & Ex & Ey & Ew & Eh).
    destruct (elem_of_regions _ _ _ Hr2)
      as (i' & j' & Hi' & Hj' & Ex' & Ey' & Ew' & Eh').
    rewrite Ex in A1, A2. rewrite Ew in A2. rewrite Ey in A3, A4. rewrite Eh in A4.
    rewrite Ex' in B1, B2. rewrite Ew' in B2. rewrite Ey' in B3, B4. rewrite Eh' in B4.
    assert (i = i') as <- by (eapply (region_column_unique width px); eassumption).
    assert (j = j') as <- by (eapply (region_column_unique height py); eassumption).
    unfold same_region. rewrite Ex, Ex', Ey, Ey', Ew, Ew', Eh, Eh'.
    repeat split; reflexivity.
Qed.

Lemma regions_tile_the_canvas_witness :
  length (regions 300 150) = 9%nat
  /\ (forall r, r ∈ regions 300 150 ->
        (0 <= reg_x r /\ reg_x r + reg_w r <= 300
         /\ 0 <= reg_y r /\ reg_y r + reg_h r <= 150)%Q)
  /\ (exists r, r ∈ regions 300 150 /\ in_region r 100 149)
  /\ (forall r1 r2,
        r1 ∈ regions 300 150 -> r2 ∈ regions 300 150 ->
        in_region r1 100 149 -> in_region r2 100 149 -> same_region r1 r2).
Proof.
  apply (regions_tile_the_canvas 300 150 100 149); reflexivity || discriminate.
Defined.

(** ** The settings page *)

Section SettingsLaws.
Import Store SettingsPage.

Lemma spread_every (old s : AppSettings) : spread old (every s) = s.
Proof. destruct s; reflexivity. Qed.

Lemma session_snoc (actions : list Action) (a : Action) (page : Page) :
  session (actions ++ [a]) page = act (session actions page) a.
Proof. unfold session. rewrite foldl_app. reflexivity. Qed.

Lemma existsb_snoc {A} (f : A -> bool) (l : list A) (a : A) :
  existsb f (l ++ [a]) = existsb f l || f a.
Proof. rewrite existsb_app. simpl. rewrite orb_false_r. reflexivity. Qed.

(** Whenever the page shows no unsaved change, the store holds the
  settings the page shows. *)
Lemma session_in_sync (actions : list Action) (page : Page) :
  (hasChanges page = false -> settings (store page) = localSettings page) ->
  hasChanges (session actions page) = false ->
  settings (store (session actions page)) = localSettings (session actions page).
Proof.
  induction actions as [|a actions IH] using rev_ind; intros Hpage.
  - exact Hpage.
  - rewrite session_snoc. specialize (IH Hpage).
    destruct a as [c | | [|] | [|]]; simpl; try discriminate; try exact IH.
    + intros _. apply spread_every.
    + intros _. apply spread_every.
Qed.

Lemma session_formats (actions : list Action) (page : Page) :
  Forall (fun a => offered a = true) actions ->
  qrCodeFormats (settings (store page)) = qrCodeFormats (localSettings page) ->
  qrCodeFormats (localSettings (session actions page))
  = (if existsb is_reset actions then [QR_CODE; DATA_MATRIX; AZTEC]
     else qrCodeFormats (localSettings page))
  /\ qrCodeFormats (settings (store (session actions page)))
     = qrCodeFormats (localSettings (session actions page)).
Proof.
  induction actions as [|a actions IH] using rev_ind; intros Hoff Hpage.
  - split; [reflexivity | exact Hpage].
  - apply Forall_app in Hoff as [Hoff Ha].
    apply Forall_cons_1 in Ha as [Ha _].
    destruct (IH Hoff Hpage) as [IH1 IH2].
    rewrite session_snoc, existsb_snoc.
    destruct a as [c | | [|] | [|]]; simpl;
      rewrite ?orb_false_r, ?orb_true_r; try (split; assumption).
    + destruct c; try discriminate Ha; simpl; split; assumption.
    + split; [exact IH1 | reflexivity].
    + split; reflexivity.
Qed.

Lemma session_history (actions : list Action) (page : Page) :
  results (store (session actions page))
  = if existsb is_clear actions then [] else results (store page).
Proof.
  induction actions as [|a actions IH] using rev_ind.
  - reflexivity.
  - rewrite session_snoc, existsb_snoc.
    destruct a as [c | | [|] | [|]]; simpl;
      rewrite ?orb_false_r, ?orb_true_r; try exact IH.
    reflexivity.
Qed.

(** X24. A session on the settings page, started on any store, with
  the changes the page's controls can make.  The store's settings are
  those shown by the page whenever the page reports no unsaved change;
  changes alone never reach the store; the history is emptied by a
  confirmed clearing and is otherwise as it was; the list of formats is
  changed by a confirmed reset only, which sets it to three formats, so
  that once a reset has been confirmed neither the page nor the store
  holds the settings of a fresh store again: the values of a reset are
  those of a fresh store except for the formats and the sound. *)
Theorem settings_session_laws (store0 : AppState) (actions : list Action) :
  Forall (fun a => offered a = true) actions ->
  let page := session actions (mount store0) in
  (hasChanges page = false -> settings (store page) = localSettings page)
  /\ (forall changes : list Change,
        store (session (change <$> changes) page) = store page)
  /\ results (store page)
     = (if existsb is_clear actions then [] else results store0)
  /\ qrCodeFormats (settings (store page))
     = (if existsb is_reset actions then [QR_CODE; DATA_MATRIX; AZTEC]
        else qrCodeFormats (settings store0))
  /\ qrCodeFormats (localSettings page) = qrCodeFormats (settings (store page))
  /\ (existsb is_reset actions = true ->
      settings (store page) <> defaultSettings
      /\ localSettings page <> defaultSettings)
  /\ reset_settings
     = spread defaultSettings
         (combine (keyed (set_qrCodeFormats [QR_CODE; DATA_MATRIX; AZTEC]))
                  (keyed (set_enableSound true))).
Proof.
  intros Hoff page.
  destruct (session_formats actions (mount store0) Hoff eq_refl) as [F1 F2].
  fold page in F1, F2. simpl in F1.
  repeat split.
  - apply session_in_sync. intros _. reflexivity.
  - intros changes. generalize page.
    induction changes as [|c changes IH] using rev_ind; intros p.
    + reflexivity.
    + rewrite fmap_app. simpl. rewrite session_snoc. simpl. apply IH.
  - apply session_history.
  - rewrite F2. exact F1.
  - symmetry. exact F2.
  - rewrite H in F1. intros E.
    apply (f_equal qrCodeFormats) in E. rewrite F2, F1 in E. discriminate E.
  - rewrite H in F1. intros E. rewrite E in F1. discriminate F1.
Qed.

Lemma settings_session_laws_witness :
  let actions := [change (set_enableSound true); save; reset true;
                  change (set_language en_US); clear true; save] in
  let page := session actions (mount initial) in
  (hasChanges page = false -> settings (store page) = localSettings page)
  /\ (forall changes : list Change,
        store (session (change <$> changes) page) = store page)
  /\ results (store page)
     = (if existsb is_clear actions then [] else results initial)
  /\ qrCodeFormats (settings (store page))
     = (if existsb is_reset actions then [QR_CODE; DATA_MATRIX; AZTEC]
        else qrCodeFormats (settings initial))
  /\ qrCodeFormats (localSettings page) = qrCodeFormats (settings (store page))
  /\ (existsb is_reset actions = true ->
      settings (store page) <> defaultSettings
      /\ localSettings page <> defaultSettings)
  /\ reset_settings
     = spread defaultSettings
         (combine (keyed (set_qrCodeFormats [QR_CODE; DATA_MATRIX; AZTEC]))
                  (keyed (set_enableSound true))).
Proof.
  apply (settings_session_laws initial).
  repeat constructor.
Defined.

End SettingsLaws.

(** ** The home page *)

Section Home.
Import Store HomePage.

Lemma recognize_and_add_recorded env clk imageData fileName home :
  ensures (recognize_and_add env clk imageData fileName home)
    (fun home' =>
       showCamera home' = showCamera home
       /\ isProcessing home' = isProcessing home
       /\ recorded env clk imageData fileName home (setIsProcessing false home'))
    False True.
Proof.
  unfold recognize_and_add.
  eapply ensures_bind; [apply recognizeMultiple_genuine|].
  intros multiResult [Htotal Hgen].
  destruct (Orchestrator.results multiResult) as [|first rest] eqn:Hres.
  - eapply ensures_bind.
    { eapply ensures_weaken with (P' := fun _ => True) (T := False) (H := False);
        [apply ensures_recognizeImage | auto | auto | auto]. }
    intros result _. cbv zeta.
    destruct (Recognizer.serialNumber result) as [|c sn] eqn:Hsn; simpl;
      apply ensures_ret; unfold recorded; simpl;
      (split; [reflexivity|]); (split; [reflexivity|]);
      (split; [reflexivity|]); (split; [reflexivity|]);
      eexists; eexists; (split; [reflexivity|]); (split; [reflexivity|]);
      simpl; rewrite ?Hsn; simpl; repeat split;
      try discriminate; try reflexivity.
  - cbv zeta.
    assert (Hrow : forall t,
      recorded env clk imageData fileName home
        (setIsProcessing false
           (toast (toast_success t)
              (add {| id := string_of_Z (h_id clk); image := imageData;
                      serialNumber := Recognizer.serialNumber first;
                      confidence := Recognizer.confidence first;
                      status := success;
                      timestamp := h_timestamp clk;
                      processingTime := Some (multi_processingTime multiResult);
                      originalFileName := fileName;
                      qrType := Some (Recognizer.qrType first);
                      qrDescription := Some (Recognizer.qrDescription first);
                      qrResults := Some (first :: rest);
                      totalFound := Some (Orchestrator.totalFound multiResult) |}
                 home)))).
    { intros t. unfold recorded; simpl.
      split; [reflexivity|]. split; [reflexivity|].
      eexists; eexists. split; [reflexivity|]. split; [reflexivity|].
      simpl. repeat split; try discriminate; try reflexivity.
      - intros E; inversion E; subst; discriminate.
      - inversion H; subst. rewrite Htotal. reflexivity.
      - inversion H; subst. exact Hgen. }
    destruct rest as [|second rest]; apply ensures_ret;
      (split; [reflexivity|]); (split; [reflexivity|]); apply Hrow.
Qed.

Lemma recognize_and_add_returns env clk imageData fileName home :
  sized env imageData ->
  ensures (recognize_and_add env clk imageData fileName home) (fun _ => True)
    False False.
Proof.
  intros Hsized. unfold recognize_and_add.
  eapply ensures_bind; [apply recognizeMultiple_returns; exact Hsized|].
  intros multiResult _.
  destruct (Orchestrator.results multiResult) as [|first rest].
  - eapply ensures_bind; [apply ensures_recognizeImage|].
    intros result _. cbv zeta.
    destruct (falsy (Recognizer.serialNumber result)); apply ensures_ret; exact I.
  - cbv zeta. destruct rest; apply ensures_ret; exact I.
Qed.

Lemma guarded_recorded env clk imageData fileName home :
  ensures (guarded env clk imageData fileName home)
    (fun home' =>
       showCamera home' = showCamera home
       /\ recorded env clk imageData fileName home home')
    False (~ sized env imageData).
Proof.
  apply ensures_unless.
  - unfold guarded. eapply ensures_bind.
    { apply ensures_try_catch with (T' := False);
        [apply recognize_and_add_recorded | intros e []]. }
    intros home' (Hcam & _ & Hrec). apply ensures_ret.
    split; [exact Hcam | exact Hrec].
  - intros Hsized. unfold guarded. eapply ensures_bind.
    { apply ensures_try_catch with (T' := False);
        [apply recognize_and_add_returns; exact Hsized | intros e []]. }
    intros home' _. apply ensures_ret. exact I.
Qed.

(** X25. The two handlers of the home page that recognize an image.
  Neither ever throws, and the toast of the [catch] block is never
  shown. A camera capture whose recognition ends closes the camera,
  clears the processing flag and leaves exactly one more row in the
  history and one more toast, the settings untouched: the row has the
  clock reading as id, the captured image and no file name, and is
  never pending; the toast is a success exactly when the row is; a
  failed row has an empty payload and no list of codes; a row with a
  list of codes is a success whose list is not empty, has its length
  as total and holds records of decodes only. File selection does
  nothing without a file, only shows an error toast when the first
  file is not an image by its type, and otherwise records the first
  file alone in the same way, with its name. The recognition ends
  when the image, if it loads, has a width and a height (and, for a
  file, the reader loads it). *)
Theorem home_handlers_record_one_row (env : Env)
    (readAsDataURL : Upload.File -> option jsstring) (clk : HomeClock)
    (home : HomeState) :
  (forall imageData,
     ensures (handleCameraCapture env clk imageData home)
       (fun home' =>
          showCamera home' = false
          /\ recorded env clk imageData None home home')
       False (~ sized env imageData))
  /\ (forall files,
        ensures (handleFileSelect env readAsDataURL clk files home)
          (fun home' =>
             match files with
             | Some (file :: _) =>
               if starts_with (js "image/") (Upload.type file) then
                 showCamera home' = showCamera home
                 /\ exists imageData,
                      readAsDataURL file = Some imageData
                      /\ recorded env clk imageData (Some (Upload.name file))
                           home home'
               else
                 store home' = store home
                 /\ isProcessing home' = isProcessing home
                 /\ showCamera home' = showCamera home
                 /\ exists t, toasts home' = t :: toasts home
                              /\ is_success t = false
             | _ => home' = home
             end)
          False
          (exists file rest,
             files = Some (file :: rest)
             /\ starts_with (js "image/") (Upload.type file) = true
             /\ ~ can_finish env readAsDataURL file)).
Proof.
  split.
  - intros imageData. unfold handleCameraCapture. cbv zeta.
    eapply ensures_weaken; [apply guarded_recorded | | auto | auto].
    intros home' [Hcam Hrec]. split; [exact Hcam | exact Hrec].
  - intros files. unfold handleFileSelect.
    destruct files as [[|file rest]|];
      [apply ensures_ret; reflexivity | | apply ensures_ret; reflexivity].
    destruct (starts_with (js "image/") (Upload.type file)) eqn:Htype; simpl.
    + destruct (readAsDataURL file) as [imageData|] eqn:Hread.
      * eapply ensures_weaken; [apply guarded_recorded | | auto |].
        -- intros home' [Hcam Hrec]. split; [exact Hcam|].
           exists imageData. split; [reflexivity | exact Hrec].
        -- intros Hsized. exists file, rest.
           split; [reflexivity|]. split; [exact Htype|].
           intros (imageData' & Hread' & Hsized').
           rewrite Hread in Hread'. injection Hread' as <-.
           exact (Hsized Hsized').
      * apply ensures_hang. exists file, rest.
        split; [reflexivity|]. split; [exact Htype|].
        intros (imageData' & Hread' & _). rewrite Hread in Hread'.
        discriminate Hread'.
    + apply ensures_ret. repeat split. eexists. split; reflexivity.
Qed.

Lemma home_handlers_record_one_row_witness :
  exists home' w',
    handleCameraCapture unreadable_env steady_clock (js "data:x") camera_open
      fresh_world = (Ok home', w')
    /\ showCamera home' = false /\ isProcessing home' = false
    /\ (status <$> results (store home')) = [failed]
    /\ toasts home' = [toast_error (js "未能识别出二维码")].
Proof.
  destruct (home_handlers_record_one_row unreadable_env read_name steady_clock
              camera_open) as [Hcapture _].
  specialize (Hcapture (js "data:x") fresh_world).
  destruct (handleCameraCapture unreadable_env steady_clock (js "data:x")
              camera_open fresh_world) as [o w'] eqn:Hrun.
  vm_compute in Hrun. injection Hrun as <- <-. simpl in Hcapture.
  destruct Hcapture as (Hcam & Hflag & _).
  eexists _, _. split; [reflexivity|].
  split; [exact Hcam|]. split; [exact Hflag|].
  split; reflexivity.
Defined.

End Home.

(** ** Copying and sharing the results *)

Section CopyAndShare.
Import Store Display.

Lemma falsy_nil (s : jsstring) : falsy s = true <-> s = [].
Proof. destruct s; simpl; split; congruence. Qed.

Lemma elem_of_payloads (results : list RecognitionResult) (p : jsstring) :
  p ∈ payloads results
  <-> p <> [] /\ exists row, row ∈ results /\ status row = success /\ shows row p.
Proof.
  unfold payloads, allQRData, successResults.
  rewrite list_elem_of_filter, list_elem_of_bind. split.
  - intros (Hp & row & Hin & Hrow).
    apply list_elem_of_filter in Hrow as [Hok Hrow].
    split; [intros ->; discriminate Hp|].
    exists row. split; [exact Hrow|].
    split; [unfold is_success in Hok; destruct (status row); congruence|].
    unfold row_data in Hin. unfold shows.
    destruct (qrResults row) as [[|qr qrs]|].
    + destruct (falsy (serialNumber row)); [inversion Hin|].
      apply list_elem_of_singleton in Hin. congruence.
    + apply list_elem_of_fmap in Hin as (q & -> & Hq). exists q. tauto.
    + destruct (falsy (serialNumber row)); [inversion Hin|].
      apply list_elem_of_singleton in Hin. congruence.
  - intros (Hp & row & Hrow & Hok & Hshows).
    split; [destruct p; [contradiction | reflexivity]|].
    exists row. split.
    + unfold row_data. unfold shows in Hshows.
      assert (Hfalsy : falsy p = false) by (destruct p; [contradiction | reflexivity]).
      destruct (qrResults row) as [[|qr qrs]|].
      * rewrite Hshows, Hfalsy. apply list_elem_of_singleton. reflexivity.
      * destruct Hshows as (q & Hq & <-). apply list_elem_of_fmap. exists q. tauto.
      * rewrite Hshows, Hfalsy. apply list_elem_of_singleton. reflexivity.
    + apply list_elem_of_filter. split; [|exact Hrow].
      unfold is_success. rewrite Hok. reflexivity.
Qed.

Lemma payloads_not_empty (results : list RecognitionResult) :
  Forall (fun p => p <> []) (payloads results).
Proof.
  apply Forall_forall. intros p Hp. apply elem_of_payloads in Hp. tauto.
Qed.

Lemma join_empty (sep : jsstring) (ps : list jsstring) :
  Forall (fun p => p <> []) ps -> join sep ps = [] <-> ps = [].
Proof.
  intros Hps. split; [|intros ->; reflexivity].
  destruct Hps as [|p ps Hp Hps]; [reflexivity|].
  destruct p as [|c p]; [contradiction|].
  destruct ps; simpl; discriminate.
Qed.

Lemma split_on_line (sep : N) (p : jsstring) :
  sep ∉ p -> split_on sep p = [p].
Proof.
  induction p as [|c p IH]; intros Hp; [reflexivity|].
  simpl. apply not_elem_of_cons in Hp as [Hc Hp].
  destruct (N.eqb_spec c sep) as [->|_]; [contradiction|].
  rewrite (IH Hp). reflexivity.
Qed.

Lemma split_on_first_line (sep : N) (p rest : jsstring) :
  sep ∉ p -> split_on sep (p ++ sep :: rest) = p :: split_on sep rest.
Proof.
  induction p as [|c p IH]; intros Hp.
  - simpl. rewrite N.eqb_refl. reflexivity.
  - simpl. apply not_elem_of_cons in Hp as [Hc Hp].
    destruct (N.eqb_spec c sep) as [->|_]; [contradiction|].
    rewrite (IH Hp). reflexivity.
Qed.

Lemma split_join (sep : N) (ps : list jsstring) :
  Forall (fun p => sep ∉ p) ps -> ps <> [] ->
  split_on sep (join [sep] ps) = ps.
Proof.
  induction 1 as [|p ps Hp Hps IH]; intros Hne; [contradiction|].
  destruct ps as [|q ps].
  - simpl. apply split_on_line. exact Hp.
  - change (join [sep] (p :: q :: ps)) with (p ++ sep :: join [sep] (q :: ps)).
    rewrite (split_on_first_line _ _ _ Hp), IH; [reflexivity | discriminate].
Qed.

(** X26. Copying and sharing all results. The text is the payloads
  joined by line feeds, where the payloads are exactly the non-empty
  payloads shown by the successful rows (the codes of a row with a
  list of codes, else the row's own payload); rows that failed or are
  pending contribute nothing. When no payload holds a line feed,
  splitting the text at the line feeds gives the payloads back. The
  copy button refuses exactly when there is no payload, and otherwise
  writes the text, which is not empty, if the clipboard accepts it.
  The share button never both shares and writes; with no payload it
  does not refuse but writes the empty text to the clipboard and
  reports a copy. *)
Theorem copy_and_share_payloads (writeText : jsstring -> bool)
    (canShare : bool) (share : jsstring -> bool)
    (results : list RecognitionResult) :
  (forall p,
     p ∈ payloads results
     <-> p <> [] /\ exists row, row ∈ results /\ status row = success
                                /\ shows row p)
  /\ (serialNumbers results = [] <-> payloads results = [])
  /\ (Forall (fun p => line_feed ∉ p) (payloads results) ->
      payloads results <> [] ->
      split_on line_feed (serialNumbers results) = payloads results)
  /\ (notice (copyAllSerialNumbers writeText results) = Some nothing_to_copy
      <-> payloads results = [])
  /\ (forall text,
        written (copyAllSerialNumbers writeText results) = Some text ->
        text = serialNumbers results /\ text <> []
        /\ writeText text = true)
  /\ (forall text,
        shared (shareResults writeText canShare share results) = Some text ->
        text = serialNumbers results /\ text <> []
        /\ written (shareResults writeText canShare share results) = None)
  /\ (payloads results = [] ->
      shareResults writeText canShare share results = copyToClipboard writeText []
      /\ (writeText [] = true ->
          written (shareResults writeText canShare share results) = Some []
          /\ written (copyAllSerialNumbers writeText results) = None)).
Proof.
  pose proof (join_empty [line_feed] _ (payloads_not_empty results)) as Hempty.
  fold (serialNumbers results) in Hempty.
  split; [apply elem_of_payloads|].
  split; [exact Hempty|].
  split; [apply split_join|].
  split; [|split; [|split]].
  - unfold copyAllSerialNumbers. cbv zeta.
    destruct (falsy (serialNumbers results)) eqn:Hfalsy.
    + apply falsy_nil in Hfalsy. simpl. tauto.
    + unfold copyToClipboard. split.
      * destruct (writeText _); discriminate.
      * intros Hnone. apply Hempty in Hnone. rewrite Hnone in Hfalsy.
        discriminate Hfalsy.
  - intros text. unfold copyAllSerialNumbers. cbv zeta.
    destruct (falsy (serialNumbers results)) eqn:Hfalsy; [discriminate|].
    unfold copyToClipboard.
    destruct (writeText (serialNumbers results)) eqn:Hwrite; [|discriminate].
    simpl. intros [= <-]. split; [reflexivity|]. split; [|exact Hwrite].
    intros E. rewrite E in Hfalsy. discriminate Hfalsy.
  - intros text. unfold shareResults. cbv zeta.
    destruct canShare, (falsy (serialNumbers results)) eqn:Hfalsy; simpl;
      unfold copyToClipboard;
      try (destruct (writeText _); discriminate).
    destruct (share (serialNumbers results)).
    + simpl. intros [= <-]. split; [reflexivity|]. split; [|reflexivity].
      intros E. rewrite E in Hfalsy. discriminate Hfalsy.
    + destruct (writeText _); discriminate.
  - intros Hnone. apply Hempty in Hnone.
    unfold shareResults, copyAllSerialNumbers. cbv zeta. rewrite Hnone.
    simpl. rewrite andb_false_r. split; [reflexivity|].
    intros Hwrite. unfold copyToClipboard. rewrite Hwrite. split; reflexivity.
Qed.

Lemma copy_and_share_payloads_witness :
  payloads sample_rows = [js "A"; js "B"; js "C"]
  /\ split_on line_feed (serialNumbers sample_rows) = payloads sample_rows
  /\ written (shareResults (fun _ => true) true (fun _ => false) [])
     = Some [].
Proof.
  destruct (copy_and_share_payloads (fun _ => true) true (fun _ => false)
              sample_rows) as (_ & _ & Hsplit & _).
  destruct (copy_and_share_payloads (fun _ => true) true (fun _ => false) [])
    as (_ & _ & _ & _ & _ & _ & Hnone).
  split; [vm_compute; reflexivity|]. split.
  - apply Hsplit; [|vm_compute; discriminate].
    assert (Hp : payloads sample_rows = [[65]; [66]; [67]]%N)
      by (vm_compute; reflexivity).
    rewrite Hp.
    assert (Hline : forall c : N, c <> line_feed -> line_feed ∉ [c]).
    { intros c Hc H. apply list_elem_of_singleton in H. congruence. }
    constructor; [apply Hline; discriminate|].
    constructor; [apply Hline; discriminate|].
    constructor; [apply Hline; discriminate|].
    constructor.
  - apply Hnone; reflexivity.
Defined.

End CopyAndShare.

(** ** The history page *)

Section History.
Import Store HistoryPage.

Lemma insert_sorted_perm {A} (le : A -> A -> bool) (a : A) (l : list A) :
  insert_sorted le a l ≡ₚ a :: l.
Proof.
  induction l as [|b l IH]; simpl; [reflexivity|].
  destruct (le a b); [reflexivity|].
  rewrite IH. apply Permutation_swap.
Qed.

Lemma sort_perm {A} (le : A -> A -> bool) (l : list A) : sort le l ≡ₚ l.
Proof.
  induction l as [|a l IH]; simpl; [reflexivity|].
  rewrite insert_sorted_perm. fold (sort le l). rewrite IH. reflexivity.
Qed.

Lemma before_total (sortType : SortType) (a b : RecognitionResult) :
  before sortType a b = false -> before sortType b a = true.
Proof.
  destruct sortType; simpl.
  - intros H. apply Z.leb_gt in H. apply Z.leb_le. lia.
  - intros H. apply Z.leb_gt in H. apply Z.leb_le. lia.
  - intros H. apply Qle_bool_iff.
    destruct (Qlt_le_dec 0 (confidence b - confidence a)) as [Hlt|Hle].
    + lra.
    + apply Qle_bool_iff in Hle. congruence.
Qed.

Lemma before_trans (sortType : SortType) (a b c : RecognitionResult) :
  before sortType a b = true -> before sortType b c = true ->
  before sortType a c = true.
Proof.
  destruct sortType; simpl.
  - rewrite !Z.leb_le. lia.
  - rewrite !Z.leb_le. lia.
  - rewrite !Qle_bool_iff. lra.
Qed.

Lemma insert_sorted_in_order (sortType : SortType) (a : RecognitionResult)
    (l : list RecognitionResult) :
  in_order sortType l -> in_order sortType (insert_sorted (before sortType) a l).
Proof.
  unfold in_order. induction 1 as [|b l Hl IH Hb]; simpl.
  - repeat constructor.
  - destruct (before sortType a b) eqn:Hab.
    + constructor; [constructor; assumption|].
      constructor; [exact Hab|].
      eapply Forall_impl; [exact Hb|]. intros c Hbc.
      exact (before_trans _ _ _ _ Hab Hbc).
    + constructor; [exact IH|].
      rewrite insert_sorted_perm. constructor; [|exact Hb].
      apply before_total. exact Hab.
Qed.

Lemma sort_in_order (sortType : SortType) (l : list RecognitionResult) :
  in_order sortType (sort (before sortType) l).
Proof.
  induction l as [|a l IH]; simpl; [constructor|].
  apply insert_sorted_in_order. exact IH.
Qed.

(** Rows that are in order already are left where they are. *)
Lemma sort_fixed {A} (le : A -> A -> bool) (l : list A) :
  StronglySorted (fun a b => le a b = true) l -> sort le l = l.
Proof.
  induction 1 as [|a l Hl IH Ha]; [reflexivity|].
  simpl. fold (sort le l). rewrite IH.
  destruct Ha as [|b l Hab _]; [reflexivity|].
  simpl. rewrite Hab. reflexivity.
Qed.

Lemma filter_switch {A} (off : bool) (p : A -> bool) (l : list A) :
  (if off then l else filter (fun x => p x = true) l)
  = filter (fun x => off || p x = true) l.
Proof.
  destruct off; simpl; [|reflexivity].
  induction l as [|x l IH]; [reflexivity|].
  rewrite filter_cons_True by reflexivity. rewrite <- IH. reflexivity.
Qed.

Lemma filter_and {A} (p q : A -> bool) (l : list A) :
  filter (fun x => q x = true) (filter (fun x => p x = true) l)
  = filter (fun x => p x && q x = true) l.
Proof.
  induction l as [|x l IH]; [reflexivity|].
  destruct (p x) eqn:Hp.
  - rewrite (filter_cons_True (fun x => p x = true)) by exact Hp.
    destruct (q x) eqn:Hq.
    + rewrite !filter_cons_True by (rewrite ?Hp, ?Hq; reflexivity).
      rewrite IH. reflexivity.
    + rewrite !filter_cons_False by (rewrite ?Hp, ?Hq; discriminate).
      exact IH.
  - rewrite (filter_cons_False (fun x => p x = true)) by (rewrite Hp; discriminate).
    rewrite (filter_cons_False (fun x => p x && q x = true))
      by (rewrite Hp; discriminate).
    exact IH.
Qed.

Lemma filteredResults_sorted_filter toLowerCase trim getTime
    (results : list RecognitionResult) searchQuery filterType sortType dateRange :
  filteredResults toLowerCase trim getTime results searchQuery filterType
    sortType dateRange
  = sort (before sortType)
      (filter (fun r => visible toLowerCase trim getTime searchQuery filterType
                          dateRange r = true) results).
Proof.
  unfold filteredResults. cbv zeta. f_equal.
  rewrite (filter_switch (falsy (trim searchQuery))
             (matches_query toLowerCase (toLowerCase searchQuery))).
  set (l1 := filter _ results).
  assert (Htype :
    match filterType with
    | show_all => l1
    | _ => filter (fun result => has_status filterType result = true) l1
    end = filter (fun result => has_status filterType result = true) l1).
  { destruct filterType; try reflexivity.
    exact (filter_switch true (fun _ => true) l1). }
  rewrite Htype. unfold l1. rewrite filter_and.
  rewrite (filter_switch (falsy (range_start dateRange))
             (from_start getTime (range_start dateRange))).
  rewrite filter_and.
  rewrite (filter_switch (falsy (range_end dateRange))
             (until_end getTime (range_end dateRange))).
  rewrite filter_and. reflexivity.
Qed.

Lemma status_counts (results : list RecognitionResult) :
  (length (filter (fun r => has_status show_success r = true) results)
   + length (filter (fun r => has_status show_failed r = true) results)
   <= length results)%nat.
Proof.
  induction results as [|r results IH]; [reflexivity|].
  unfold has_status in *.
  destruct (status r) eqn:Hst.
  - rewrite filter_cons_True by (rewrite Hst; reflexivity).
    rewrite filter_cons_False by (rewrite Hst; discriminate). simpl. lia.
  - rewrite filter_cons_False by (rewrite Hst; discriminate).
    rewrite filter_cons_True by (rewrite Hst; reflexivity). simpl. lia.
  - rewrite !filter_cons_False by (rewrite Hst; discriminate). simpl. lia.
Qed.

Lemma success_rate_bounds (results : list RecognitionResult) :
  (0 <= successRate (stats results) <= 100)%Q.
Proof.
  unfold stats; simpl.
  destruct (Nat.ltb_spec 0 (length results)) as [Hpos|_]; [|lra].
  pose proof (status_counts results) as Hcount.
  set (s := length (filter _ results)) in *.
  set (t := length results) in *.
  assert (Ht : (0 < inject_Z (Z.of_nat t))%Q)
    by (change 0%Q with (inject_Z 0); rewrite <- Zlt_Qlt; lia).
  assert (Hs0 : (0 <= inject_Z (Z.of_nat s))%Q)
    by (change 0%Q with (inject_Z 0); rewrite <- Zle_Qle; lia).
  assert (Hst : (inject_Z (Z.of_nat s) <= inject_Z (Z.of_nat t))%Q)
    by (rewrite <- Zle_Qle; lia).
  assert (H0 : (0 <= inject_Z (Z.of_nat s) / inject_Z (Z.of_nat t))%Q).
  { apply Qle_shift_div_l; [exact Ht|]. lra. }
  assert (H1 : (inject_Z (Z.of_nat s) / inject_Z (Z.of_nat t) <= 1)%Q).
  { apply Qle_shift_div_r; [exact Ht|]. lra. }
  lra.
Qed.

(** X27. The rows shown by the history page. They are the rows of the
  store that pass every filter that is switched on (the search is
  switched off by a query that trims to nothing, a date by an empty
  text), rearranged: nothing is added, lost or repeated. They are in
  the order asked for: timestamps never increase for newest, never
  decrease for oldest, confidences never increase for confidence.
  Rows that pass the filters and are in this order already, ties
  included, are shown in the order of the store. A start or end date
  that is not a date hides every row. The statistics count the rows
  of the store: successes and failures together are at most the
  total, and the success rate lies between 0 and 100. *)
Theorem history_view_is_filtered_and_sorted
    (toLowerCase trim : jsstring -> jsstring) (getTime : jsstring -> option Z)
    (results : list RecognitionResult) (searchQuery : jsstring)
    (filterType : FilterType) (sortType : SortType) (dateRange : DateRange) :
  let view := filteredResults toLowerCase trim getTime results searchQuery
                filterType sortType dateRange in
  let shown := filter (fun r => visible toLowerCase trim getTime searchQuery
                                  filterType dateRange r = true) results in
  view ≡ₚ shown
  /\ (forall r, r ∈ view
                <-> r ∈ results
                    /\ visible toLowerCase trim getTime searchQuery filterType
                         dateRange r = true)
  /\ in_order sortType view
  /\ (in_order sortType shown -> view = shown)
  /\ ((range_start dateRange <> [] /\ getTime (range_start dateRange) = None)
      \/ (range_end dateRange <> [] /\ getTime (range_end dateRange) = None) ->
      view = [])
  /\ (n_success (stats results) + n_failed (stats results)
      <= total (stats results))%nat
  /\ total (stats results) = length results
  /\ (0 <= successRate (stats results) <= 100)%Q.
Proof.
  intros view shown.
  assert (Hview : view = sort (before sortType) shown)
    by apply filteredResults_sorted_filter.
  split; [rewrite Hview; apply sort_perm|].
  split.
  { intros r. rewrite Hview, sort_perm. unfold shown.
    rewrite list_elem_of_filter. tauto. }
  split; [rewrite Hview; apply sort_in_order|].
  split; [intros Hshown; rewrite Hview; apply sort_fixed; exact Hshown|].
  split.
  { intros Hbad. assert (Hnone : shown = []).
    { unfold shown. apply filter_keeps_none. intros r _.
      unfold visible, from_start, until_end.
      destruct Hbad as [[Hne Hnan] | [Hne Hnan]]; rewrite Hnan;
        [destruct (range_start dateRange) | destruct (range_end dateRange)];
        try contradiction; simpl; rewrite ?andb_false_r; discriminate. }
    rewrite Hview, Hnone. reflexivity. }
  split; [apply status_counts|].
  split; [reflexivity | apply success_rate_bounds].
Qed.

Lemma history_view_is_filtered_and_sorted_witness :
  filteredResults (fun s => s) (fun s => s) (fun _ => Some 0)
    Display.sample_rows [] show_success newest
    {| range_start := []; range_end := [] |}
  = [ Display.row_with success "first" (Some ["A"; ""; "B"]%string);
      Display.row_with success "C" (Some []);
      Display.row_with success "" None ].
Proof.
  destruct (history_view_is_filtered_and_sorted (fun s => s) (fun s => s)
              (fun _ => Some 0) Display.sample_rows [] show_success newest
              {| range_start := []; range_end := [] |})
    as (_ & _ & _ & Hfixed & _).
  rewrite Hfixed; [vm_compute; reflexivity|].
  vm_compute. repeat constructor.
Defined.

End History.

(** ** Selecting rows of the result list *)

Section Selections.
Import Store Selecting.

Lemma has_true (id : jsstring) (sel : Selection) : has id sel = true <-> id ∈ sel.
Proof. unfold has. rewrite bool_decide_eq_true. reflexivity. Qed.

Lemma has_false (id : jsstring) (sel : Selection) : has id sel = false <-> id ∉ sel.
Proof. unfold has. rewrite bool_decide_eq_false. reflexivity. Qed.

Lemma set_add_spec (id : jsstring) (sel : Selection) :
  NoDup sel ->
  NoDup (set_add id sel) /\ forall x, x ∈ set_add id sel <-> x ∈ sel \/ x = id.
Proof.
  intros Hsel. unfold set_add. destruct (has id sel) eqn:Hid.
  - apply has_true in Hid. split; [exact Hsel|].
    intros x. split; [tauto | intros [H | ->]; assumption].
  - apply has_false in Hid. split.
    + apply NoDup_app. split; [exact Hsel|]. split; [|apply NoDup_singleton].
      intros x Hx Hx'. apply list_elem_of_singleton in Hx'. subst. contradiction.
    + intros x. rewrite elem_of_app, list_elem_of_singleton. reflexivity.
Qed.

Lemma new_Set_spec (xs : list jsstring) :
  forall acc, NoDup acc ->
    NoDup (foldl (fun selected x => set_add x selected) acc xs)
    /\ forall x, x ∈ foldl (fun selected x => set_add x selected) acc xs
                 <-> x ∈ acc \/ x ∈ xs.
Proof.
  induction xs as [|y xs IH]; intros acc Hacc; simpl.
  - split; [exact Hacc|]. intros x. rewrite elem_of_nil. tauto.
  - destruct (set_add_spec y acc Hacc) as [Hnd Hin].
    destruct (IH _ Hnd) as [Hnd' Hin']. split; [exact Hnd'|].
    intros x. rewrite Hin', Hin, elem_of_cons. tauto.
Qed.

Lemma remove_selected (sel : Selection) (state : AppState) :
  foldl (fun state id => removeResult id state) state sel
  = {| results := filter (fun r => id r ∉ sel) (results state);
       settings := settings state |}.
Proof.
  revert state. induction sel as [|x sel IH]; intros state; simpl.
  - destruct state as [rs st]; simpl. f_equal.
    symmetry. apply filter_keeps_all. intros r _. apply not_elem_of_nil.
  - rewrite IH. unfold removeResult; simpl. f_equal.
    rewrite list_filter_filter. apply list_filter_iff.
    intros r. rewrite not_elem_of_cons. tauto.
Qed.

Lemma length_filter_ne (x : jsstring) (l : list jsstring) :
  NoDup l -> x ∈ l -> S (length (filter (fun y => y <> x) l)) = length l.
Proof.
  induction 1 as [|y l Hy Hl IH]; intros Hx; [inversion Hx|].
  apply elem_of_cons in Hx as [-> | Hx].
  - rewrite filter_cons_False by (intros H; apply H; reflexivity).
    rewrite filter_keeps_all; [reflexivity|].
    intros z Hz ->. contradiction.
  - rewrite filter_cons_True by (intros ->; contradiction).
    simpl. rewrite IH by exact Hx. reflexivity.
Qed.

Lemma toggle_spec (id0 : jsstring) (sel : Selection) :
  NoDup sel ->
  NoDup (toggleResultSelection id0 sel)
  /\ forall x, x ∈ toggleResultSelection id0 sel
               <-> (x <> id0 /\ x ∈ sel) \/ (x = id0 /\ id0 ∉ sel).
Proof.
  intros Hsel. unfold toggleResultSelection. cbv zeta.
  destruct (has id0 sel) eqn:Hid.
  - apply has_true in Hid. split; [apply NoDup_filter; exact Hsel|].
    intros x. unfold set_delete. rewrite list_elem_of_filter. tauto.
  - pose proof Hid as Hid'. apply has_false in Hid'.
    destruct (set_add_spec id0 sel Hsel) as [Hnd Hin]. split; [exact Hnd|].
    intros x. rewrite Hin. split.
    + intros [Hx | ->]; [left | right; tauto].
      split; [intros ->; contradiction | exact Hx].
    + tauto.
Qed.

Lemma selected_rows_count (sel : Selection) (rows : list RecognitionResult) :
  NoDup sel -> NoDup (id <$> rows) -> (forall x, x ∈ sel -> x ∈ id <$> rows) ->
  (length (filter (fun r => id r ∉ sel) rows) + length sel = length rows)%nat.
Proof.
  intros Hsel Hrows Hsub.
  assert (Hin : filter (fun x => x ∈ sel) (id <$> rows) ≡ₚ sel).
  { apply NoDup_Permutation; [apply NoDup_filter; exact Hrows | exact Hsel|].
    intros x. rewrite list_elem_of_filter. split; [tauto|].
    intros Hx. split; [exact Hx | apply Hsub; exact Hx]. }
  assert (Hout : length (filter (fun r => id r ∉ sel) rows)
                 = length (filter (fun x => x ∉ sel) (id <$> rows))).
  { clear. induction rows as [|r rows IH]; [reflexivity|].
    rewrite fmap_cons. destruct (decide (id r ∈ sel)) as [Hr|Hr].
    - rewrite !filter_cons_False by (intros H; apply H; exact Hr). exact IH.
    - rewrite !filter_cons_True by exact Hr. simpl. rewrite IH. reflexivity. }
  pose proof (filter_app_complement (fun x => x ∈ sel) (id <$> rows)) as Hsplit.
  apply Permutation_length in Hsplit. rewrite length_app in Hsplit.
  rewrite (Permutation_length Hin) in Hsplit.
  rewrite Hout, <- (length_fmap id rows), <- Hsplit. lia.
Qed.

Ltac distinct_strings :=
  vm_compute;
  repeat (apply NoDup_cons_2;
          [let H := fresh in
           intros H; apply list_elem_of_In in H; vm_compute in H;
           intuition discriminate|]);
  apply NoDup_nil_2.

(** X28. The selection of the result list, a set of ids. Toggling an
  id flips the membership of that id and of no other, and toggling
  twice gives the same set back; selecting all gives the set of the
  ids of the rows. Deleting the selected rows through the store
  removes exactly the rows whose id is selected, whatever the order
  of the set, and empties the selection. When the rows have distinct
  ids and every selected id is the id of a row, the number of rows
  removed is the size of the selection, and the button reads
  "deselect all" exactly when every row is selected; with a selected
  id that is no longer the id of a row, the button can read "deselect
  all" while a row is not selected. *)
Theorem selection_laws (rows : list RecognitionResult) (sel : Selection)
    (state : AppState) (id0 : jsstring) :
  NoDup sel ->
  (NoDup (toggleResultSelection id0 sel)
   /\ (forall x, x ∈ toggleResultSelection id0 sel
                 <-> (x <> id0 /\ x ∈ sel) \/ (x = id0 /\ id0 ∉ sel))
   /\ toggleResultSelection id0 (toggleResultSelection id0 sel) ≡ₚ sel)
  /\ (NoDup (selectAll rows)
      /\ forall x, x ∈ selectAll rows <-> x ∈ id <$> rows)
  /\ delete_selected removeResult sel state
     = ({| results := filter (fun r => id r ∉ sel) (results state);
           settings := settings state |}, [])
  /\ (NoDup (ids state) -> (forall x, x ∈ sel -> x ∈ ids state) ->
      (length (results (delete_selected removeResult sel state).1) + length sel
       = length (results state))%nat
      /\ (shows_deselect sel (results state) = true
          <-> forall r, r ∈ results state -> has (id r) sel = true))
  /\ (exists stale others,
        NoDup stale /\ NoDup (id <$> others)
        /\ shows_deselect stale others = true
        /\ exists r, r ∈ others /\ has (id r) stale = false).
Proof.
  intros Hsel.
  destruct (toggle_spec id0 sel Hsel) as [Hnd Hin].
  destruct (toggle_spec id0 _ Hnd) as [Hnd2 Hin2].
  split; [|split; [|split; [|split]]].
  - split; [exact Hnd|]. split; [exact Hin|].
    apply NoDup_Permutation; [exact Hnd2 | exact Hsel|].
    intros x. rewrite Hin2, !Hin.
    destruct (decide (x = id0)) as [->|Hx];
      destruct (decide (id0 ∈ sel)); intuition congruence.
  - unfold selectAll, new_Set.
    destruct (new_Set_spec (id <$> rows) [] (NoDup_nil_2)) as [Hnew Hall].
    split; [exact Hnew|]. intros x. rewrite Hall, elem_of_nil. tauto.
  - unfold delete_selected. rewrite remove_selected. reflexivity.
  - intros Hids Hsub. unfold delete_selected. rewrite remove_selected. simpl.
    split; [apply selected_rows_count; assumption|].
    unfold shows_deselect. rewrite Nat.eqb_eq. split.
    + intros Hlen r Hr. apply has_true.
      assert (Hperm : sel ≡ₚ ids state).
      { apply submseteq_length_Permutation.
        - apply NoDup_submseteq; assumption.
        - unfold ids. rewrite length_fmap, Hlen. reflexivity. }
      rewrite Hperm. unfold ids. apply list_elem_of_fmap. exists r. tauto.
    + intros Hall.
      assert (Hperm : sel ≡ₚ ids state).
      { apply NoDup_Permutation; [exact Hsel | exact Hids|].
        intros x. split; [apply Hsub|]. unfold ids.
        intros Hx. apply list_elem_of_fmap in Hx as (r & -> & Hr).
        apply has_true. apply Hall. exact Hr. }
      rewrite (Permutation_length Hperm). unfold ids. apply length_fmap.
  - exists [js "1"; js "gone"],
      [Display.row_with success "A" None;
       {| id := js "2"; image := []; serialNumber := js "B"; confidence := 1;
          status := success; timestamp := 0; processingTime := None;
          originalFileName := None; qrType := None; qrDescription := None;
          qrResults := None; totalFound := None |}].
    split; [distinct_strings|]. split; [distinct_strings|].
    split; [reflexivity|].
    eexists. split; [right; left|]. vm_compute. reflexivity.
Qed.

Lemma selection_laws_witness :
  toggleResultSelection (js "b") (toggleResultSelection (js "b") [js "a"; js "b"])
  ≡ₚ [js "a"; js "b"]
  /\ delete_selected removeResult [js "1"]
       {| results := Display.sample_rows; settings := defaultSettings |}
     = ({| results := []; settings := defaultSettings |}, []).
Proof.
  assert (Hsel : NoDup [js "a"; js "b"]).
  { distinct_strings. }
  destruct (selection_laws [] [js "a"; js "b"] initial (js "b") Hsel)
    as ((_ & _ & Htwice) & _).
  split; [exact Htwice|].
  assert (Hone : NoDup [js "1"]) by distinct_strings.
  destruct (selection_laws [] [js "1"]
              {| results := Display.sample_rows; settings := defaultSettings |}
              [] Hone) as (_ & _ & Hdelete & _).
  rewrite Hdelete. vm_compute. reflexivity.
Defined.

End Selections.

(** ** Pausing and resuming a batch *)

Section Resume.
Import Store Page Resuming.

Lemma process_from_paused env readAsDataURL clock i files page w :
  process_from env readAsDataURL clock true i files page w = (Ok page, w).
Proof. destruct files; reflexivity. Qed.

(** X29. The "resume" button of the batch page. Whenever the button is
  offered (the page is paused and files are left), its handler ends
  at once and processes no file: the rows, pending ones included, the
  statistics and the store are as before, nothing is read or decoded,
  the position is moved behind the last file and the processing flag
  is cleared, so that the button is not offered again and a further
  call changes nothing. The handler sees the paused flag of the
  render that created it; had it seen the flag cleared, it would have
  left the rows before the position alone, settled every row from the
  position on and counted each of them once. *)
Theorem resume_processes_no_file (env : Env)
    (readAsDataURL : Upload.File -> option jsstring)
    (clock : nat -> PageClock) (isPaused : bool)
    (selectedFiles : list Upload.File) (page : PageState) :
  resume_offered isPaused selectedFiles page = true ->
  let page' := {| page_results := page_results page;
                  processingStats := processingStats page;
                  currentIndex := length selectedFiles;
                  isProcessing := false; store := store page |} in
  (forall w,
     resumeProcessing env readAsDataURL clock isPaused selectedFiles page w
     = (Ok page', w))
  /\ (forall r, r ∈ page_results page -> status r = pending ->
        r ∈ page_results page')
  /\ (forall seen, resume_offered seen selectedFiles page' = false)
  /\ (forall seen w,
        resumeProcessing env readAsDataURL clock seen selectedFiles page' w
        = (Ok page', w))
  /\ (length (page_results page) = length selectedFiles ->
      ensures
        (resumeProcessing env readAsDataURL clock false selectedFiles page)
        (fun done =>
           take (currentIndex page) (page_results done)
           = take (currentIndex page) (page_results page)
           /\ Forall settled (drop (currentIndex page) (page_results done))
           /\ length (page_results done) = length selectedFiles
           /\ completed (processingStats done)
              = (completed (processingStats page)
                 + (length selectedFiles - currentIndex page))%nat
           /\ currentIndex done = length selectedFiles
           /\ isProcessing done = false)
        False True).
Proof.
  intros Hoffered page'. unfold resume_offered in Hoffered.
  apply andb_true_iff in Hoffered as [-> Hleft].
  apply Nat.ltb_lt in Hleft.
  split; [|split; [|split; [|split]]].
  - intros w. unfold resumeProcessing.
    destruct (Nat.leb_spec (length selectedFiles) (currentIndex page)) as [Hle|_];
      [lia|].
    cbv zeta. unfold bind. rewrite process_from_paused. reflexivity.
  - intros r Hr _. exact Hr.
  - intros seen. unfold resume_offered. simpl.
    rewrite Nat.ltb_irrefl. apply andb_false_r.
  - intros seen w. unfold resumeProcessing. simpl.
    rewrite Nat.leb_refl. reflexivity.
  - intros Hlen. unfold resumeProcessing.
    destruct (Nat.leb_spec (length selectedFiles) (currentIndex page)) as [Hle|_];
      [lia|].
    cbv zeta.
    set (ci := currentIndex page) in *.
    assert (Hci : length (take ci (page_results page)) = ci)
      by (rewrite length_take; lia).
    eapply ensures_bind.
    { rewrite <- Hci at 1.
      apply (process_from_settles env readAsDataURL clock (drop ci selectedFiles)
               (take ci (page_results page)) (drop ci (page_results page))).
      - rewrite !length_drop. lia.
      - simpl. rewrite take_drop. reflexivity. }
    intros page1 (new & Hnew & Hres & Hc & _).
    apply ensures_ret. simpl in *.
    apply Forall2_length in Hnew as Hnewlen. rewrite length_drop in Hnewlen.
    rewrite Hres.
    split; [rewrite take_app_length'; [reflexivity | symmetry; exact Hci]|].
    split.
    { rewrite drop_app_length'; [|symmetry; exact Hci].
      clear -Hnew.
      induction Hnew as [|f r fs rs Hfr Hrest IH]; constructor;
        [exact (proj1 Hfr) | exact IH]. }
    split; [rewrite length_app, Hci; lia|].
    split; [rewrite Hc, length_drop; reflexivity|].
    split; reflexivity.
Qed.

Lemma resume_processes_no_file_witness :
  resumeProcessing scanner_env read_name even_clock true
    [a_file "a.png"; a_file "b.png"] paused_page fresh_world
  = (Ok {| page_results := page_results paused_page;
           processingStats := processingStats paused_page;
           currentIndex := 2; isProcessing := false;
           store := store paused_page |}, fresh_world).
Proof.
  apply (resume_processes_no_file scanner_env read_name even_clock true
           [a_file "a.png"; a_file "b.png"] paused_page).
  reflexivity.
Defined.

End Resume.

(** ** The shutter of the camera view *)

Section ShutterPress.
Import Store HomePage Shutter.

Lemma capturePhoto_captures env clk shot :
  ensures (capturePhoto env clk shot)
    (fun c =>
       if has_video shot && has_canvas shot && has_context shot then
         exists capture,
           c = Some capture
           /\ ((exists message,
                  camera_toast capture = camera_success message
                  /\ captured capture = toDataURL shot (95 # 100))
               \/ (camera_toast capture = camera_warning
                   /\ captured capture = toDataURL shot (9 # 10)))
       else c = None)
    False False.
Proof.
  unfold capturePhoto.
  destruct (has_video shot), (has_canvas shot), (has_context shot); simpl;
    try (apply ensures_ret; reflexivity).
  apply ensures_try_catch with (T' := False); [|intros e []].
  eapply ensures_bind; [apply ensures_recognizeImage|].
  intros result _.
  destruct (falsy (Recognizer.serialNumber result)); simpl; apply ensures_ret;
    eexists; (split; [reflexivity|]); simpl.
  - right. split; reflexivity.
  - left. eexists. split; reflexivity.
Qed.

Lemma handleCameraCapture_recorded env clk home imageData :
  ensures (handleCameraCapture env clk imageData home)
    (fun home' =>
       showCamera home' = false /\ recorded env clk imageData None home home')
    False (~ sized env imageData).
Proof.
  unfold handleCameraCapture. cbv zeta.
  eapply ensures_weaken; [apply guarded_recorded | | auto | auto].
  intros home' [Hcam Hrec]. split; [exact Hcam | exact Hrec].
Qed.

(** X30. Pressing the shutter of the camera view mounted by the home
  page. Taking the photo never throws and always ends: without the
  video, the canvas or its context nothing is captured; otherwise the
  capture handler is called exactly once, with the data URL of
  quality 0.95 and a success toast when the frame was recognized,
  and with the data URL of quality 0.9 and a warning otherwise; the
  error toast of the [catch] block is never shown. The home page then
  recognizes the data URL again and records exactly one row for the
  press, closing the camera; this ends when the image of the data
  URL, if it loads, has a width and a height. The two recognitions
  are independent: the camera view can report a success for a press
  whose row is recorded as failed. *)
Theorem shutter_records_one_row (env : Env) (clk : SingleClock)
    (home_clk : HomeClock) (shot : Shot) (home : HomeState) :
  ensures (capturePhoto env clk shot)
    (fun c =>
       if has_video shot && has_canvas shot && has_context shot then
         exists capture,
           c = Some capture
           /\ ((exists message,
                  camera_toast capture = camera_success message
                  /\ captured capture = toDataURL shot (95 # 100))
               \/ (camera_toast capture = camera_warning
                   /\ captured capture = toDataURL shot (9 # 10)))
       else c = None)
    False False
  /\ ensures (press env clk home_clk shot home)
       (fun '(home', shown) =>
          if has_video shot && has_canvas shot && has_context shot then
            shown <> None /\ shown <> Some camera_error
            /\ showCamera home' = false
            /\ exists q,
                 recorded env home_clk (toDataURL shot q) None home home'
                 /\ (shown = Some camera_warning -> q = 9 # 10)
                 /\ (shown <> Some camera_warning -> q = 95 # 100)
          else home' = home /\ shown = None)
       False
       (~ (sized env (toDataURL shot (95 # 100))
           /\ sized env (toDataURL shot (9 # 10)))).
Proof.
  split; [apply capturePhoto_captures|].
  unfold press.
  eapply ensures_bind.
  { eapply ensures_weaken; [apply capturePhoto_captures | | auto | intros []].
    intros c Hc. exact Hc. }
  intros c Hc.
  destruct (has_video shot && has_canvas shot && has_context shot);
    [|subst c; apply ensures_ret; split; reflexivity].
  destruct Hc as (capture & -> & Hcases).
  pose proof (handleCameraCapture_recorded env home_clk home (captured capture))
    as Hhome.
  eapply ensures_bind.
  { eapply ensures_weaken; [exact Hhome | intros a Ha; exact Ha | auto|].
    intros Hnot [H95 H90]. apply Hnot.
    destruct Hcases as [(m & _ & ->) | (_ & ->)]; assumption. }
  intros home' [Hcam Hrec]. apply ensures_ret.
  split; [discriminate|].
  destruct Hcases as [(m & Htoast & Hurl) | (Htoast & Hurl)];
    rewrite Htoast; (split; [discriminate|]); (split; [exact Hcam|]).
  - exists (95 # 100). rewrite <- Hurl. split; [exact Hrec|].
    split; [discriminate | reflexivity].
  - exists (9 # 10). rewrite <- Hurl. split; [exact Hrec|].
    split; [reflexivity | intros H; contradiction].
Qed.

Lemma shutter_records_one_row_witness :
  exists home' message w',
    press canvas_only_env timely_clock steady_clock a_shot camera_open
      fresh_world = (Ok (home', Some (camera_success message)), w')
    /\ showCamera home' = false
    /\ (status <$> results (store home')) = [failed]
    /\ toasts home' = [toast_error (js "未能识别出二维码")].
Proof.
  destruct (shutter_records_one_row canvas_only_env timely_clock steady_clock
              a_shot camera_open) as [_ Hpress].
  specialize (Hpress fresh_world).
  destruct (press canvas_only_env timely_clock steady_clock a_shot camera_open
              fresh_world) as [o w'] eqn:Hrun.
  vm_compute in Hrun. injection Hrun as <- <-. simpl in Hpress.
  destruct Hpress as (_ & _ & Hcam & _).
  eexists _, _, _. split; [reflexivity|].
  split; [exact Hcam|]. split; reflexivity.
Defined.

End ShutterPress.
